(** * ZZ: arbitrary-precision integers over GMP's mpn kernel

    A shallow embedding of [zz.c] and of the part of GMP's [mpn] layer it
    calls, with the properties of the library stated over it.

    Conventions of the embedding.
    - A [zz_t] object lives in a store of objects and is named by its
      address; two arguments of a call alias exactly when their addresses
      are equal, as in the C code.
    - The digit buffer of an object is a list of 64-bit words (values in
      [Z]); words beyond what an operation wrote hold whatever the allocator
      left there, taken from the [junk] sequence of the store.
    - Sizes and capacities count words held in memory and are kept in [nat];
      bit counts and exponents are [uint64_t] values kept in [Z].
    - [malloc] and [realloc] succeed: the branches marked LCOV_EXCL in the
      source, taken only when an allocation fails, are kept in the control
      flow but never fire.  TMP_OVERFLOW ([setjmp] returning 1) is such a
      branch.  The exception is [zz_pow]: its two buffers of [v * size]
      words, up to [2^58 - 1] words each, are requests that do fail, so
      there they are answered by an [allocator] given to the function, and
      the failure branches are live.
    - A run that would be undefined in C (a failed [assert], a read or
      write outside a buffer, a call of a kernel routine outside its
      documented domain) has no result: the computation is [None]. *)

From Stdlib Require Import ZArith Zcong List Bool Arith Lia.
Import ListNotations.

Local Open Scope Z_scope.

(** ** Constants of zz-impl.h *)

Definition ZZ_DIGIT_T_BITS : Z := 64.
Definition ZZ_DIGIT_T_MAX : Z := 2 ^ 64 - 1.
Definition ZZ_BITS_MAX : Z := 2 ^ 64 - 1.
Definition ZZ_DIGITS_MAX : Z := ZZ_BITS_MAX / ZZ_DIGIT_T_BITS.

(** The radix of the digit representation, [ZZ_DIGIT_T_MAX + 1]. *)
Definition BASE : Z := 2 ^ 64.

(** [BASE ^ n], the weight of the word of index [n]. *)
Definition Bpow (n : nat) : Z := BASE ^ Z.of_nat n.

(** ** Types of zz.h *)

Inductive zz_err : Type := ZZ_OK | ZZ_MEM | ZZ_VAL | ZZ_BUF.

Inductive zz_ord : Type := ZZ_GT | ZZ_EQ | ZZ_LT.

Record zz_t : Type := mk_zz {
  negative : bool;
  alloc : nat;
  size : nat;
  digits : list Z
}.

Definition is_err (e : zz_err) : bool :=
  match e with ZZ_OK => false | _ => true end.

Definition zz_ord_neg (o : zz_ord) : zz_ord :=
  match o with ZZ_GT => ZZ_LT | ZZ_EQ => ZZ_EQ | ZZ_LT => ZZ_GT end.

Definition zz_ord_eqb (a b : zz_ord) : bool :=
  match a, b with
  | ZZ_GT, ZZ_GT | ZZ_EQ, ZZ_EQ | ZZ_LT, ZZ_LT => true
  | _, _ => false
  end.

(** ** The store *)

Definition ptr : Type := nat.
Bind Scope nat_scope with ptr.

Record mem : Type := mk_mem {
  objs : list zz_t;     (* the live [zz_t] objects, by address *)
  junk : list Z         (* what the next uninitialised words happen to hold *)
}.

Definition M (A : Type) : Type := mem -> option (A * mem).

Definition ret {A : Type} (a : A) : M A := fun m => Some (a, m).

Definition bind {A B : Type} (c : M A) (k : A -> M B) : M B :=
  fun m => match c m with
           | Some (a, m') => k a m'
           | None => None
           end.

Definition undefined {A : Type} : M A := fun _ => None.

Notation "x <- c ;; k" := (bind c (fun x => k))
  (at level 61, c at next level, right associativity).
Notation "c ;;; k" := (bind c (fun _ => k))
  (at level 61, right associativity).

(** [guard c e k]: the C idiom [if (c) { e } k], for a call [c] returning a
    [zz_err] where any non-zero code is a failure. *)
Definition guard (c : M zz_err) (e k : M zz_err) : M zz_err :=
  r <- c ;; if is_err r then e else k.

Fixpoint list_set {A : Type} (l : list A) (i : nat) (x : A) : list A :=
  match l, i with
  | [], _ => []
  | _ :: t, O => x :: t
  | h :: t, S j => h :: list_set t j x
  end.

Definition load (p : ptr) : M zz_t :=
  fun m => match nth_error (objs m) p with
           | Some z => Some (z, m)
           | None => None
           end.

Definition store (p : ptr) (z : zz_t) : M unit :=
  fun m => if (p <? length (objs m))%nat
           then Some (tt, mk_mem (list_set (objs m) p z) (junk m))
           else None.

(** A [zz_t] declared on the stack (or obtained from [malloc]) for the
    duration of [k]; it is a new object, distinct from every live one. *)
Definition with_local {A : Type} (k : ptr -> M A) : M A :=
  fun m =>
    let p := length (objs m) in
    match k p (mk_mem (objs m ++ [mk_zz false 0 0 []]) (junk m)) with
    | Some (a, m') => Some (a, mk_mem (firstn p (objs m')) (junk m'))
    | None => None
    end.

(** [n] words of uninitialised memory: the next [n] words of [junk], and
    zeros once it is used up. *)
Definition fresh_words (n : nat) : M (list Z) :=
  fun m => Some (firstn n (junk m ++ repeat 0 n),
                 mk_mem (objs m) (skipn n (junk m))).

(** ** Field access *)

Definition set_negative (b : bool) (z : zz_t) : zz_t :=
  mk_zz b (alloc z) (size z) (digits z).
Definition set_alloc (n : nat) (z : zz_t) : zz_t :=
  mk_zz (negative z) n (size z) (digits z).
Definition set_size (n : nat) (z : zz_t) : zz_t :=
  mk_zz (negative z) (alloc z) n (digits z).
Definition set_digits (l : list Z) (z : zz_t) : zz_t :=
  mk_zz (negative z) (alloc z) (size z) l.

(** The accessor macros of the source; [ISNEG] is in zz-impl.h. *)
Definition ISNEG (u : ptr) : M bool := z <- load u ;; ret (negative z).

(** Modelled from the spec: the macro [SETNEG(n, u)], whose definition is not
    in the sources at hand; it assigns the sign field. *)
Definition SETNEG (n : bool) (u : ptr) : M unit :=
  z <- load u ;; store u (set_negative n z).

(** Modelled from the spec: the macro [GETALLOC(u)], the capacity field. *)
Definition GETALLOC (u : ptr) : M nat := z <- load u ;; ret (alloc z).

(** Modelled from the spec: the macro [SETALLOC(n, u)]. *)
Definition SETALLOC (n : nat) (u : ptr) : M unit :=
  z <- load u ;; store u (set_alloc n z).

(** Modelled from the spec: the macro [ABS_CAST(T, v)], the magnitude of a
    signed value taken in the unsigned type ("unsigned-cast-before-negate"),
    so that the minimum signed value is handled. *)
Definition ABS_CAST (v : Z) : Z := Z.abs v mod BASE.

Definition get_size (u : ptr) : M nat := z <- load u ;; ret (size z).
Definition put_size (n : nat) (u : ptr) : M unit :=
  z <- load u ;; store u (set_size n z).

(** [u->digits[i]] *)
Definition get_digit (u : ptr) (i : nat) : M Z :=
  z <- load u ;;
  match nth_error (digits z) i with
  | Some d => ret d
  | None => undefined
  end.

(** [u->digits[i] = d] *)
Definition put_digit (u : ptr) (i : nat) (d : Z) : M unit :=
  z <- load u ;;
  if (i <? length (digits z))%nat
  then store u (set_digits (list_set (digits z) i d) z)
  else undefined.

(** The [n] words at [u->digits + off]. *)
Definition mpn_load (u : ptr) (off n : nat) : M (list Z) :=
  z <- load u ;;
  if (off + n <=? length (digits z))%nat
  then ret (firstn n (skipn off (digits z)))
  else undefined.

(** Writing the words [l] at [w->digits + off]. *)
Definition mpn_store (w : ptr) (off : nat) (l : list Z) : M unit :=
  z <- load w ;;
  if (off + length l <=? length (digits z))%nat
  then store w (set_digits (firstn off (digits z) ++ l
                            ++ skipn (off + length l) (digits z)) z)
  else undefined.

(** ** The mpn kernel (GMP), by its documented contract

    Natural numbers are words least significant first. *)

Module GMP.

Fixpoint mpn_val (l : list Z) : Z :=
  match l with
  | [] => 0
  | d :: r => d + BASE * mpn_val r
  end.

(** The [n] low words of [x]. *)
Fixpoint limbs (n : nat) (x : Z) : list Z :=
  match n with
  | O => []
  | S k => x mod BASE :: limbs k (x / BASE)
  end.

(** How many words the natural number [x] needs: no leading zero word. *)
Definition nlimbs (x : Z) : nat :=
  if x <=? 0 then O else S (Z.to_nat (Z.log2 x / 64)).


(** [mpn_copyi (rp, sp, n)]: copy, increasingly. *)
Definition mpn_copyi (s : list Z) : list Z := s.

(** [mpn_rshift (rp, sp, n, count)]: shift right by [count] bits,
    [1 <= count < 64], [n >= 1]; the bits shifted out are returned in the
    most significant bits of the return value. *)
Definition mpn_rshift (s : list Z) (count : Z) : option (Z * list Z) :=
  if (1 <=? count) && (count <? 64) && negb (length s =? 0)%nat
  then Some ((mpn_val s mod 2 ^ count) * 2 ^ (64 - count),
             limbs (length s) (mpn_val s / 2 ^ count))
  else None.

(** [mpn_add_1 (rp, s1p, n, s2limb)]: the sum, and the carry out. *)
Definition mpn_add_1 (s : list Z) (x : Z) : Z * list Z :=
  ((mpn_val s + x) / Bpow (length s),
   limbs (length s) (mpn_val s + x)).

(** [mpn_sub_1 (rp, s1p, n, s2limb)]: the difference, and the borrow. *)
Definition mpn_sub_1 (s : list Z) (x : Z) : Z * list Z :=
  ((if mpn_val s <? x then 1 else 0),
   limbs (length s) (mpn_val s - x)).

(** The most significant word of a number. *)
Definition top (s : list Z) : Z := last s 0.

(** [mpn_sqrtrem (r1p, r2p, sp, n)]: the square root, on [ceil (n/2)] words,
    and the remainder, whose word count is the return value; the most
    significant word of the operand must be non-zero. *)
Definition mpn_sqrtrem (s : list Z) : option (list Z * list Z) :=
  if top s =? 0 then None
  else
    let (r, k) := Z.sqrtrem (mpn_val s) in
    Some (limbs ((length s + 1) / 2) r, limbs (nlimbs k) k).

(** [mpn_pow_1 (rp, bp, bn, exp, tp)]: the power, and its word count; the
    most significant word of the base must be non-zero. *)
Definition mpn_pow_1 (b : list Z) (exp : Z) : option (list Z) :=
  if top b =? 0 then None
  else
    let p := mpn_val b ^ exp in
    Some (limbs (nlimbs p) p).


(** [mpn_sizeinbase (xp, n, 2)]: the number of bits of a number whose most
    significant word is not zero. *)
Definition mpn_sizeinbase_2 (s : list Z) : Z := Z.log2 (mpn_val s) + 1.


(** [mpn_cmp (s1p, s2p, n)]: positive, zero or negative. *)
Definition mpn_cmp (a b : list Z) : Z :=
  match mpn_val a ?= mpn_val b with
  | Lt => -1
  | Eq => 0
  | Gt => 1
  end.

(** [mpn_add (rp, s1p, s1n, s2p, s2n)], [s1n >= s2n]: the [s1n] low words of
    the sum, and the carry out. *)
Definition mpn_add (a b : list Z) : Z * list Z :=
  ((mpn_val a + mpn_val b) / Bpow (length a),
   limbs (length a) (mpn_val a + mpn_val b)).

(** [mpn_sub (rp, s1p, s1n, s2p, s2n)], [s1n >= s2n]: the difference modulo
    [BASE ^ s1n], and the borrow. *)
Definition mpn_sub (a b : list Z) : Z * list Z :=
  ((if mpn_val a <? mpn_val b then 1 else 0),
   limbs (length a) (mpn_val a - mpn_val b)).

(** [mpn_sub_n (rp, s1p, s2p, n)]. *)
Definition mpn_sub_n (a b : list Z) : Z * list Z := mpn_sub a b.

(** [mpn_mul_1 (rp, s1p, n, s2limb)]: the [n] low words and the high word. *)
Definition mpn_mul_1 (a : list Z) (x : Z) : Z * list Z :=
  ((mpn_val a * x) / Bpow (length a), limbs (length a) (mpn_val a * x)).

(** [mpn_mul (rp, s1p, s1n, s2p, s2n)], [s1n >= s2n >= 1]: the product on
    [s1n + s2n] words.  [mpn_mul_n] and [mpn_sqr] are the cases of equal
    sizes and of equal operands. *)
Definition mpn_mul (a b : list Z) : option (list Z) :=
  if (length b <=? length a)%nat && (1 <=? length b)%nat
  then Some (limbs (length a + length b) (mpn_val a * mpn_val b))
  else None.

Definition mpn_mul_n (a b : list Z) : option (list Z) :=
  if (length a =? length b)%nat then mpn_mul a b else None.

Definition mpn_sqr (a : list Z) : option (list Z) := mpn_mul a a.

(** [mpn_tdiv_qr (qp, rp, 0, np, nn, dp, dn)]: the quotient, rounded towards
    zero, on [nn - dn + 1] words and the remainder on [dn] words; [nn >= dn]
    and the most significant word of the divisor is not zero. *)
Definition mpn_tdiv_qr (n d : list Z) : option (list Z * list Z) :=
  if (top d =? 0) || (length n <? length d)%nat then None
  else Some (limbs (length n - length d + 1) (mpn_val n / mpn_val d),
             limbs (length d) (mpn_val n mod mpn_val d)).

(** [mpn_divrem_1] and [mpn_mod_1]: division by one word. *)
Definition mpn_divrem_1 (a : list Z) (d : Z) : option (Z * list Z) :=
  if d =? 0 then None
  else Some (mpn_val a mod d, limbs (length a) (mpn_val a / d)).

(** The cofactor [S] of [mpn_gcdext] for [U] and [V] with [G = gcd (U, V)]:
    [G = U S + V T] for some [T], with [S = 1] or [|S| < V / (2 G)], and
    [S = 0] exactly when [V] divides [U].  These conditions fix [S]. *)
Definition gcdext_cofactor (U V : Z) : Z :=
  let G := Z.gcd U V in
  let V' := V / G in
  let U' := U / G in
  if V' =? 1 then 0
  else if V' =? 2 then 1
  else
    let i := Z.invmod U' V' in
    if 2 * i <? V' then i else i - V'.

(** [mpn_gcdext (gp, sp, sn, up, un, vp, vn)], [un >= vn > 0], the most
    significant word of [V] not zero: the words of the gcd, the words of
    [|S|] and the signed word count of [S]. *)
Definition mpn_gcdext (u v : list Z) : option (list Z * list Z * Z) :=
  if (top v =? 0) || (length u <? length v)%nat then None
  else
    let G := Z.gcd (mpn_val u) (mpn_val v) in
    let S := gcdext_cofactor (mpn_val u) (mpn_val v) in
    Some (limbs (nlimbs G) G, limbs (nlimbs (Z.abs S)) (Z.abs S),
          Z.sgn S * Z.of_nat (nlimbs (Z.abs S))).

(** [mpn_gcd (rp, xp, xn, yp, yn)], [yn > 0], the most significant word of
    [Y] not zero and one operand odd; [mpn_gcd_1 (xp, xn, ylimb)], both
    operands not zero.  The manual also asks for [xn >= yn].  [zz_gcd] does
    not keep to that: the common shift can leave its first operand with
    fewer words than the second.  The [yn - xn] words that follow in the
    buffer of the first operand are then zero (they are the top words
    written by the shift), the routine reads its two operands as numbers of
    [yn] words and returns their gcd; so no condition on [xn] is made
    here. *)
Definition mpn_gcd (x y : list Z) : option (list Z) :=
  if (top y =? 0) || (Z.even (mpn_val x) && Z.even (mpn_val y))
  then None
  else let G := Z.gcd (mpn_val x) (mpn_val y) in Some (limbs (nlimbs G) G).

Definition mpn_gcd_1 (x : list Z) (y : Z) : option Z :=
  if (mpn_val x =? 0) || (y =? 0) then None
  else Some (Z.gcd (mpn_val x) y).

(** [mpn_scan1 (s1p, 0)]: the index of the least significant 1 bit. *)
Fixpoint mpn_scan1 (s : list Z) : Z :=
  match s with
  | [] => 0
  | d :: r =>
      if d =? 0 then 64 + mpn_scan1 r
      else Z.log2 (Z.land d (- d))
  end.

(** [mpn_lshift (rp, sp, n, count)], [1 <= count < 64]: the words of the
    shifted number and the bits shifted out at the left. *)
Definition mpn_lshift (s : list Z) (count : Z) : option (Z * list Z) :=
  if (1 <=? count) && (count <? 64) && negb (length s =? 0)%nat
  then Some ((mpn_val s * 2 ^ count) / Bpow (length s),
             limbs (length s) (mpn_val s * 2 ^ count))
  else None.

(** [mpn_copyd (rp, sp, n)]: copy, decreasingly; [mpn_zero (rp, n)]. *)
Definition mpn_copyd (s : list Z) : list Z := s.
Definition mpn_zero (n : nat) : list Z := repeat 0 n.

(** [mpn_mod_1 (s1p, s1n, s2limb)]: the remainder of the division by a word
    that is not zero. *)
Definition mpn_mod_1 (a : list Z) (d : Z) : option Z :=
  if d =? 0 then None else Some (mpn_val a mod d).

(** [mpn_popcount (s1p, n)]: the number of bits set. *)
Fixpoint popcount_pos (p : positive) : Z :=
  match p with
  | xH => 1
  | xO q => popcount_pos q
  | xI q => 1 + popcount_pos q
  end.

Definition popcount (d : Z) : Z :=
  match d with Zpos p => popcount_pos p | _ => 0 end.

Definition mpn_popcount (s : list Z) : Z :=
  fold_right (fun d acc => popcount d + acc) 0 s.


End GMP.

(** ** Digit store *)

Definition zz_init (u : ptr) : M zz_err :=
  SETNEG false u ;;;
  SETALLOC 0 u ;;;
  put_size 0 u ;;;
  z <- load u ;; store u (set_digits [] z) ;;;
  ret ZZ_OK.

(** [realloc] of a digit buffer to [n] words: the old words that fit are
    kept, the new ones are uninitialised. *)
Definition realloc (l : list Z) (n : nat) : M (list Z) :=
  w <- fresh_words (n - length l) ;; ret (firstn n l ++ w).

Definition zz_resize (sz : nat) (u : ptr) : M zz_err :=
  a <- GETALLOC u ;;
  if (sz <=? a)%nat then
    put_size sz u ;;;
    n <- get_size u ;;
    (if (n =? 0)%nat then SETNEG false u else ret tt) ;;;
    ret ZZ_OK
  else
    let alloc := sz in
    z <- load u ;;
    d <- realloc (digits z) alloc ;;
    store u (set_digits d z) ;;;
    SETALLOC alloc u ;;;
    put_size alloc u ;;;
    ret ZZ_OK.

Definition zz_clear (u : ptr) : M unit :=
  z <- load u ;; store u (set_digits [] z) ;;;
  SETNEG false u ;;;
  SETALLOC 0 u ;;;
  put_size 0 u.

(** The [while] of [zz_normalize]: one iteration per stored word at most. *)
Fixpoint zz_normalize_loop (fuel : nat) (u : ptr) : M unit :=
  match fuel with
  | O => ret tt
  | S k =>
      n <- get_size u ;;
      if (n =? 0)%nat then ret tt
      else
        d <- get_digit u (n - 1) ;;
        if d =? 0 then put_size (n - 1) u ;;; zz_normalize_loop k u
        else ret tt
  end.

Definition zz_normalize (u : ptr) : M unit :=
  n <- get_size u ;;
  zz_normalize_loop n u ;;;
  n <- get_size u ;;
  if (n =? 0)%nat then SETNEG false u else ret tt.

(** ** Comparison with a machine integer *)

Definition zz_cmp_i64 (u : ptr) (v : Z) : M zz_ord :=
  u_negative <- ISNEG u ;;
  let sign := if u_negative then ZZ_LT else ZZ_GT in
  let v_negative := v <? 0 in
  n <- get_size u ;;
  if negb (Bool.eqb u_negative v_negative) then ret sign
  else if negb (n =? 1)%nat then
    ret (if negb (n =? 0)%nat then sign
         else if negb (v =? 0) then zz_ord_neg sign else ZZ_EQ)
  else
    let digit := ABS_CAST v in
    d0 <- get_digit u 0 ;;
    let r := if d0 <? digit then ZZ_LT
             else if digit <? d0 then ZZ_GT
             else ZZ_EQ in
    ret (if u_negative then zz_ord_neg r else r).

(** ** Construction from machine integers *)

Definition INT32_MIN : Z := - 2 ^ 31.

Definition zz_set_i32 (u : Z) (v : ptr) : M zz_err :=
  if u =? 0 then
    put_size 0 v ;;;
    SETNEG false v ;;;
    ret ZZ_OK
  else
    guard (zz_resize 1 v) (ret ZZ_MEM)
      (SETNEG (u <? 0) v ;;;
       (* abs(INT_MIN) is undefined *)
       (if u =? INT32_MIN then undefined else put_digit v 0 (Z.abs u)) ;;;
       ret ZZ_OK).

Definition zz_set_i64 (u : Z) (v : ptr) : M zz_err :=
  if u =? 0 then
    put_size 0 v ;;;
    SETNEG false v ;;;
    ret ZZ_OK
  else
    guard (zz_resize 1 v) (ret ZZ_MEM)
      (SETNEG (u <? 0) v ;;;
       put_digit v 0 (ABS_CAST u) ;;;
       ret ZZ_OK).

(** ** Copy, absolute value, negation *)

Definition zz_pos (u v : ptr) : M zz_err :=
  if negb (u =? v)%nat then
    n <- get_size u ;;
    if (n =? 0)%nat then zz_set_i64 0 v
    else
      guard (zz_resize n v) (ret ZZ_MEM)
        (s <- ISNEG u ;;
         SETNEG s v ;;;
         n <- get_size u ;;
         a <- mpn_load u 0 n ;;
         mpn_store v 0 a ;;;
         ret ZZ_OK)
  else ret ZZ_OK.

Definition zz_abs (u v : ptr) : M zz_err :=
  r <- (if negb (u =? v)%nat then zz_pos u v else ret ZZ_OK) ;;
  if is_err r then ret ZZ_MEM
  else
    SETNEG false v ;;;
    ret ZZ_OK.

Definition zz_neg (u v : ptr) : M zz_err :=
  r <- (if negb (u =? v)%nat then zz_pos u v else ret ZZ_OK) ;;
  if is_err r then ret ZZ_MEM
  else
    n <- get_size v ;;
    (if negb (n =? 0)%nat
     then s <- ISNEG u ;; SETNEG (negb s) v
     else ret tt) ;;;
    ret ZZ_OK.

(** ** Right shift: floor division by a power of two *)

Definition zz_quo_2exp (u : ptr) (shift : Z) (v : ptr) : M zz_err :=
  n <- get_size u ;;
  if (n =? 0)%nat then zz_set_i32 0 v
  else if (Z.of_nat n * ZZ_DIGIT_T_BITS) mod 2 ^ 64 <=? shift then
    s <- ISNEG u ;;
    zz_set_i64 (if s then -1 else 0) v
  else
    let whole := Z.to_nat (shift / ZZ_DIGIT_T_BITS) in
    let size := (n - whole)%nat in
    let shift := shift mod ZZ_DIGIT_T_BITS in
    lo <- mpn_load u 0 whole ;;
    s <- ISNEG u ;;
    let carry := if existsb (fun d => negb (d =? 0)) lo then s else false in
    hi <- mpn_load u whole (n - whole) ;;
    let extra := forallb (fun d => d =? ZZ_DIGIT_T_MAX) hi in
    guard (zz_resize (size + (if extra then 1 else 0)) v) (ret ZZ_MEM)
      (s <- ISNEG u ;;
       SETNEG s v ;;;
       carry <-
         (if negb (shift =? 0) then
            a <- mpn_load u whole size ;;
            match GMP.mpn_rshift a shift with
            | Some (out, r) =>
                mpn_store v 0 r ;;;
                if negb (out =? 0) then ISNEG u else ret carry
            | None => undefined
            end
          else
            a <- mpn_load u whole size ;;
            mpn_store v 0 (GMP.mpn_copyi a) ;;;
            ret carry) ;;
       (if extra then put_digit v size 0 else ret tt) ;;;
       (if carry then
          a <- mpn_load v 0 size ;;
          let (c, r) := GMP.mpn_add_1 a 1 in
          mpn_store v 0 r ;;;
          if negb (c =? 0) then put_digit v size 1 else ret tt
        else ret tt) ;;;
       zz_normalize v ;;;
       ret ZZ_OK).

(** ** Integer square root with remainder

    The call on [&tmp] made when [u == v] is the one recursive call of the
    source; [fuel] bounds the depth of the recursion. *)

Fixpoint zz_sqrtrem_rec (fuel : nat) (u v : ptr) (w : option ptr)
  : M zz_err :=
  match fuel with
  | O => undefined
  | S fuel' =>
      s <- ISNEG u ;;
      if s then ret ZZ_VAL
      else
        SETNEG false v ;;;
        n <- get_size u ;;
        if (n =? 0)%nat then
          put_size 0 v ;;;
          match w with
          | Some w => put_size 0 w ;;; SETNEG false w
          | None => ret tt
          end ;;;
          ret ZZ_OK
        else if (u =? v)%nat then
          with_local (fun tmp =>
            guard (guard (zz_init tmp) (ret ZZ_MEM) (zz_pos v tmp))
              (zz_clear tmp ;;; ret ZZ_MEM)
              (r <- zz_sqrtrem_rec fuel' tmp v w ;;
               zz_clear tmp ;;;
               ret r))
        else
          guard (zz_resize ((n + 1) / 2) v) (ret ZZ_MEM)
            match w with
            | Some w =>
                SETNEG false w ;;;
                n <- get_size u ;;
                guard (zz_resize n w) (ret ZZ_MEM)
                  (n <- get_size u ;;
                   a <- mpn_load u 0 n ;;
                   match GMP.mpn_sqrtrem a with
                   | Some (root, rem) =>
                       mpn_store v 0 root ;;;
                       mpn_store w 0 rem ;;;
                       put_size (length rem) w ;;;
                       ret ZZ_OK
                   | None => undefined
                   end)
            | None =>
                n <- get_size u ;;
                a <- mpn_load u 0 n ;;
                match GMP.mpn_sqrtrem a with
                | Some (root, _) => mpn_store v 0 root ;;; ret ZZ_OK
                | None => undefined
                end
            end
  end.

Definition zz_sqrtrem (u v : ptr) (w : option ptr) : M zz_err :=
  zz_sqrtrem_rec 2 u v w.

(** ** Power

    [v] is a [uint64_t].  As for the square root, the call on [&tmp] when
    [u == w] is the one recursive call.

    The scratch buffer and the output of [zz_pow] take [v * size] words
    each, and these requests can be refused.  The allocator says, for a
    number of words, whether a [malloc] and whether a growing [realloc] of
    that many words succeeds. *)

Record allocator : Type := mk_allocator {
  malloc_ok : Z -> bool;
  realloc_ok : Z -> bool
}.

(** [malloc (n * ZZ_DIGIT_T_BYTES)]: [None] is the null pointer. *)
Definition malloc (a : allocator) (n : Z) : M (option (list Z)) :=
  if malloc_ok a n then w <- fresh_words (Z.to_nat n) ;; ret (Some w)
  else ret None.

(** [zz_resize] with the branch of a failed [realloc]: the object is left
    as it was ([u->digits = t]) and the result is [ZZ_MEM]. *)
Definition zz_resize_mem (a : allocator) (sz : nat) (u : ptr) : M zz_err :=
  al <- GETALLOC u ;;
  if (sz <=? al)%nat then
    put_size sz u ;;;
    n <- get_size u ;;
    (if (n =? 0)%nat then SETNEG false u else ret tt) ;;;
    ret ZZ_OK
  else
    let alloc := sz in
    if realloc_ok a (Z.of_nat alloc) then
      z <- load u ;;
      d <- realloc (digits z) alloc ;;
      store u (set_digits d z) ;;;
      SETALLOC alloc u ;;;
      put_size alloc u ;;;
      ret ZZ_OK
    else ret ZZ_MEM.

(** The requests of [zz_set_i64] (one word) and of the copy of the base
    ([size] words) are taken to succeed, as everywhere else. *)
Fixpoint zz_pow_rec (a : allocator) (fuel : nat) (u : ptr) (v : Z) (w : ptr)
    : M zz_err :=
  match fuel with
  | O => undefined
  | S fuel' =>
      if (u =? w)%nat then
        with_local (fun tmp =>
          guard (guard (zz_init tmp) (ret ZZ_MEM) (zz_pos u tmp))
            (zz_clear tmp ;;; ret ZZ_MEM)
            (r <- zz_pow_rec a fuel' tmp v w ;;
             zz_clear tmp ;;;
             ret r))
      else if v =? 0 then zz_set_i64 1 w
      else
        n <- get_size u ;;
        if (n =? 0)%nat then zz_set_i64 0 w
        else
          c <- zz_cmp_i64 u 1 ;;
          if zz_ord_eqb c ZZ_EQ then zz_set_i64 1 w
          else if ZZ_DIGITS_MAX / Z.of_nat n <? v then ret ZZ_BUF
          else
            let w_size := v * Z.of_nat n in
            tmp <- malloc a w_size ;;
            (* !tmp || zz_resize(w_size, w) *)
            guard (match tmp with
                   | None => ret ZZ_MEM
                   | Some _ => zz_resize_mem a (Z.to_nat w_size) w
                   end)
              (zz_clear w ;;; ret ZZ_MEM)
              (s <- ISNEG u ;;
               SETNEG (s && negb (v mod 2 =? 0)) w ;;;
               n <- get_size u ;;
               x <- mpn_load u 0 n ;;
               match GMP.mpn_pow_1 x v with
               | Some r =>
                   mpn_store w 0 r ;;;
                   put_size (length r) w ;;;
                   guard (zz_resize_mem a (length r) w)
                     (zz_clear w ;;; ret ZZ_MEM)
                     (ret ZZ_OK)
               | None => undefined
               end)
  end.

Definition zz_pow (a : allocator) (u : ptr) (v : Z) (w : ptr) : M zz_err :=
  zz_pow_rec a 2 u v w.


(** ** Addition and subtraction *)

(** [a || b] on two calls: the second is not made when the first fails. *)
Definition c_or (a b : M zz_err) : M zz_err :=
  e <- a ;; if is_err e then ret e else b.

(** The part of [zz_addsub] after the operands were put in order, the one of
    larger digit count first: [u], [v], their effective signs and their
    digit counts are the local variables of the source at that point. *)
Definition zz_addsub_ordered (u v : ptr) (negu negv same_sign : bool)
    (u_size v_size : nat) (w : ptr) : M zz_err :=
  if same_sign && (Z.of_nat u_size =? ZZ_DIGITS_MAX) then ret ZZ_BUF
  else
    guard (zz_resize (u_size + (if same_sign then 1 else 0)) w) (ret ZZ_MEM)
      (SETNEG negu w ;;;
       (if same_sign then
          a <- mpn_load u 0 u_size ;;
          b <- mpn_load v 0 v_size ;;
          let (c, r) := GMP.mpn_add a b in
          mpn_store w 0 r ;;;
          n <- get_size w ;;
          put_digit w (n - 1) c
        else if negb (u_size =? v_size)%nat then
          a <- mpn_load u 0 u_size ;;
          b <- mpn_load v 0 v_size ;;
          let (_, r) := GMP.mpn_sub a b in
          mpn_store w 0 r
        else
          a <- mpn_load u 0 u_size ;;
          b <- mpn_load v 0 u_size ;;
          let cmp := GMP.mpn_cmp a b in
          if cmp <? 0 then
            let (_, r) := GMP.mpn_sub_n b a in
            mpn_store w 0 r ;;;
            SETNEG negv w
          else if 0 <? cmp then
            let (_, r) := GMP.mpn_sub_n a b in
            mpn_store w 0 r
          else put_size 0 w) ;;;
       zz_normalize w ;;;
       ret ZZ_OK).

Definition zz_addsub (u v : ptr) (subtract : bool) (w : ptr) : M zz_err :=
  negu <- ISNEG u ;;
  sv <- ISNEG v ;;
  let negv := if subtract then negb sv else sv in
  let same_sign := Bool.eqb negu negv in
  u_size <- get_size u ;;
  v_size <- get_size v ;;
  if (u_size <? v_size)%nat
  then zz_addsub_ordered v u negv negu same_sign v_size u_size w   (* SWAP *)
  else zz_addsub_ordered u v negu negv same_sign u_size v_size w.

(** [v] is a [uint64_t]. *)
Definition zz_addsub_u64 (u : ptr) (v : Z) (subtract : bool) (w : ptr)
  : M zz_err :=
  negu <- ISNEG u ;;
  let negv := subtract in
  let same_sign := Bool.eqb negu negv in
  u_size <- get_size u ;;
  let v_size := if v =? 0 then 0%nat else 1%nat in
  if (u_size =? 0)%nat || (u_size <? v_size)%nat then
    (if (u_size =? 0)%nat then ret tt else undefined) ;;;   (* assert *)
    guard (zz_resize v_size w) (ret ZZ_MEM)
      ((if negb (v_size =? 0)%nat then put_digit w 0 v else ret tt) ;;;
       n <- get_size w ;;
       SETNEG (if negb (n =? 0)%nat then negv else false) w ;;;
       ret ZZ_OK)
  else if same_sign && (Z.of_nat u_size =? ZZ_DIGITS_MAX) then ret ZZ_BUF
  else
    guard (zz_resize (u_size + (if same_sign then 1 else 0)) w) (ret ZZ_MEM)
      (SETNEG negu w ;;;
       (if same_sign then
          a <- mpn_load u 0 u_size ;;
          let (c, r) := GMP.mpn_add_1 a v in
          mpn_store w 0 r ;;;
          n <- get_size w ;;
          put_digit w (n - 1) c
        else if negb (u_size =? 1)%nat then
          a <- mpn_load u 0 u_size ;;
          let (_, r) := GMP.mpn_sub_1 a v in
          mpn_store w 0 r
        else
          d0 <- get_digit u 0 ;;
          if d0 <? v then
            put_digit w 0 (v - d0) ;;;
            SETNEG negv w
          else
            put_digit w 0 (d0 - v)) ;;;
       zz_normalize w ;;;
       ret ZZ_OK).

(** [v] is an [int64_t]. *)
Definition zz_addsub_i64 (u : ptr) (v : Z) (subtract : bool) (w : ptr)
  : M zz_err :=
  let uv := ABS_CAST v in
  zz_addsub_u64 u uv (if subtract then 0 <=? v else v <? 0) w.

Definition zz_add (u v w : ptr) : M zz_err := zz_addsub u v false w.
Definition zz_sub (u v w : ptr) : M zz_err := zz_addsub u v true w.
Definition zz_add_i64 (u : ptr) (v : Z) (w : ptr) : M zz_err :=
  zz_addsub_i64 u v false w.
Definition zz_sub_i64 (u : ptr) (v : Z) (w : ptr) : M zz_err :=
  zz_addsub_i64 u v true w.

(** ** Multiplication *)

(** [w->size -= w->digits[w->size - 1] == 0] *)
Definition trim_top (w : ptr) : M unit :=
  n <- get_size w ;;
  d <- get_digit w (n - 1) ;;
  put_size (n - (if d =? 0 then 1 else 0)) w.

Definition c_assert (b : bool) : M unit := if b then ret tt else undefined.

Definition zz_mul_u64 (u : ptr) (v : Z) (w : ptr) : M zz_err :=
  n <- get_size u ;;
  if (n =? 0)%nat || (v =? 0) then zz_set_i64 0 w
  else
    let u_size := n in
    if Z.of_nat u_size =? ZZ_DIGITS_MAX then ret ZZ_BUF
    else
      guard (zz_resize (u_size + 1) w) (ret ZZ_MEM)
        (s <- ISNEG u ;;
         SETNEG s w ;;;
         a <- mpn_load u 0 u_size ;;
         let (c, r) := GMP.mpn_mul_1 a v in
         mpn_store w 0 r ;;;
         n <- get_size w ;;
         put_digit w (n - 1) c ;;;
         trim_top w ;;;
         n <- get_size w ;;
         c_assert (1 <=? n)%nat ;;;
         ret ZZ_OK).

Fixpoint zz_mul_rec (fuel : nat) (u v w : ptr) : M zz_err :=
  match fuel with
  | O => undefined
  | S fuel' =>
      nu <- get_size u ;;
      nv <- get_size v ;;
      let swap := (nu <? nv)%nat in
      let u' := if swap then v else u in
      let v' := if swap then u else v in
      let u := u' in let v := v' in
      nv <- get_size v ;;
      if (nv <=? 1)%nat then
        su <- ISNEG u ;;
        sv <- ISNEG v ;;
        let w_negative := xorb su sv in
        d <- (if negb (nv =? 0)%nat then get_digit v 0 else ret 0) ;;
        r <- zz_mul_u64 u d w ;;
        n <- get_size w ;;
        (if negb (n =? 0)%nat then SETNEG w_negative w else ret tt) ;;;
        ret r
      else if (u =? w)%nat then
        with_local (fun tmp =>
          guard (c_or (zz_init tmp) (zz_pos u tmp))
            (zz_clear tmp ;;; ret ZZ_MEM)
            (r <- (if (u =? v)%nat then zz_mul_rec fuel' tmp tmp w
                   else zz_mul_rec fuel' tmp v w) ;;
             zz_clear tmp ;;;
             ret r))
      else if (v =? w)%nat then
        with_local (fun tmp =>
          guard (c_or (zz_init tmp) (zz_pos v tmp))
            (zz_clear tmp ;;; ret ZZ_MEM)
            (r <- zz_mul_rec fuel' u tmp w ;;
             zz_clear tmp ;;;
             ret r))
      else
        nu <- get_size u ;;
        nv <- get_size v ;;
        let w_size := (Z.of_nat nu + Z.of_nat nv) mod 2 ^ 64 in
        if ZZ_DIGITS_MAX <? w_size then ret ZZ_BUF
        else
          guard (zz_resize (Z.to_nat w_size) w) (ret ZZ_MEM)
            (su <- ISNEG u ;;
             sv <- ISNEG v ;;
             SETNEG (xorb su sv) w ;;;
             nu <- get_size u ;;
             nv <- get_size v ;;
             a <- mpn_load u 0 nu ;;
             b <- mpn_load v 0 nv ;;
             match (if (nu =? nv)%nat then
                      if negb (u =? v)%nat then GMP.mpn_mul_n a b
                      else GMP.mpn_sqr a
                    else GMP.mpn_mul a b) with
             | Some r =>
                 mpn_store w 0 r ;;;
                 trim_top w ;;;
                 n <- get_size w ;;
                 c_assert (1 <=? n)%nat ;;;
                 ret ZZ_OK
             | None => undefined
             end)
  end.

Definition zz_mul (u v w : ptr) : M zz_err := zz_mul_rec 3 u v w.

(** ** Division

    [q] and [r] may be NULL.  The function calls itself on temporaries, at
    most once for a missing output and once for each operand that is also an
    output; [fuel] bounds the depth. *)

Fixpoint zz_div_rec (fuel : nat) (u v : ptr) (q r : option ptr)
  : M zz_err :=
  match fuel with
  | O => undefined
  | S fuel' =>
      nv <- get_size v ;;
      if (nv =? 0)%nat then ret ZZ_VAL
      else
        match q, r with
        | None, None => ret ZZ_OK
        | None, Some _ =>
            with_local (fun tmp =>
              guard (zz_init tmp) (ret ZZ_MEM)
                (e <- zz_div_rec fuel' u v (Some tmp) r ;;
                 zz_clear tmp ;;;
                 ret e))
        | Some _, None =>
            with_local (fun tmp =>
              guard (zz_init tmp) (ret ZZ_MEM)
                (e <- zz_div_rec fuel' u v q (Some tmp) ;;
                 zz_clear tmp ;;;
                 ret e))
        | Some q, Some r =>
            let err := zz_clear q ;;; zz_clear r ;;; ret ZZ_MEM in
            nu <- get_size u ;;
            nv <- get_size v ;;
            if (nu =? 0)%nat then
              guard (c_or (zz_set_i64 0 q) (zz_set_i64 0 r)) err (ret ZZ_OK)
            else if (nu <? nv)%nat then
              su <- ISNEG u ;;
              sv <- ISNEG v ;;
              if xorb su sv then
                guard (c_or (zz_set_i64 (-1) q) (zz_add u v r)) err
                  (ret ZZ_OK)
              else
                guard (c_or (zz_set_i64 0 q) (zz_pos u r)) err (ret ZZ_OK)
            else if (u =? q)%nat || (u =? r)%nat then
              with_local (fun tmp =>
                guard (c_or (zz_init tmp) (zz_pos u tmp))
                  (zz_clear tmp ;;; ret ZZ_MEM)
                  (e <- zz_div_rec fuel' tmp v (Some q) (Some r) ;;
                   zz_clear tmp ;;;
                   ret e))
            else if (v =? q)%nat || (v =? r)%nat then
              with_local (fun tmp =>
                guard (c_or (zz_init tmp) (zz_pos v tmp))
                  (zz_clear tmp ;;; ret ZZ_MEM)
                  (e <- zz_div_rec fuel' u tmp (Some q) (Some r) ;;
                   zz_clear tmp ;;;
                   ret e))
            else
              u_size <- get_size u ;;
              nv <- get_size v ;;
              guard (c_or (zz_resize (u_size - nv + 1) q)
                          (nv <- get_size v ;; zz_resize nv r))
                err
                (su <- ISNEG u ;;
                 sv <- ISNEG v ;;
                 SETNEG (xorb su sv) q ;;;
                 sv <- ISNEG v ;;
                 SETNEG sv r ;;;
                 nv <- get_size v ;;
                 a <- mpn_load u 0 u_size ;;
                 b <- mpn_load v 0 nv ;;
                 match GMP.mpn_tdiv_qr a b with
                 | Some (qd, rd) =>
                     mpn_store q 0 qd ;;;
                     mpn_store r 0 rd ;;;
                     trim_top q ;;;
                     zz_normalize r ;;;
                     sq <- ISNEG q ;;
                     nr <- get_size r ;;
                     if sq && negb (nr =? 0)%nat then
                       nq <- get_size q ;;
                       c_assert (Z.of_nat nq <? ZZ_DIGITS_MAX) ;;;
                       guard (zz_sub_i64 q 1 q) err
                         (nv <- get_size v ;;
                          put_size nv r ;;;
                          b <- mpn_load v 0 nv ;;
                          c <- mpn_load r 0 nv ;;
                          let (_, d) := GMP.mpn_sub_n b c in
                          mpn_store r 0 d ;;;
                          zz_normalize r ;;;
                          ret ZZ_OK)
                     else ret ZZ_OK
                 | None => undefined
                 end)
        end
  end.

Definition zz_div (u v : ptr) (q r : option ptr) : M zz_err :=
  zz_div_rec 4 u v q r.


(** ** Comparison of two numbers *)

(** The [int] that [mpn_cmp] returns, stored in a [zz_ord]: it is 1, 0 or
    -1, the values of [ZZ_GT], [ZZ_EQ] and [ZZ_LT]. *)
Definition zz_ord_of_int (c : Z) : zz_ord :=
  if c <? 0 then ZZ_LT else if 0 <? c then ZZ_GT else ZZ_EQ.

Definition zz_cmp (u v : ptr) : M zz_ord :=
  if (u =? v)%nat then ret ZZ_EQ
  else
    u_negative <- ISNEG u ;;
    let sign := if u_negative then ZZ_LT else ZZ_GT in
    v_negative <- ISNEG v ;;
    nu <- get_size u ;;
    nv <- get_size v ;;
    if negb (Bool.eqb u_negative v_negative) then ret sign
    else if negb (nu =? nv)%nat then
      ret (if (nu <? nv)%nat then zz_ord_neg sign else sign)
    else
      a <- mpn_load u 0 nu ;;
      b <- mpn_load v 0 nu ;;
      let r := zz_ord_of_int (GMP.mpn_cmp a b) in
      ret (if u_negative then zz_ord_neg r else r).

(** ** Conversion to and from machine integers

    A getter returns its status and what it stored through the pointer
    argument, if it stored anything. *)

Definition INT32_MAX : Z := 2 ^ 31 - 1.
Definition INT64_MAX : Z := 2 ^ 63 - 1.
Definition UINT32_MAX : Z := 2 ^ 32 - 1.

Definition zz_set_u64 (u : Z) (v : ptr) : M zz_err :=
  if u =? 0 then
    put_size 0 v ;;;
    SETNEG false v ;;;
    ret ZZ_OK
  else
    guard (zz_resize 1 v) (ret ZZ_MEM)
      (SETNEG false v ;;;
       put_digit v 0 u ;;;
       ret ZZ_OK).

Definition zz_get_i32 (u : ptr) : M (zz_err * option Z) :=
  n <- get_size u ;;
  if (n =? 0)%nat then ret (ZZ_OK, Some 0)
  else if (1 <? n)%nat then ret (ZZ_BUF, None)
  else
    uv <- get_digit u 0 ;;
    s <- ISNEG u ;;
    if s then
      if uv <=? INT32_MAX + 1 then
        ret (ZZ_OK, Some (-1 - Z.land ((uv - 1) mod BASE) INT32_MAX))
      else ret (ZZ_BUF, None)
    else
      if uv <=? INT32_MAX then ret (ZZ_OK, Some uv)
      else ret (ZZ_BUF, None).

Definition zz_get_i64 (u : ptr) : M (zz_err * option Z) :=
  n <- get_size u ;;
  if (n =? 0)%nat then ret (ZZ_OK, Some 0)
  else if (1 <? n)%nat then ret (ZZ_BUF, None)
  else
    uv <- get_digit u 0 ;;
    s <- ISNEG u ;;
    if s then
      if uv <=? INT64_MAX + 1 then
        ret (ZZ_OK, Some (-1 - Z.land ((uv - 1) mod BASE) INT64_MAX))
      else ret (ZZ_BUF, None)
    else
      if uv <=? INT64_MAX then ret (ZZ_OK, Some uv)
      else ret (ZZ_BUF, None).

Definition zz_get_u32 (u : ptr) : M (zz_err * option Z) :=
  s <- ISNEG u ;;
  if s then ret (ZZ_VAL, None)
  else
    n <- get_size u ;;
    if (n =? 0)%nat then ret (ZZ_OK, Some 0)
    else if (1 <? n)%nat then ret (ZZ_BUF, None)
    else
      d <- get_digit u 0 ;;
      if UINT32_MAX <? d then ret (ZZ_BUF, None)
      else ret (ZZ_OK, Some d).

Definition zz_get_u64 (u : ptr) : M (zz_err * option Z) :=
  s <- ISNEG u ;;
  if s then ret (ZZ_VAL, None)
  else
    n <- get_size u ;;
    if (1 <? n)%nat then ret (ZZ_BUF, None)
    else
      d <- (if negb (n =? 0)%nat then get_digit u 0 else ret 0) ;;
      ret (ZZ_OK, Some d).

(** ** Predicates *)

Definition zz_iszero (u : ptr) : M bool :=
  n <- get_size u ;; ret (n =? 0)%nat.

Definition zz_isneg (u : ptr) : M bool := ISNEG u.

Definition zz_isodd (u : ptr) : M bool :=
  n <- get_size u ;;
  if negb (n =? 0)%nat then
    d <- get_digit u 0 ;; ret (negb (Z.land d 1 =? 0))
  else ret false.

(** ** Addition and subtraction of machine integers *)

Definition zz_add_u64 (u : ptr) (v : Z) (w : ptr) : M zz_err :=
  zz_addsub_u64 u v false w.
Definition zz_sub_u64 (u : ptr) (v : Z) (w : ptr) : M zz_err :=
  zz_addsub_u64 u v true w.

Definition zz_u64_sub (u : Z) (v : ptr) (w : ptr) : M zz_err :=
  guard (zz_neg v w) (ret ZZ_MEM) (zz_addsub_u64 w u false w).

Definition zz_i64_sub (u : Z) (v : ptr) (w : ptr) : M zz_err :=
  guard (zz_neg v w) (ret ZZ_MEM) (zz_addsub_i64 w u false w).

(** ** Multiplication by a machine integer *)

Definition zz_mul_i64 (u : ptr) (v : Z) (w : ptr) : M zz_err :=
  r <- zz_mul_u64 u (ABS_CAST v) w ;;
  n <- get_size w ;;
  (if negb (n =? 0)%nat
   then s <- ISNEG u ;; SETNEG (negb (Bool.eqb s (v <? 0))) w
   else ret tt) ;;;
  ret r.


(** ** Bit counts *)

(** [mpn_scan1 (u->digits, 0)] looks for a bit from the first word of the
    buffer on, past the digit count if it has to; a buffer without a bit
    set sends it outside the buffer. *)
Definition zz_lsbpos (u : ptr) : M Z :=
  n <- get_size u ;;
  if negb (n =? 0)%nat then
    z <- load u ;;
    if forallb (fun d => d =? 0) (digits z) then undefined
    else ret (GMP.mpn_scan1 (digits z))
  else ret 0.

Definition zz_bitcnt (u : ptr) : M Z :=
  n <- get_size u ;;
  if negb (n =? 0)%nat then
    a <- mpn_load u 0 n ;; ret (GMP.mpn_popcount a)
  else ret 0.

(** ** Left shift *)

Definition zz_mul_2exp (u : ptr) (shift : Z) (v : ptr) : M zz_err :=
  n <- get_size u ;;
  if (n =? 0)%nat then zz_set_i32 0 v
  else if ZZ_BITS_MAX <? shift then ret ZZ_BUF
  else
    let whole := Z.to_nat (shift / ZZ_DIGIT_T_BITS) in
    let u_size := n in
    let shift := shift mod ZZ_DIGIT_T_BITS in
    let v_size := Z.of_nat u_size + Z.of_nat whole
                  + (if negb (shift =? 0) then 1 else 0) in
    if ZZ_DIGITS_MAX <? v_size then ret ZZ_BUF
    else
      guard (zz_resize (Z.to_nat v_size) v) (ret ZZ_MEM)
        (s <- ISNEG u ;;
         SETNEG s v ;;;
         (if negb (shift =? 0) then
            a <- mpn_load u 0 u_size ;;
            match GMP.mpn_lshift a shift with
            | Some (out, r) =>
                mpn_store v whole r ;;;
                nv <- get_size v ;;
                put_digit v (nv - 1) out ;;;
                put_size (nv - (if out =? 0 then 1 else 0)) v
            | None => undefined
            end
          else
            a <- mpn_load u 0 u_size ;;
            mpn_store v whole (GMP.mpn_copyd a)) ;;;
         mpn_store v 0 (GMP.mpn_zero whole) ;;;
         ret ZZ_OK).

(** ** Bitwise complement *)

Definition zz_invert (u v : ptr) : M zz_err :=
  u_size <- get_size u ;;
  s <- ISNEG u ;;
  r <-
    (if s then
       e <- zz_resize u_size v ;;
       if is_err e then ret (Some ZZ_MEM)
       else
         a <- mpn_load u 0 u_size ;;
         let (_, d) := GMP.mpn_sub_1 a 1 in
         mpn_store v 0 d ;;;
         t <- get_digit v (u_size - 1) ;;
         n <- get_size v ;;
         put_size (n - (if t =? 0 then 1 else 0)) v ;;;
         ret None
     else if (u_size =? 0)%nat then
       e <- zz_set_i64 (-1) v ;; ret (Some e)
     else if Z.of_nat u_size =? ZZ_DIGITS_MAX then ret (Some ZZ_BUF)
     else
       e <- zz_resize (u_size + 1) v ;;
       if is_err e then ret (Some ZZ_MEM)
       else
         a <- mpn_load u 0 u_size ;;
         let (c, d) := GMP.mpn_add_1 a 1 in
         mpn_store v 0 d ;;;
         put_digit v u_size c ;;;
         t <- get_digit v u_size ;;
         n <- get_size v ;;
         put_size (n - (if t =? 0 then 1 else 0)) v ;;;
         ret None) ;;
  match r with
  | Some e => ret e
  | None =>
      s <- ISNEG u ;;
      SETNEG (negb s) v ;;;
      ret ZZ_OK
  end.

(** ** Division by a machine integer *)

(** The two blocks of [zz_div_i64], [if (q)] and [if (r)]: [uv] and
    [same_signs] are the local variables of the source. *)
Definition zz_div_i64_quo (u : ptr) (uv : Z) (same_signs : bool) (q : ptr)
  : M zz_err :=
  n <- get_size u ;;
  if negb (n =? 0)%nat then
    guard (zz_resize n q) (ret ZZ_MEM)
      (n <- get_size u ;;
       a <- mpn_load u 0 n ;;
       match GMP.mpn_divrem_1 a uv with
       | Some (rl, qd) =>
           mpn_store q 0 qd ;;;
           (if negb (rl =? 0) && negb same_signs then
              nq <- get_size q ;;
              b <- mpn_load q 0 nq ;;
              let (_, d) := GMP.mpn_add_1 b 1 in
              mpn_store q 0 d
            else ret tt) ;;;
           trim_top q ;;;
           nq <- get_size q ;;
           SETNEG (if negb (nq =? 0)%nat then negb same_signs
                   else false) q ;;;
           ret ZZ_OK
       | None => undefined
       end)
  else zz_set_i32 0 q ;;; ret ZZ_OK.

Definition zz_div_i64_rem (u : ptr) (v uv : Z) (same_signs : bool) (r : ptr)
  : M zz_err :=
  n <- get_size u ;;
  if (n =? 0)%nat then zz_set_i32 0 r
  else
    let u_size := n in
    guard (zz_resize 1 r) (ret ZZ_MEM)
      (a <- mpn_load u 0 u_size ;;
       match GMP.mpn_mod_1 a uv with
       | Some rl =>
           if rl =? 0 then zz_set_i32 0 r ;;; ret ZZ_OK
           else
             let rl := if negb same_signs then uv - rl else rl in
             put_digit r 0 rl ;;;
             SETNEG (v <? 0) r ;;;
             ret ZZ_OK
       | None => undefined
       end).

Definition zz_div_i64 (u : ptr) (v : Z) (q r : option ptr) : M zz_err :=
  if v =? 0 then ret ZZ_VAL
  else
    let uv := ABS_CAST v in
    su <- ISNEG u ;;
    let same_signs := Bool.eqb su (v <? 0) in
    e <- match q with
         | Some q => zz_div_i64_quo u uv same_signs q
         | None => ret ZZ_OK
         end ;;
    if is_err e then ret ZZ_MEM
    else
      match r with
      | Some r => zz_div_i64_rem u v uv same_signs r
      | None => ret ZZ_OK
      end.

(** An [int64_t] result: signed overflow is undefined. *)
Definition int64 (x : Z) : M Z :=
  if (- 2 ^ 63 <=? x) && (x <? 2 ^ 63) then ret x else undefined.

(** [a/b - (a%b != 0 && (a^b) < 0)]: the C quotient rounds towards zero, and
    [a ^ b] is negative when the signs differ. *)
Definition fdiv_r (a b : Z) : M Z :=
  if b =? 0 then undefined
  else
    q <- int64 (Z.quot a b) ;;
    int64 (q - (if negb (Z.rem a b =? 0) && negb (Bool.eqb (a <? 0) (b <? 0))
                then 1 else 0)).

(** The two blocks of [zz_i64_div], [if (q)] up to the assignment of [ret]
    and [if (r)]. *)
Definition zz_i64_div_quo (u : Z) (v q : ptr) : M zz_err :=
  g <- zz_get_i64 v ;;
  match g with
  | (ZZ_OK, Some sv) =>
      f <- fdiv_r u sv ;; zz_set_i64 f q
  | _ =>
      s <- ISNEG v ;;
      zz_set_i64 (if Bool.eqb (u <? 0) s || (u =? 0) then 0 else -1) q
  end.

Definition zz_i64_div_rem (u : Z) (v r : ptr) : M zz_err :=
  g <- zz_get_i64 v ;;
  match g with
  | (ZZ_OK, Some sv) =>
      f <- fdiv_r u sv ;;
      p <- int64 (f * sv) ;;
      d <- int64 (u - p) ;;
      zz_set_i64 d r
  | _ =>
      s <- ISNEG v ;;
      if Bool.eqb (u <? 0) s || (u =? 0) then zz_set_i64 u r
      else zz_add_i64 v u r
  end.

Definition zz_i64_div (u : Z) (v : ptr) (q r : option ptr) : M zz_err :=
  nv <- get_size v ;;
  if (nv =? 0)%nat then ret ZZ_VAL
  else
    let remainder :=
      match r with
      | Some r => zz_i64_div_rem u v r
      | None => ret ZZ_OK
      end in
    match q with
    | Some q =>
        ret' <- zz_i64_div_quo u v q ;;
        if is_err ret' || match r with None => true | Some _ => false end
        then ret ret'
        else remainder
    | None => remainder
    end.


(** ** Greatest common divisor

    The objects [o1] and [o2] obtained from [malloc] are temporaries of the
    call. *)

(** [zz_gcd] from the call of the kernel on: [u] and [v] are by then the
    temporaries [o1] and [o2], and [w] has the digit count of [v]. *)
Definition zz_gcd_reduced (o1 o2 w : ptr) (shift : Z) : M zz_err :=
  let u := o1 in let v := o2 in
  nv <- get_size v ;;
  (if (nv =? 1)%nat then
     nu <- get_size u ;;
     x <- mpn_load u 0 nu ;;
     y <- get_digit v 0 ;;
     match GMP.mpn_gcd_1 x y with
     | Some g => put_digit w 0 g
     | None => undefined
     end
   else
     nu <- get_size u ;;
     x <- mpn_load u 0 nu ;;
     y <- mpn_load v 0 nv ;;
     match GMP.mpn_gcd x y with
     | Some g => mpn_store w 0 g ;;; put_size (length g) w
     | None => undefined
     end) ;;;
  SETNEG false w ;;;
  zz_clear o1 ;;;
  zz_clear o2 ;;;
  zz_mul_2exp w shift w.

Definition zz_gcd (u v w : ptr) : M zz_err :=
  nu <- get_size u ;;
  nv <- get_size v ;;
  let swap := (nu <? nv)%nat in
  let u' := if swap then v else u in
  let v' := if swap then u else v in
  let u := u' in let v := v' in
  nv <- get_size v ;;
  if (nv =? 0)%nat then zz_abs u w
  else
    a <- zz_lsbpos u ;;
    b <- zz_lsbpos v ;;
    let shift := if a <? b then a else b in          (* MIN *)
    with_local (fun o1 => with_local (fun o2 =>
      let clear := zz_clear o1 ;;; zz_clear o2 ;;; ret ZZ_MEM in
      guard (c_or (zz_init o1) (c_or (zz_init o2)
               (c_or (zz_abs u o1) (zz_abs v o2)))) clear
        (guard (if negb (shift =? 0)
                then c_or (zz_quo_2exp o1 shift o1) (zz_quo_2exp o2 shift o2)
                else ret ZZ_OK) clear
           (let u := o1 in let v := o2 in
            nv <- get_size v ;;
            c_assert (negb (nv =? 0)%nat) ;;;
            guard (zz_resize nv w) clear
              (zz_gcd_reduced o1 o2 w shift))))).

(** ** Modular inverse by the extended Euclidean algorithm

    One turn of the [while] loop per unit of [fuel]. *)

Fixpoint zz_inverse_euclidext_loop (fuel : nat)
    (r newt newr q t1 t2 t : ptr) : M zz_err :=
  match fuel with
  | O => undefined
  | S fuel' =>
      c <- zz_cmp_i64 newr 0 ;;
      if zz_ord_eqb c ZZ_EQ then ret ZZ_OK
      else
        e <- zz_div r newr (Some q) None ;;
        if is_err e then ret ZZ_MEM
        else
          e <- c_or (zz_pos newt t1) (c_or (zz_mul q newt t2)
                 (c_or (zz_sub t t2 newt) (zz_pos t1 t))) ;;
          if is_err e then ret ZZ_MEM
          else
            e <- c_or (zz_pos newr t1) (c_or (zz_mul q newr t2)
                   (c_or (zz_sub r t2 newr) (zz_pos t1 r))) ;;
            if is_err e then ret ZZ_MEM
            else zz_inverse_euclidext_loop fuel' r newt newr q t1 t2 t
  end.

Definition zz_inverse_euclidext (fuel : nat) (u v t : ptr) : M zz_err :=
  with_local (fun r => with_local (fun newt => with_local (fun newr =>
  with_local (fun q => with_local (fun t1 => with_local (fun t2 =>
    let clear2 :=
      zz_clear r ;;; zz_clear newt ;;; zz_clear newr ;;;
      zz_clear q ;;; zz_clear t1 ;;; zz_clear t2 ;;; ret ZZ_MEM in
    u_neg <- ISNEG u ;;
    guard (c_or (zz_init r) (c_or (zz_init newt) (c_or (zz_init newr)
             (c_or (zz_init q) (c_or (zz_init t1) (c_or (zz_init t2)
             (c_or (zz_pos v r) (c_or (zz_set_i32 1 newt)
             (c_or (zz_pos u newr) (zz_set_i32 0 t)))))))))) clear2
      (guard (zz_inverse_euclidext_loop fuel r newt newr q t1 t2 t) clear2
         (zz_clear newt ;;; zz_clear newr ;;; zz_clear q ;;;
          zz_clear t1 ;;; zz_clear t2 ;;;
          n <- get_size t ;;
          (if negb (n =? 0)%nat
           then s <- ISNEG t ;; SETNEG (negb (Bool.eqb s u_neg)) t
           else ret tt) ;;;
          zz_abs r r ;;;
          c <- zz_cmp_i64 r 1 ;;
          if negb (zz_ord_eqb c ZZ_EQ)
          then zz_clear r ;;; ret ZZ_VAL
          else zz_clear r ;;; ret ZZ_OK)))))))).

(** ** Extended greatest common divisor

    [g], [s] and [t] may be NULL.  [MAX] and [labs] are those of C. *)

(** The two ends of [zz_gcdext] once the operand of more digits is [u]:
    for [v] zero, and for [v] not zero. *)
Definition zz_gcdext_zero (u : ptr) (g s t : option ptr) : M zz_err :=
  guard (match g with Some g => zz_abs u g | None => ret ZZ_OK end)
    (ret ZZ_MEM)
    (guard (match s with
            | Some s =>
                n <- ISNEG u ;;
                guard (zz_set_i64 (if n then -1 else 1) s) (ret ZZ_MEM)
                  (nu <- get_size u ;;
                   put_size (if (0 <? nu)%nat then 1 else 0) s ;;;
                   ret ZZ_OK)
            | None => ret ZZ_OK
            end)
       (ret ZZ_MEM)
       (match t with
        | Some t => put_size 0 t ;;; SETNEG false t
        | None => ret tt
        end ;;;
        ret ZZ_OK)).

Definition zz_gcdext_main (fuel : nat) (u v : ptr) (g s t : option ptr)
  : M zz_err :=
  with_local (fun o1 => with_local (fun o2 =>
  with_local (fun tmp_g => with_local (fun tmp_s =>
    let clear :=
      zz_clear o1 ;;; zz_clear o2 ;;;
      zz_clear tmp_g ;;; zz_clear tmp_s ;;; ret ZZ_MEM in
    let clear' := zz_clear tmp_g ;;; zz_clear tmp_s ;;; ret ZZ_MEM in
    nv <- get_size v ;;
    tmp_s_digits <- fresh_words (nv + 1) ;;
    guard (c_or (zz_init o1) (c_or (zz_init o2) (c_or (zz_init tmp_g)
             (c_or (zz_init tmp_s) (c_or (zz_pos u o1)
             (c_or (zz_pos v o2)
                (nv <- get_size v ;; zz_resize nv tmp_g))))))) clear
      (nu <- get_size u ;;
       nv <- get_size v ;;
       x <- mpn_load o1 0 nu ;;
       y <- mpn_load o2 0 nv ;;
       match GMP.mpn_gcdext x y with
       | Some (gd, sd, ssize) =>
           mpn_store tmp_g 0 gd ;;;
           put_size (length gd) tmp_g ;;;
           SETNEG false tmp_g ;;;
           guard (zz_resize (Z.to_nat (Z.abs ssize)) tmp_s) clear
             (n <- get_size tmp_s ;;
              mpn_store tmp_s 0 (GMP.mpn_copyi (firstn n sd)) ;;;
              su <- ISNEG u ;;
              SETNEG ((su && (0 <? ssize)) || (negb su && (ssize <? 0)))
                     tmp_s ;;;
              guard
                (match t with
                 | Some t =>
                     nu <- get_size u ;;
                     ns <- get_size tmp_s ;;
                     ng <- get_size tmp_g ;;
                     if Z.max (Z.of_nat nu + Z.of_nat ns) (Z.of_nat ng)
                        <? ZZ_DIGITS_MAX
                     then
                       c_or (zz_mul u tmp_s o2)
                         (c_or (zz_sub tmp_g o2 o2)
                            (zz_div o2 v (Some t) None))
                     else
                       c_or (zz_div u tmp_g (Some o1) None)
                         (c_or (zz_div v tmp_g (Some o2) None)
                            (zz_inverse_euclidext fuel o2 o1 t))
                 | None => ret ZZ_OK
                 end) clear
                (zz_clear o1 ;;;
                 zz_clear o2 ;;;
                 guard (match s with
                        | Some s => zz_pos tmp_s s
                        | None => ret ZZ_OK
                        end) clear'
                   (guard (match g with
                           | Some g => zz_pos tmp_g g
                           | None => ret ZZ_OK
                           end) clear'
                      (zz_clear tmp_s ;;;
                       zz_clear tmp_g ;;;
                       ret ZZ_OK))))
       | None => undefined
       end))))).

Definition zz_gcdext (fuel : nat) (u v : ptr) (g s t : option ptr)
  : M zz_err :=
  match s, t with
  | None, None =>
      match g with
      | None => ret ZZ_OK
      | Some g => zz_gcd u v g
      end
  | _, _ =>
      nu <- get_size u ;;
      nv <- get_size v ;;
      let swap := (nu <? nv)%nat in
      let u' := if swap then v else u in
      let v' := if swap then u else v in
      let s' := if swap then t else s in
      let t' := if swap then s else t in
      let u := u' in let v := v' in let s := s' in let t := t' in
      nv <- get_size v ;;
      if (nv =? 0)%nat then zz_gcdext_zero u g s t
      else zz_gcdext_main fuel u v g s t
  end.

(** ** Modular inverse and least common multiple *)

Definition zz_inverse (fuel : nat) (u v w : ptr) : M zz_err :=
  with_local (fun g =>
    guard (c_or (zz_init g) (zz_gcdext fuel u v (Some g) (Some w) None))
      (zz_clear g ;;; ret ZZ_MEM)
      (c <- zz_cmp_i64 g 1 ;;
       if zz_ord_eqb c ZZ_EQ then zz_clear g ;;; ret ZZ_OK
       else zz_clear g ;;; ret ZZ_VAL)).

Definition zz_lcm (u v w : ptr) : M zz_err :=
  with_local (fun g =>
    let finish (r : zz_err) :=
      zz_clear g ;;; zz_abs w w ;;; ret r in
    e <- c_or (zz_init g) (zz_gcd u v g) ;;
    if is_err e then finish ZZ_MEM
    else
      z <- zz_iszero g ;;
      if z then zz_clear g ;;; zz_set_i64 0 w
      else
        e <- zz_div u g (Some g) None ;;
        if is_err e then finish ZZ_MEM
        else
          r <- zz_mul g v w ;;
          finish r).


(** ** Values and invariants of [zz_t] objects *)

Definition in_range (l : list Z) : Prop := Forall (fun d => 0 <= d < BASE) l.

(** The magnitude and the value an object stands for. *)
Definition mag (z : zz_t) : Z := GMP.mpn_val (firstn (size z) (digits z)).

Definition zz_val (z : zz_t) : Z := if negative z then - mag z else mag z.

(** The buffer is as long as the capacity says, the digits fit in it, and
    they are 64-bit words. *)
Definition wf (z : zz_t) : Prop :=
  length (digits z) = alloc z
  /\ (size z <= alloc z)%nat
  /\ in_range (firstn (size z) (digits z)).

(** Canonical form: no leading zero word, and no negative zero. *)
Definition canonical (z : zz_t) : Prop :=
  wf z
  /\ (size z = 0%nat -> negative z = false)
  /\ (size z <> 0%nat -> GMP.top (firstn (size z) (digits z)) <> 0).

(** The same, as a test. *)
Definition canonicalb (z : zz_t) : bool :=
  (length (digits z) =? alloc z)%nat
  && (size z <=? alloc z)%nat
  && forallb (fun d => (0 <=? d) && (d <? BASE)) (firstn (size z) (digits z))
  && (if (size z =? 0)%nat then negb (negative z)
      else negb (GMP.top (firstn (size z) (digits z)) =? 0)).


(** What [zz_normalize] leaves of the [n] low words of [l]: the count of
    words up to the last non-zero one. *)
Fixpoint strip (n : nat) (l : list Z) : nat :=
  match n with
  | O => O
  | S k => if nth k l 0 =? 0 then strip k l else S k
  end.

Definition normalized (z : zz_t) : zz_t :=
  let k := strip (size z) (digits z) in
  mk_zz (if (k =? 0)%nat then false else negative z) (alloc z) k (digits z).


(** [writes w m m' z']: the store [m'] is [m] with the object at [w] replaced
    by [z']; what is left of the uninitialised words may differ. *)
Definition writes (w : ptr) (m m' : mem) (z' : zz_t) : Prop :=
  objs m' = list_set (objs m) w z'.

(** What [zz_resize n] makes of an object [z]: the count is [n], the buffer
    has room for it and starts with the words it had. *)
Definition resized (n : nat) (z z' : zz_t) : Prop :=
  size z' = n
  /\ negative z' = (if (n =? 0)%nat then false else negative z)
  /\ length (digits z') = alloc z'
  /\ (n <= alloc z')%nat
  /\ firstn (length (digits z)) (digits z') = digits z.

(** Two objects holding the same number in the same way. *)
Definition same_number (a b : zz_t) : Prop :=
  size a = size b
  /\ negative a = negative b
  /\ firstn (size a) (digits a) = firstn (size b) (digits b).


(** The bit length of an object, as [zz_bitlen] computes it:
    [mpn_sizeinbase] in base 2 of the digits, and 0 for zero. *)
Definition zz_bitlen (z : zz_t) : Z :=
  if (size z =? 0)%nat then 0
  else GMP.mpn_sizeinbase_2 (firstn (size z) (digits z)).


(** [frame S m m']: the stores [m] and [m'] hold the same objects outside
    the addresses in [S]. *)
Definition frame (S : list ptr) (m m' : mem) : Prop :=
  length (objs m') = length (objs m)
  /\ forall p, ~ In p S -> nth_error (objs m') p = nth_error (objs m) p.


(** * Properties *)

(** ** Reading and writing the store *)

Definition get (m : mem) (p : ptr) : option zz_t := nth_error (objs m) p.

Definition upd (m : mem) (p : ptr) (z : zz_t) : mem :=
  mk_mem (list_set (objs m) p z) (junk m).

Lemma list_set_length {A : Type} (l : list A) i x :
  length (list_set l i x) = length l.
Proof.
  revert i; induction l as [|h t IH]; intros [|j]; simpl; auto.
Qed.

Lemma nth_error_list_set_same {A : Type} (l : list A) i x :
  (i < length l)%nat -> nth_error (list_set l i x) i = Some x.
Proof.
  revert i; induction l as [|h t IH]; intros [|j] H; simpl in *;
    try lia; auto.
  apply IH; lia.
Qed.

Lemma nth_error_list_set_other {A : Type} (l : list A) i j x :
  i <> j -> nth_error (list_set l i x) j = nth_error l j.
Proof.
  revert i j; induction l as [|h t IH]; intros [|i] [|j] H; simpl;
    auto; try congruence.
Qed.

Lemma list_set_twice {A : Type} (l : list A) i x y :
  list_set (list_set l i x) i y = list_set l i y.
Proof.
  revert i; induction l as [|h t IH]; intros [|j]; simpl; auto.
  now rewrite IH.
Qed.

Lemma list_set_nth_error {A : Type} (l : list A) i x :
  nth_error l i = Some x -> list_set l i x = l.
Proof.
  revert i; induction l as [|h t IH]; intros [|j] H; simpl in *;
    try congruence.
  now rewrite IH.
Qed.

Lemma get_valid m p z : get m p = Some z -> (p < length (objs m))%nat.
Proof.
  unfold get; intros H. apply nth_error_Some. congruence.
Qed.

Lemma get_upd_same m p z z0 :
  get m p = Some z0 -> get (upd m p z) p = Some z.
Proof.
  intros H. unfold get, upd; simpl.
  apply nth_error_list_set_same. eapply get_valid; eauto.
Qed.

Lemma get_upd_other m p q z : p <> q -> get (upd m p z) q = get m q.
Proof.
  intros H. unfold get, upd; simpl. now apply nth_error_list_set_other.
Qed.

Lemma upd_upd m p a b : upd (upd m p a) p b = upd m p b.
Proof.
  unfold upd; simpl. now rewrite list_set_twice.
Qed.

Lemma upd_same m p z : get m p = Some z -> upd m p z = m.
Proof.
  unfold get, upd; intros H. destruct m as [o j]; simpl in *.
  now rewrite list_set_nth_error.
Qed.

Lemma load_run m p z : get m p = Some z -> load p m = Some (z, m).
Proof.
  unfold load, get. now intros ->.
Qed.

Lemma store_run m p z z0 :
  get m p = Some z0 -> store p z m = Some (tt, upd m p z).
Proof.
  intros H. unfold store.
  apply get_valid in H. apply Nat.ltb_lt in H. now rewrite H.
Qed.

(** A step that rewrites one object in place. *)
Lemma modify_run (f : zz_t -> zz_t) m p z :
  get m p = Some z ->
  (x <- load p ;; store p (f x)) m = Some (tt, upd m p (f z)).
Proof.
  intros H. unfold bind. rewrite (load_run _ _ _ H).
  now apply store_run with z.
Qed.

Lemma SETNEG_run m u z b :
  get m u = Some z -> SETNEG b u m = Some (tt, upd m u (set_negative b z)).
Proof. apply modify_run. Qed.

Lemma SETALLOC_run m u z n :
  get m u = Some z -> SETALLOC n u m = Some (tt, upd m u (set_alloc n z)).
Proof. apply modify_run. Qed.

Lemma put_size_run m u z n :
  get m u = Some z -> put_size n u m = Some (tt, upd m u (set_size n z)).
Proof. apply modify_run. Qed.

Lemma ISNEG_run m u z : get m u = Some z -> ISNEG u m = Some (negative z, m).
Proof.
  intros H. unfold ISNEG, bind. now rewrite (load_run _ _ _ H).
Qed.

Lemma GETALLOC_run m u z : get m u = Some z -> GETALLOC u m = Some (alloc z, m).
Proof.
  intros H. unfold GETALLOC, bind. now rewrite (load_run _ _ _ H).
Qed.

Lemma get_size_run m u z : get m u = Some z -> get_size u m = Some (size z, m).
Proof.
  intros H. unfold get_size, bind. now rewrite (load_run _ _ _ H).
Qed.

Lemma bind_run {A B : Type} (c : M A) (k : A -> M B) m a m' :
  c m = Some (a, m') -> bind c k m = k a m'.
Proof.
  intros H. unfold bind. now rewrite H.
Qed.

Lemma bind_bind {A B C : Type} (c : M A) (k1 : A -> M B) (k2 : B -> M C) m :
  bind (bind c k1) k2 m = bind c (fun x => bind (k1 x) k2) m.
Proof.
  unfold bind. destruct (c m) as [[a m']|]; reflexivity.
Qed.

Lemma bind_ret {A B : Type} (a : A) (k : A -> M B) m :
  bind (ret a) k m = k a m.
Proof. reflexivity. Qed.

Ltac mred := cbv beta; cbn [is_err negb fst snd].

(** One step of a run: the first call of the sequence is replaced by its
    result, given by the lemma [lem]. *)
Ltac mrun lem :=
  mred; rewrite ?bind_bind;
  erewrite bind_run by (eapply lem; eauto);
  mred.

Ltac mret := mred; rewrite ?bind_bind, ?bind_ret; mred.

(** ** Negation and absolute value in place *)

(** C10. When the output is the input object itself ([v == u]), [zz_neg] and
    [zz_abs] return [ZZ_OK] and change nothing but the sign field: the digit
    array, the digit count and the capacity of the object are as before and
    so is every other object; [zz_abs] clears the sign, [zz_neg] flips it
    when the digit count is positive and leaves it as it is (so cleared, for
    a zero) when the digit count is 0. *)
Theorem zz_neg_abs_in_place (m : mem) (u : ptr) (z : zz_t) :
  get m u = Some z ->
  zz_neg u u m
    = Some (ZZ_OK,
            upd m u (mk_zz (if (size z =? 0)%nat then negative z
                            else negb (negative z))
                           (alloc z) (size z) (digits z)))
  /\ zz_abs u u m
    = Some (ZZ_OK, upd m u (mk_zz false (alloc z) (size z) (digits z))).
Proof.
  intros H. split.
  - unfold zz_neg. rewrite Nat.eqb_refl. mret.
    mrun get_size_run.
    destruct (size z =? 0)%nat eqn:E; mret.
    + unfold ret. rewrite <- (upd_same m u z) at 1 by auto.
      now destruct z.
    + mrun ISNEG_run. mrun SETNEG_run. reflexivity.
  - unfold zz_abs. rewrite Nat.eqb_refl. mret.
    mrun SETNEG_run. reflexivity.
Qed.

(** The store of the examples: a zero, the value -5 with a spare word of
    capacity, and -1. *)
Definition mem_example : mem :=
  mk_mem [mk_zz false 0 0 []; mk_zz true 2 1 [5; 7]; mk_zz true 1 1 [1]]
         [].

Lemma zz_neg_abs_in_place_witness :
  (zz_neg 1 1 mem_example
    = Some (ZZ_OK, upd mem_example 1 (mk_zz false 2 1 [5; 7]))
   /\ zz_abs 1 1 mem_example
    = Some (ZZ_OK, upd mem_example 1 (mk_zz false 2 1 [5; 7])))
  /\ (zz_neg 0 0 mem_example
    = Some (ZZ_OK, upd mem_example 0 (mk_zz false 0 0 []))
   /\ zz_abs 0 0 mem_example
    = Some (ZZ_OK, upd mem_example 0 (mk_zz false 0 0 []))).
Proof.
  split.
  - apply (zz_neg_abs_in_place mem_example 1%nat (mk_zz true 2 1 [5; 7])).
    reflexivity.
  - apply (zz_neg_abs_in_place mem_example 0%nat (mk_zz false 0 0 [])).
    reflexivity.
Defined.

(** ** Words and the numbers they denote *)

Import GMP.

Lemma BASE_pos : 0 < BASE.
Proof. reflexivity. Qed.

Lemma BASE_pow_pos n : 0 < Bpow n.
Proof. unfold Bpow. apply Z.pow_pos_nonneg; [reflexivity | lia]. Qed.

Lemma BASE_pow_0 : Bpow 0 = 1.
Proof. reflexivity. Qed.

Lemma BASE_pow_succ n : Bpow (S n) = BASE * Bpow n.
Proof. unfold Bpow. rewrite Nat2Z.inj_succ, Z.pow_succ_r; lia. Qed.

Lemma BASE_pow_add a b :
  Bpow (a + b) = Bpow a * Bpow b.
Proof. unfold Bpow. rewrite Nat2Z.inj_add, Z.pow_add_r; lia. Qed.

Lemma BASE_pow_le a b : (a <= b)%nat -> Bpow a <= Bpow b.
Proof.
  intros H. unfold Bpow. apply Z.pow_le_mono_r; [reflexivity | lia].
Qed.

Lemma in_range_app a b : in_range (a ++ b) <-> in_range a /\ in_range b.
Proof. apply Forall_app. Qed.

Lemma in_range_firstn n l : in_range l -> in_range (firstn n l).
Proof.
  intros H. rewrite <- (firstn_skipn n l) in H.
  now apply in_range_app in H.
Qed.

Lemma in_range_skipn n l : in_range l -> in_range (skipn n l).
Proof.
  intros H. rewrite <- (firstn_skipn n l) in H.
  now apply in_range_app in H.
Qed.

Lemma mpn_val_bound l : in_range l -> 0 <= mpn_val l < Bpow (length l).
Proof.
  induction 1 as [|d r Hd Hr IH]; cbn [mpn_val length].
  - rewrite BASE_pow_0. lia.
  - rewrite BASE_pow_succ. pose proof BASE_pos. nia.
Qed.

Lemma mpn_val_app a b :
  mpn_val (a ++ b) = mpn_val a + Bpow (length a) * mpn_val b.
Proof.
  induction a as [|d r IH]; cbn [mpn_val length app].
  - rewrite BASE_pow_0. lia.
  - rewrite IH, BASE_pow_succ. ring.
Qed.

Lemma limbs_length n x : length (limbs n x) = n.
Proof.
  revert x; induction n as [|n IH]; intros x; simpl; auto.
Qed.

Lemma limbs_in_range n x : in_range (limbs n x).
Proof.
  unfold in_range.
  revert x; induction n as [|n IH]; intros x; cbn [limbs].
  - constructor.
  - constructor; [apply Z.mod_pos_bound; reflexivity | apply IH].
Qed.

Lemma mpn_val_limbs n x : mpn_val (limbs n x) = x mod Bpow n.
Proof.
  revert x; induction n as [|n IH]; intros x.
  - rewrite BASE_pow_0. simpl. now rewrite Z.mod_1_r.
  - cbn [limbs mpn_val]. rewrite IH, BASE_pow_succ.
    pose proof (BASE_pow_pos n). pose proof BASE_pos.
    rewrite Z.rem_mul_r by lia.
    reflexivity.
Qed.

Lemma mpn_val_limbs_small n x :
  0 <= x < Bpow n -> mpn_val (limbs n x) = x.
Proof.
  intros H. rewrite mpn_val_limbs. now apply Z.mod_small.
Qed.

Lemma limbs_mpn_val l : in_range l -> limbs (length l) (mpn_val l) = l.
Proof.
  induction 1 as [|d r Hd Hr IH]; cbn [mpn_val length limbs]; auto.
  pose proof BASE_pos.
  replace (d + BASE * mpn_val r) with (d + mpn_val r * BASE) by ring.
  f_equal.
  - rewrite Z.mod_add by lia. now apply Z.mod_small.
  - rewrite Z.div_add by lia.
    rewrite Z.div_small by assumption. rewrite Z.add_0_l. apply IH.
Qed.

Lemma mpn_val_inj a b :
  in_range a -> in_range b -> length a = length b ->
  mpn_val a = mpn_val b -> a = b.
Proof.
  intros Ha Hb Hl Hv.
  rewrite <- (limbs_mpn_val a Ha), <- (limbs_mpn_val b Hb).
  now rewrite Hl, Hv.
Qed.

Lemma mpn_val_snoc l d : mpn_val (l ++ [d]) = mpn_val l + Bpow (length l) * d.
Proof.
  rewrite mpn_val_app. cbn [mpn_val]. ring.
Qed.

Lemma top_snoc l d : top (l ++ [d]) = d.
Proof. unfold top. apply last_last. Qed.

Lemma top_nil : top [] = 0.
Proof. reflexivity. Qed.

(** A list of [n > 0] words taken apart at its most significant word. *)
Lemma list_unsnoc (l : list Z) :
  l <> [] -> l = removelast l ++ [top l].
Proof.
  intros H. unfold top. now apply app_removelast_last.
Qed.

Lemma in_range_top l : in_range l -> 0 <= top l < BASE.
Proof.
  intros H. destruct l as [|d r].
  - simpl. unfold top, BASE; simpl. lia.
  - rewrite (list_unsnoc (d :: r)) in H by discriminate.
    apply in_range_app in H. destruct H as [_ H]. now inversion H.
Qed.

(** A number whose most significant word is not zero fills its words. *)
Lemma mpn_val_top_lower l :
  in_range l -> top l <> 0 -> Bpow (length l - 1) <= mpn_val l.
Proof.
  intros H Ht. destruct l as [|d r].
  - now elim Ht.
  - pose proof (in_range_top _ H) as Hb.
    rewrite (list_unsnoc (d :: r)) in * by discriminate.
    set (a := removelast (d :: r)) in *. set (t := top (d :: r)) in *.
    apply in_range_app in H. destruct H as [Ha _].
    rewrite top_snoc in *.
    rewrite mpn_val_snoc, length_app. cbn [length].
    replace (length a + 1 - 1)%nat with (length a) by lia.
    pose proof (mpn_val_bound a Ha). pose proof (BASE_pow_pos (length a)).
    nia.
Qed.

Lemma mpn_val_top_zero l :
  in_range l -> l <> [] -> top l = 0 ->
  mpn_val l = mpn_val (removelast l).
Proof.
  intros H Hn Ht. rewrite (list_unsnoc l Hn) at 1.
  rewrite mpn_val_snoc, Ht. ring.
Qed.

Lemma mpn_val_pos_top l : in_range l -> top l <> 0 -> 0 < mpn_val l.
Proof.
  intros H Ht. pose proof (mpn_val_top_lower l H Ht).
  pose proof (BASE_pow_pos (length l - 1)). lia.
Qed.

Lemma top_limbs n x : top (limbs (S n) x) = (x / Bpow n) mod BASE.
Proof.
  revert x; induction n as [|n IH]; intros x.
  - cbn [limbs]. unfold top; cbn [last].
    now rewrite BASE_pow_0, Z.div_1_r.
  - change (limbs (S (S n)) x) with (x mod BASE :: limbs (S n) (x / BASE)).
    unfold top in *. cbn [last].
    destruct (limbs (S n) (x / BASE)) eqn:E; [discriminate|].
    rewrite <- E, IH, BASE_pow_succ.
    rewrite Z.div_div by (pose proof (BASE_pow_pos n); pose proof BASE_pos; lia).
    reflexivity.
Qed.

Lemma nlimbs_zero x : x <= 0 -> nlimbs x = 0%nat.
Proof.
  intros H. unfold nlimbs. apply Z.leb_le in H. now rewrite H.
Qed.

Lemma nlimbs_pos x : 0 < x -> nlimbs x = S (Z.to_nat (Z.log2 x / 64)).
Proof.
  intros H. unfold nlimbs. destruct (Z.leb_spec x 0); [lia | reflexivity].
Qed.

Lemma BASE_pow_2 n : Bpow n = 2 ^ (64 * Z.of_nat n).
Proof.
  unfold Bpow, BASE. rewrite <- Z.pow_mul_r by lia. reflexivity.
Qed.

Lemma nlimbs_upper x : 0 <= x -> x < Bpow (nlimbs x).
Proof.
  intros H. destruct (Z.eq_dec x 0) as [->|Hx].
  - rewrite nlimbs_zero by lia. rewrite BASE_pow_0. lia.
  - rewrite nlimbs_pos by lia. rewrite BASE_pow_2.
    pose proof (Z.log2_nonneg x) as Hl.
    rewrite Nat2Z.inj_succ, Z2Nat.id by (apply Z.div_pos; lia).
    apply Z.log2_lt_pow2; [lia|].
    pose proof (Z.mod_pos_bound (Z.log2 x) 64 ltac:(lia)).
    pose proof (Z.div_mod (Z.log2 x) 64 ltac:(lia)). lia.
Qed.

Lemma nlimbs_lower x : 0 < x -> Bpow (nlimbs x - 1) <= x.
Proof.
  intros H. rewrite nlimbs_pos by lia.
  replace (S (Z.to_nat (Z.log2 x / 64)) - 1)%nat
    with (Z.to_nat (Z.log2 x / 64)) by lia.
  rewrite BASE_pow_2.
  pose proof (Z.log2_nonneg x) as Hl.
  rewrite Z2Nat.id by (apply Z.div_pos; lia).
  apply Z.log2_le_pow2; [lia|].
  pose proof (Z.mod_pos_bound (Z.log2 x) 64 ltac:(lia)).
  pose proof (Z.div_mod (Z.log2 x) 64 ltac:(lia)). lia.
Qed.

Lemma nlimbs_le x n : 0 <= x < Bpow n -> (nlimbs x <= n)%nat.
Proof.
  intros [H0 H1]. destruct (Z.eq_dec x 0) as [->|Hx].
  - rewrite nlimbs_zero; lia.
  - pose proof (nlimbs_lower x ltac:(lia)) as Hl.
    destruct (Nat.le_gt_cases (nlimbs x) n) as [|Hgt]; auto.
    pose proof (BASE_pow_le n (nlimbs x - 1) ltac:(lia)). lia.
Qed.

Lemma nlimbs_ge x n : Bpow n <= x -> (n < nlimbs x)%nat.
Proof.
  intros H. pose proof (BASE_pow_pos n).
  pose proof (nlimbs_upper x ltac:(lia)) as Hu.
  destruct (Nat.le_gt_cases (nlimbs x) n) as [Hle|]; auto.
  pose proof (BASE_pow_le _ _ Hle). lia.
Qed.

Lemma mpn_val_nlimbs x : 0 <= x -> mpn_val (limbs (nlimbs x) x) = x.
Proof.
  intros H. apply mpn_val_limbs_small. split; auto. now apply nlimbs_upper.
Qed.

Lemma top_limbs_nlimbs x : 0 < x -> top (limbs (nlimbs x) x) <> 0.
Proof.
  intros H. pose proof (nlimbs_lower x H) as Hl.
  pose proof (nlimbs_upper x ltac:(lia)) as Hu.
  rewrite nlimbs_pos in * by lia.
  set (n := Z.to_nat (Z.log2 x / 64)) in *.
  replace (S n - 1)%nat with n in Hl by lia.
  rewrite top_limbs. rewrite BASE_pow_succ in Hu.
  pose proof (BASE_pow_pos n). pose proof BASE_pos.
  rewrite Z.mod_small.
  - intros E. apply Z.div_small_iff in E; lia.
  - split; [apply Z.div_pos; lia|].
    apply Z.div_lt_upper_bound; lia.
Qed.

Lemma nlimbs_mpn_val l :
  in_range l -> top l <> 0 -> nlimbs (mpn_val l) = length l.
Proof.
  intros H Ht.
  pose proof (mpn_val_top_lower l H Ht) as Hl.
  pose proof (mpn_val_bound l H) as Hb.
  pose proof (nlimbs_le (mpn_val l) (length l) Hb).
  pose proof (nlimbs_ge _ _ Hl).
  destruct l; [now elim Ht|]. cbn [length] in *. lia.
Qed.

(** ** Facts about values and invariants *)

Lemma canonicalb_spec z : canonicalb z = true -> canonical z.
Proof.
  unfold canonicalb, canonical, wf.
  rewrite !andb_true_iff. intros [[[H1 H2] H3] H4].
  apply Nat.eqb_eq in H1. apply Nat.leb_le in H2.
  repeat split; auto.
  - unfold in_range. apply Forall_forall. intros d Hd.
    rewrite forallb_forall in H3. specialize (H3 d Hd).
    apply andb_true_iff in H3. destruct H3 as [Ha Hb].
    apply Z.leb_le in Ha. apply Z.ltb_lt in Hb. lia.
  - intros E. rewrite E in H4. simpl in H4. now destruct (negative z).
  - intros E. apply Nat.eqb_neq in E. rewrite E in H4.
    apply negb_true_iff in H4. now apply Z.eqb_neq in H4.
Qed.

Lemma mag_nonneg z : wf z -> 0 <= mag z.
Proof.
  intros (_ & _ & H). unfold mag. now apply mpn_val_bound.
Qed.

Lemma firstn_size_length z : wf z -> length (firstn (size z) (digits z)) = size z.
Proof.
  intros (H1 & H2 & _). rewrite length_firstn. lia.
Qed.

Lemma mag_zero_size z : canonical z -> (mag z = 0 <-> size z = 0%nat).
Proof.
  intros (Hw & _ & Ht). split.
  - intros E. destruct (Nat.eq_dec (size z) 0) as [|Hn]; auto.
    pose proof (mpn_val_pos_top _ (proj2 (proj2 Hw)) (Ht Hn)).
    unfold mag in E. lia.
  - intros E. unfold mag. now rewrite E.
Qed.

Lemma zz_val_sign z :
  canonical z -> negative z = (zz_val z <? 0).
Proof.
  intros Hc. pose proof (mag_nonneg z (proj1 Hc)) as Hm.
  pose proof (mag_zero_size z Hc) as Hz.
  destruct Hc as (Hw & H0 & Ht). unfold zz_val.
  destruct (negative z) eqn:E.
  - symmetry. apply Z.ltb_lt.
    destruct (Nat.eq_dec (size z) 0) as [Hs|Hs].
    + specialize (H0 Hs). congruence.
    + assert (mag z <> 0) by tauto. lia.
  - symmetry. apply Z.ltb_ge. lia.
Qed.

(** ** Runs of the store primitives *)

Lemma get_digit_run m u z i :
  get m u = Some z -> (i < length (digits z))%nat ->
  get_digit u i m = Some (nth i (digits z) 0, m).
Proof.
  intros H Hi. unfold get_digit. mrun load_run.
  destruct (nth_error (digits z) i) as [d|] eqn:E.
  - now rewrite (nth_error_nth _ _ _ E).
  - apply nth_error_None in E. lia.
Qed.

Lemma put_digit_run m u z i d :
  get m u = Some z -> (i < length (digits z))%nat ->
  put_digit u i d m
    = Some (tt, upd m u (set_digits (list_set (digits z) i d) z)).
Proof.
  intros H Hi. unfold put_digit. mrun load_run.
  apply Nat.ltb_lt in Hi. rewrite Hi. now apply store_run with z.
Qed.

Lemma mpn_load_run m u z off n :
  get m u = Some z -> (off + n <= length (digits z))%nat ->
  mpn_load u off n m = Some (firstn n (skipn off (digits z)), m).
Proof.
  intros H Hn. unfold mpn_load. mrun load_run.
  apply Nat.leb_le in Hn. now rewrite Hn.
Qed.

Lemma mpn_store_run m w z off l :
  get m w = Some z -> (off + length l <= length (digits z))%nat ->
  mpn_store w off l m
    = Some (tt, upd m w (set_digits (firstn off (digits z) ++ l
                                     ++ skipn (off + length l) (digits z)) z)).
Proof.
  intros H Hn. unfold mpn_store. mrun load_run.
  apply Nat.leb_le in Hn. rewrite Hn. now apply store_run with z.
Qed.

Lemma get_upd m p q z z0 :
  get m p = Some z0 ->
  get (upd m p z) q = if (q =? p)%nat then Some z else get m q.
Proof.
  intros H. destruct (Nat.eqb_spec q p) as [->|Hn].
  - eapply get_upd_same; eauto.
  - apply get_upd_other. auto.
Qed.

(** ** [zz_normalize] *)

Lemma strip_le n l : (strip n l <= n)%nat.
Proof.
  induction n as [|n IH]; simpl; auto.
  destruct (nth n l 0 =? 0); lia.
Qed.

Lemma zz_normalize_loop_run fuel m u z :
  get m u = Some z -> (size z <= fuel)%nat ->
  (size z <= length (digits z))%nat ->
  zz_normalize_loop fuel u m
    = Some (tt, upd m u (set_size (strip (size z) (digits z)) z)).
Proof.
  revert m z. induction fuel as [|fuel IH]; intros m z H Hf Hl.
  - assert (size z = 0%nat) as E by lia. cbn [zz_normalize_loop].
    unfold ret. rewrite E. cbn [strip].
    rewrite <- (upd_same m u z) at 1 by auto.
    destruct z; simpl in *; now subst.
  - cbn [zz_normalize_loop]. mrun get_size_run.
    destruct (size z) as [|k] eqn:E.
    + cbn [Nat.eqb strip]. unfold ret.
      rewrite <- (upd_same m u z) at 1 by auto.
      destruct z; simpl in *; now subst.
    + cbn [Nat.eqb]. replace (S k - 1)%nat with k by lia.
      mrun get_digit_run. cbn [strip].
      destruct (nth k (digits z) 0 =? 0) eqn:Ed.
      * mrun put_size_run.
        rewrite (IH _ (set_size k z));
          [ | eapply get_upd_same; eauto
            | cbn [size set_size]; lia | cbn [size set_size digits]; lia ].
        rewrite upd_upd. reflexivity.
      * unfold ret. rewrite <- (upd_same m u z) at 1 by auto.
        destruct z; simpl in *; now subst.
Qed.

Lemma zz_normalize_run m u z :
  get m u = Some z -> (size z <= length (digits z))%nat ->
  zz_normalize u m = Some (tt, upd m u (normalized z)).
Proof.
  intros H Hl. unfold zz_normalize. mrun get_size_run.
  mrun zz_normalize_loop_run.
  erewrite bind_run
    by (eapply get_size_run; eapply get_upd_same; eauto).
  cbn [size set_size]. unfold normalized.
  destruct (strip (size z) (digits z) =? 0)%nat eqn:E.
  - erewrite SETNEG_run by (eapply get_upd_same; eauto).
    now rewrite upd_upd.
  - reflexivity.
Qed.

Lemma firstn_succ_snoc (l : list Z) n :
  (n < length l)%nat -> firstn (S n) l = firstn n l ++ [nth n l 0].
Proof.
  revert n; induction l as [|h t IH]; intros [|n] H; simpl in *;
    try lia; auto.
  f_equal. apply IH. lia.
Qed.

Lemma strip_val n l :
  mpn_val (firstn (strip n l) l) = mpn_val (firstn n l).
Proof.
  induction n as [|n IH]; cbn [strip]; auto.
  destruct (Z.eqb_spec (nth n l 0) 0) as [E|E]; auto.
  rewrite IH.
  destruct (Nat.lt_ge_cases n (length l)) as [Hlt|Hge].
  - rewrite (firstn_succ_snoc _ n Hlt), mpn_val_snoc, E. lia.
  - now rewrite !firstn_all2 by lia.
Qed.

Lemma firstn_S_top (l : list Z) n :
  (n < length l)%nat -> top (firstn (S n) l) = nth n l 0.
Proof.
  intros H. rewrite (firstn_succ_snoc _ n H). apply top_snoc.
Qed.

Lemma strip_top n l :
  (n <= length l)%nat -> strip n l <> 0%nat ->
  top (firstn (strip n l) l) <> 0.
Proof.
  induction n as [|n IH]; cbn [strip]; intros Hl Hs; [lia|].
  destruct (Z.eqb_spec (nth n l 0) 0) as [E|E].
  - apply IH; auto; lia.
  - rewrite firstn_S_top by lia. auto.
Qed.

Lemma in_range_firstn_le (l : list Z) a b :
  (a <= b)%nat -> in_range (firstn b l) -> in_range (firstn a l).
Proof.
  intros H Hb. replace a with (Nat.min a b) by lia.
  rewrite <- firstn_firstn. now apply in_range_firstn.
Qed.

Lemma normalized_canonical z : wf z -> canonical (normalized z).
Proof.
  intros (H1 & H2 & H3). pose proof (strip_le (size z) (digits z)) as Hs.
  unfold canonical, wf, normalized; cbn [size digits alloc negative].
  repeat split; auto; try lia.
  - eapply in_range_firstn_le; eauto.
  - intros E. now rewrite E.
  - intros E. apply strip_top; auto. lia.
Qed.

Lemma normalized_mag z : mag (normalized z) = mag z.
Proof.
  unfold mag, normalized; cbn [size digits]. apply strip_val.
Qed.

Lemma normalized_val z : wf z -> zz_val (normalized z) = zz_val z.
Proof.
  intros Hw. unfold zz_val. rewrite normalized_mag.
  unfold normalized at 1; cbn [negative].
  destruct (Nat.eqb_spec (strip (size z) (digits z)) 0) as [E|E]; auto.
  assert (mag z = 0) as Hz.
  { rewrite <- normalized_mag. unfold mag, normalized; cbn [size digits].
    now rewrite E. }
  rewrite Hz. now destruct (negative z).
Qed.

(** ** Stores that differ in one object *)

Lemma writes_upd w m z0 z : get m w = Some z0 -> writes w m (upd m w z) z.
Proof. reflexivity. Qed.

Lemma writes_get w m m' z' z0 :
  writes w m m' z' -> get m w = Some z0 -> get m' w = Some z'.
Proof.
  unfold writes, get. intros -> H.
  apply nth_error_list_set_same. apply nth_error_Some. congruence.
Qed.

Lemma writes_other w m m' z' p :
  writes w m m' z' -> p <> w -> get m' p = get m p.
Proof.
  unfold writes, get. intros -> H.
  apply nth_error_list_set_other. auto.
Qed.

Lemma writes_length w m m' z' :
  writes w m m' z' -> length (objs m') = length (objs m).
Proof.
  unfold writes. intros ->. apply list_set_length.
Qed.

Lemma writes_trans w m m1 m2 z1 z2 :
  writes w m m1 z1 -> writes w m1 m2 z2 -> writes w m m2 z2.
Proof.
  unfold writes. intros H1 H2. rewrite H2, H1. apply list_set_twice.
Qed.

Lemma writes_then_upd w m m1 z1 z2 :
  writes w m m1 z1 -> writes w m (upd m1 w z2) z2.
Proof.
  intros H. eapply writes_trans; eauto. reflexivity.
Qed.

Lemma writes_refl w m z : get m w = Some z -> writes w m m z.
Proof.
  unfold writes, get. intros H. symmetry. now apply list_set_nth_error.
Qed.

(** ** [zz_resize] *)

Lemma resized_wf n z z' :
  resized n z z' -> in_range (firstn n (digits z')) -> wf z'.
Proof.
  intros (H1 & H2 & H3 & H4 & H5) Hr. unfold wf. rewrite H1. auto.
Qed.

Lemma zz_resize_run m u z n :
  get m u = Some z -> length (digits z) = alloc z ->
  exists m' z',
    zz_resize n u m = Some (ZZ_OK, m')
    /\ writes u m m' z' /\ resized n z z'.
Proof.
  intros H Hl. unfold zz_resize. mrun GETALLOC_run.
  destruct (Nat.leb_spec n (alloc z)) as [Hle|Hgt].
  - mrun put_size_run.
    erewrite bind_run by (eapply get_size_run; eapply get_upd_same; eauto).
    cbn [size set_size].
    destruct (Nat.eqb_spec n 0) as [->|Hn].
    + erewrite bind_run by (eapply SETNEG_run; eapply get_upd_same; eauto).
      rewrite upd_upd. eexists _, _. split; [reflexivity|].
      split; [eapply writes_upd; eauto|].
      unfold resized; cbn. rewrite <- Hl, firstn_all.
      repeat split; auto; lia.
    + mret. eexists _, _. split; [reflexivity|].
      split; [eapply writes_upd; eauto|].
      unfold resized; cbn.
      destruct (Nat.eqb_spec n 0); [lia|].
      rewrite <- Hl, firstn_all. repeat split; auto; lia.
  - mrun load_run. unfold realloc, fresh_words.
    rewrite bind_bind. unfold bind at 1. cbv beta iota. rewrite bind_ret.
    set (m1 := mk_mem (objs m) (skipn (n - length (digits z)) (junk m))).
    assert (get m1 u = Some z) as H1 by exact H.
    mrun store_run.
    erewrite bind_run by (eapply SETALLOC_run; eapply get_upd_same; eauto).
    rewrite upd_upd.
    erewrite bind_run by (eapply put_size_run; eapply get_upd_same; eauto).
    rewrite upd_upd. mret.
    eexists _, _. split; [reflexivity|].
    split; [reflexivity|].
    unfold resized; cbn.
    destruct (Nat.eqb_spec n 0); [lia|].
    rewrite firstn_all2 by lia.
    rewrite length_app, length_firstn, length_app, repeat_length.
    rewrite firstn_app, firstn_all, Nat.sub_diag. cbn [firstn].
    rewrite app_nil_r.
    repeat split; auto; lia.
Qed.

Lemma resized_prefix n z z' k :
  resized n z z' -> (k <= length (digits z))%nat ->
  firstn k (digits z') = firstn k (digits z).
Proof.
  intros (_ & _ & _ & _ & H) Hk.
  rewrite <- H. rewrite firstn_firstn.
  now replace (Nat.min k (length (digits z))) with k by lia.
Qed.

Lemma resized_length n z z' :
  resized n z z' -> (length (digits z) <= length (digits z'))%nat.
Proof.
  intros (_ & _ & _ & _ & H).
  rewrite <- H at 1. rewrite length_firstn. lia.
Qed.

(** Looking an object up in a store built by [upd] and [writes] steps. *)
Ltac mget :=
  first
    [ eassumption
    | eapply get_upd_same; mget
    | rewrite get_upd_other by (first [assumption | congruence | lia]); mget
    | eapply writes_get; [eassumption | mget]
    | erewrite writes_other by (first [eassumption | congruence | lia]); mget ].

Ltac mstep lem :=
  mred; rewrite ?bind_bind;
  (erewrite bind_run; [ | eapply lem; try first [mget | lia ] ]);
  mred; rewrite ?upd_upd.

(** ** Construction from machine integers *)

Lemma firstn_1_list_set (l : list Z) d :
  l <> [] -> firstn 1 (list_set l 0 d) = [d].
Proof. destruct l; [congruence | reflexivity]. Qed.

Lemma ABS_CAST_small x : - BASE < x < BASE -> ABS_CAST x = Z.abs x.
Proof.
  intros H. unfold ABS_CAST. apply Z.mod_small. lia.
Qed.

Lemma zz_set_i64_run m v z x :
  get m v = Some z -> length (digits z) = alloc z -> - BASE < x < BASE ->
  exists m' z',
    zz_set_i64 x v m = Some (ZZ_OK, m')
    /\ writes v m m' z' /\ canonical z' /\ zz_val z' = x.
Proof.
  intros H Hl Hx. unfold zz_set_i64.
  destruct (Z.eqb_spec x 0) as [->|Hn].
  - mstep put_size_run. mstep SETNEG_run. mret.
    eexists _, _. split; [reflexivity|]. split; [eapply writes_upd; eauto|].
    split; [|reflexivity].
    unfold canonical, wf; cbn. repeat split; auto; try lia. constructor.
  - unfold guard.
    destruct (zz_resize_run m v z 1 H Hl) as (m1 & z1 & Hr & Hw & Hz).
    mstep Hr. mstep SETNEG_run.
    pose proof Hz as (Hs & Hg & Hlen & Hcap & Hpre).
    assert (digits z1 <> []) as Hne
      by (intros E; rewrite E in Hlen; simpl in Hlen; lia).
    mstep put_digit_run.
    2: { cbn [digits set_negative].
         destruct (digits z1); [congruence | simpl; lia]. }
    mret. eexists _, _. split; [reflexivity|].
    split; [eapply writes_then_upd; eauto|].
    rewrite ABS_CAST_small by auto.
    unfold canonical, wf, zz_val, mag;
      cbn [size digits alloc negative set_digits set_negative].
    rewrite Hs, list_set_length, firstn_1_list_set by auto.
    unfold top; cbn [last mpn_val].
    repeat split; auto; try lia.
    + constructor; [lia | constructor].
    + destruct (Z.ltb_spec x 0); lia.
Qed.

Lemma zz_set_i32_run m v z x :
  get m v = Some z -> length (digits z) = alloc z -> INT32_MIN < x < BASE ->
  exists m' z',
    zz_set_i32 x v m = Some (ZZ_OK, m')
    /\ writes v m m' z' /\ canonical z' /\ zz_val z' = x.
Proof.
  intros H Hl Hx. unfold zz_set_i32.
  assert (- BASE < x < BASE) as Hx' by (unfold INT32_MIN, BASE in *; lia).
  destruct (Z.eqb_spec x 0) as [->|Hn].
  - mstep put_size_run. mstep SETNEG_run. mret.
    eexists _, _. split; [reflexivity|]. split; [eapply writes_upd; eauto|].
    split; [|reflexivity].
    unfold canonical, wf; cbn. repeat split; auto; try lia. constructor.
  - unfold guard.
    destruct (zz_resize_run m v z 1 H Hl) as (m1 & z1 & Hr & Hw & Hz).
    mstep Hr. mstep SETNEG_run.
    pose proof Hz as (Hs & Hg & Hlen & Hcap & Hpre).
    assert (digits z1 <> []) as Hne
      by (intros E; rewrite E in Hlen; simpl in Hlen; lia).
    destruct (Z.eqb_spec x INT32_MIN) as [E|_]; [lia|].
    mstep put_digit_run.
    2: { cbn [digits set_negative].
         destruct (digits z1); [congruence | simpl; lia]. }
    mret. eexists _, _. split; [reflexivity|].
    split; [eapply writes_then_upd; eauto|].
    unfold canonical, wf, zz_val, mag;
      cbn [size digits alloc negative set_digits set_negative].
    rewrite Hs, list_set_length, firstn_1_list_set by auto.
    unfold top; cbn [last mpn_val].
    repeat split; auto; try lia.
    + constructor; [lia | constructor].
    + destruct (Z.ltb_spec x 0); lia.
Qed.

(** ** Lists of words: auxiliary facts *)

Lemma mpn_store0_run m w z l :
  get m w = Some z -> (length l <= length (digits z))%nat ->
  mpn_store w 0 l m
    = Some (tt, upd m w (set_digits (l ++ skipn (length l) (digits z)) z)).
Proof.
  intros H Hl. rewrite (mpn_store_run m w z 0 l H) by (simpl; lia).
  reflexivity.
Qed.

Lemma mpn_load0_run m u z n :
  get m u = Some z -> (n <= length (digits z))%nat ->
  mpn_load u 0 n m = Some (firstn n (digits z), m).
Proof.
  intros H Hl. rewrite (mpn_load_run m u z 0 n H) by (simpl; lia).
  reflexivity.
Qed.

Lemma firstn_length_app {A : Type} (a b : list A) :
  firstn (length a) (a ++ b) = a.
Proof.
  rewrite firstn_app, Nat.sub_diag, firstn_all. simpl. apply app_nil_r.
Qed.

Lemma skipn_length_app {A : Type} (a b : list A) :
  skipn (length a) (a ++ b) = b.
Proof.
  rewrite skipn_app, Nat.sub_diag, skipn_all. reflexivity.
Qed.

Lemma list_set_app_r {A : Type} (a b : list A) x :
  list_set (a ++ b) (length a) x = a ++ list_set b 0 x.
Proof.
  induction a as [|h t IH]; simpl; auto. now rewrite IH.
Qed.

Lemma firstn_succ_app (a b : list Z) :
  b <> [] -> firstn (S (length a)) (a ++ b) = a ++ [hd 0 b].
Proof.
  intros H. destruct b as [|e r]; [congruence|].
  rewrite firstn_app, firstn_all2 by lia.
  replace (S (length a) - length a)%nat with 1%nat by lia. reflexivity.
Qed.

Lemma existsb_nonzero l :
  in_range l -> existsb (fun d => negb (d =? 0)) l = negb (mpn_val l =? 0).
Proof.
  induction 1 as [|d r Hd Hr IH]; cbn [existsb mpn_val]; auto.
  rewrite IH. pose proof (mpn_val_bound r Hr) as Hb. pose proof BASE_pos.
  destruct (Z.eqb_spec d 0), (Z.eqb_spec (mpn_val r) 0),
    (Z.eqb_spec (d + BASE * mpn_val r) 0); cbn; auto; nia.
Qed.

Lemma forallb_max l :
  in_range l ->
  forallb (fun d => d =? ZZ_DIGIT_T_MAX) l
    = (mpn_val l =? Bpow (length l) - 1).
Proof.
  induction 1 as [|d r Hd Hr IH]; cbn [forallb mpn_val length].
  - reflexivity.
  - rewrite IH, BASE_pow_succ.
    pose proof (mpn_val_bound r Hr) as Hb. pose proof BASE_pos.
    change ZZ_DIGIT_T_MAX with (BASE - 1).
    destruct (Z.eqb_spec d (BASE - 1)),
      (Z.eqb_spec (mpn_val r) (Bpow (length r) - 1)),
      (Z.eqb_spec (d + BASE * mpn_val r)
                  (BASE * Bpow (length r) - 1));
      cbn; auto; nia.
Qed.

Lemma mpn_val_split n l :
  mpn_val l
    = mpn_val (firstn n l)
      + Bpow (length (firstn n l)) * mpn_val (skipn n l).
Proof.
  rewrite <- mpn_val_app. now rewrite firstn_skipn.
Qed.

(** ** Arithmetic of the shift *)

Lemma shift_div_split vlo vhi w s :
  0 <= vlo < 2 ^ (64 * w) -> 0 <= vhi -> 0 <= w -> 0 <= s ->
  (vlo + 2 ^ (64 * w) * vhi) / 2 ^ (64 * w + s) = vhi / 2 ^ s.
Proof.
  intros Hlo Hhi Hw Hs.
  assert (0 < 2 ^ (64 * w)) by (apply Z.pow_pos_nonneg; lia).
  assert (0 < 2 ^ s) by (apply Z.pow_pos_nonneg; lia).
  rewrite Z.pow_add_r by lia.
  rewrite <- Z.div_div by lia.
  replace (vlo + 2 ^ (64 * w) * vhi) with (vlo + vhi * 2 ^ (64 * w)) by ring.
  rewrite Z.div_add by lia.
  rewrite (Z.div_small vlo) by lia. now rewrite Z.add_0_l.
Qed.

Lemma shift_mod_split vlo vhi w s :
  0 <= vlo < 2 ^ (64 * w) -> 0 <= vhi -> 0 <= w -> 0 <= s ->
  (vlo + 2 ^ (64 * w) * vhi) mod 2 ^ (64 * w + s)
    = vlo + 2 ^ (64 * w) * (vhi mod 2 ^ s).
Proof.
  intros Hlo Hhi Hw Hs.
  assert (0 < 2 ^ (64 * w)) by (apply Z.pow_pos_nonneg; lia).
  assert (0 < 2 ^ s) by (apply Z.pow_pos_nonneg; lia).
  rewrite Z.pow_add_r by lia.
  rewrite Z.rem_mul_r by lia.
  replace (vlo + 2 ^ (64 * w) * vhi) with (vlo + vhi * 2 ^ (64 * w)) by ring.
  rewrite Z.mod_add, Z.div_add by lia.
  rewrite (Z.mod_small vlo), (Z.div_small vlo) by lia.
  now rewrite Z.add_0_l.
Qed.

(** Floor division of a negated number. *)
Lemma div_opp_floor a b :
  0 < b -> (- a) / b = - (a / b + (if a mod b =? 0 then 0 else 1)).
Proof.
  intros Hb. destruct (Z.eqb_spec (a mod b) 0) as [E|E].
  - rewrite Z.div_opp_l_z by lia. lia.
  - rewrite Z.div_opp_l_nz by lia. lia.
Qed.

(** ** [zz_quo_2exp] *)

Lemma canonical_mag_bound z :
  canonical z -> 0 <= mag z < Bpow (size z).
Proof.
  intros (Hw & _). pose proof (firstn_size_length z Hw) as Hl.
  destruct Hw as (_ & _ & Hr). unfold mag.
  pose proof (mpn_val_bound _ Hr) as Hb. now rewrite Hl in Hb.
Qed.

Lemma canonical_mag_pos z : canonical z -> size z <> 0%nat -> 0 < mag z.
Proof.
  intros Hc Hs. pose proof (mag_zero_size z Hc).
  pose proof (canonical_mag_bound z Hc). assert (mag z <> 0) by tauto. lia.
Qed.

Lemma ZZ_DIGITS_MAX_bits n :
  Z.of_nat n <= ZZ_DIGITS_MAX -> Z.of_nat n * ZZ_DIGIT_T_BITS < 2 ^ 64.
Proof.
  unfold ZZ_DIGITS_MAX, ZZ_BITS_MAX, ZZ_DIGIT_T_BITS.
  change ((2 ^ 64 - 1) / 64) with 288230376151711743.
  change (2 ^ 64) with 18446744073709551616. lia.
Qed.

(** The object left by the shift before it is normalised: [n] words [R]
    holding the low part of [X] and, when the extra word was asked for, the
    rest of [X] in it. *)
Lemma quo_2exp_final zf n (extra : bool) R B X :
  size zf = (n + (if extra then 1 else 0))%nat ->
  length (digits zf) = alloc zf -> (size zf <= alloc zf)%nat ->
  digits zf = R ++ B -> R = limbs n X ->
  0 <= X ->
  (if extra then B <> [] /\ hd 0 B = X / Bpow n /\ X / Bpow n < BASE
   else X < Bpow n) ->
  wf zf /\ mag zf = X.
Proof.
  intros Hs Hl Hcap Hd HR HX Hex.
  assert (length R = n) as HlR by (subst R; apply limbs_length).
  pose proof (BASE_pow_pos n) as Hp.
  unfold wf, mag.
  destruct extra.
  - destruct Hex as (HB & Hh & Hlt).
    assert (firstn (size zf) (digits zf) = limbs n X ++ [X / Bpow n])
      as ->.
    { rewrite Hs, Hd. replace (n + 1)%nat with (S (length R)) by lia.
      rewrite firstn_succ_app by auto. now rewrite Hh, HR. }
    rewrite mpn_val_snoc, limbs_length, mpn_val_limbs.
    repeat split; try lia.
    + apply in_range_app. split; [apply limbs_in_range|].
      constructor; [|constructor]. split; [apply Z.div_pos; lia | lia].
    + pose proof (Z.div_mod X (Bpow n) ltac:(lia)). lia.
  - assert (firstn (size zf) (digits zf) = limbs n X) as ->.
    { rewrite Hs, Hd, Nat.add_0_r. rewrite <- HlR at 1.
      rewrite firstn_length_app. auto. }
    rewrite mpn_val_limbs_small by lia.
    repeat split; try lia. apply limbs_in_range.
Qed.

Lemma firstn_app_exact {A : Type} (a b : list A) n :
  length a = n -> firstn n (a ++ b) = a.
Proof. intros <-. apply firstn_length_app. Qed.

Lemma skipn_app_exact {A : Type} (a b : list A) n :
  length a = n -> skipn n (a ++ b) = b.
Proof. intros <-. apply skipn_length_app. Qed.

Lemma list_set_app_exact {A : Type} (a b : list A) n x :
  length a = n -> list_set (a ++ b) n x = a ++ list_set b 0 x.
Proof. intros <-. apply list_set_app_r. Qed.

Lemma hd_list_set_0 (B : list Z) x : B <> [] -> hd 0 (list_set B 0 x) = x.
Proof. destruct B; [congruence | reflexivity]. Qed.

Lemma list_set_0_nonnil (B : list Z) x : B <> [] -> list_set B 0 x <> [].
Proof. destruct B; [congruence | discriminate]. Qed.

(** The end of [zz_quo_2exp], from the point where the shifted words [r],
    of value [T], are in place: the extra word is cleared, the carry is added
    and the result is normalised. *)
Lemma quo_2exp_tail m v z2 n (extra carry : bool) r B T :
  get m v = Some z2 -> digits z2 = r ++ B -> r = limbs n T ->
  0 <= T < Bpow n ->
  size z2 = (n + (if extra then 1 else 0))%nat ->
  length (digits z2) = alloc z2 -> (size z2 <= alloc z2)%nat ->
  (if extra then B <> []
   else T + (if carry then 1 else 0) < Bpow n) ->
  exists z',
    ((if extra then put_digit v n 0 else ret tt) ;;;
     (if carry then
        a <- mpn_load v 0 n ;;
        let (c, r) := mpn_add_1 a 1 in
        mpn_store v 0 r ;;;
        if negb (c =? 0) then put_digit v n 1 else ret tt
      else ret tt) ;;;
     zz_normalize v ;;;
     ret ZZ_OK) m = Some (ZZ_OK, upd m v z')
    /\ canonical z'
    /\ zz_val z'
       = (if negative z2 then -1 else 1) * (T + (if carry then 1 else 0)).
Proof.
  intros Hg Hd Hr HT Hs Hl Hcap Hex.
  assert (length r = n) as Hlr by (subst r; apply limbs_length).
  pose proof (BASE_pow_pos n) as Hp.
  set (X := T + (if carry then 1 else 0)).
  (* every branch ends in an object of this shape *)
  assert (forall zf B2,
    get m v = Some z2 ->
    size zf = size z2 -> negative zf = negative z2 -> alloc zf = alloc z2 ->
    digits zf = limbs n X ++ B2 -> length B2 = length B ->
    (extra = true -> hd 0 B2 = X / Bpow n) ->
    exists z',
      (zz_normalize v ;;; ret ZZ_OK) (upd m v zf) = Some (ZZ_OK, upd m v z')
      /\ canonical z'
      /\ zz_val z' = (if negative z2 then -1 else 1) * X) as Hfin.
  { intros zf B2 Hg' Hsz Hng Hal Hdf HlB Hhd.
    assert (length (digits zf) = alloc zf) as Hlf.
    { rewrite Hdf, length_app, limbs_length, HlB, Hal, <- Hl, Hd, length_app. lia. }
    destruct (quo_2exp_final zf n extra (limbs n X) B2 X) as [Hwf Hm];
      auto; try lia.
    { subst X. destruct carry; lia. }
    { destruct extra.
      - repeat split; auto.
        + intros E. rewrite E in HlB. destruct B; simpl in *; [congruence|lia].
        + apply Z.div_lt_upper_bound; [lia|]. subst X.
          pose proof BASE_pos. destruct carry; unfold BASE in *; nia.
      - exact Hex. }
    mstep zz_normalize_run.
    mret. exists (normalized zf). split; [reflexivity|].
    split; [now apply normalized_canonical|].
    rewrite normalized_val by auto. unfold zz_val. rewrite Hm, Hng.
    destruct (negative z2); lia. }
  assert (length (digits z2) = (n + length B)%nat) as Hl2
    by (rewrite Hd, length_app; lia).
  (* clearing the extra word *)
  set (B1 := if extra then list_set B 0 0 else B).
  assert (length B1 = length B) as HlB1
    by (unfold B1; destruct extra; auto using list_set_length).
  assert (extra = true -> hd 0 B1 = 0) as HhB1.
  { intros E. unfold B1. rewrite E in *. now apply hd_list_set_0. }
  assert (extra = true -> B1 <> []) as HnB1.
  { intros E. unfold B1. rewrite E in *. now apply list_set_0_nonnil. }
  assert (exists z3,
    (if extra then put_digit v n 0 else ret tt) m = Some (tt, upd m v z3)
    /\ size z3 = size z2 /\ negative z3 = negative z2 /\ alloc z3 = alloc z2
    /\ digits z3 = r ++ B1) as (z3 & Hrun3 & Hs3 & Hn3 & Ha3 & Hd3).
  { unfold B1. destruct extra.
    - exists (set_digits (list_set (digits z2) n 0) z2). split.
      + apply put_digit_run; auto.
        destruct B; [congruence | simpl in Hl2; lia].
      + cbn. rewrite Hd. rewrite (list_set_app_exact r B n 0 Hlr). auto.
    - exists z2. split; [|auto].
      unfold ret. now rewrite upd_same. }
  mstep Hrun3.
  destruct carry.
  - (* adding the carry *)
    mstep mpn_load0_run. 2: { rewrite Hd3, length_app. lia. }
    rewrite Hd3. rewrite (firstn_app_exact r B1 n Hlr).
    unfold mpn_add_1. rewrite Hlr.
    assert (mpn_val r = T) as Hvr by (subst r; now apply mpn_val_limbs_small).
    rewrite Hvr.
    mstep mpn_store0_run. 2: { rewrite limbs_length, Hd3, length_app. lia. }
    cbn [digits set_digits]. rewrite limbs_length, Hd3.
    rewrite (skipn_app_exact r B1 n Hlr).
    destruct (Z.eqb_spec ((T + 1) / Bpow n) 0) as [Ec|Ec].
    + mret. apply (Hfin _ B1); auto.
      intros E. rewrite (HhB1 E). subst X. now rewrite Ec.
    + assert (extra = true) as E.
      { destruct extra; auto. exfalso. apply Ec. apply Z.div_small. lia. }
      assert ((T + 1) / Bpow n = 1) as Ec1.
      { assert (T + 1 = Bpow n).
        { destruct (Z.eq_dec (T + 1) (Bpow n)); auto.
          exfalso. apply Ec. apply Z.div_small. lia. }
        rewrite H. apply Z.div_same. lia. }
      mstep put_digit_run.
      2: { cbn [digits set_digits]. rewrite length_app, limbs_length.
           rewrite E in *. destruct B; [congruence | simpl in *; lia]. }
      cbn [digits set_digits set_size size negative alloc].
      rewrite (list_set_app_exact _ B1 n 1 (limbs_length n (T + 1))).
      apply (Hfin _ (list_set B1 0 1)); auto.
      * now rewrite list_set_length.
      * intros _. subst X. rewrite Ec1. apply hd_list_set_0. auto.
  - mret. rewrite ?bind_ret.
    apply (Hfin z3 B1); auto.
    + rewrite Hd3, Hr. subst X. now rewrite Z.add_0_r.
    + intros E. rewrite (HhB1 E). subst X. rewrite Z.add_0_r.
      symmetry. apply Z.div_small. lia.
Qed.

Lemma carry_flag_eq (b : bool) a c :
  (a = 0 <-> c = 0) ->
  (if negb (a =? 0) then b else false) = b && negb (c =? 0).
Proof.
  intros H. destruct (Z.eqb_spec a 0), (Z.eqb_spec c 0), b; cbn; auto; tauto.
Qed.

Lemma carry_flag_set (b : bool) c : c <> 0 -> b = b && negb (c =? 0).
Proof.
  intros H. destruct (Z.eqb_spec c 0), b; cbn; auto; tauto.
Qed.

Lemma zz_quo_2exp_spec m u v zu zv k :
  u <> v -> get m u = Some zu -> get m v = Some zv ->
  canonical zu -> length (digits zv) = alloc zv ->
  Z.of_nat (size zu) <= ZZ_DIGITS_MAX -> 0 <= k < 2 ^ 64 ->
  exists m' z',
    zz_quo_2exp u k v m = Some (ZZ_OK, m')
    /\ writes v m m' z' /\ canonical z'
    /\ zz_val z' = zz_val zu / 2 ^ k.
Proof.
  intros Huv Hu Hv Hc Hlv Hmax Hk.
  pose proof (canonical_mag_bound zu Hc) as Hmb.
  assert (0 < 2 ^ k) as H2k by (apply Z.pow_pos_nonneg; lia).
  unfold zz_quo_2exp. mstep get_size_run.
  destruct (Nat.eqb_spec (size zu) 0) as [Hz|Hnz].
  { destruct (zz_set_i32_run m v zv 0 Hv Hlv) as (m' & z' & Hr & Hw & Hc' & Hval).
    { unfold INT32_MIN, BASE. lia. }
    exists m', z'. repeat split; auto; try apply Hc'.
    rewrite Hval. unfold zz_val.
    assert (mag zu = 0) as -> by (now apply mag_zero_size).
    destruct (negative zu); reflexivity. }
  pose proof (ZZ_DIGITS_MAX_bits _ Hmax) as Hbits.
  rewrite Z.mod_small by (unfold ZZ_DIGIT_T_BITS in *; lia).
  pose proof (canonical_mag_pos zu Hc Hnz) as Hpos.
  destruct (Z.leb_spec (Z.of_nat (size zu) * ZZ_DIGIT_T_BITS) k) as [Hbig|Hsmall].
  { mstep ISNEG_run.
    destruct (zz_set_i64_run m v zv (if negative zu then -1 else 0) Hv Hlv)
      as (m' & z' & Hr & Hw & Hc' & Hval).
    { unfold BASE. destruct (negative zu); lia. }
    exists m', z'. repeat split; auto; try apply Hc'.
    rewrite Hval. unfold zz_val.
    assert (mag zu < 2 ^ k) as Hlt.
    { rewrite BASE_pow_2 in Hmb. unfold ZZ_DIGIT_T_BITS in Hbig.
      assert (2 ^ (64 * Z.of_nat (size zu)) <= 2 ^ k)
        by (apply Z.pow_le_mono_r; lia).
      lia. }
    destruct (negative zu).
    - rewrite div_opp_floor by lia.
      rewrite Z.div_small, Z.mod_small by lia.
      destruct (Z.eqb_spec (mag zu) 0); lia.
    - now rewrite Z.div_small by lia. }
  set (whole := Z.to_nat (k / ZZ_DIGIT_T_BITS)) in *.
  set (s := k mod ZZ_DIGIT_T_BITS) in *.
  assert (0 <= s < 64) as Hs by (apply Z.mod_pos_bound; reflexivity).
  assert (k = 64 * Z.of_nat whole + s) as Hks.
  { unfold whole, s. rewrite Z2Nat.id by (apply Z.div_pos; unfold ZZ_DIGIT_T_BITS; lia).
    apply Z.div_mod. unfold ZZ_DIGIT_T_BITS. lia. }
  assert (whole < size zu)%nat as Hwh.
  { unfold ZZ_DIGIT_T_BITS in *. lia. }
  destruct Hc as (Hwf & Hneg0 & Htop).
  destruct Hwf as (Hlen & Hcap & Hrange).
  set (n := (size zu - whole)%nat) in *.
  set (lo := firstn whole (digits zu)) in *.
  set (hi := firstn n (skipn whole (digits zu))) in *.
  assert (firstn (size zu) (digits zu) = lo ++ hi) as Hsplit.
  { unfold lo, hi, n. rewrite <- (firstn_skipn whole (firstn _ _)).
    rewrite firstn_firstn, skipn_firstn_comm.
    now replace (Nat.min whole (size zu)) with whole by lia. }
  assert (in_range lo /\ in_range hi) as [Hrlo Hrhi].
  { apply in_range_app. now rewrite <- Hsplit. }
  assert (length lo = whole) as Hllo by (unfold lo; rewrite length_firstn; lia).
  assert (length hi = n) as Hlhi.
  { unfold hi. rewrite length_firstn, length_skipn. lia. }
  assert (mag zu = mpn_val lo + 2 ^ (64 * Z.of_nat whole) * mpn_val hi) as Hmag.
  { unfold mag. now rewrite Hsplit, mpn_val_app, Hllo, BASE_pow_2. }
  pose proof (mpn_val_bound lo Hrlo) as Hblo. rewrite Hllo, BASE_pow_2 in Hblo.
  pose proof (mpn_val_bound hi Hrhi) as Hbhi. rewrite Hlhi in Hbhi.
  mstep mpn_load0_run. mstep ISNEG_run. mstep mpn_load_run.
  fold lo hi n.
  rewrite (existsb_nonzero lo Hrlo), (forallb_max hi Hrhi), Hlhi.
  set (extra := mpn_val hi =? Bpow n - 1).
  destruct (zz_resize_run m v zv (n + (if extra then 1 else 0)) Hv Hlv)
    as (m1 & z1 & Hr & Hw1 & Hz1).
  unfold guard. mstep Hr.
  mstep ISNEG_run. mstep SETNEG_run.
  pose proof Hz1 as (Hs1 & Hn1 & Hl1 & Hcap1 & Hpre1).
  set (T := mpn_val hi / 2 ^ s).
  set (carryb := negative zu && negb (mag zu mod 2 ^ k =? 0)).
  assert (0 < 2 ^ s) as H2s by (apply Z.pow_pos_nonneg; lia).
  assert (0 <= T <= mpn_val hi) as HT.
  { unfold T. split; [apply Z.div_pos; lia|].
    apply Z.div_le_upper_bound; nia. }
  assert (mag zu / 2 ^ k = T) as HdivT.
  { rewrite Hmag, Hks. apply shift_div_split; lia. }
  assert (mag zu mod 2 ^ k
          = mpn_val lo + 2 ^ (64 * Z.of_nat whole) * (mpn_val hi mod 2 ^ s))
    as Hmodk.
  { rewrite Hmag, Hks. apply shift_mod_split; lia. }
  assert (0 < 2 ^ (64 * Z.of_nat whole)) as H2w
    by (apply Z.pow_pos_nonneg; lia).
  pose proof (Z.mod_pos_bound (mpn_val hi) (2 ^ s) H2s) as Hmodb.
  set (z2 := set_digits (limbs n T ++ skipn n (digits z1))
               (set_negative (negative zu) z1)).
  set (m2 := upd m1 v (set_negative (negative zu) z1)).
  assert (get m2 v = Some (set_negative (negative zu) z1)) as Hg2
    by (unfold m2; mget).
  assert (get m2 u = Some zu) as Hgu2 by (unfold m2; mget).
  assert (n <= length (digits z1))%nat as Hn1' by lia.
  match goal with
  | |- exists m' z', bind ?c ?tail _ = _ /\ _ =>
      assert (c m2 = Some (carryb, upd m1 v z2)) as Hcarry
  end.
  { destruct (Z.eqb_spec s 0) as [Es|Es].
    - mstep mpn_load_run. fold hi. unfold mpn_copyi.
      mstep mpn_store0_run. 2: { cbn [digits set_negative]. lia. }
      unfold m2. rewrite upd_upd. unfold ret. f_equal. f_equal.
      + unfold carryb. apply carry_flag_eq.
        rewrite Hmodk, Es, Z.pow_0_r, Z.mod_1_r. lia.
      + unfold z2, T. rewrite Es, Z.pow_0_r, Z.div_1_r.
        assert (limbs n (mpn_val hi) = hi) as ->
          by (rewrite <- Hlhi; now apply limbs_mpn_val).
        cbn [digits set_negative]. now rewrite Hlhi.
    - mstep mpn_load_run. fold hi. unfold mpn_rshift.
      destruct (Z.leb_spec 1 s); [|lia].
      destruct (Z.ltb_spec s 64); [|lia].
      rewrite Hlhi. destruct (Nat.eqb_spec n 0); [lia|]. cbn [andb negb].
      mstep mpn_store0_run.
      2: { cbn [digits set_negative]. rewrite limbs_length. lia. }
      unfold m2. rewrite upd_upd.
      assert (0 < 2 ^ (64 - s)) by (apply Z.pow_pos_nonneg; lia).
      destruct (Z.eqb_spec (mpn_val hi mod 2 ^ s * 2 ^ (64 - s)) 0) as [Eo|Eo].
      + mret. unfold ret. f_equal. f_equal.
        * unfold carryb. apply carry_flag_eq. rewrite Hmodk.
          assert (mpn_val hi mod 2 ^ s = 0) as -> by nia. lia.
        * unfold z2. cbn [digits set_negative]. now rewrite limbs_length.
      + mred. erewrite ISNEG_run by mget. f_equal. f_equal.
        * unfold carryb. apply carry_flag_set. rewrite Hmodk.
          assert (mpn_val hi mod 2 ^ s <> 0) by nia. nia.
        * unfold z2. cbn [digits set_negative]. now rewrite limbs_length. }
  fold m2. erewrite bind_run by exact Hcarry. cbv beta.
  destruct (quo_2exp_tail (upd m1 v z2) v z2 n extra carryb
              (limbs n T) (skipn n (digits z1)) T)
    as (z' & Hrun & Hc' & Hval); auto.
  { mget. }
  { pose proof (BASE_pow_pos n). lia. }
  { unfold z2; cbn. rewrite length_app, limbs_length, length_skipn. lia. }
  { unfold z2; cbn. lia. }
  { destruct extra eqn:Ee.
    - intros E. apply (f_equal (@length Z)) in E.
      rewrite length_skipn in E. simpl in E. lia.
    - unfold extra in Ee. apply Z.eqb_neq in Ee.
      destruct carryb; lia. }
  rewrite upd_upd in Hrun.
  exists (upd m1 v z'), z'. split; [exact Hrun|].
  split; [eapply writes_then_upd; eauto|]. split; [auto|].
  rewrite Hval. unfold z2; cbn [negative set_digits set_negative].
  unfold zz_val, carryb.
  destruct (negative zu); cbn [andb].
  - rewrite div_opp_floor, HdivT by lia.
    destruct (mag zu mod 2 ^ k =? 0); cbn [negb]; lia.
  - rewrite HdivT. lia.
Qed.

(** C6. For a negative [u] in canonical form and a shift count [k],
    [zz_quo_2exp (u, k, v)] returns [ZZ_OK] and leaves in [v] the canonical
    form of the floor of [u / 2^k]: the magnitude of the result is the
    truncated magnitude [|u| / 2^k], plus one when a bit of [u] that was
    shifted out is not zero.  (The instance of the specification,
    [-(2^128 - 2^64)] shifted by 64, is [zz_quo_2exp_floor_witness].) *)
Theorem zz_quo_2exp_floor (m : mem) (u v : ptr) (zu zv : zz_t) (k : Z) :
  u <> v -> get m u = Some zu -> get m v = Some zv ->
  canonical zu -> length (digits zv) = alloc zv ->
  Z.of_nat (size zu) <= ZZ_DIGITS_MAX -> 0 <= k < 2 ^ 64 ->
  zz_val zu < 0 ->
  exists m' z',
    zz_quo_2exp u k v m = Some (ZZ_OK, m')
    /\ writes v m m' z' /\ canonical z'
    /\ zz_val z' = zz_val zu / 2 ^ k
    /\ negative z' = true
    /\ mag z' = mag zu / 2 ^ k + (if mag zu mod 2 ^ k =? 0 then 0 else 1).
Proof.
  intros Huv Hu Hv Hc Hlv Hmax Hk Hneg.
  destruct (zz_quo_2exp_spec m u v zu zv k Huv Hu Hv Hc Hlv Hmax Hk)
    as (m' & z' & Hrun & Hw & Hc' & Hval).
  exists m', z'. repeat split; auto; try apply Hc'.
  - rewrite (zz_val_sign z' Hc'), Hval. apply Z.ltb_lt.
    apply Z.div_lt_upper_bound; [apply Z.pow_pos_nonneg; lia | lia].
  - assert (negative zu = true) as Hn
      by (rewrite (zz_val_sign zu Hc); now apply Z.ltb_lt).
    assert (0 < 2 ^ k) by (apply Z.pow_pos_nonneg; lia).
    assert (zz_val z' < 0) as Hlt.
    { rewrite Hval. apply Z.div_lt_upper_bound; lia. }
    assert (negative z' = true) as Hn'
      by (rewrite (zz_val_sign z' Hc'); now apply Z.ltb_lt).
    unfold zz_val in Hval. rewrite Hn, Hn' in Hval.
    rewrite div_opp_floor in Hval by lia. lia.
Qed.

(** The store of the example of the specification:
    [-340282366920938463444927863358058659840] and a fresh object. *)
Definition mem_quo : mem :=
  mk_mem [mk_zz true 2 2 [0; 18446744073709551615]; mk_zz false 0 0 []]
         [7; 7; 7].

Lemma zz_quo_2exp_floor_witness :
  zz_val (mk_zz true 2 2 [0; 18446744073709551615])
    = -340282366920938463444927863358058659840
  /\ exists m' z',
      zz_quo_2exp 0 64 1 mem_quo = Some (ZZ_OK, m')
      /\ writes 1 mem_quo m' z' /\ canonical z'
      /\ zz_val z' = -18446744073709551615
      /\ negative z' = true
      /\ mag z' = 18446744073709551615.
Proof.
  split; [reflexivity|].
  apply (zz_quo_2exp_floor mem_quo 0%nat 1%nat
           (mk_zz true 2 2 [0; 18446744073709551615]) (mk_zz false 0 0 []) 64).
  - discriminate.
  - reflexivity.
  - reflexivity.
  - apply canonicalb_spec. reflexivity.
  - reflexivity.
  - discriminate.
  - split; [discriminate | reflexivity].
  - reflexivity.
Defined.

(** The same example, run. *)
Example zz_quo_2exp_example :
  zz_quo_2exp 0 64 1 mem_quo
    = Some (ZZ_OK,
            mk_mem [mk_zz true 2 2 [0; 18446744073709551615];
                    mk_zz true 2 1 [18446744073709551615; 0]]
                   [7]).
Proof. vm_compute. reflexivity. Qed.

Lemma zz_bitlen_bound z k :
  canonical z -> 0 <= k -> zz_bitlen z <= k -> mag z < 2 ^ k.
Proof.
  intros Hc Hk Hb. unfold zz_bitlen in Hb.
  destruct (Nat.eqb_spec (size z) 0) as [E|E].
  - assert (mag z = 0) as -> by (now apply mag_zero_size).
    apply Z.pow_pos_nonneg; lia.
  - pose proof (canonical_mag_pos z Hc E) as Hp.
    unfold mpn_sizeinbase_2 in Hb. fold (mag z) in Hb.
    apply Z.log2_lt_pow2; lia.
Qed.

(** C9. For [u] in canonical form and a shift count [k] that is at least
    the bit length of [u], [zz_quo_2exp (u, k, v)] returns [ZZ_OK] with [v]
    the canonical 0 when [u >= 0] and the canonical -1 when [u < 0]; the
    object [u], its digit buffer included, is in the store as it was. *)
Theorem zz_quo_2exp_beyond_bitlen (m : mem) (u v : ptr) (zu zv : zz_t) (k : Z) :
  u <> v -> get m u = Some zu -> get m v = Some zv ->
  canonical zu -> length (digits zv) = alloc zv ->
  Z.of_nat (size zu) <= ZZ_DIGITS_MAX -> 0 <= k < 2 ^ 64 ->
  zz_bitlen zu <= k ->
  exists m' z',
    zz_quo_2exp u k v m = Some (ZZ_OK, m')
    /\ writes v m m' z' /\ canonical z'
    /\ zz_val z' = (if zz_val zu <? 0 then -1 else 0)
    /\ get m' u = Some zu.
Proof.
  intros Huv Hu Hv Hc Hlv Hmax Hk Hb.
  destruct (zz_quo_2exp_spec m u v zu zv k Huv Hu Hv Hc Hlv Hmax Hk)
    as (m' & z' & Hrun & Hw & Hc' & Hval).
  exists m', z'. repeat split; auto; try apply Hc'.
  - rewrite Hval.
    pose proof (zz_bitlen_bound zu k Hc (proj1 Hk) Hb) as Hlt.
    pose proof (mag_nonneg zu (proj1 Hc)) as H0.
    pose proof (zz_val_sign zu Hc) as Hs.
    rewrite <- Hs. unfold zz_val in *. destruct (negative zu).
    + symmetry in Hs. apply Z.ltb_lt in Hs.
      rewrite div_opp_floor by lia.
      rewrite Z.div_small, Z.mod_small by lia.
      destruct (Z.eqb_spec (mag zu) 0); lia.
    + apply Z.div_small. lia.
  - rewrite (writes_other v m m' z' u Hw Huv). exact Hu.
Qed.

Lemma zz_quo_2exp_beyond_bitlen_witness :
  zz_bitlen (mk_zz true 2 1 [5; 7]) = 3
  /\ exists m' z',
      zz_quo_2exp 1 3 0 mem_example = Some (ZZ_OK, m')
      /\ writes 0 mem_example m' z' /\ canonical z'
      /\ zz_val z' = -1
      /\ get m' 1 = Some (mk_zz true 2 1 [5; 7]).
Proof.
  split; [reflexivity|].
  apply (zz_quo_2exp_beyond_bitlen mem_example 1%nat 0%nat
           (mk_zz true 2 1 [5; 7]) (mk_zz false 0 0 []) 3).
  - discriminate.
  - reflexivity.
  - reflexivity.
  - apply canonicalb_spec. reflexivity.
  - reflexivity.
  - discriminate.
  - split; [discriminate | reflexivity].
  - discriminate.
Defined.

(** ** [zz_sqrtrem] *)

Lemma writes_of_gets v m m' z' z0 :
  get m v = Some z0 -> get m' v = Some z' ->
  length (objs m') = length (objs m) ->
  (forall p, p <> v -> get m' p = get m p) ->
  writes v m m' z'.
Proof.
  intros H0 H1 Hl Ho. unfold writes. apply nth_error_ext. intros p.
  destruct (Nat.eq_dec p v) as [->|Hn].
  - rewrite nth_error_list_set_same by (eapply get_valid; eauto). exact H1.
  - rewrite nth_error_list_set_other by auto. now apply Ho.
Qed.

(** The square root of a number that fills [n] words fills [(n+1)/2]. *)
Lemma sqrt_limbs_bound U n :
  (0 < n)%nat -> Bpow (n - 1) <= U < Bpow n ->
  Bpow ((n + 1) / 2 - 1) <= Z.sqrt U < Bpow ((n + 1) / 2).
Proof.
  intros Hn [Hlo Hhi].
  set (h := ((n + 1) / 2)%nat).
  assert (n <= 2 * h /\ 2 * h <= n + 1)%nat as [Hh1 Hh2].
  { unfold h. pose proof (Nat.div_mod_eq (n + 1) 2).
    pose proof (Nat.mod_upper_bound (n + 1) 2). lia. }
  pose proof (BASE_pow_pos (n - 1)).
  assert (0 <= U) by lia.
  pose proof (Z.sqrt_spec U ltac:(lia)) as Hs. cbv zeta in Hs.
  pose proof (Z.sqrt_nonneg U) as Hnn.
  pose proof (BASE_pow_pos (h - 1)) as Hp1. pose proof (BASE_pow_pos h) as Hp2.
  split.
  - apply Z.sqrt_le_square; try lia.
    rewrite <- BASE_pow_add.
    pose proof (BASE_pow_le (h - 1 + (h - 1)) (n - 1) ltac:(lia)). lia.
  - apply Z.sqrt_lt_square; try lia.
    rewrite <- BASE_pow_add.
    pose proof (BASE_pow_le n (h + h) ltac:(lia)). lia.
Qed.

Lemma limbs_top_nonzero n x :
  (0 < n)%nat -> Bpow (n - 1) <= x < Bpow n ->
  top (limbs n x) <> 0.
Proof.
  intros Hn [Hlo Hhi]. destruct n as [|n]; [lia|].
  replace (S n - 1)%nat with n in Hlo by lia.
  rewrite top_limbs. rewrite BASE_pow_succ in Hhi.
  pose proof (BASE_pow_pos n). pose proof BASE_pos.
  rewrite Z.mod_small.
  - intros E. apply Z.div_small_iff in E; lia.
  - split; [apply Z.div_pos; lia|].
    apply Z.div_lt_upper_bound; lia.
Qed.

(** An object whose first words are the [n] words of [x], which fills them. *)
Lemma canonical_of_limbs z n x (b : bool) :
  size z = n -> negative z = b -> length (digits z) = alloc z ->
  (n <= alloc z)%nat -> firstn n (digits z) = limbs n x ->
  (n <> 0%nat -> Bpow (n - 1) <= x < Bpow n) ->
  (n = 0%nat -> b = false /\ x = 0) ->
  canonical z /\ mag z = x.
Proof.
  intros Hs Hb Hl Hc Hd Hx H0.
  unfold canonical, wf, mag. rewrite Hs, Hd, Hb.
  repeat split; auto; try lia.
  - apply limbs_in_range.
  - intros E. now apply H0.
  - intros E. apply limbs_top_nonzero; [lia | auto].
  - destruct (Nat.eq_dec n 0) as [E|E].
    + destruct (H0 E) as [_ ->]. rewrite E. reflexivity.
    + apply mpn_val_limbs_small. pose proof (BASE_pow_pos (n - 1)).
      specialize (Hx E). lia.
Qed.

Lemma canonical_digits_bound z :
  canonical z -> size z <> 0%nat ->
  Bpow (size z - 1) <= mag z < Bpow (size z).
Proof.
  intros Hc Hn. pose proof (canonical_mag_bound z Hc) as Hb.
  destruct Hc as (Hw & _ & Ht). specialize (Ht Hn).
  pose proof (mpn_val_top_lower _ (proj2 (proj2 Hw)) Ht) as Hl.
  rewrite (firstn_size_length z Hw) in Hl. unfold mag. split; [exact Hl|].
  apply Hb.
Qed.

Lemma canonical_top z :
  canonical z -> size z <> 0%nat -> top (firstn (size z) (digits z)) <> 0.
Proof. intros (_ & _ & H). exact H. Qed.

Lemma zz_sqrtrem_rem_spec fuel m u v w zu zv zw :
  u <> v -> w <> u -> w <> v ->
  get m u = Some zu -> get m v = Some zv -> get m w = Some zw ->
  canonical zu -> length (digits zv) = alloc zv ->
  length (digits zw) = alloc zw -> negative zu = false ->
  exists m' zv' zw',
    zz_sqrtrem_rec (S fuel) u v (Some w) m = Some (ZZ_OK, m')
    /\ get m' v = Some zv' /\ get m' w = Some zw'
    /\ length (objs m') = length (objs m)
    /\ (forall p, p <> v -> p <> w -> get m' p = get m p)
    /\ canonical zv' /\ canonical zw'
    /\ negative zv' = false /\ negative zw' = false
    /\ (mag zv', mag zw') = Z.sqrtrem (mag zu).
Proof.
  intros Huv Hwu Hwv Hu Hv Hw Hc Hlv Hlw Hneg.
  cbn [zz_sqrtrem_rec]. mstep ISNEG_run. rewrite Hneg.
  mstep SETNEG_run. mstep get_size_run.
  destruct (Nat.eqb_spec (size zu) 0) as [Hz|Hnz].
  - mstep put_size_run. mstep put_size_run. mstep SETNEG_run. mret.
    eexists _, _, _. split; [reflexivity|].
    split; [mget|]. split; [mget|].
    split; [unfold upd; cbn; now rewrite !list_set_length|].
    split; [intros p Hp1 Hp2; now rewrite !get_upd_other by auto|].
    assert (mag zu = 0) as -> by (now apply mag_zero_size).
    repeat split; cbn; auto; try lia; constructor.
  - destruct (Nat.eqb_spec u v) as [|_]; [congruence|].
    set (n := size zu) in *. set (h := ((n + 1) / 2)%nat).
    set (m1 := upd m v (set_negative false zv)).
    destruct (zz_resize_run m1 v (set_negative false zv) h)
      as (m2 & z2 & Hr2 & Hw2 & Hz2); [unfold m1; mget | exact Hlv |].
    unfold guard. mstep Hr2.
    assert (get m2 w = Some zw) as Hgw2 by (unfold m1 in *; mget).
    assert (get m2 u = Some zu) as Hgu2 by (unfold m1 in *; mget).
    assert (get m2 v = Some z2) as Hgv2 by (unfold m1 in *; mget).
    mstep SETNEG_run. mstep get_size_run. fold n.
    set (m3 := upd m2 w (set_negative false zw)).
    destruct (zz_resize_run m3 w (set_negative false zw) n)
      as (m4 & z4 & Hr4 & Hw4 & Hz4); [unfold m3; mget | exact Hlw |].
    mstep Hr4.
    assert (get m4 u = Some zu) as Hgu4 by (unfold m3 in *; mget).
    assert (get m4 v = Some z2) as Hgv4 by (unfold m3 in *; mget).
    assert (get m4 w = Some z4) as Hgw4 by (unfold m3 in *; mget).
    mstep get_size_run. fold n.
    pose proof Hc as ((Hlen & Hcap & Hrange) & _ & Htop).
    mstep mpn_load0_run.
    unfold mpn_sqrtrem.
    destruct (Z.eqb_spec (top (firstn n (digits zu))) 0) as [E|_];
      [now elim (Htop Hnz)|].
    change (mpn_val (firstn n (digits zu))) with (mag zu).
    assert (length (firstn n (digits zu)) = n) as ->
      by (apply (firstn_size_length zu (proj1 Hc))).
    fold h.
    pose proof (canonical_digits_bound zu Hc Hnz) as Hb. fold n in Hb.
    pose proof (BASE_pow_pos (n - 1)) as Hpn.
    pose proof (Z.sqrtrem_spec (mag zu) ltac:(lia)) as Hsq.
    pose proof (Z.sqrtrem_sqrt (mag zu)) as Hsq1.
    destruct (Z.sqrtrem (mag zu)) as [r k] eqn:Esq.
    cbn [fst] in Hsq1. subst r.
    pose proof (sqrt_limbs_bound (mag zu) n ltac:(lia) Hb) as Hsb. fold h in Hsb.
    pose proof Hz2 as (Hs2 & Hn2 & Hl2 & Hcap2 & Hpre2).
    pose proof Hz4 as (Hs4 & Hn4 & Hl4 & Hcap4 & Hpre4).
    destruct Hsq as [Hsq Hk2].
    assert (0 <= k < Bpow n) as Hkb by nia.
    pose proof (nlimbs_le k n Hkb) as Hnk.
    mstep mpn_store0_run. 2: { rewrite limbs_length. lia. }
    mstep mpn_store0_run. 2: { rewrite limbs_length. lia. }
    mstep put_size_run. mret.
    rewrite !limbs_length.
    eexists _, _, _. split; [reflexivity|].
    split; [mget|]. split; [mget|].
    split.
    { unfold upd; cbn. rewrite !list_set_length.
      rewrite (writes_length _ _ _ _ Hw4). unfold m3, upd; cbn.
      rewrite list_set_length, (writes_length _ _ _ _ Hw2).
      unfold m1, upd; cbn. now rewrite list_set_length. }
    split.
    { intros p Hp1 Hp2. rewrite !get_upd_other by auto.
      rewrite (writes_other _ _ _ _ p Hw4) by auto. unfold m3.
      rewrite get_upd_other by auto.
      rewrite (writes_other _ _ _ _ p Hw2) by auto. unfold m1.
      now rewrite get_upd_other by auto. }
    assert (h <> 0)%nat as Hh0.
    { unfold h. pose proof (Nat.div_mod_eq (n + 1) 2).
      pose proof (Nat.mod_upper_bound (n + 1) 2). lia. }
    assert (canonical
              (set_digits (limbs h (Z.sqrt (mag zu)) ++ skipn h (digits z2)) z2)
            /\ mag (set_digits (limbs h (Z.sqrt (mag zu))
                                ++ skipn h (digits z2)) z2)
               = Z.sqrt (mag zu)) as [Hcv Hmv].
    { apply canonical_of_limbs with (n := h) (b := false);
        cbn [size negative digits alloc set_digits set_size].
      - exact Hs2.
      - rewrite Hn2. destruct (Nat.eqb_spec h 0); [lia | reflexivity].
      - rewrite length_app, limbs_length, length_skipn. lia.
      - lia.
      - apply firstn_app_exact, limbs_length.
      - intros _. exact Hsb.
      - intros E. lia. }
    assert (canonical
              (set_size (nlimbs k)
                 (set_digits (limbs (nlimbs k) k
                              ++ skipn (nlimbs k) (digits z4)) z4))
            /\ mag (set_size (nlimbs k)
                      (set_digits (limbs (nlimbs k) k
                                   ++ skipn (nlimbs k) (digits z4)) z4))
               = k) as [Hcw Hmw].
    { apply canonical_of_limbs with (n := nlimbs k) (b := false);
        cbn [size negative digits alloc set_digits set_size].
      - reflexivity.
      - rewrite Hn4. destruct (Nat.eqb_spec n 0); [lia | reflexivity].
      - rewrite length_app, limbs_length, length_skipn. lia.
      - lia.
      - apply firstn_app_exact, limbs_length.
      - intros Hk0. destruct (Z.eq_dec k 0) as [->|Hk1].
        + now elim Hk0.
        + split; [apply nlimbs_lower; lia | apply nlimbs_upper; lia].
      - intros Hk0. split; auto. destruct (Z.eq_dec k 0); auto.
        rewrite nlimbs_pos in Hk0 by lia. lia. }
    split; [exact Hcv|]. split; [exact Hcw|].
    split.
    { cbn [negative set_digits]. rewrite Hn2.
      destruct (Nat.eqb_spec h 0); [lia | reflexivity]. }
    split.
    { cbn [negative set_digits set_size]. rewrite Hn4.
      destruct (Nat.eqb_spec n 0); [lia | reflexivity]. }
    now rewrite Hmv, Hmw.
Qed.

Lemma zz_sqrtrem_root_spec fuel m u v zu zv :
  u <> v -> get m u = Some zu -> get m v = Some zv ->
  canonical zu -> length (digits zv) = alloc zv -> negative zu = false ->
  exists m' zv',
    zz_sqrtrem_rec (S fuel) u v None m = Some (ZZ_OK, m')
    /\ writes v m m' zv' /\ canonical zv'
    /\ negative zv' = false /\ mag zv' = Z.sqrt (mag zu).
Proof.
  intros Huv Hu Hv Hc Hlv Hneg.
  cbn [zz_sqrtrem_rec]. mstep ISNEG_run. rewrite Hneg.
  mstep SETNEG_run. mstep get_size_run.
  destruct (Nat.eqb_spec (size zu) 0) as [Hz|Hnz].
  - mstep put_size_run. mret.
    eexists _, _. split; [reflexivity|].
    split; [eapply writes_upd; eauto|].
    assert (mag zu = 0) as -> by (now apply mag_zero_size).
    repeat split; cbn; auto; try lia; constructor.
  - destruct (Nat.eqb_spec u v) as [|_]; [congruence|].
    set (n := size zu) in *. set (h := ((n + 1) / 2)%nat).
    set (m1 := upd m v (set_negative false zv)).
    destruct (zz_resize_run m1 v (set_negative false zv) h)
      as (m2 & z2 & Hr2 & Hw2 & Hz2); [unfold m1; mget | exact Hlv |].
    unfold guard. mstep Hr2.
    assert (get m2 u = Some zu) as Hgu2 by (unfold m1 in *; mget).
    assert (get m2 v = Some z2) as Hgv2 by (unfold m1 in *; mget).
    mstep get_size_run. fold n.
    pose proof Hc as ((Hlen & Hcap & Hrange) & _ & Htop).
    mstep mpn_load0_run.
    unfold mpn_sqrtrem.
    destruct (Z.eqb_spec (top (firstn n (digits zu))) 0) as [E|_];
      [now elim (Htop Hnz)|].
    change (mpn_val (firstn n (digits zu))) with (mag zu).
    assert (length (firstn n (digits zu)) = n) as ->
      by (apply (firstn_size_length zu (proj1 Hc))).
    fold h.
    pose proof (canonical_digits_bound zu Hc Hnz) as Hb. fold n in Hb.
    pose proof (Z.sqrtrem_sqrt (mag zu)) as Hsq1.
    destruct (Z.sqrtrem (mag zu)) as [r k] eqn:Esq.
    cbn [fst] in Hsq1. subst r.
    pose proof (sqrt_limbs_bound (mag zu) n ltac:(lia) Hb) as Hsb. fold h in Hsb.
    pose proof Hz2 as (Hs2 & Hn2 & Hl2 & Hcap2 & Hpre2).
    mstep mpn_store0_run. 2: { rewrite limbs_length. lia. }
    mret. rewrite !limbs_length.
    assert (h <> 0)%nat as Hh0.
    { unfold h. pose proof (Nat.div_mod_eq (n + 1) 2).
      pose proof (Nat.mod_upper_bound (n + 1) 2). lia. }
    assert (canonical
              (set_digits (limbs h (Z.sqrt (mag zu)) ++ skipn h (digits z2)) z2)
            /\ mag (set_digits (limbs h (Z.sqrt (mag zu))
                                ++ skipn h (digits z2)) z2)
               = Z.sqrt (mag zu)) as [Hcv Hmv].
    { apply canonical_of_limbs with (n := h) (b := false);
        cbn [size negative digits alloc set_digits set_size].
      - exact Hs2.
      - rewrite Hn2. destruct (Nat.eqb_spec h 0); [lia | reflexivity].
      - rewrite length_app, limbs_length, length_skipn. lia.
      - lia.
      - apply firstn_app_exact, limbs_length.
      - intros _. exact Hsb.
      - intros E. lia. }
    eexists _, _. split; [reflexivity|].
    split.
    { eapply writes_then_upd. eapply writes_trans; [|exact Hw2].
      unfold m1. eapply writes_upd; eauto. }
    split; [exact Hcv|]. split; [|exact Hmv].
    cbn [negative set_digits]. rewrite Hn2.
    destruct (Nat.eqb_spec h 0); [lia | reflexivity].
Qed.

Lemma canonical_nonneg z : canonical z -> 0 <= zz_val z -> negative z = false.
Proof.
  intros Hc H. rewrite (zz_val_sign z Hc). apply Z.ltb_ge. lia.
Qed.

Lemma canonical_neg z : canonical z -> zz_val z < 0 -> negative z = true.
Proof.
  intros Hc H. rewrite (zz_val_sign z Hc). apply Z.ltb_lt. lia.
Qed.

Lemma zz_val_nonneg z : negative z = false -> zz_val z = mag z.
Proof. unfold zz_val. now intros ->. Qed.

(** ** [zz_pow] on the base -1 *)

Lemma pow_minus_one v :
  0 <= v -> (-1) ^ v = if v mod 2 =? 0 then 1 else -1.
Proof.
  intros Hv. pose proof (Z.div_mod v 2 ltac:(lia)) as Hdm.
  pose proof (Z.mod_pos_bound v 2 ltac:(lia)) as Hb.
  assert (0 <= v / 2) by (apply Z.div_pos; lia).
  rewrite Hdm at 1. rewrite Z.pow_add_r, Z.pow_mul_r by lia.
  change ((-1) ^ 2) with 1. rewrite Z.pow_1_l by lia.
  destruct (Z.eqb_spec (v mod 2) 0) as [E|E].
  - now rewrite E.
  - assert (v mod 2 = 1) as -> by lia. reflexivity.
Qed.

Lemma fresh_words_run n m :
  fresh_words n m
    = Some (firstn n (junk m ++ repeat 0 n),
            mk_mem (objs m) (skipn n (junk m))).
Proof. reflexivity. Qed.

(** The store of the power examples: 1, a fresh object and -1. *)
Definition mem_pow : mem :=
  mk_mem [mk_zz false 1 1 [1]; mk_zz false 0 0 []; mk_zz true 1 1 [1]]
         [9; 9; 9; 9].

(** An allocator that grants every request, and one that refuses a
    request of more than [2^32] words (32 GiB). *)
Definition alloc_any : allocator :=
  mk_allocator (fun _ => true) (fun _ => true).

Definition alloc_32 : allocator :=
  mk_allocator (fun n => n <=? 2 ^ 32) (fun n => n <=? 2 ^ 32).

(** C2.  The base -1 to the power [2^58]: [zz_pow (-1, 2^58, w)] returns
    [ZZ_BUF] and leaves the store as it was, whatever the allocator answers,
    where [(-1)^(2^58)] is 1; the base 1 to the same power takes the
    shortcut and gives 1. *)
Theorem zz_pow_minus_one_range :
  zz_val (mk_zz true 1 1 [1]) = -1
  /\ (forall a, zz_pow a 2 (2 ^ 58) 1 mem_pow = Some (ZZ_BUF, mem_pow))
  /\ (forall a,
        ~ (exists m', zz_pow a 2 (2 ^ 58) 1 mem_pow = Some (ZZ_OK, m')))
  /\ (forall a,
        zz_pow a 0 (2 ^ 58) 1 mem_pow
        = Some (ZZ_OK,
                mk_mem [mk_zz false 1 1 [1]; mk_zz false 1 1 [1];
                        mk_zz true 1 1 [1]] [9; 9; 9])).
Proof.
  assert (forall a, zz_pow a 2 (2 ^ 58) 1 mem_pow = Some (ZZ_BUF, mem_pow))
    as H by (intros a; vm_compute; reflexivity).
  split; [reflexivity|]. split; [exact H|]. split.
  - intros a [m' Hm]. rewrite H in Hm. discriminate.
  - intros a. vm_compute. reflexivity.
Qed.

(** Below the bound the base -1 takes the general path, with its two
    requests of [v] words: -1 cubed is -1 when they are granted; the power
    [2^58 - 1] asks for 2 EiB and is [ZZ_MEM], with [w] cleared, when the
    allocator refuses that much. *)
Example zz_pow_examples :
  zz_pow alloc_any 2 3 1 mem_pow
    = Some (ZZ_OK,
            mk_mem [mk_zz false 1 1 [1]; mk_zz true 3 1 [1; 0; 0];
                    mk_zz true 1 1 [1]] [])
  /\ zz_pow alloc_32 2 (2 ^ 58 - 1) 1 mem_pow
    = Some (ZZ_MEM,
            mk_mem [mk_zz false 1 1 [1]; mk_zz false 0 0 [];
                    mk_zz true 1 1 [1]] [9; 9; 9; 9])
  /\ zz_pow alloc_32 0 (2 ^ 64 - 1) 1 mem_pow
    = Some (ZZ_OK,
            mk_mem [mk_zz false 1 1 [1]; mk_zz false 1 1 [1];
                    mk_zz true 1 1 [1]] [9; 9; 9]).
Proof. repeat split; vm_compute; reflexivity. Qed.

(** ** [zz_pos] *)

Lemma same_number_val a b : same_number a b -> zz_val a = zz_val b.
Proof.
  intros (Hs & Hn & Hd). unfold zz_val, mag. now rewrite Hn, Hd.
Qed.

Lemma canonical_zero z :
  canonical z -> zz_val z = 0 -> size z = 0%nat /\ negative z = false.
Proof.
  intros Hc Hv. pose proof (mag_nonneg z (proj1 Hc)) as Hm.
  assert (mag z = 0) as Hz by (unfold zz_val in Hv; destruct (negative z); lia).
  apply (mag_zero_size z Hc) in Hz. split; auto.
  destruct Hc as (_ & H0 & _). auto.
Qed.

Lemma same_number_canonical a b :
  same_number a b -> canonical b ->
  length (digits a) = alloc a -> (size a <= alloc a)%nat -> canonical a.
Proof.
  intros (Hs & Hn & Hd) ((Hl & Hc & Hr) & H0 & Ht) Hla Hca.
  unfold canonical, wf. rewrite Hd, Hs, Hn. rewrite Hs in Hca.
  repeat split; auto.
Qed.

Lemma zz_pos_run m u v zu zv :
  u <> v -> get m u = Some zu -> get m v = Some zv ->
  canonical zu -> length (digits zv) = alloc zv ->
  exists m' z',
    zz_pos u v m = Some (ZZ_OK, m')
    /\ writes v m m' z' /\ same_number z' zu /\ canonical z'.
Proof.
  intros Huv Hu Hv Hc Hlv. unfold zz_pos.
  destruct (Nat.eqb_spec u v) as [|_]; [congruence|]. cbn [negb].
  mstep get_size_run.
  pose proof Hc as ((Hlen & Hcap & Hrange) & Hneg0 & Htop).
  destruct (Nat.eqb_spec (size zu) 0) as [Hz|Hnz].
  - destruct (zz_set_i64_run m v zv 0 Hv Hlv) as (m' & z' & Hr & Hw & Hc' & Hval).
    { unfold BASE; lia. }
    destruct (canonical_zero z' Hc' Hval) as [Hs' Hn'].
    exists m', z'. repeat split; auto; try apply Hc'.
    + congruence.
    + rewrite Hn'. symmetry. auto.
    + now rewrite Hs', Hz.
  - destruct (zz_resize_run m v zv (size zu) Hv Hlv) as (m1 & z1 & Hr1 & Hw1 & Hz1).
    unfold guard. mstep Hr1. mstep ISNEG_run. mstep SETNEG_run.
    mstep get_size_run. mstep mpn_load0_run.
    pose proof Hz1 as (Hs1 & Hn1 & Hl1 & Hcap1 & Hpre1).
    mstep mpn_store0_run.
    2: { cbn [digits set_negative]. rewrite length_firstn. lia. }
    mret. eexists _, _. split; [reflexivity|].
    split; [eapply writes_then_upd; eauto|].
    assert (length (firstn (size zu) (digits zu)) = size zu) as Hlf
      by (rewrite length_firstn; lia).
    rewrite Hlf.
    assert (same_number
      (set_digits (firstn (size zu) (digits zu)
                   ++ skipn (size zu) (digits (set_negative (negative zu) z1)))
         (set_negative (negative zu) z1)) zu) as Hsame.
    { unfold same_number; cbn [size negative digits set_digits set_negative].
      rewrite Hs1. repeat split; auto.
      now apply firstn_app_exact. }
    split; [exact Hsame|].
    eapply same_number_canonical; eauto;
      cbn [size alloc digits set_digits set_negative].
    + rewrite length_app, Hlf, length_skipn. lia.
    + lia.
Qed.

(** ** Addition and subtraction *)

Definition sg (b : bool) : Z := if b then -1 else 1.

Lemma zz_val_sg z : zz_val z = sg (negative z) * mag z.
Proof. unfold zz_val, sg. destruct (negative z); lia. Qed.

Lemma normalize_finish m w zf X :
  get m w = Some zf -> wf zf -> mag zf = X ->
  exists z',
    (zz_normalize w ;;; ret ZZ_OK) m = Some (ZZ_OK, upd m w z')
    /\ canonical z' /\ zz_val z' = sg (negative zf) * X.
Proof.
  intros Hg Hwf Hm.
  mstep zz_normalize_run. 2: { destruct Hwf as (? & ? & ?). lia. }
  mret. exists (normalized zf). split; [reflexivity|].
  split; [now apply normalized_canonical|].
  rewrite normalized_val by auto. now rewrite zz_val_sg, Hm.
Qed.

(** Reading an input after the output was resized: the words read are the
    same whether or not the output object is that input. *)
Lemma load_view m m1 u w zu zw z1 n k b :
  get m u = Some zu -> get m w = Some zw ->
  writes w m m1 z1 -> resized n zw z1 ->
  (k <= length (digits zu))%nat ->
  mpn_load u 0 k (upd m1 w (set_negative b z1))
    = Some (firstn k (digits zu), upd m1 w (set_negative b z1)).
Proof.
  intros Hu Hw Hwr Hz Hk.
  destruct (Nat.eq_dec u w) as [->|Hn].
  - assert (zw = zu) as -> by congruence.
    erewrite mpn_load0_run; [| mget |].
    + cbn [digits set_negative]. now rewrite (resized_prefix n zu z1 k Hz Hk).
    + cbn [digits set_negative]. pose proof (resized_length n zu z1 Hz). lia.
  - erewrite mpn_load0_run; [reflexivity | mget | lia].
Qed.

Lemma wf_size_length z : wf z -> (size z <= length (digits z))%nat.
Proof. intros (H1 & H2 & _). lia. Qed.

Lemma mag_bound z : wf z -> 0 <= mag z < Bpow (size z).
Proof.
  intros Hw. pose proof (firstn_size_length z Hw) as Hl.
  destruct Hw as (_ & _ & Hr). unfold mag.
  pose proof (mpn_val_bound _ Hr) as Hb. now rewrite Hl in Hb.
Qed.

Lemma zz_addsub_ordered_spec m u v w zu zv zw (negu negv : bool) :
  get m u = Some zu -> get m v = Some zv -> get m w = Some zw ->
  canonical zu -> canonical zv -> length (digits zw) = alloc zw ->
  (size zv <= size zu)%nat -> Z.of_nat (size zu) < ZZ_DIGITS_MAX ->
  exists m' z',
    zz_addsub_ordered u v negu negv (Bool.eqb negu negv)
                      (size zu) (size zv) w m = Some (ZZ_OK, m')
    /\ writes w m m' z' /\ canonical z'
    /\ zz_val z' = sg negu * mag zu + sg negv * mag zv.
Proof.
  intros Hu Hv Hw Hcu Hcv Hlw Hsz Hmax.
  unfold zz_addsub_ordered.
  destruct (Z.eqb_spec (Z.of_nat (size zu)) ZZ_DIGITS_MAX) as [E|_]; [lia|].
  rewrite andb_false_r.
  set (nu := size zu) in *. set (nv := size zv) in *.
  set (ss := Bool.eqb negu negv).
  destruct (zz_resize_run m w zw (nu + (if ss then 1 else 0)) Hw Hlw)
    as (m1 & z1 & Hr1 & Hw1 & Hz1).
  unfold guard. mstep Hr1. mstep SETNEG_run.
  pose proof (wf_size_length zu (proj1 Hcu)) as Hlu.
  pose proof (wf_size_length zv (proj1 Hcv)) as Hlv.
  pose proof (mag_bound zu (proj1 Hcu)) as Hbu.
  pose proof (mag_bound zv (proj1 Hcv)) as Hbv.
  fold nu in Hlu, Hbu. fold nv in Hlv, Hbv.
  pose proof Hz1 as (Hs1 & Hn1 & Hl1 & Hcap1 & Hpre1).
  pose proof (load_view m m1 u w zu zw z1 _ nu negu Hu Hw Hw1 Hz1 Hlu) as Hldu.
  pose proof (load_view m m1 v w zv zw z1 _ nv negu Hv Hw Hw1 Hz1 Hlv) as Hldv.
  set (Du := firstn nu (digits zu)) in *.
  set (Dv := firstn nv (digits zv)) in *.
  assert (length Du = nu) as HlDu by (unfold Du; rewrite length_firstn; lia).
  assert (length Dv = nv) as HlDv by (unfold Dv; rewrite length_firstn; lia).
  change (mpn_val Du) with (mag zu) in *.
  pose proof (BASE_pow_pos nu) as Hpu. pose proof (BASE_pow_pos nv) as Hpv.
  pose proof (BASE_pow_le nv nu Hsz) as Hple.
  (* every branch stores [nu] words of value [X] and normalises *)
  assert (forall (X : Z) (sgn : bool) zf,
    zf = set_digits (limbs nu X ++ skipn nu (digits z1)) (set_negative sgn z1) ->
    ss = false -> 0 <= X < Bpow nu ->
    exists m' z',
      (zz_normalize w ;;; ret ZZ_OK) (upd m1 w zf) = Some (ZZ_OK, m')
      /\ writes w m m' z' /\ canonical z' /\ zz_val z' = sg sgn * X) as Hfin.
  { intros X sgn zf -> Hss HX. rewrite Hss, Nat.add_0_r in *.
    destruct (quo_2exp_final
                (set_digits (limbs nu X ++ skipn nu (digits z1))
                            (set_negative sgn z1))
                nu false (limbs nu X) (skipn nu (digits z1)) X)
      as [Hwf Hm]; cbn [size alloc digits set_digits set_negative];
      auto; try lia.
    { rewrite length_app, limbs_length, length_skipn. lia. }
    destruct (normalize_finish (upd m1 w (set_digits (limbs nu X ++ skipn nu (digits z1))
                            (set_negative sgn z1))) w _ X ltac:(mget) Hwf Hm)
      as (z' & Hrun & Hc' & Hval).
    rewrite upd_upd in Hrun.
    eexists _, z'. split; [exact Hrun|].
    split; [eapply writes_then_upd; eauto|]. split; auto. }
  destruct ss eqn:Ess.
  - (* same signs: the magnitudes are added *)
    mstep Hldu. mstep Hldv. unfold mpn_add.
    change (mpn_val Du) with (mag zu). change (mpn_val Dv) with (mag zv).
    rewrite HlDu.
    mstep mpn_store0_run.
    2: { cbn [digits set_negative]. rewrite limbs_length. lia. }
    mstep get_size_run. cbn [size set_digits set_negative]. rewrite Hs1.
    replace (nu + 1 - 1)%nat with nu by lia.
    mstep put_digit_run.
    2: { cbn [digits set_digits set_negative].
         rewrite length_app, limbs_length, length_skipn. lia. }
    cbn [digits set_digits set_negative]. rewrite limbs_length.
    rewrite (list_set_app_exact _ _ nu _ (limbs_length nu _)).
    set (X := mag zu + mag zv).
    set (zf := set_digits _ _).
    destruct (quo_2exp_final zf nu true (limbs nu X)
                (list_set (skipn nu (digits z1)) 0 (X / Bpow nu)) X)
      as [Hwf Hm]; unfold zf; cbn [size alloc digits set_digits set_negative];
      auto; try lia.
    { rewrite length_app, limbs_length, list_set_length, length_skipn. lia. }
    { assert (skipn nu (digits z1) <> []) as Hne.
      { intros E. apply (f_equal (@length Z)) in E.
        rewrite length_skipn in E. simpl in E. lia. }
      split; [now apply list_set_0_nonnil|].
      split; [now apply hd_list_set_0|].
      apply Z.div_lt_upper_bound; [lia|]. unfold X.
      assert (2 <= BASE) by (unfold BASE; lia). nia. }
    destruct (normalize_finish (upd m1 w zf) w zf X ltac:(mget) Hwf Hm)
      as (z' & Hrun & Hc' & Hval).
    rewrite upd_upd in Hrun. fold zf.
    eexists _, z'. split; [exact Hrun|].
    split; [eapply writes_then_upd; eauto|]. split; auto.
    rewrite Hval. unfold zf; cbn [negative set_digits set_negative].
    apply eqb_prop in Ess. subst negv. unfold X. ring.
  - apply eqb_false_iff in Ess.
    assert (sg negv = - sg negu) as Hsg
      by (unfold sg; destruct negu, negv; congruence || reflexivity).
    destruct (Nat.eqb_spec nu nv) as [Heq|Hne]; cbn [negb].
    + (* same digit count: compare *)
      mstep Hldu. rewrite <- Heq in Hldv. mstep Hldv.
      unfold mpn_cmp.
      change (mpn_val Du) with (mag zu). change (mpn_val Dv) with (mag zv).
      rewrite <- Heq in Hbv.
      destruct (Z.compare_spec (mag zu) (mag zv)) as [Hc|Hc|Hc].
      * change (0 <? 0) with false. cbv iota.
        mstep put_size_run.
        mstep zz_normalize_run. 2: { cbn [size digits set_size]. lia. }
        mret. eexists _, _. split; [reflexivity|].
        split; [eapply writes_then_upd; eauto|].
        split.
        { apply normalized_canonical. unfold wf; cbn. repeat split; auto; try lia.
          constructor. }
        rewrite normalized_val.
        2: { unfold wf; cbn. repeat split; auto; try lia. constructor. }
        rewrite Hsg, Hc, zz_val_sg.
        unfold mag at 1; cbn [size set_size firstn mpn_val]. ring.
      * change (-1 <? 0) with true. cbv iota. unfold mpn_sub_n, mpn_sub.
        change (mpn_val Du) with (mag zu). change (mpn_val Dv) with (mag zv).
        rewrite HlDv, <- Heq.
        mstep mpn_store0_run.
        2: { cbn [digits set_negative]. rewrite limbs_length. lia. }
        mstep SETNEG_run.
        cbn [digits set_negative set_digits]. rewrite limbs_length.
        destruct (Hfin (mag zv - mag zu) negv _ eq_refl eq_refl ltac:(lia))
          as (m' & z' & Hrun & Hw' & Hc' & Hval).
        exists m', z'. split; [exact Hrun|]. split; auto. split; auto.
        rewrite Hval, Hsg. ring.
      * change (1 <? 0) with false. change (0 <? 1) with true. cbv iota.
        unfold mpn_sub_n, mpn_sub.
        change (mpn_val Du) with (mag zu). change (mpn_val Dv) with (mag zv).
        rewrite HlDu.
        mstep mpn_store0_run.
        2: { cbn [digits set_negative]. rewrite limbs_length. lia. }
        cbn [digits set_negative set_digits]. rewrite limbs_length.
        destruct (Hfin (mag zu - mag zv) negu _ eq_refl eq_refl ltac:(lia))
          as (m' & z' & Hrun & Hw' & Hc' & Hval).
        exists m', z'. split; [exact Hrun|]. split; auto. split; auto.
        rewrite Hval, Hsg. ring.
    + (* the first operand has more digits, so the larger magnitude *)
      mstep Hldu. mstep Hldv. unfold mpn_sub.
      change (mpn_val Du) with (mag zu). change (mpn_val Dv) with (mag zv).
      rewrite HlDu.
      mstep mpn_store0_run.
      2: { cbn [digits set_negative]. rewrite limbs_length. lia. }
      cbn [digits set_negative set_digits]. rewrite limbs_length.
      assert (nu <> 0)%nat as Hnu0 by lia.
      pose proof (canonical_digits_bound zu Hcu Hnu0) as Hdb. fold nu in Hdb.
      pose proof (BASE_pow_le nv (nu - 1) ltac:(lia)).
      destruct (Hfin (mag zu - mag zv) negu _ eq_refl eq_refl ltac:(lia))
        as (m' & z' & Hrun & Hw' & Hc' & Hval).
      exists m', z'. split; [exact Hrun|]. split; auto. split; auto.
      rewrite Hval, Hsg. ring.
Qed.

Lemma zz_addsub_spec m u v w zu zv zw (subtract : bool) :
  get m u = Some zu -> get m v = Some zv -> get m w = Some zw ->
  canonical zu -> canonical zv -> length (digits zw) = alloc zw ->
  Z.of_nat (size zu) < ZZ_DIGITS_MAX -> Z.of_nat (size zv) < ZZ_DIGITS_MAX ->
  exists m' z',
    zz_addsub u v subtract w m = Some (ZZ_OK, m')
    /\ writes w m m' z' /\ canonical z'
    /\ zz_val z' = zz_val zu + (if subtract then - zz_val zv else zz_val zv).
Proof.
  intros Hu Hv Hw Hcu Hcv Hlw Hmu Hmv. unfold zz_addsub.
  mstep ISNEG_run. mstep ISNEG_run. mstep get_size_run. mstep get_size_run.
  set (negu := negative zu).
  set (negv := if subtract then negb (negative zv) else negative zv).
  assert (zz_val zu + (if subtract then - zz_val zv else zz_val zv)
          = sg negu * mag zu + sg negv * mag zv) as ->.
  { rewrite !zz_val_sg. unfold negu, negv, sg.
    destruct subtract, (negative zu), (negative zv); cbn [negb]; ring. }
  destruct (Nat.ltb_spec (size zu) (size zv)) as [Hlt|Hge].
  - destruct (zz_addsub_ordered_spec m v u w zv zu zw negv negu)
      as (m' & z' & Hrun & Hw' & Hc' & Hval); auto; try lia.
    exists m', z'.
    replace (Bool.eqb negu negv) with (Bool.eqb negv negu)
      by (destruct negu, negv; reflexivity).
    split; [exact Hrun|].
    split; auto. split; auto. rewrite Hval. ring.
  - destruct (zz_addsub_ordered_spec m u v w zu zv zw negu negv)
      as (m' & z' & Hrun & Hw' & Hc' & Hval); auto; try lia.
    exists m', z'. auto.
Qed.

Lemma zz_add_spec m u v w zu zv zw :
  get m u = Some zu -> get m v = Some zv -> get m w = Some zw ->
  canonical zu -> canonical zv -> length (digits zw) = alloc zw ->
  Z.of_nat (size zu) < ZZ_DIGITS_MAX -> Z.of_nat (size zv) < ZZ_DIGITS_MAX ->
  exists m' z',
    zz_add u v w m = Some (ZZ_OK, m')
    /\ writes w m m' z' /\ canonical z'
    /\ zz_val z' = zz_val zu + zz_val zv.
Proof. apply (zz_addsub_spec m u v w zu zv zw false). Qed.

Lemma zz_sub_spec m u v w zu zv zw :
  get m u = Some zu -> get m v = Some zv -> get m w = Some zw ->
  canonical zu -> canonical zv -> length (digits zw) = alloc zw ->
  Z.of_nat (size zu) < ZZ_DIGITS_MAX -> Z.of_nat (size zv) < ZZ_DIGITS_MAX ->
  exists m' z',
    zz_sub u v w m = Some (ZZ_OK, m')
    /\ writes w m m' z' /\ canonical z'
    /\ zz_val z' = zz_val zu - zz_val zv.
Proof.
  intros. destruct (zz_addsub_spec m u v w zu zv zw true)
    as (m' & z' & Hrun & Hw' & Hc' & Hval); auto.
  exists m', z'. auto.
Qed.

(** ** Addition of a machine word *)

(** An object in canonical form but for the sign of zero, as the quotient of
    [zz_div] is before it is adjusted. *)
Definition trimmed (z : zz_t) : Prop :=
  wf z /\ (size z <> 0%nat -> top (firstn (size z) (digits z)) <> 0).

Lemma canonical_trimmed z : canonical z -> trimmed z.
Proof. intros (Hw & _ & Ht). split; auto. Qed.

Lemma trimmed_bound z :
  trimmed z -> size z <> 0%nat -> Bpow (size z - 1) <= mag z < Bpow (size z).
Proof.
  intros (Hw & Ht) Hn. pose proof (mag_bound z Hw) as Hb.
  pose proof (mpn_val_top_lower _ (proj2 (proj2 Hw)) (Ht Hn)) as Hl.
  rewrite (firstn_size_length z Hw) in Hl. unfold mag. split; [exact Hl|].
  apply Hb.
Qed.

Lemma digit_view m m1 u w zu zw z1 n b :
  get m u = Some zu -> get m w = Some zw ->
  writes w m m1 z1 -> resized n zw z1 ->
  (0 < length (digits zu))%nat ->
  get_digit u 0 (upd m1 w (set_negative b z1))
    = Some (nth 0 (digits zu) 0, upd m1 w (set_negative b z1)).
Proof.
  intros Hu Hw Hwr Hz Hk.
  destruct (Nat.eq_dec u w) as [->|Hn].
  - assert (zw = zu) as -> by congruence.
    erewrite get_digit_run; [| mget |].
    + cbn [digits set_negative].
      pose proof (resized_prefix n zu z1 1 Hz ltac:(lia)) as Hp.
      destruct (digits z1), (digits zu); simpl in *; congruence.
    + cbn [digits set_negative]. pose proof (resized_length n zu z1 Hz). lia.
  - erewrite get_digit_run; [reflexivity | mget | lia].
Qed.

Lemma zz_addsub_u64_spec m u w zu zw (v : Z) (subtract : bool) :
  get m u = Some zu -> get m w = Some zw ->
  trimmed zu -> length (digits zw) = alloc zw ->
  Z.of_nat (size zu) < ZZ_DIGITS_MAX -> 0 <= v < BASE ->
  exists m' z',
    zz_addsub_u64 u v subtract w m = Some (ZZ_OK, m')
    /\ writes w m m' z' /\ canonical z'
    /\ zz_val z' = sg (negative zu) * mag zu + sg subtract * v.
Proof.
  intros Hu Hw Htu Hlw Hmax Hv. unfold zz_addsub_u64.
  mstep ISNEG_run. mstep get_size_run.
  pose proof (wf_size_length zu (proj1 Htu)) as Hlu.
  pose proof (mag_bound zu (proj1 Htu)) as Hbu.
  set (nu := size zu) in *. set (negu := negative zu).
  destruct (Nat.eqb_spec nu 0) as [Hz|Hnz].
  { (* u is zero: the result is the word with its sign *)
    cbn [orb]. mret.
    assert (mag zu = 0) as Hm0 by (unfold mag; fold nu; now rewrite Hz).
    rewrite Hm0, Z.mul_0_r, Z.add_0_l.
    destruct (Z.eqb_spec v 0) as [->|Hv0].
    - destruct (zz_resize_run m w zw 0 Hw Hlw) as (m1 & z1 & Hr1 & Hw1 & Hz1).
      unfold guard. mstep Hr1. cbn [Nat.eqb negb]. mret.
      pose proof Hz1 as (Hs1 & Hn1 & Hl1 & Hcap1 & Hpre1).
      mstep get_size_run. rewrite Hs1. cbn [Nat.eqb negb].
      mstep SETNEG_run. mret.
      eexists _, _. split; [reflexivity|].
      split; [eapply writes_then_upd; eauto|].
      split.
      + unfold canonical, wf; cbn [size negative alloc digits set_negative].
        rewrite Hs1. repeat split; auto; try lia. constructor.
      + rewrite zz_val_sg. unfold mag; cbn [size negative digits set_negative].
        rewrite Hs1. cbn. ring.
    - destruct (zz_resize_run m w zw 1 Hw Hlw) as (m1 & z1 & Hr1 & Hw1 & Hz1).
      unfold guard. mstep Hr1. cbn [Nat.eqb negb].
      pose proof Hz1 as (Hs1 & Hn1 & Hl1 & Hcap1 & Hpre1).
      assert (digits z1 <> []) as Hne
        by (intros E; rewrite E in Hl1; simpl in Hl1; lia).
      mstep put_digit_run.
      mstep get_size_run. cbn [size set_digits]. rewrite Hs1.
      cbn [Nat.eqb negb].
      mstep SETNEG_run. mret.
      eexists _, _. split; [reflexivity|].
      split; [eapply writes_then_upd; eauto|].
      unfold canonical, wf, zz_val, mag;
        cbn [size digits alloc negative set_digits set_negative].
      rewrite Hs1, list_set_length, firstn_1_list_set by auto.
      unfold top; cbn [last mpn_val].
      repeat split; auto; try lia.
      + constructor; [lia | constructor].
      + unfold sg. destruct subtract; lia. }
  destruct (Nat.ltb_spec nu (if v =? 0 then 0%nat else 1%nat)) as [Hlt|_].
  { destruct (v =? 0); lia. }
  cbn [orb].
  destruct (Z.eqb_spec (Z.of_nat nu) ZZ_DIGITS_MAX) as [E|_]; [lia|].
  rewrite andb_false_r.
  set (ss := Bool.eqb negu subtract).
  destruct (zz_resize_run m w zw (nu + (if ss then 1 else 0)) Hw Hlw)
    as (m1 & z1 & Hr1 & Hw1 & Hz1).
  unfold guard. mstep Hr1. mstep SETNEG_run.
  pose proof Hz1 as (Hs1 & Hn1 & Hl1 & Hcap1 & Hpre1).
  pose proof (load_view m m1 u w zu zw z1 _ nu negu Hu Hw Hw1 Hz1 Hlu) as Hldu.
  pose proof (digit_view m m1 u w zu zw z1 _ negu Hu Hw Hw1 Hz1 ltac:(lia))
    as Hdgu.
  set (Du := firstn nu (digits zu)) in *.
  assert (length Du = nu) as HlDu by (unfold Du; rewrite length_firstn; lia).
  change (mpn_val Du) with (mag zu) in *.
  pose proof (BASE_pow_pos nu) as Hpu.
  pose proof (trimmed_bound zu Htu Hnz) as Hdb. fold nu in Hdb.
  assert (forall (X : Z) (sgn : bool) zf,
    zf = set_digits (limbs nu X ++ skipn nu (digits z1)) (set_negative sgn z1) ->
    ss = false -> 0 <= X < Bpow nu ->
    exists m' z',
      (zz_normalize w ;;; ret ZZ_OK) (upd m1 w zf) = Some (ZZ_OK, m')
      /\ writes w m m' z' /\ canonical z' /\ zz_val z' = sg sgn * X) as Hfin.
  { intros X sgn zf -> Hss HX. rewrite Hss, Nat.add_0_r in *.
    destruct (quo_2exp_final
                (set_digits (limbs nu X ++ skipn nu (digits z1))
                            (set_negative sgn z1))
                nu false (limbs nu X) (skipn nu (digits z1)) X)
      as [Hwf Hm]; cbn [size alloc digits set_digits set_negative];
      auto; try lia.
    { rewrite length_app, limbs_length, length_skipn. lia. }
    destruct (normalize_finish (upd m1 w (set_digits (limbs nu X ++ skipn nu (digits z1))
                            (set_negative sgn z1))) w _ X ltac:(mget) Hwf Hm)
      as (z' & Hrun & Hc' & Hval).
    rewrite upd_upd in Hrun.
    eexists _, z'. split; [exact Hrun|].
    split; [eapply writes_then_upd; eauto|]. split; auto. }
  destruct ss eqn:Ess.
  - mstep Hldu. unfold mpn_add_1.
    change (mpn_val Du) with (mag zu). rewrite HlDu.
    mstep mpn_store0_run.
    2: { cbn [digits set_negative]. rewrite limbs_length. lia. }
    mstep get_size_run. cbn [size set_digits set_negative]. rewrite Hs1.
    replace (nu + 1 - 1)%nat with nu by lia.
    mstep put_digit_run.
    2: { cbn [digits set_digits set_negative].
         rewrite length_app, limbs_length, length_skipn. lia. }
    cbn [digits set_digits set_negative]. rewrite limbs_length.
    rewrite (list_set_app_exact _ _ nu _ (limbs_length nu _)).
    set (X := mag zu + v).
    set (zf := set_digits _ _).
    destruct (quo_2exp_final zf nu true (limbs nu X)
                (list_set (skipn nu (digits z1)) 0 (X / Bpow nu)) X)
      as [Hwf Hm]; unfold zf; cbn [size alloc digits set_digits set_negative];
      auto; try lia.
    { rewrite length_app, limbs_length, list_set_length, length_skipn. lia. }
    { assert (skipn nu (digits z1) <> []) as Hne.
      { intros E. apply (f_equal (@length Z)) in E.
        rewrite length_skipn in E. simpl in E. lia. }
      split; [now apply list_set_0_nonnil|].
      split; [now apply hd_list_set_0|].
      apply Z.div_lt_upper_bound; [lia|]. unfold X.
      pose proof (BASE_pow_le 1 nu ltac:(lia)) as H1.
      change (Bpow 1) with BASE in H1. nia. }
    destruct (normalize_finish (upd m1 w zf) w zf X ltac:(mget) Hwf Hm)
      as (z' & Hrun & Hc' & Hval).
    rewrite upd_upd in Hrun. fold zf.
    eexists _, z'. split; [exact Hrun|].
    split; [eapply writes_then_upd; eauto|]. split; auto.
    rewrite Hval. unfold zf; cbn [negative set_digits set_negative].
    apply eqb_prop in Ess. rewrite <- Ess. unfold X. ring.
  - apply eqb_false_iff in Ess.
    assert (sg subtract = - sg negu) as Hsg
      by (unfold sg; destruct negu, subtract; congruence || reflexivity).
    destruct (Nat.eqb_spec nu 1) as [H1|Hn1']; cbn [negb].
    + mstep Hdgu.
      assert (mag zu = nth 0 (digits zu) 0) as Hm1.
      { unfold mag. fold nu. rewrite H1.
        destruct (digits zu); simpl in *; [lia|]. lia. }
      rewrite <- Hm1. rewrite H1 in *.
      change (Bpow 1) with BASE in *.
      assert (digits z1 <> []) as Hne
        by (intros E; rewrite E in Hl1; simpl in Hl1; lia).
      destruct (Z.ltb_spec (mag zu) v) as [Hlt|Hge].
      * mstep put_digit_run.
        2: { cbn [digits set_negative]. destruct (digits z1); [congruence | simpl; lia]. }
        mstep SETNEG_run. cbn [digits set_negative set_digits].
        destruct (Hfin (v - mag zu) subtract
                    (set_negative subtract
                       (set_digits (list_set (digits z1) 0 (v - mag zu))
                                   (set_negative negu z1))))
          as (m' & z' & Hrun & Hw' & Hc' & Hval); auto; try lia.
        { unfold set_negative, set_digits;
            cbn [negative alloc size digits]. f_equal.
          destruct (digits z1) as [|d r]; [congruence|].
          cbn [list_set limbs skipn app].
          rewrite Z.mod_small by lia. reflexivity. }
        exists m', z'. split; [exact Hrun|]. split; auto. split; auto.
        rewrite Hval, Hsg. ring.
      * mstep put_digit_run.
        2: { cbn [digits set_negative]. destruct (digits z1); [congruence | simpl; lia]. }
        cbn [digits set_negative set_digits].
        destruct (Hfin (mag zu - v) negu
                    (set_digits (list_set (digits z1) 0 (mag zu - v))
                                (set_negative negu z1)))
          as (m' & z' & Hrun & Hw' & Hc' & Hval); auto; try lia.
        { unfold set_negative, set_digits;
            cbn [negative alloc size digits]. f_equal.
          destruct (digits z1) as [|d r]; [congruence|].
          cbn [list_set limbs skipn app].
          rewrite Z.mod_small by lia. reflexivity. }
        exists m', z'. split; [exact Hrun|]. split; auto. split; auto.
        rewrite Hval, Hsg. ring.
    + mstep Hldu. unfold mpn_sub_1.
      change (mpn_val Du) with (mag zu). rewrite HlDu.
      mstep mpn_store0_run.
      2: { cbn [digits set_negative]. rewrite limbs_length. lia. }
      cbn [digits set_negative set_digits]. rewrite limbs_length.
      pose proof (BASE_pow_le 1 (nu - 1) ltac:(lia)) as Hb1.
      change (Bpow 1) with BASE in Hb1.
      destruct (Hfin (mag zu - v) negu _ eq_refl eq_refl ltac:(lia))
        as (m' & z' & Hrun & Hw' & Hc' & Hval).
      exists m', z'. split; [exact Hrun|]. split; auto. split; auto.
      rewrite Hval, Hsg. ring.
Qed.

Lemma zz_sub_i64_spec m u w zu zw (v : Z) :
  get m u = Some zu -> get m w = Some zw ->
  trimmed zu -> length (digits zw) = alloc zw ->
  Z.of_nat (size zu) < ZZ_DIGITS_MAX -> - BASE < v < BASE ->
  exists m' z',
    zz_sub_i64 u v w m = Some (ZZ_OK, m')
    /\ writes w m m' z' /\ canonical z'
    /\ zz_val z' = sg (negative zu) * mag zu - v.
Proof.
  intros Hu Hw Ht Hlw Hmax Hv. unfold zz_sub_i64, zz_addsub_i64.
  rewrite ABS_CAST_small by auto.
  destruct (zz_addsub_u64_spec m u w zu zw (Z.abs v) (0 <=? v))
    as (m' & z' & Hrun & Hw' & Hc' & Hval); auto; try lia.
  exists m', z'. split; [exact Hrun|]. split; auto. split; auto.
  rewrite Hval. unfold sg. destruct (Z.leb_spec 0 v); lia.
Qed.

(** ** Frames *)

Lemma frame_refl S m : frame S m m.
Proof. split; auto. Qed.

Lemma frame_get S m m' p : frame S m m' -> ~ In p S -> get m' p = get m p.
Proof. intros [_ H] Hp. now apply H. Qed.

Lemma frame_upd S m m' p z : In p S -> frame S m m' -> frame S m (upd m' p z).
Proof.
  intros Hp [Hl Hf]. split.
  - unfold upd; cbn. now rewrite list_set_length.
  - intros p' Hp'. unfold upd; cbn.
    rewrite nth_error_list_set_other by (intros ->; contradiction).
    now apply Hf.
Qed.

Lemma frame_writes S m m1 m2 p z :
  In p S -> frame S m m1 -> writes p m1 m2 z -> frame S m m2.
Proof.
  intros Hp [Hl Hf] Hw. unfold writes in Hw. split.
  - now rewrite Hw, list_set_length.
  - intros p' Hp'. rewrite Hw.
    rewrite nth_error_list_set_other by (intros ->; contradiction).
    now apply Hf.
Qed.

Lemma frame_junk S m m' j : frame S m m' -> frame S m (mk_mem (objs m') j).
Proof. intros [Hl Hf]. split; auto. Qed.

Lemma frame_trans S m m1 m2 : frame S m m1 -> frame S m1 m2 -> frame S m m2.
Proof.
  intros [Hl1 Hf1] [Hl2 Hf2]. split; [congruence|].
  intros p Hp. rewrite Hf2, Hf1; auto.
Qed.

Lemma frame_incl S S' m m' :
  (forall p, In p S -> In p S') -> frame S m m' -> frame S' m m'.
Proof.
  intros Hi [Hl Hf]. split; auto.
Qed.

Lemma writes_frame w m m' z : writes w m m' z -> frame [w] m m'.
Proof.
  intros Hw. eapply frame_writes; [left; reflexivity | apply frame_refl | exact Hw].
Qed.

(** ** [trim_top] *)

Lemma trim_top_run m w z :
  get m w = Some z -> (0 < size z <= length (digits z))%nat ->
  trim_top w m
    = Some (tt, upd m w (set_size
                           (size z - (if nth (size z - 1) (digits z) 0 =? 0
                                      then 1 else 0)) z)).
Proof.
  intros H Hs. unfold trim_top. mstep get_size_run. mstep get_digit_run.
  now apply put_size_run.
Qed.

(** An object of [n] words holding [X], with the top word possibly zero,
    after [trim_top]. *)
Lemma trim_top_trimmed z n X :
  size z = S n -> length (digits z) = alloc z -> (S n <= alloc z)%nat ->
  firstn (S n) (digits z) = limbs (S n) X ->
  0 <= X < Bpow (S n) -> (n <> 0%nat -> Bpow (n - 1) <= X) ->
  let z' := set_size (size z - (if nth (size z - 1) (digits z) 0 =? 0
                                then 1%nat else 0%nat)) z in
  trimmed z' /\ mag z' = X /\ (size z' = 0%nat <-> X = 0).
Proof.
  intros Hs Hl Hc Hd HX Hlow. rewrite Hs.
  replace (S n - 1)%nat with n by lia.
  assert (nth n (digits z) 0 = top (limbs (S n) X)) as Hn.
  { rewrite <- Hd. rewrite firstn_S_top by lia. reflexivity. }
  rewrite Hn, top_limbs.
  pose proof (BASE_pow_pos n) as Hp. rewrite BASE_pow_succ in HX.
  pose proof BASE_pos as HB.
  assert (0 <= X / Bpow n < BASE) as Hq.
  { split; [apply Z.div_pos; lia|]. apply Z.div_lt_upper_bound; lia. }
  rewrite Z.mod_small by auto.
  assert (firstn n (digits z) = limbs n X) as Hdn.
  { apply (f_equal (firstn n)) in Hd. rewrite firstn_firstn in Hd.
    replace (Nat.min n (S n)) with n in Hd by lia. rewrite Hd.
    clear. revert X. induction n as [|n IH]; intros X; [reflexivity|].
    change (limbs (S (S n)) X) with (X mod BASE :: limbs (S n) (X / BASE)).
    cbn [firstn limbs]. f_equal. apply IH. }
  cbv zeta.
  destruct (Z.eqb_spec (X / Bpow n) 0) as [E|E].
  - replace (S n - 1)%nat with n by lia.
    assert (0 <= X < Bpow n) as HXn.
    { apply Z.div_small_iff in E; lia. }
    unfold trimmed, wf, mag; cbn [size digits alloc set_size].
    rewrite Hdn. split; [|split].
    + split; [repeat split; auto; try lia; apply limbs_in_range|].
      intros Hn0. apply limbs_top_nonzero; [lia|]. split; [auto | lia].
    + now apply mpn_val_limbs_small.
    + split.
      * intros ->. rewrite BASE_pow_0 in HXn. lia.
      * intros ->. destruct (Nat.eq_dec n 0) as [|Hn0]; auto.
        specialize (Hlow Hn0). pose proof (BASE_pow_pos (n - 1)). lia.
  - replace (S n - 0)%nat with (S n) by lia.
    assert (Bpow n <= X) as HXn.
    { destruct (Z.le_gt_cases (Bpow n) X); auto.
      exfalso. apply E. apply Z.div_small. lia. }
    unfold trimmed, wf, mag; cbn [size digits alloc set_size].
    rewrite Hd. split; [|split].
    + split; [repeat split; auto; try lia; apply limbs_in_range|].
      intros _. apply limbs_top_nonzero; [lia|].
      replace (S n - 1)%nat with n by lia. rewrite BASE_pow_succ. lia.
    + apply mpn_val_limbs_small. rewrite BASE_pow_succ. lia.
    + split; [lia|]. intros ->. lia.
Qed.

(** ** Division: arithmetic *)

Lemma list_set_comm {A : Type} (l : list A) i j x y :
  i <> j -> list_set (list_set l i x) j y = list_set (list_set l j y) i x.
Proof.
  revert i j; induction l as [|h t IH]; intros [|i] [|j] H; simpl;
    auto; try congruence.
  f_equal. apply IH. congruence.
Qed.

Lemma upd_shadow m p q a b c :
  p <> q -> upd (upd (upd m p a) q b) p c = upd (upd m p c) q b.
Proof.
  intros H. unfold upd; cbn. f_equal.
  rewrite (list_set_comm _ q p) by congruence.
  now rewrite list_set_twice.
Qed.

Lemma tdiv_bounds U V nu nv :
  (1 <= nv <= nu)%nat ->
  Bpow (nu - 1) <= U < Bpow nu -> Bpow (nv - 1) <= V < Bpow nv ->
  0 <= U / V < Bpow (S (nu - nv))
  /\ ((nu - nv)%nat <> 0%nat -> Bpow (nu - nv - 1) <= U / V)
  /\ 0 <= U mod V < Bpow nv.
Proof.
  intros Hn HU HV.
  pose proof (BASE_pow_pos (nv - 1)) as Hp1.
  pose proof (BASE_pow_pos (nu - 1)) as Hp2.
  pose proof (BASE_pow_pos (S (nu - nv))) as Hp3.
  assert (0 < V) by lia.
  split; [split|split].
  - apply Z.div_pos; lia.
  - apply Z.div_lt_upper_bound; [lia|].
    assert (Bpow nu = Bpow (nv - 1) * Bpow (S (nu - nv))) as E.
    { rewrite <- BASE_pow_add. f_equal. lia. }
    nia.
  - intros Hd. apply Z.div_le_lower_bound; [lia|].
    pose proof (BASE_pow_pos (nu - nv - 1)) as Hp4.
    assert (Bpow (nu - 1) = Bpow nv * Bpow (nu - nv - 1)) as E.
    { rewrite <- BASE_pow_add. f_equal. lia. }
    nia.
  - pose proof (Z.mod_pos_bound U V ltac:(lia)). lia.
Qed.

(** Floor division of signed numbers, from the truncated division of their
    magnitudes. *)
Lemma floor_from_trunc (U V : Z) (su sv : bool) :
  0 <= U -> 0 < V ->
  let Q := U / V in
  let R := U mod V in
  let adj := xorb su sv && negb (R =? 0) in
  (sg su * U) / (sg sv * V)
    = (if xorb su sv then - (Q + (if R =? 0 then 0 else 1)) else Q)
  /\ (sg su * U) mod (sg sv * V)
    = sg sv * (if adj then V - R else R).
Proof.
  intros HU HV Q R adj.
  pose proof (Z.div_mod U V ltac:(lia)) as Hdm. fold Q R in Hdm.
  pose proof (Z.mod_pos_bound U V HV) as Hb. fold R in Hb.
  assert (forall q r,
            (0 <= r < sg sv * V \/ sg sv * V < r <= 0) ->
            sg su * U = sg sv * V * q + r ->
            (sg su * U) / (sg sv * V) = q /\ (sg su * U) mod (sg sv * V) = r)
    as Huniq.
  { intros q r Hr He. split; symmetry.
    - eapply Z.div_unique; eauto.
    - eapply Z.mod_unique; eauto. }
  unfold adj. destruct su, sv; cbn [xorb andb sg negb];
    destruct (Z.eqb_spec R 0) as [E|E]; cbn [negb];
    apply Huniq; unfold sg; lia.
Qed.

(** ** Division *)

Lemma zz_div_qr_spec fuel m u v q r zu zv zq zr :
  q <> r -> u <> q -> u <> r -> v <> q -> v <> r ->
  get m u = Some zu -> get m v = Some zv ->
  get m q = Some zq -> get m r = Some zr ->
  canonical zu -> canonical zv ->
  length (digits zq) = alloc zq -> length (digits zr) = alloc zr ->
  Z.of_nat (size zu) < ZZ_DIGITS_MAX -> Z.of_nat (size zv) < ZZ_DIGITS_MAX ->
  zz_val zv <> 0 ->
  exists m' zq' zr',
    zz_div_rec (S fuel) u v (Some q) (Some r) m = Some (ZZ_OK, m')
    /\ get m' q = Some zq' /\ get m' r = Some zr' /\ frame [q; r] m m'
    /\ canonical zq' /\ canonical zr'
    /\ zz_val zq' = zz_val zu / zz_val zv
    /\ zz_val zr' = zz_val zu mod zz_val zv.
Proof.
  intros Hqr Huq Hur Hvq Hvr Hu Hv Hq Hr Hcu Hcv Hlq Hlr Hmu Hmv Hv0.
  assert (In q [q; r]) as Hinq by (left; reflexivity).
  assert (In r [q; r]) as Hinr by (right; left; reflexivity).
  assert (size zv <> 0%nat) as Hnv.
  { intros E. apply Hv0. rewrite zz_val_sg.
    rewrite (proj2 (mag_zero_size zv Hcv) E). ring. }
  pose proof (canonical_digits_bound zv Hcv Hnv) as HbV.
  pose proof (canonical_mag_bound zu Hcu) as HbU0.
  pose proof (BASE_pow_pos (size zv - 1)) as HpV.
  cbn [zz_div_rec]. mstep get_size_run.
  destruct (Nat.eqb_spec (size zv) 0) as [|_]; [contradiction|].
  mstep get_size_run. mstep get_size_run.
  set (U := mag zu) in *. set (V := mag zv) in *.
  set (nu := size zu) in *. set (nv := size zv) in *.
  set (su := negative zu). set (sv := negative zv).
  rewrite (zz_val_sg zu), (zz_val_sg zv). fold U V su sv.
  pose proof (floor_from_trunc U V su sv ltac:(lia)
                ltac:(pose proof (BASE_pow_pos (nv - 1)); lia)) as Hfloor.
  cbv zeta in Hfloor. destruct Hfloor as [HfQ HfR].
  rewrite HfQ, HfR.
  assert (- BASE < 0 < BASE /\ - BASE < -1 < BASE) as [HB0 HB1]
    by (unfold BASE; lia).
  destruct (Nat.eqb_spec nu 0) as [Hz|Hnu].
  { (* the dividend is zero *)
    assert (U = 0) as HU0 by (apply (mag_zero_size zu Hcu); exact Hz).
    destruct (zz_set_i64_run m q zq 0 Hq Hlq HB0)
      as (m1 & z1 & Hr1 & Hw1 & Hc1 & Hv1).
    destruct (zz_set_i64_run m1 r zr 0 ltac:(mget) Hlr HB0)
      as (m2 & z2 & Hr2 & Hw2 & Hc2 & Hv2).
    unfold guard, c_or. mstep Hr1. mstep Hr2. mret.
    exists m2, z1, z2. split; [reflexivity|].
    split; [mget|]. split; [mget|].
    split; [eapply frame_writes; [exact Hinr| |exact Hw2];
            eapply frame_writes; [exact Hinq|apply frame_refl|exact Hw1]|].
    split; [exact Hc1|]. split; [exact Hc2|].
    rewrite Hv1, Hv2, HU0. rewrite Z.div_0_l, Z.mod_0_l by lia.
    change (0 =? 0) with true. cbn [negb andb]. rewrite andb_false_r.
    destruct (xorb su sv); lia. }
  pose proof (canonical_digits_bound zu Hcu Hnu) as HbU. fold U nu in HbU.
  destruct (Nat.ltb_spec nu nv) as [Hlt|Hge].
  { (* fewer digits than the divisor *)
    pose proof (BASE_pow_le nu (nv - 1) ltac:(lia)) as Hple.
    pose proof (BASE_pow_pos (nu - 1)) as Hpp.
    assert (0 < U < V) as HUV by lia.
    rewrite (Z.div_small U V), (Z.mod_small U V) by lia.
    mstep ISNEG_run. mstep ISNEG_run. fold su sv.
    destruct (Z.eqb_spec U 0) as [|_]; [lia|]. cbn [negb]. rewrite andb_true_r.
    destruct (xorb su sv) eqn:Ex.
    - destruct (zz_set_i64_run m q zq (-1) Hq Hlq HB1)
        as (m1 & z1 & Hr1 & Hw1 & Hc1 & Hv1).
      destruct (zz_add_spec m1 u v r zu zv zr) as (m2 & z2 & Hr2 & Hw2 & Hc2 & Hv2);
        auto; try mget.
      unfold guard, c_or. mstep Hr1. mstep Hr2. mret.
      exists m2, z1, z2. split; [reflexivity|].
      split; [mget|]. split; [mget|].
      split; [eapply frame_writes; [exact Hinr| |exact Hw2];
              eapply frame_writes; [exact Hinq|apply frame_refl|exact Hw1]|].
      split; [exact Hc1|]. split; [exact Hc2|].
      rewrite Hv1, Hv2, !zz_val_sg. fold U V su sv.
      split; [lia|]. unfold sg. destruct su, sv; try discriminate; lia.
    - destruct (zz_set_i64_run m q zq 0 Hq Hlq HB0)
        as (m1 & z1 & Hr1 & Hw1 & Hc1 & Hv1).
      destruct (zz_pos_run m1 u r zu zr) as (m2 & z2 & Hr2 & Hw2 & Hs2 & Hc2);
        auto; try mget.
      unfold guard, c_or. mstep Hr1. mstep Hr2. mret.
      exists m2, z1, z2. split; [reflexivity|].
      split; [mget|]. split; [mget|].
      split; [eapply frame_writes; [exact Hinr| |exact Hw2];
              eapply frame_writes; [exact Hinq|apply frame_refl|exact Hw1]|].
      split; [exact Hc1|]. split; [exact Hc2|].
      rewrite Hv1, (same_number_val _ _ Hs2), zz_val_sg. fold U su.
      split; [lia|]. unfold sg. destruct su, sv; try discriminate; lia. }
  destruct (Nat.eqb_spec u q) as [|_]; [contradiction|].
  destruct (Nat.eqb_spec u r) as [|_]; [contradiction|].
  destruct (Nat.eqb_spec v q) as [|_]; [contradiction|].
  destruct (Nat.eqb_spec v r) as [|_]; [contradiction|].
  cbn [orb].
  mstep get_size_run. mstep get_size_run. fold nu nv.
  destruct (zz_resize_run m q zq (nu - nv + 1) Hq Hlq)
    as (m1 & z1 & Hr1 & Hw1 & Hz1).
  destruct (zz_resize_run m1 r zr nv ltac:(mget) Hlr)
    as (m2 & z2 & Hr2 & Hw2 & Hz2).
  unfold guard at 1. unfold c_or. mstep Hr1. mstep get_size_run. mstep Hr2.
  pose proof Hz1 as (Hs1 & Hn1 & Hl1 & Hcap1 & _).
  pose proof Hz2 as (Hs2 & Hn2 & Hl2 & Hcap2 & _).
  mstep ISNEG_run. mstep ISNEG_run. fold su sv.
  mstep SETNEG_run. mstep ISNEG_run. mstep SETNEG_run. fold sv.
  mstep get_size_run. fold nv.
  pose proof (wf_size_length zu (proj1 Hcu)) as Hlu.
  pose proof (wf_size_length zv (proj1 Hcv)) as Hlv.
  fold nu in Hlu. fold nv in Hlv.
  mstep mpn_load0_run. mstep mpn_load0_run.
  unfold mpn_tdiv_qr. rewrite !length_firstn.
  replace (Nat.min nu (length (digits zu))) with nu by lia.
  replace (Nat.min nv (length (digits zv))) with nv by lia.
  destruct (Z.eqb_spec (top (firstn nv (digits zv))) 0) as [E|_].
  { exfalso. revert E. now apply canonical_top. }
  destruct (Nat.ltb_spec nu nv) as [|_]; [lia|]. cbn [orb].
  change (mpn_val (firstn nu (digits zu))) with U.
  change (mpn_val (firstn nv (digits zv))) with V.
  destruct (tdiv_bounds U V nu nv ltac:(lia) HbU HbV) as (HQ & HQlow & HR).
  set (Q := U / V) in *. set (R := U mod V) in *.
  replace (nu - nv + 1)%nat with (S (nu - nv)) in * by lia.
  set (nq := (nu - nv)%nat) in *.
  mstep mpn_store0_run.
  2: { cbn [digits set_negative]. rewrite limbs_length. lia. }
  rewrite upd_shadow by congruence.
  mstep mpn_store0_run.
  2: { cbn [digits set_negative]. rewrite limbs_length. lia. }
  rewrite !limbs_length. cbn [digits set_negative].
  set (sq := xorb su sv) in *.
  set (zq5 := set_digits (limbs (S nq) Q ++ _) _).
  set (zr5 := set_digits (limbs nv R ++ _) _).
  assert (length (digits zq5) = alloc z1) as Hlq5.
  { unfold zq5; cbn [digits set_digits].
    rewrite length_app, limbs_length, length_skipn. lia. }
  assert (length (digits zr5) = alloc z2) as Hlr5.
  { unfold zr5; cbn [digits set_digits].
    rewrite length_app, limbs_length, length_skipn. lia. }
  mstep trim_top_run.
  2: { rewrite Hlq5. unfold zq5; cbn [size set_digits set_negative]. lia. }
  rewrite upd_shadow by congruence.
  destruct (trim_top_trimmed zq5 nq Q) as (Htq & Hmq & Hq0); auto.
  { unfold zq5; cbn [digits set_digits].
    rewrite <- (limbs_length (S nq) Q) at 1. apply firstn_length_app. }
  set (zq6 := set_size _ zq5) in *.
  destruct (quo_2exp_final zr5 nv false (limbs nv R) (skipn nv (digits z2)) R)
    as [Hwr5 Hmr5]; auto; try lia;
    try (unfold zr5; cbn [size alloc digits set_digits set_negative]; lia).
  mstep zz_normalize_run.
  2: { rewrite Hlr5. unfold zr5; cbn [size set_digits set_negative]. lia. }
  pose proof (normalized_canonical zr5 Hwr5) as Hcr6.
  pose proof (normalized_mag zr5) as Hmr6. rewrite Hmr5 in Hmr6.
  pose proof (normalized_val zr5 Hwr5) as Hvr6.
  pose proof (mag_zero_size _ Hcr6) as Hr0. rewrite Hmr6 in Hr0.
  set (zr6 := normalized zr5) in *.
  mstep ISNEG_run. mstep get_size_run.
  assert (negative zq6 = sq) as Hnq6 by reflexivity. rewrite Hnq6.
  assert (negative zr5 = sv) as Hnr5 by reflexivity.
  assert (frame [q; r] m m2) as Hfr2.
  { eapply frame_writes; [exact Hinr| |exact Hw2].
    eapply frame_writes; [exact Hinq|apply frame_refl|exact Hw1]. }
  destruct (Nat.eqb_spec (size zr6) 0) as [Es|Es]; cbn [negb].
  - (* exact division *)
    assert (R = 0) as HR0 by tauto.
    destruct (Z.eqb_spec R 0) as [_|]; [|contradiction].
    cbn [negb]. rewrite !andb_false_r.
    mret. exists (upd (upd m2 q zq6) r zr6), zq6, zr6.
    split; [reflexivity|]. split; [mget|]. split; [mget|].
    split; [now repeat apply frame_upd|].
    assert (Q <> 0) as HQ0.
    { intros E. pose proof (Z.div_mod U V ltac:(lia)) as Hdm.
      fold Q R in Hdm. rewrite E, HR0 in Hdm. pose proof (BASE_pow_pos (nu - 1)). lia. }
    split.
    { destruct Htq as [Hwq Htop]. split; [exact Hwq|]. split; [|exact Htop].
      intros E. tauto. }
    split; [exact Hcr6|].
    split.
    + rewrite zz_val_sg, Hnq6, Hmq. unfold sg. destruct sq; lia.
    + rewrite zz_val_sg, Hmr6, HR0. ring.
  - assert (R <> 0) as HR0 by tauto.
    destruct (Z.eqb_spec R 0) as [|_]; [contradiction|]. cbn [negb].
    rewrite !andb_true_r.
    destruct sq eqn:Esq.
    + (* the signs differ and the division is not exact *)
      assert (size zq6 <= S nq)%nat as Hsq6.
      { unfold zq6, zq5; cbn [size set_size set_digits set_negative]. lia. }
      mstep get_size_run.
      destruct (Z.ltb_spec (Z.of_nat (size zq6)) ZZ_DIGITS_MAX) as [_|]; [|lia].
      unfold c_assert. mret.
      destruct (zz_sub_i64_spec (upd (upd m2 q zq6) r zr6) q q zq6 zq6 1)
        as (m9 & z9 & Hr9 & Hw9 & Hc9 & Hv9); auto; try mget;
        try (unfold nq in *; lia).
      unfold guard. mstep Hr9. mstep get_size_run. fold nv.
      mstep put_size_run. mstep mpn_load0_run.
      mstep mpn_load0_run.
      2: { cbn [digits set_size]. unfold zr6, normalized; cbn [digits]. lia. }
      assert (firstn nv (digits (set_size nv zr6)) = limbs nv R) as ->.
      { cbn [digits set_size]. unfold zr6, normalized; cbn [digits].
        unfold zr5; cbn [digits set_digits].
        rewrite <- (limbs_length nv R) at 1. apply firstn_length_app. }
      unfold mpn_sub_n, mpn_sub. rewrite length_firstn.
      replace (Nat.min nv (length (digits zv))) with nv by lia.
      change (mpn_val (firstn nv (digits zv))) with V.
      rewrite mpn_val_limbs_small by lia.
      mstep mpn_store0_run.
      2: { cbn [digits set_size]. unfold zr6, normalized; cbn [digits].
           rewrite limbs_length. lia. }
      rewrite limbs_length.
      set (zf := set_digits _ _).
      assert (0 <= R < V) as HRV by (apply Z.mod_pos_bound; lia).
      destruct (quo_2exp_final zf nv false (limbs nv (V - R))
                  (skipn nv (digits (set_size nv zr6))) (V - R))
        as [Hwf Hmf]; auto; try lia;
        try (unfold zf, zr6, normalized, zr5;
             cbn [size alloc digits set_digits set_negative set_size];
             rewrite ?length_app, ?limbs_length, ?length_skipn; lia).
      { unfold zf, zr6, normalized, zr5;
          cbn [size alloc digits set_digits set_negative set_size].
        rewrite length_app, limbs_length, length_skipn, length_app,
          limbs_length, length_skipn.
        lia. }
      destruct (normalize_finish (upd m9 r zf) r zf (V - R) ltac:(mget) Hwf Hmf)
        as (z' & Hrun & Hc' & Hval).
      rewrite upd_upd in Hrun.
      exists (upd m9 r z'), z9, z'. split; [exact Hrun|].
      split; [mget|]. split; [mget|].
      split.
      { apply frame_upd; auto. eapply frame_writes; [exact Hinq| |exact Hw9].
        now repeat apply frame_upd. }
      split; [exact Hc9|]. split; [exact Hc'|].
      split.
      * rewrite Hv9, Hnq6, Hmq. unfold sg. ring.
      * rewrite Hval. f_equal.
        change (negative zf) with (if (size zr6 =? 0)%nat then false else sv).
        destruct (Nat.eqb_spec (size zr6) 0); [contradiction|].
        reflexivity.
    + mret. exists (upd (upd m2 q zq6) r zr6), zq6, zr6.
      split; [reflexivity|]. split; [mget|]. split; [mget|].
      split; [now repeat apply frame_upd|].
      split.
      { destruct Htq as [Hwq Htop]. split; [exact Hwq|]. split; [|exact Htop].
        intros _. exact Hnq6. }
      split; [exact Hcr6|].
      split.
      * rewrite zz_val_sg, Hnq6, Hmq. unfold sg. ring.
      * rewrite Hvr6, zz_val_sg, Hnr5, Hmr5. reflexivity.
Qed.

(** X1. [zz_div (u, v, q, r)] with both outputs given, on canonical operands
    of fewer than [ZZ_DIGITS_MAX] digits and four distinct objects: a zero
    divisor gives [ZZ_VAL] and leaves the
    store as it is; otherwise the call returns [ZZ_OK], [q] and [r] are in
    canonical form and hold the floor quotient and its remainder:
    [q = floor (u / v)], [q * v + r = u], and [r] is zero or has the sign of
    the divisor, with [|r| < |v|].  Nothing but [q] and [r] is changed. *)
Theorem zz_div_floor (m : mem) (u v q r : ptr) (zu zv zq zr : zz_t) :
  q <> r -> u <> q -> u <> r -> v <> q -> v <> r ->
  get m u = Some zu -> get m v = Some zv ->
  get m q = Some zq -> get m r = Some zr ->
  canonical zu -> canonical zv ->
  length (digits zq) = alloc zq -> length (digits zr) = alloc zr ->
  Z.of_nat (size zu) < ZZ_DIGITS_MAX -> Z.of_nat (size zv) < ZZ_DIGITS_MAX ->
  if zz_val zv =? 0 then zz_div u v (Some q) (Some r) m = Some (ZZ_VAL, m)
  else
    exists m' zq' zr',
      zz_div u v (Some q) (Some r) m = Some (ZZ_OK, m')
      /\ get m' q = Some zq' /\ get m' r = Some zr' /\ frame [q; r] m m'
      /\ canonical zq' /\ canonical zr'
      /\ zz_val zq' = zz_val zu / zz_val zv
      /\ zz_val zq' * zz_val zv + zz_val zr' = zz_val zu
      /\ (0 <= zz_val zr' < zz_val zv \/ zz_val zv < zz_val zr' <= 0).
Proof.
  intros Hqr Huq Hur Hvq Hvr Hu Hv Hq Hr Hcu Hcv Hlq Hlr Hmu Hmv.
  destruct (Z.eqb_spec (zz_val zv) 0) as [E|E].
  - destruct (canonical_zero zv Hcv E) as [Hs _].
    unfold zz_div. cbn [zz_div_rec]. mstep get_size_run. now rewrite Hs.
  - destruct (zz_div_qr_spec 3 m u v q r zu zv zq zr)
      as (m' & zq' & zr' & Hrun & Hgq & Hgr & Hf & Hcq & Hcr & Hvq' & Hvr');
      auto.
    exists m', zq', zr'. split; [exact Hrun|].
    split; [exact Hgq|]. split; [exact Hgr|]. split; [exact Hf|].
    split; [exact Hcq|]. split; [exact Hcr|]. split; [exact Hvq'|].
    rewrite Hvq', Hvr'.
    pose proof (Z.div_mod (zz_val zu) (zz_val zv) E) as Hdm.
    split; [lia|].
    destruct (Z.lt_total (zz_val zv) 0) as [Hn|[Hz|Hp]]; [right|contradiction|left].
    + now apply Z.mod_neg_bound.
    + now apply Z.mod_pos_bound.
Qed.

(** -7 divided by 2, with two fresh objects for the outputs. *)
Definition mem_div : mem :=
  mk_mem [mk_zz true 1 1 [7]; mk_zz false 1 1 [2];
          mk_zz false 0 0 []; mk_zz false 0 0 []] [5; 5].

Lemma zz_div_floor_witness :
  exists m' zq' zr',
    zz_div 0 1 (Some 2%nat) (Some 3%nat) mem_div = Some (ZZ_OK, m')
    /\ get m' 2 = Some zq' /\ get m' 3 = Some zr' /\ frame [2%nat; 3%nat] mem_div m'
    /\ canonical zq' /\ canonical zr'
    /\ zz_val zq' = zz_val (mk_zz true 1 1 [7]) / zz_val (mk_zz false 1 1 [2])
    /\ zz_val zq' * zz_val (mk_zz false 1 1 [2]) + zz_val zr'
       = zz_val (mk_zz true 1 1 [7])
    /\ (0 <= zz_val zr' < zz_val (mk_zz false 1 1 [2])
        \/ zz_val (mk_zz false 1 1 [2]) < zz_val zr' <= 0).
Proof.
  apply (zz_div_floor mem_div 0%nat 1%nat 2%nat 3%nat
           (mk_zz true 1 1 [7]) (mk_zz false 1 1 [2])
           (mk_zz false 0 0 []) (mk_zz false 0 0 [])).
  - discriminate.
  - discriminate.
  - discriminate.
  - discriminate.
  - discriminate.
  - reflexivity.
  - reflexivity.
  - reflexivity.
  - reflexivity.
  - apply canonicalb_spec. reflexivity.
  - apply canonicalb_spec. reflexivity.
  - reflexivity.
  - reflexivity.
  - reflexivity.
  - reflexivity.
Defined.

(** The same division, run: the quotient is -4 and the remainder 1. *)
Example zz_div_example :
  zz_div 0 1 (Some 2%nat) (Some 3%nat) mem_div
    = Some (ZZ_OK,
            mk_mem [mk_zz true 1 1 [7]; mk_zz false 1 1 [2];
                    mk_zz true 2 1 [4; 0]; mk_zz false 1 1 [1]] []).
Proof. vm_compute. reflexivity. Qed.

(** ** Comparison *)

Definition ord_of_comparison (c : comparison) : zz_ord :=
  match c with Lt => ZZ_LT | Eq => ZZ_EQ | Gt => ZZ_GT end.

Lemma canonical_neg_size z : canonical z -> negative z = true -> size z <> 0%nat.
Proof. intros (_ & H0 & _) Hn E. rewrite (H0 E) in Hn. discriminate. Qed.

Lemma mag_size_lt a b :
  canonical a -> canonical b -> (size a < size b)%nat -> mag a < mag b.
Proof.
  intros Ha Hb Hlt.
  pose proof (canonical_mag_bound a Ha) as H1.
  pose proof (canonical_digits_bound b Hb ltac:(lia)) as H2.
  pose proof (BASE_pow_le (size a) (size b - 1) ltac:(lia)). lia.
Qed.

Lemma ord_of_compare_lt x y : x < y -> ord_of_comparison (x ?= y) = ZZ_LT.
Proof. intros H. apply Z.compare_lt_iff in H. now rewrite H. Qed.

Lemma ord_of_compare_gt x y : y < x -> ord_of_comparison (x ?= y) = ZZ_GT.
Proof. intros H. apply Z.compare_gt_iff in H. now rewrite H. Qed.

Lemma ord_of_compare_eq x y : x = y -> ord_of_comparison (x ?= y) = ZZ_EQ.
Proof. intros ->. now rewrite Z.compare_refl. Qed.

Lemma zz_cmp_spec m u v zu zv :
  get m u = Some zu -> get m v = Some zv -> canonical zu -> canonical zv ->
  zz_cmp u v m = Some (ord_of_comparison (zz_val zu ?= zz_val zv), m).
Proof.
  intros Hu Hv Hcu Hcv. unfold zz_cmp.
  destruct (Nat.eqb_spec u v) as [->|Hne].
  { assert (zu = zv) as -> by congruence. now rewrite Z.compare_refl. }
  mstep ISNEG_run. mstep ISNEG_run. mstep get_size_run. mstep get_size_run.
  pose proof (canonical_mag_bound zu Hcu) as HbU.
  pose proof (canonical_mag_bound zv Hcv) as HbV.
  pose proof (canonical_mag_pos zu Hcu) as HpU.
  pose proof (canonical_mag_pos zv Hcv) as HpV.
  pose proof (canonical_neg_size zu Hcu) as HnU.
  pose proof (canonical_neg_size zv Hcv) as HnV.
  pose proof (wf_size_length zu (proj1 Hcu)) as Hlu.
  pose proof (wf_size_length zv (proj1 Hcv)) as Hlv.
  unfold zz_val.
  destruct (negative zu) eqn:Eu, (negative zv) eqn:Ev; cbn [Bool.eqb negb].
  - (* both negative *)
    destruct (Nat.eqb_spec (size zu) (size zv)) as [Es|Es]; cbn [negb].
    + mstep mpn_load0_run. mstep mpn_load0_run.
      unfold ret, GMP.mpn_cmp, zz_ord_of_int. f_equal. f_equal.
      replace (firstn (size zu) (digits zv)) with (firstn (size zv) (digits zv))
        by now rewrite Es.
      fold (mag zu). fold (mag zv).
      destruct (Z.compare_spec (mag zu) (mag zv)) as [E|E|E]; cbn.
      * apply eq_sym, ord_of_compare_eq. lia.
      * apply eq_sym, ord_of_compare_gt. lia.
      * apply eq_sym, ord_of_compare_lt. lia.
    + unfold ret. f_equal. f_equal.
      destruct (Nat.ltb_spec (size zu) (size zv)) as [Hlt|Hge]; cbn.
      * pose proof (mag_size_lt zu zv Hcu Hcv Hlt).
        apply eq_sym, ord_of_compare_gt. lia.
      * pose proof (mag_size_lt zv zu Hcv Hcu ltac:(lia)).
        apply eq_sym, ord_of_compare_lt. lia.
  - unfold ret. f_equal. f_equal.
    apply eq_sym, ord_of_compare_lt. specialize (HpU (HnU eq_refl)). lia.
  - unfold ret. f_equal. f_equal.
    apply eq_sym, ord_of_compare_gt. specialize (HpV (HnV eq_refl)). lia.
  - destruct (Nat.eqb_spec (size zu) (size zv)) as [Es|Es]; cbn [negb].
    + mstep mpn_load0_run. mstep mpn_load0_run.
      unfold ret, GMP.mpn_cmp, zz_ord_of_int. f_equal. f_equal.
      replace (firstn (size zu) (digits zv)) with (firstn (size zv) (digits zv))
        by now rewrite Es.
      fold (mag zu). fold (mag zv).
      destruct (Z.compare_spec (mag zu) (mag zv)) as [E|E|E]; reflexivity.
    + unfold ret. f_equal. f_equal.
      destruct (Nat.ltb_spec (size zu) (size zv)) as [Hlt|Hge]; cbn.
      * pose proof (mag_size_lt zu zv Hcu Hcv Hlt).
        apply eq_sym, ord_of_compare_lt. lia.
      * pose proof (mag_size_lt zv zu Hcv Hcu ltac:(lia)).
        apply eq_sym, ord_of_compare_gt. lia.
Qed.

Lemma mag_size_1 z :
  wf z -> size z = 1%nat -> mag z = nth 0 (digits z) 0.
Proof.
  intros Hw Hs. pose proof (wf_size_length z Hw) as Hl.
  unfold mag. rewrite Hs.
  destruct (digits z) as [|d r]; simpl in *; [lia|]. lia.
Qed.

Lemma zz_cmp_i64_spec m u zu x :
  get m u = Some zu -> canonical zu -> - 2 ^ 63 <= x < 2 ^ 63 ->
  zz_cmp_i64 u x m = Some (ord_of_comparison (zz_val zu ?= x), m).
Proof.
  intros Hu Hcu Hx. unfold zz_cmp_i64.
  mstep ISNEG_run. mstep get_size_run.
  pose proof (canonical_mag_bound zu Hcu) as HbU.
  pose proof (canonical_mag_pos zu Hcu) as HpU.
  pose proof (canonical_neg_size zu Hcu) as HnU.
  pose proof (wf_size_length zu (proj1 Hcu)) as Hlu.
  assert (2 ^ 63 < BASE) as HB by (unfold BASE; lia).
  unfold zz_val.
  destruct (negative zu) eqn:Eu; destruct (Z.ltb_spec x 0) as [Hneg|Hpos];
    cbn [Bool.eqb negb].
  - destruct (Nat.eqb_spec (size zu) 1) as [Es|Es]; cbn [negb].
    + mstep get_digit_run. rewrite ABS_CAST_small by lia.
      rewrite <- (mag_size_1 zu (proj1 Hcu) Es).
      unfold ret. f_equal. f_equal.
      destruct (Z.ltb_spec (mag zu) (Z.abs x)); cbn.
      * apply eq_sym, ord_of_compare_gt. lia.
      * destruct (Z.ltb_spec (Z.abs x) (mag zu)); cbn.
        -- apply eq_sym, ord_of_compare_lt. lia.
        -- apply eq_sym, ord_of_compare_eq. lia.
    + unfold ret. f_equal. f_equal.
      destruct (Nat.eqb_spec (size zu) 0) as [E0|E0]; cbn [negb].
      * exfalso. now apply HnU.
      * pose proof (canonical_digits_bound zu Hcu E0) as Hb.
        pose proof (BASE_pow_le 1 (size zu - 1) ltac:(lia)) as Hle.
        change (Bpow 1) with BASE in Hle.
        apply eq_sym, ord_of_compare_lt. lia.
  - unfold ret. f_equal. f_equal.
    apply eq_sym, ord_of_compare_lt. specialize (HpU (HnU eq_refl)). lia.
  - unfold ret. f_equal. f_equal.
    apply eq_sym, ord_of_compare_gt. lia.
  - destruct (Nat.eqb_spec (size zu) 1) as [Es|Es]; cbn [negb].
    + mstep get_digit_run. rewrite ABS_CAST_small by lia.
      rewrite <- (mag_size_1 zu (proj1 Hcu) Es).
      unfold ret. f_equal. f_equal.
      destruct (Z.ltb_spec (mag zu) (Z.abs x)); cbn.
      * apply eq_sym, ord_of_compare_lt. lia.
      * destruct (Z.ltb_spec (Z.abs x) (mag zu)); cbn.
        -- apply eq_sym, ord_of_compare_gt. lia.
        -- apply eq_sym, ord_of_compare_eq. lia.
    + unfold ret. f_equal. f_equal.
      destruct (Nat.eqb_spec (size zu) 0) as [E0|E0]; cbn [negb].
      * assert (mag zu = 0) as -> by (apply (mag_zero_size zu Hcu); exact E0).
        destruct (Z.eqb_spec x 0) as [->|Hx0]; cbn [negb zz_ord_neg];
          [reflexivity|].
        apply eq_sym, ord_of_compare_lt. lia.
      * pose proof (canonical_digits_bound zu Hcu E0) as Hb.
        pose proof (BASE_pow_le 1 (size zu - 1) ltac:(lia)) as Hle.
        change (Bpow 1) with BASE in Hle.
        apply eq_sym, ord_of_compare_gt. lia.
Qed.

(** X2. Comparison is comparison of the values: for objects in canonical
    form, [zz_cmp (u, v)] is [ZZ_LT], [ZZ_EQ] or [ZZ_GT] as the value of [u]
    is less than, equal to or greater than the value of [v], whether or not
    the two arguments are the same object, and [zz_cmp_i64 (u, x)] compares
    the value of [u] with the [int64_t] [x] in the same way.  Neither
    changes the store. *)
Theorem zz_cmp_by_value (m : mem) (u v : ptr) (zu zv : zz_t) (x : Z) :
  get m u = Some zu -> get m v = Some zv -> canonical zu -> canonical zv ->
  - 2 ^ 63 <= x < 2 ^ 63 ->
  zz_cmp u v m = Some (ord_of_comparison (zz_val zu ?= zz_val zv), m)
  /\ zz_cmp_i64 u x m = Some (ord_of_comparison (zz_val zu ?= x), m).
Proof.
  intros Hu Hv Hcu Hcv Hx. split.
  - now apply zz_cmp_spec.
  - now apply zz_cmp_i64_spec.
Qed.

(** -2^64 and 5. *)
Definition mem_cmp : mem :=
  mk_mem [mk_zz true 2 2 [0; 1]; mk_zz false 1 1 [5]] [].

Lemma zz_cmp_by_value_witness :
  zz_cmp 0 1 mem_cmp = Some (ZZ_LT, mem_cmp)
  /\ zz_cmp_i64 0 (- 2 ^ 63) mem_cmp = Some (ZZ_LT, mem_cmp).
Proof.
  apply (zz_cmp_by_value mem_cmp 0%nat 1%nat
           (mk_zz true 2 2 [0; 1]) (mk_zz false 1 1 [5]) (- 2 ^ 63)).
  - reflexivity.
  - reflexivity.
  - apply canonicalb_spec. reflexivity.
  - apply canonicalb_spec. reflexivity.
  - split; [reflexivity | reflexivity].
Defined.

(** ** Conversion to machine integers *)

Lemma land_ones_small a n : 0 <= n -> 0 <= a < 2 ^ n -> Z.land a (2 ^ n - 1) = a.
Proof.
  intros Hn Ha. replace (2 ^ n - 1) with (Z.ones n)
    by (rewrite Z.ones_equiv; lia).
  rewrite Z.land_ones by lia. now apply Z.mod_small.
Qed.

(** What a getter returns for a number of value [x] and a type holding
    [lo .. hi]. *)
Definition fits (lo hi x : Z) : zz_err * option Z :=
  if (lo <=? x) && (x <=? hi) then (ZZ_OK, Some x) else (ZZ_BUF, None).

Lemma zz_get_signed_spec m u zu :
  get m u = Some zu -> canonical zu ->
  zz_get_i64 u m = Some (fits (- 2 ^ 63) (2 ^ 63 - 1) (zz_val zu), m)
  /\ zz_get_i32 u m = Some (fits (- 2 ^ 31) (2 ^ 31 - 1) (zz_val zu), m).
Proof.
  intros Hu Hcu.
  pose proof (canonical_mag_bound zu Hcu) as HbU.
  pose proof (canonical_mag_pos zu Hcu) as HpU.
  pose proof (wf_size_length zu (proj1 Hcu)) as Hlu.
  assert (BASE = 2 ^ 64) as HB by reflexivity.
  unfold zz_get_i64, zz_get_i32, fits, INT64_MAX, INT32_MAX.
  split.
  - mstep get_size_run.
    destruct (Nat.eqb_spec (size zu) 0) as [E0|E0].
    { assert (mag zu = 0) as Hm by (apply (mag_zero_size zu Hcu); exact E0).
      destruct Hcu as (_ & Hneg & _). unfold zz_val. rewrite (Hneg E0), Hm.
      reflexivity. }
    destruct (Nat.ltb_spec 1 (size zu)) as [H1|H1].
    { pose proof (canonical_digits_bound zu Hcu E0) as Hb.
      pose proof (BASE_pow_le 1 (size zu - 1) ltac:(lia)) as Hle.
      change (Bpow 1) with BASE in Hle.
      unfold ret. f_equal. f_equal. unfold zz_val.
      destruct (negative zu).
      - destruct (Z.leb_spec (- 2 ^ 63) (- mag zu)); [lia|]. reflexivity.
      - destruct (Z.leb_spec (mag zu) (2 ^ 63 - 1)); [lia|].
        now rewrite andb_false_r. }
    assert (size zu = 1%nat) as Es by lia.
    mstep get_digit_run. mstep ISNEG_run.
    rewrite <- (mag_size_1 zu (proj1 Hcu) Es).
    specialize (HpU E0). rewrite Es in HbU. change (Bpow 1) with BASE in HbU.
    unfold zz_val. unfold ret.
    destruct (negative zu).
    + rewrite (Z.mod_small (mag zu - 1)) by lia.
      replace (2 ^ 63 - 1 + 1) with (2 ^ 63) by lia.
      destruct (Z.leb_spec (mag zu) (2 ^ 63)) as [Hle|Hgt].
      * rewrite land_ones_small by lia.
        destruct (Z.leb_spec (- 2 ^ 63) (- mag zu)); [|lia].
        destruct (Z.leb_spec (- mag zu) (2 ^ 63 - 1)); [|lia].
        cbn [andb]. do 4 f_equal. lia.
      * destruct (Z.leb_spec (- 2 ^ 63) (- mag zu)); [lia|]. reflexivity.
    + destruct (Z.leb_spec (mag zu) (2 ^ 63 - 1)) as [Hle|Hgt].
      * destruct (Z.leb_spec (- 2 ^ 63) (mag zu)); [|lia]. reflexivity.
      * now rewrite andb_false_r.
  - mstep get_size_run.
    destruct (Nat.eqb_spec (size zu) 0) as [E0|E0].
    { assert (mag zu = 0) as Hm by (apply (mag_zero_size zu Hcu); exact E0).
      destruct Hcu as (_ & Hneg & _). unfold zz_val. rewrite (Hneg E0), Hm.
      reflexivity. }
    destruct (Nat.ltb_spec 1 (size zu)) as [H1|H1].
    { pose proof (canonical_digits_bound zu Hcu E0) as Hb.
      pose proof (BASE_pow_le 1 (size zu - 1) ltac:(lia)) as Hle.
      change (Bpow 1) with BASE in Hle.
      unfold ret. f_equal. f_equal. unfold zz_val.
      destruct (negative zu).
      - destruct (Z.leb_spec (- 2 ^ 31) (- mag zu)); [lia|]. reflexivity.
      - destruct (Z.leb_spec (mag zu) (2 ^ 31 - 1)); [lia|].
        now rewrite andb_false_r. }
    assert (size zu = 1%nat) as Es by lia.
    mstep get_digit_run. mstep ISNEG_run.
    rewrite <- (mag_size_1 zu (proj1 Hcu) Es).
    specialize (HpU E0). rewrite Es in HbU. change (Bpow 1) with BASE in HbU.
    unfold zz_val. unfold ret.
    destruct (negative zu).
    + rewrite (Z.mod_small (mag zu - 1)) by lia.
      replace (2 ^ 31 - 1 + 1) with (2 ^ 31) by lia.
      destruct (Z.leb_spec (mag zu) (2 ^ 31)) as [Hle|Hgt].
      * rewrite land_ones_small by lia.
        destruct (Z.leb_spec (- 2 ^ 31) (- mag zu)); [|lia].
        destruct (Z.leb_spec (- mag zu) (2 ^ 31 - 1)); [|lia].
        cbn [andb]. do 4 f_equal. lia.
      * destruct (Z.leb_spec (- 2 ^ 31) (- mag zu)); [lia|]. reflexivity.
    + destruct (Z.leb_spec (mag zu) (2 ^ 31 - 1)) as [Hle|Hgt].
      * destruct (Z.leb_spec (- 2 ^ 31) (mag zu)); [|lia]. reflexivity.
      * now rewrite andb_false_r.
Qed.

Lemma zz_get_unsigned_spec m u zu :
  get m u = Some zu -> canonical zu ->
  zz_get_u64 u m
    = Some (if zz_val zu <? 0 then (ZZ_VAL, None)
            else fits 0 (2 ^ 64 - 1) (zz_val zu), m)
  /\ zz_get_u32 u m
    = Some (if zz_val zu <? 0 then (ZZ_VAL, None)
            else fits 0 (2 ^ 32 - 1) (zz_val zu), m).
Proof.
  intros Hu Hcu.
  pose proof (canonical_mag_bound zu Hcu) as HbU.
  pose proof (canonical_mag_pos zu Hcu) as HpU.
  pose proof (wf_size_length zu (proj1 Hcu)) as Hlu.
  assert (BASE = 2 ^ 64) as HB by reflexivity.
  rewrite <- (zz_val_sign zu Hcu).
  unfold zz_get_u64, zz_get_u32, fits, UINT32_MAX.
  split.
  - mstep ISNEG_run. destruct (negative zu) eqn:En; [reflexivity|].
    rewrite (zz_val_nonneg zu En).
    mstep get_size_run.
    destruct (Nat.ltb_spec 1 (size zu)) as [H1|H1].
    { pose proof (canonical_digits_bound zu Hcu ltac:(lia)) as Hb.
      pose proof (BASE_pow_le 1 (size zu - 1) ltac:(lia)) as Hle.
      change (Bpow 1) with BASE in Hle.
      destruct (Z.leb_spec (mag zu) (2 ^ 64 - 1)); [lia|].
      now rewrite andb_false_r. }
    destruct (Nat.eqb_spec (size zu) 0) as [E0|E0]; cbn [negb].
    + assert (mag zu = 0) as -> by (apply (mag_zero_size zu Hcu); exact E0).
      reflexivity.
    + assert (size zu = 1%nat) as Es by lia.
      mstep get_digit_run.
      rewrite <- (mag_size_1 zu (proj1 Hcu) Es).
      rewrite Es in HbU. change (Bpow 1) with BASE in HbU.
      destruct (Z.leb_spec 0 (mag zu)); [|lia].
      destruct (Z.leb_spec (mag zu) (2 ^ 64 - 1)); [|lia]. reflexivity.
  - mstep ISNEG_run. destruct (negative zu) eqn:En; [reflexivity|].
    rewrite (zz_val_nonneg zu En).
    mstep get_size_run.
    destruct (Nat.eqb_spec (size zu) 0) as [E0|E0].
    { assert (mag zu = 0) as -> by (apply (mag_zero_size zu Hcu); exact E0).
      reflexivity. }
    destruct (Nat.ltb_spec 1 (size zu)) as [H1|H1].
    { pose proof (canonical_digits_bound zu Hcu ltac:(lia)) as Hb.
      pose proof (BASE_pow_le 1 (size zu - 1) ltac:(lia)) as Hle.
      change (Bpow 1) with BASE in Hle.
      destruct (Z.leb_spec (mag zu) (2 ^ 32 - 1)); [lia|].
      now rewrite andb_false_r. }
    assert (size zu = 1%nat) as Es by lia.
    mstep get_digit_run.
    rewrite <- (mag_size_1 zu (proj1 Hcu) Es).
    rewrite Es in HbU. change (Bpow 1) with BASE in HbU.
    destruct (Z.leb_spec 0 (mag zu)); [|lia]. cbn [andb].
    destruct (Z.ltb_spec (2 ^ 32 - 1) (mag zu));
      destruct (Z.leb_spec (mag zu) (2 ^ 32 - 1)); try lia; reflexivity.
Qed.

(** X3. The four integer getters on an object in canonical form: each
    returns [ZZ_OK] and stores the value exactly when the value fits the
    target type, and otherwise stores nothing; the status is then [ZZ_BUF],
    except that the unsigned getters return [ZZ_VAL] for every negative
    number.  The store is not changed. *)
Theorem zz_get_integer (m : mem) (u : ptr) (zu : zz_t) :
  get m u = Some zu -> canonical zu ->
  zz_get_i64 u m = Some (fits (- 2 ^ 63) (2 ^ 63 - 1) (zz_val zu), m)
  /\ zz_get_i32 u m = Some (fits (- 2 ^ 31) (2 ^ 31 - 1) (zz_val zu), m)
  /\ zz_get_u64 u m
     = Some (if zz_val zu <? 0 then (ZZ_VAL, None)
             else fits 0 (2 ^ 64 - 1) (zz_val zu), m)
  /\ zz_get_u32 u m
     = Some (if zz_val zu <? 0 then (ZZ_VAL, None)
             else fits 0 (2 ^ 32 - 1) (zz_val zu), m).
Proof.
  intros Hu Hcu.
  destruct (zz_get_signed_spec m u zu Hu Hcu) as [H1 H2].
  destruct (zz_get_unsigned_spec m u zu Hu Hcu) as [H3 H4].
  auto.
Qed.

(** -2^63, which fits [int64_t] only. *)
Definition mem_get : mem := mk_mem [mk_zz true 1 1 [2 ^ 63]] [].

Lemma zz_get_integer_witness :
  zz_get_i64 0 mem_get = Some ((ZZ_OK, Some (- 2 ^ 63)), mem_get)
  /\ zz_get_i32 0 mem_get = Some ((ZZ_BUF, None), mem_get)
  /\ zz_get_u64 0 mem_get = Some ((ZZ_VAL, None), mem_get)
  /\ zz_get_u32 0 mem_get = Some ((ZZ_VAL, None), mem_get).
Proof.
  apply (zz_get_integer mem_get 0%nat (mk_zz true 1 1 [2 ^ 63])).
  - reflexivity.
  - apply canonicalb_spec. reflexivity.
Defined.

Lemma zz_set_u64_run m v z x :
  get m v = Some z -> length (digits z) = alloc z -> 0 <= x < BASE ->
  exists m' z',
    zz_set_u64 x v m = Some (ZZ_OK, m')
    /\ writes v m m' z' /\ canonical z' /\ zz_val z' = x.
Proof.
  intros H Hl Hx. unfold zz_set_u64.
  destruct (Z.eqb_spec x 0) as [->|Hn].
  - mstep put_size_run. mstep SETNEG_run. mret.
    eexists _, _. split; [reflexivity|]. split; [eapply writes_upd; eauto|].
    split; [|reflexivity].
    unfold canonical, wf; cbn. repeat split; auto; try lia. constructor.
  - unfold guard.
    destruct (zz_resize_run m v z 1 H Hl) as (m1 & z1 & Hr & Hw & Hz).
    mstep Hr. mstep SETNEG_run.
    pose proof Hz as (Hs & Hg & Hlen & Hcap & Hpre).
    assert (digits z1 <> []) as Hne
      by (intros E; rewrite E in Hlen; simpl in Hlen; lia).
    mstep put_digit_run.
    2: { cbn [digits set_negative].
         destruct (digits z1); [congruence | simpl; lia]. }
    mret. eexists _, _. split; [reflexivity|].
    split; [eapply writes_then_upd; eauto|].
    unfold canonical, wf, zz_val, mag;
      cbn [size digits alloc negative set_digits set_negative].
    rewrite Hs, list_set_length, firstn_1_list_set by auto.
    unfold top; cbn [last mpn_val].
    repeat split; auto; try lia.
    constructor; [lia | constructor].
Qed.

Lemma fits_in lo hi x : lo <= x <= hi -> fits lo hi x = (ZZ_OK, Some x).
Proof.
  intros H. unfold fits.
  destruct (Z.leb_spec lo x); [|lia]. destruct (Z.leb_spec x hi); [|lia].
  reflexivity.
Qed.

(** X4. Round trip through a machine integer: after [zz_set_i64 (x, v)] the
    object [v] is in canonical form with value [x] and [zz_get_i64 (v)]
    gives [x] back, for every [int64_t] [x], [INT64_MIN] included; the same
    holds for [zz_set_u64] and [zz_get_u64] on every [uint64_t], and for
    [zz_set_i32] and [zz_get_i32] on every [int32_t] but [INT32_MIN], for
    which [zz_set_i32] evaluates [abs (INT32_MIN)] and has no defined
    result. *)
Theorem zz_set_get_round_trip (m : mem) (v : ptr) (z : zz_t) (x y w : Z) :
  get m v = Some z -> length (digits z) = alloc z ->
  - 2 ^ 63 <= x < 2 ^ 63 -> 0 <= y < 2 ^ 64 -> - 2 ^ 31 < w < 2 ^ 31 ->
  (exists m' z',
     zz_set_i64 x v m = Some (ZZ_OK, m')
     /\ writes v m m' z' /\ canonical z' /\ zz_val z' = x
     /\ zz_get_i64 v m' = Some ((ZZ_OK, Some x), m'))
  /\ (exists m' z',
     zz_set_u64 y v m = Some (ZZ_OK, m')
     /\ writes v m m' z' /\ canonical z' /\ zz_val z' = y
     /\ zz_get_u64 v m' = Some ((ZZ_OK, Some y), m'))
  /\ (exists m' z',
     zz_set_i32 w v m = Some (ZZ_OK, m')
     /\ writes v m m' z' /\ canonical z' /\ zz_val z' = w
     /\ zz_get_i32 v m' = Some ((ZZ_OK, Some w), m'))
  /\ zz_set_i32 (- 2 ^ 31) v m = None.
Proof.
  intros Hv Hl Hx Hy Hw.
  assert (BASE = 2 ^ 64) as HB by reflexivity.
  split; [|split; [|split]].
  - destruct (zz_set_i64_run m v z x Hv Hl ltac:(lia))
      as (m' & z' & Hrun & Hwr & Hc & Hval).
    exists m', z'. repeat (split; [assumption|]).
    destruct (zz_get_signed_spec m' v z' ltac:(mget) Hc) as [-> _].
    rewrite Hval, fits_in by lia. reflexivity.
  - destruct (zz_set_u64_run m v z y Hv Hl ltac:(lia))
      as (m' & z' & Hrun & Hwr & Hc & Hval).
    exists m', z'. repeat (split; [assumption|]).
    destruct (zz_get_unsigned_spec m' v z' ltac:(mget) Hc) as [-> _].
    rewrite Hval, fits_in by lia.
    destruct (Z.ltb_spec y 0); [lia | reflexivity].
  - destruct (zz_set_i32_run m v z w Hv Hl ltac:(unfold INT32_MIN; lia))
      as (m' & z' & Hrun & Hwr & Hc & Hval).
    exists m', z'. repeat (split; [assumption|]).
    destruct (zz_get_signed_spec m' v z' ltac:(mget) Hc) as [_ ->].
    rewrite Hval, fits_in by lia. reflexivity.
  - unfold zz_set_i32. change (- 2 ^ 31 =? 0) with false. cbv iota.
    unfold guard.
    destruct (zz_resize_run m v z 1 Hv Hl) as (m1 & z1 & Hr & Hwr & Hz).
    mstep Hr. mstep SETNEG_run. reflexivity.
Qed.

Definition mem_set : mem := mk_mem [mk_zz false 0 0 []] [3].

Lemma zz_set_get_round_trip_witness :
  (exists m' z',
     zz_set_i64 (- 2 ^ 63) 0 mem_set = Some (ZZ_OK, m')
     /\ writes 0 mem_set m' z' /\ canonical z' /\ zz_val z' = - 2 ^ 63
     /\ zz_get_i64 0 m' = Some ((ZZ_OK, Some (- 2 ^ 63)), m'))
  /\ (exists m' z',
     zz_set_u64 (2 ^ 64 - 1) 0 mem_set = Some (ZZ_OK, m')
     /\ writes 0 mem_set m' z' /\ canonical z' /\ zz_val z' = 2 ^ 64 - 1
     /\ zz_get_u64 0 m' = Some ((ZZ_OK, Some (2 ^ 64 - 1)), m'))
  /\ (exists m' z',
     zz_set_i32 (-5) 0 mem_set = Some (ZZ_OK, m')
     /\ writes 0 mem_set m' z' /\ canonical z' /\ zz_val z' = -5
     /\ zz_get_i32 0 m' = Some ((ZZ_OK, Some (-5)), m'))
  /\ zz_set_i32 (- 2 ^ 31) 0 mem_set = None.
Proof.
  apply (zz_set_get_round_trip mem_set 0%nat (mk_zz false 0 0 [])
           (- 2 ^ 63) (2 ^ 64 - 1) (-5)).
  - reflexivity.
  - reflexivity.
  - split; [discriminate | reflexivity].
  - split; [discriminate | reflexivity].
  - split; [reflexivity | reflexivity].
Defined.

(** ** Copy, negation and absolute value into another object *)

Lemma canonical_set_negative z b :
  canonical z -> size z <> 0%nat -> canonical (set_negative b z).
Proof.
  intros (Hw & H0 & Ht) Hs. split; [exact Hw|]. split; [|exact Ht].
  cbn [size set_negative]. intros E. contradiction.
Qed.

Lemma zz_neg_run m u v zu zv :
  u <> v -> get m u = Some zu -> get m v = Some zv ->
  canonical zu -> length (digits zv) = alloc zv ->
  exists m' z',
    zz_neg u v m = Some (ZZ_OK, m')
    /\ writes v m m' z' /\ canonical z' /\ zz_val z' = - zz_val zu
    /\ size z' = size zu.
Proof.
  intros Huv Hu Hv Hc Hlv. unfold zz_neg.
  destruct (Nat.eqb_spec u v) as [|_]; [contradiction|]. cbn [negb].
  destruct (zz_pos_run m u v zu zv Huv Hu Hv Hc Hlv)
    as (m1 & z1 & Hr1 & Hw1 & Hs1 & Hc1).
  mstep Hr1. mstep get_size_run.
  pose proof (same_number_val _ _ Hs1) as Hval.
  destruct (Nat.eqb_spec (size z1) 0) as [E0|E0]; cbn [negb].
  - mret. exists m1, z1. split; [reflexivity|]. split; [exact Hw1|].
    split; [exact Hc1|].
    assert (mag z1 = 0) as Hm by (apply (mag_zero_size z1 Hc1); exact E0).
    split; [|apply Hs1].
    rewrite <- Hval. unfold zz_val. rewrite Hm. now destruct (negative z1).
  - mstep ISNEG_run. mstep SETNEG_run. mret.
    eexists _, _. split; [reflexivity|].
    split; [eapply writes_then_upd; eauto|].
    split; [now apply canonical_set_negative|].
    split; [|apply Hs1].
    rewrite <- Hval. destruct Hs1 as (_ & Hn & _). rewrite <- Hn.
    unfold zz_val, mag; cbn [negative size digits set_negative].
    destruct (negative z1); cbn [negb]; lia.
Qed.

Lemma zz_neg_same_run m u zu :
  get m u = Some zu -> canonical zu ->
  exists z',
    zz_neg u u m = Some (ZZ_OK, upd m u z')
    /\ canonical z' /\ zz_val z' = - zz_val zu /\ size z' = size zu.
Proof.
  intros Hu Hc. unfold zz_neg. rewrite Nat.eqb_refl. mret.
  mstep get_size_run.
  destruct (Nat.eqb_spec (size zu) 0) as [E0|E0]; cbn [negb].
  - mret. exists zu. unfold ret. rewrite upd_same by auto.
    split; [reflexivity|]. split; [exact Hc|]. split; [|reflexivity].
    assert (mag zu = 0) as Hm by (apply (mag_zero_size zu Hc); exact E0).
    unfold zz_val. rewrite Hm. now destruct (negative zu).
  - mstep ISNEG_run. mstep SETNEG_run. mret.
    eexists. split; [reflexivity|].
    split; [now apply canonical_set_negative|].
    split; [|reflexivity].
    unfold zz_val, mag; cbn [negative size digits set_negative].
    destruct (negative zu); cbn [negb]; lia.
Qed.

(** [zz_neg] for any two arguments. *)
Lemma zz_neg_any m u v zu zv :
  get m u = Some zu -> get m v = Some zv ->
  canonical zu -> length (digits zv) = alloc zv ->
  exists m' z',
    zz_neg u v m = Some (ZZ_OK, m')
    /\ writes v m m' z' /\ canonical z' /\ zz_val z' = - zz_val zu
    /\ size z' = size zu.
Proof.
  intros Hu Hv Hc Hlv. destruct (Nat.eq_dec u v) as [<-|Hne].
  - destruct (zz_neg_same_run m u zu Hu Hc) as (z' & Hr & Hc' & Hv' & Hs').
    exists (upd m u z'), z'. split; [exact Hr|].
    split; [eapply writes_upd; eauto|]. auto.
  - now apply (zz_neg_run m u v zu zv).
Qed.

Lemma zz_abs_run m u v zu zv :
  u <> v -> get m u = Some zu -> get m v = Some zv ->
  canonical zu -> length (digits zv) = alloc zv ->
  exists m' z',
    zz_abs u v m = Some (ZZ_OK, m')
    /\ writes v m m' z' /\ canonical z' /\ zz_val z' = Z.abs (zz_val zu).
Proof.
  intros Huv Hu Hv Hc Hlv. unfold zz_abs.
  destruct (Nat.eqb_spec u v) as [|_]; [contradiction|]. cbn [negb].
  destruct (zz_pos_run m u v zu zv Huv Hu Hv Hc Hlv)
    as (m1 & z1 & Hr1 & Hw1 & Hs1 & Hc1).
  mstep Hr1. mstep SETNEG_run. mret.
  eexists _, _. split; [reflexivity|].
  split; [eapply writes_then_upd; eauto|].
  pose proof (same_number_val _ _ Hs1) as Hval.
  pose proof (mag_nonneg z1 (proj1 Hc1)) as Hm.
  split.
  - destruct Hc1 as (Hw & H0 & Ht). split; [exact Hw|]. split; [|exact Ht].
    reflexivity.
  - rewrite <- Hval.
    unfold zz_val, mag; cbn [negative size digits set_negative].
    fold (mag z1). destruct (negative z1); lia.
Qed.

(** X5. [zz_pos], [zz_neg] and [zz_abs] into an object [v] other than the
    operand [u], for [u] in canonical form: each returns [ZZ_OK], changes
    only [v], and leaves it in canonical form with the value of [u], of
    [- u] and of [|u|]. *)
Theorem zz_pos_neg_abs_value (m : mem) (u v : ptr) (zu zv : zz_t) :
  u <> v -> get m u = Some zu -> get m v = Some zv ->
  canonical zu -> length (digits zv) = alloc zv ->
  (exists m' z',
     zz_pos u v m = Some (ZZ_OK, m')
     /\ writes v m m' z' /\ canonical z' /\ zz_val z' = zz_val zu)
  /\ (exists m' z',
     zz_neg u v m = Some (ZZ_OK, m')
     /\ writes v m m' z' /\ canonical z' /\ zz_val z' = - zz_val zu)
  /\ (exists m' z',
     zz_abs u v m = Some (ZZ_OK, m')
     /\ writes v m m' z' /\ canonical z' /\ zz_val z' = Z.abs (zz_val zu)).
Proof.
  intros Huv Hu Hv Hc Hlv. split; [|split].
  - destruct (zz_pos_run m u v zu zv Huv Hu Hv Hc Hlv)
      as (m1 & z1 & Hr1 & Hw1 & Hs1 & Hc1).
    exists m1, z1. repeat (split; [assumption|]).
    now apply same_number_val.
  - destruct (zz_neg_run m u v zu zv Huv Hu Hv Hc Hlv)
      as (m1 & z1 & Hr1 & Hw1 & Hc1 & Hv1 & _).
    exists m1, z1. auto.
  - apply (zz_abs_run m u v zu zv); assumption.
Qed.

Lemma zz_pos_neg_abs_value_witness :
  (exists m' z',
     zz_pos 1 0 mem_example = Some (ZZ_OK, m')
     /\ writes 0 mem_example m' z' /\ canonical z'
     /\ zz_val z' = zz_val (mk_zz true 2 1 [5; 7]))
  /\ (exists m' z',
     zz_neg 1 0 mem_example = Some (ZZ_OK, m')
     /\ writes 0 mem_example m' z' /\ canonical z'
     /\ zz_val z' = - zz_val (mk_zz true 2 1 [5; 7]))
  /\ (exists m' z',
     zz_abs 1 0 mem_example = Some (ZZ_OK, m')
     /\ writes 0 mem_example m' z' /\ canonical z'
     /\ zz_val z' = Z.abs (zz_val (mk_zz true 2 1 [5; 7]))).
Proof.
  apply (zz_pos_neg_abs_value mem_example 1%nat 0%nat
           (mk_zz true 2 1 [5; 7]) (mk_zz false 0 0 [])).
  - discriminate.
  - reflexivity.
  - reflexivity.
  - apply canonicalb_spec. reflexivity.
  - reflexivity.
Defined.

(** ** Sums and differences *)

(** X6. [zz_add (u, v, w)] and [zz_sub (u, v, w)] on operands in canonical
    form of fewer than [ZZ_DIGITS_MAX] digits return [ZZ_OK], change only [w], and leave it in canonical form
    with the value [u + v] and [u - v].  The three arguments may be any
    objects: the output may be one of the operands, or both. *)
Theorem zz_add_sub_value (m : mem) (u v w : ptr) (zu zv zw : zz_t) :
  get m u = Some zu -> get m v = Some zv -> get m w = Some zw ->
  canonical zu -> canonical zv -> length (digits zw) = alloc zw ->
  Z.of_nat (size zu) < ZZ_DIGITS_MAX -> Z.of_nat (size zv) < ZZ_DIGITS_MAX ->
  (exists m' z',
     zz_add u v w m = Some (ZZ_OK, m')
     /\ writes w m m' z' /\ canonical z'
     /\ zz_val z' = zz_val zu + zz_val zv)
  /\ (exists m' z',
     zz_sub u v w m = Some (ZZ_OK, m')
     /\ writes w m m' z' /\ canonical z'
     /\ zz_val z' = zz_val zu - zz_val zv).
Proof.
  intros Hu Hv Hw Hcu Hcv Hlw Hmu Hmv. split.
  - apply (zz_add_spec m u v w zu zv zw); assumption.
  - apply (zz_sub_spec m u v w zu zv zw); assumption.
Qed.

(** 2^64 - 1 and -(2^64 + 3); the sum is written over the first operand. *)
Definition mem_add : mem :=
  mk_mem [mk_zz false 1 1 [2 ^ 64 - 1]; mk_zz true 2 2 [3; 1]] [8; 8].

Lemma zz_add_sub_value_witness :
  (exists m' z',
     zz_add 0 1 0 mem_add = Some (ZZ_OK, m')
     /\ writes 0 mem_add m' z' /\ canonical z'
     /\ zz_val z' = zz_val (mk_zz false 1 1 [2 ^ 64 - 1])
                    + zz_val (mk_zz true 2 2 [3; 1]))
  /\ (exists m' z',
     zz_sub 0 1 0 mem_add = Some (ZZ_OK, m')
     /\ writes 0 mem_add m' z' /\ canonical z'
     /\ zz_val z' = zz_val (mk_zz false 1 1 [2 ^ 64 - 1])
                    - zz_val (mk_zz true 2 2 [3; 1])).
Proof.
  apply (zz_add_sub_value mem_add 0%nat 1%nat 0%nat
           (mk_zz false 1 1 [2 ^ 64 - 1]) (mk_zz true 2 2 [3; 1])
           (mk_zz false 1 1 [2 ^ 64 - 1])).
  - reflexivity.
  - reflexivity.
  - reflexivity.
  - apply canonicalb_spec. reflexivity.
  - apply canonicalb_spec. reflexivity.
  - reflexivity.
  - reflexivity.
  - reflexivity.
Defined.

(** The same sum and difference, run: -4 and 2^65 + 2. *)
Example zz_add_sub_example :
  zz_add 0 1 0 mem_add
    = Some (ZZ_OK,
            mk_mem [mk_zz true 2 1 [4; 0]; mk_zz true 2 2 [3; 1]] [8])
  /\ zz_sub 0 1 0 mem_add
    = Some (ZZ_OK,
            mk_mem [mk_zz false 3 2 [2; 2; 0]; mk_zz true 2 2 [3; 1]] []).
Proof. split; vm_compute; reflexivity. Qed.

Lemma zz_addsub_i64_spec m u w zu zw (v : Z) (subtract : bool) :
  get m u = Some zu -> get m w = Some zw ->
  trimmed zu -> length (digits zw) = alloc zw ->
  Z.of_nat (size zu) < ZZ_DIGITS_MAX -> - BASE < v < BASE ->
  exists m' z',
    zz_addsub_i64 u v subtract w m = Some (ZZ_OK, m')
    /\ writes w m m' z' /\ canonical z'
    /\ zz_val z' = sg (negative zu) * mag zu + (if subtract then - v else v).
Proof.
  intros Hu Hw Ht Hlw Hmax Hv. unfold zz_addsub_i64.
  rewrite ABS_CAST_small by auto.
  destruct (zz_addsub_u64_spec m u w zu zw (Z.abs v)
              (if subtract then 0 <=? v else v <? 0))
    as (m' & z' & Hrun & Hw' & Hc' & Hval); auto; try lia.
  exists m', z'. split; [exact Hrun|]. split; auto. split; auto.
  rewrite Hval. unfold sg.
  destruct subtract; [destruct (Z.leb_spec 0 v) | destruct (Z.ltb_spec v 0)];
    lia.
Qed.

(** X7. Sums and differences with a machine integer, for [u] in canonical
    form of fewer than [ZZ_DIGITS_MAX] digits, an [int64_t] [x] and a [uint64_t] [y]: [zz_add_i64], [zz_sub_i64],
    [zz_add_u64], [zz_sub_u64], [zz_i64_sub] and [zz_u64_sub] return [ZZ_OK]
    and leave [w] in canonical form with the values [u + x], [u - x],
    [u + y], [u - y], [x - u] and [y - u].  The output may be the operand
    itself. *)
Theorem zz_add_sub_machine (m : mem) (u w : ptr) (zu zw : zz_t) (x y : Z) :
  get m u = Some zu -> get m w = Some zw ->
  canonical zu -> length (digits zw) = alloc zw ->
  Z.of_nat (size zu) < ZZ_DIGITS_MAX ->
  - 2 ^ 63 <= x < 2 ^ 63 -> 0 <= y < 2 ^ 64 ->
  (exists m' z', zz_add_i64 u x w m = Some (ZZ_OK, m')
     /\ writes w m m' z' /\ canonical z' /\ zz_val z' = zz_val zu + x)
  /\ (exists m' z', zz_sub_i64 u x w m = Some (ZZ_OK, m')
     /\ writes w m m' z' /\ canonical z' /\ zz_val z' = zz_val zu - x)
  /\ (exists m' z', zz_add_u64 u y w m = Some (ZZ_OK, m')
     /\ writes w m m' z' /\ canonical z' /\ zz_val z' = zz_val zu + y)
  /\ (exists m' z', zz_sub_u64 u y w m = Some (ZZ_OK, m')
     /\ writes w m m' z' /\ canonical z' /\ zz_val z' = zz_val zu - y)
  /\ (exists m' z', zz_i64_sub x u w m = Some (ZZ_OK, m')
     /\ writes w m m' z' /\ canonical z' /\ zz_val z' = x - zz_val zu)
  /\ (exists m' z', zz_u64_sub y u w m = Some (ZZ_OK, m')
     /\ writes w m m' z' /\ canonical z' /\ zz_val z' = y - zz_val zu).
Proof.
  intros Hu Hw Hcu Hlw Hmax Hx Hy.
  assert (BASE = 2 ^ 64) as HB by reflexivity.
  pose proof (canonical_trimmed zu Hcu) as Htu.
  split; [|split; [|split; [|split; [|split]]]].
  - destruct (zz_addsub_i64_spec m u w zu zw x false)
      as (m' & z' & Hrun & Hw' & Hc' & Hval); auto; try lia.
    exists m', z'. repeat (split; [assumption|]).
    rewrite Hval, zz_val_sg. reflexivity.
  - destruct (zz_addsub_i64_spec m u w zu zw x true)
      as (m' & z' & Hrun & Hw' & Hc' & Hval); auto; try lia.
    exists m', z'. repeat (split; [assumption|]).
    rewrite Hval, zz_val_sg. lia.
  - destruct (zz_addsub_u64_spec m u w zu zw y false)
      as (m' & z' & Hrun & Hw' & Hc' & Hval); auto; try lia.
    exists m', z'. repeat (split; [assumption|]).
    rewrite Hval, zz_val_sg. unfold sg at 2. lia.
  - destruct (zz_addsub_u64_spec m u w zu zw y true)
      as (m' & z' & Hrun & Hw' & Hc' & Hval); auto; try lia.
    exists m', z'. repeat (split; [assumption|]).
    rewrite Hval, zz_val_sg. unfold sg at 2. lia.
  - destruct (zz_neg_any m u w zu zw Hu Hw Hcu Hlw)
      as (m1 & z1 & Hr1 & Hw1 & Hc1 & Hv1 & Hs1).
    assert (get m1 w = Some z1) as Hg1 by mget.
    destruct (zz_addsub_i64_spec m1 w w z1 z1 x false)
      as (m' & z' & Hrun & Hw' & Hc' & Hval); auto; try lia.
    { now apply canonical_trimmed. }
    { apply Hc1. }
    exists m', z'. unfold zz_i64_sub, guard. mstep Hr1.
    split; [exact Hrun|]. split; [eapply writes_trans; eauto|].
    split; [exact Hc'|]. rewrite Hval, <- zz_val_sg, Hv1. lia.
  - destruct (zz_neg_any m u w zu zw Hu Hw Hcu Hlw)
      as (m1 & z1 & Hr1 & Hw1 & Hc1 & Hv1 & Hs1).
    assert (get m1 w = Some z1) as Hg1 by mget.
    destruct (zz_addsub_u64_spec m1 w w z1 z1 y false)
      as (m' & z' & Hrun & Hw' & Hc' & Hval); auto; try lia.
    { now apply canonical_trimmed. }
    { apply Hc1. }
    exists m', z'. unfold zz_u64_sub, guard. mstep Hr1.
    split; [exact Hrun|]. split; [eapply writes_trans; eauto|].
    split; [exact Hc'|]. rewrite Hval, <- zz_val_sg, Hv1. unfold sg. lia.
Qed.

Lemma zz_add_sub_machine_witness :
  (exists m' z', zz_add_i64 1 (- 2 ^ 63) 1 mem_add = Some (ZZ_OK, m')
     /\ writes 1 mem_add m' z' /\ canonical z'
     /\ zz_val z' = zz_val (mk_zz true 2 2 [3; 1]) + - 2 ^ 63)
  /\ (exists m' z', zz_sub_i64 1 (- 2 ^ 63) 1 mem_add = Some (ZZ_OK, m')
     /\ writes 1 mem_add m' z' /\ canonical z'
     /\ zz_val z' = zz_val (mk_zz true 2 2 [3; 1]) - - 2 ^ 63)
  /\ (exists m' z', zz_add_u64 1 (2 ^ 64 - 1) 1 mem_add = Some (ZZ_OK, m')
     /\ writes 1 mem_add m' z' /\ canonical z'
     /\ zz_val z' = zz_val (mk_zz true 2 2 [3; 1]) + (2 ^ 64 - 1))
  /\ (exists m' z', zz_sub_u64 1 (2 ^ 64 - 1) 1 mem_add = Some (ZZ_OK, m')
     /\ writes 1 mem_add m' z' /\ canonical z'
     /\ zz_val z' = zz_val (mk_zz true 2 2 [3; 1]) - (2 ^ 64 - 1))
  /\ (exists m' z', zz_i64_sub (- 2 ^ 63) 1 1 mem_add = Some (ZZ_OK, m')
     /\ writes 1 mem_add m' z' /\ canonical z'
     /\ zz_val z' = - 2 ^ 63 - zz_val (mk_zz true 2 2 [3; 1]))
  /\ (exists m' z', zz_u64_sub (2 ^ 64 - 1) 1 1 mem_add = Some (ZZ_OK, m')
     /\ writes 1 mem_add m' z' /\ canonical z'
     /\ zz_val z' = 2 ^ 64 - 1 - zz_val (mk_zz true 2 2 [3; 1])).
Proof.
  apply (zz_add_sub_machine mem_add 1%nat 1%nat
           (mk_zz true 2 2 [3; 1]) (mk_zz true 2 2 [3; 1])
           (- 2 ^ 63) (2 ^ 64 - 1)).
  - reflexivity.
  - reflexivity.
  - apply canonicalb_spec. reflexivity.
  - reflexivity.
  - reflexivity.
  - split; [discriminate | reflexivity].
  - split; [discriminate | reflexivity].
Defined.

(** ** Predicates *)

Lemma mag_parity z : wf z -> size z <> 0%nat ->
  Z.odd (mag z) = Z.odd (nth 0 (digits z) 0).
Proof.
  intros Hw Hs. pose proof (wf_size_length z Hw) as Hl. unfold mag.
  destruct (size z) as [|n]; [contradiction|].
  destruct (digits z) as [|d r]; [simpl in Hl; lia|].
  cbn [firstn mpn_val nth].
  rewrite Z.add_comm. unfold BASE.
  replace (2 ^ 64 * mpn_val (firstn n r) + d)
    with (d + 2 * (2 ^ 63 * mpn_val (firstn n r))) by lia.
  apply Z.odd_add_mul_2.
Qed.

Lemma land_1_odd d : negb (Z.land d 1 =? 0) = Z.odd d.
Proof.
  change 1 with (Z.ones 1). rewrite Z.land_ones by lia.
  change (2 ^ 1) with 2. rewrite Zmod_odd.
  now destruct (Z.odd d).
Qed.

(** X8. The predicates on an object in canonical form: [zz_iszero] tells
    whether the value is 0, [zz_isneg] whether it is negative and
    [zz_isodd] whether it is odd. *)
Theorem zz_predicates (m : mem) (u : ptr) (zu : zz_t) :
  get m u = Some zu -> canonical zu ->
  zz_iszero u m = Some (zz_val zu =? 0, m)
  /\ zz_isneg u m = Some (zz_val zu <? 0, m)
  /\ zz_isodd u m = Some (Z.odd (zz_val zu), m).
Proof.
  intros Hu Hc.
  pose proof (mag_zero_size zu Hc) as Hz.
  pose proof (wf_size_length zu (proj1 Hc)) as Hl.
  split; [|split].
  - unfold zz_iszero. mstep get_size_run. unfold ret. do 2 f_equal.
    assert (zz_val zu = 0 <-> mag zu = 0) as Hv
      by (unfold zz_val; destruct (negative zu); lia).
    destruct (Nat.eqb_spec (size zu) 0), (Z.eqb_spec (zz_val zu) 0);
      auto; tauto.
  - unfold zz_isneg. rewrite (ISNEG_run m u zu Hu).
    now rewrite (zz_val_sign zu Hc).
  - unfold zz_isodd. mstep get_size_run.
    assert (Z.odd (zz_val zu) = Z.odd (mag zu)) as ->.
    { unfold zz_val. destruct (negative zu); auto. apply Z.odd_opp. }
    destruct (Nat.eqb_spec (size zu) 0) as [E0|E0]; cbn [negb].
    + rewrite (proj2 Hz E0). reflexivity.
    + mstep get_digit_run. rewrite land_1_odd.
      now rewrite (mag_parity zu (proj1 Hc) E0).
Qed.

Lemma zz_predicates_witness :
  zz_iszero 1 mem_add = Some (false, mem_add)
  /\ zz_isneg 1 mem_add = Some (true, mem_add)
  /\ zz_isodd 1 mem_add = Some (true, mem_add).
Proof.
  apply (zz_predicates mem_add 1%nat (mk_zz true 2 2 [3; 1])).
  - reflexivity.
  - apply canonicalb_spec. reflexivity.
Defined.

(** ** Temporaries *)

Definition zz0 : zz_t := mk_zz false 0 0 [].

(** The store with one more object, and without the objects from [p] on. *)
Definition push (m : mem) : mem := mk_mem (objs m ++ [zz0]) (junk m).
Definition pop (p : nat) (m : mem) : mem := mk_mem (firstn p (objs m)) (junk m).

Lemma with_local_run {A : Type} (k : ptr -> M A) m a m1 :
  k (length (objs m)) (push m) = Some (a, m1) ->
  with_local k m = Some (a, pop (length (objs m)) m1).
Proof.
  intros H. unfold with_local. fold zz0. fold (push m). now rewrite H.
Qed.

Lemma get_push_old m p z : get m p = Some z -> get (push m) p = Some z.
Proof.
  intros H. unfold get, push; cbn [objs].
  rewrite nth_error_app1 by (eapply get_valid; eauto). exact H.
Qed.

Lemma get_push_new m : get (push m) (length (objs m)) = Some zz0.
Proof.
  unfold get, push; cbn [objs].
  rewrite nth_error_app2 by lia. now rewrite Nat.sub_diag.
Qed.

Lemma get_fresh m p z : get m p = Some z -> p <> length (objs m).
Proof. intros H. apply get_valid in H. lia. Qed.

Lemma get_pop m n p : (p < n)%nat -> get (pop n m) p = get m p.
Proof.
  intros H. unfold get, pop; cbn [objs]. rewrite nth_error_firstn.
  apply Nat.ltb_lt in H. now rewrite H.
Qed.

Lemma frame_length S m m' : frame S m m' -> length (objs m') = length (objs m).
Proof. now intros [H _]. Qed.

Lemma push_length m : length (objs (push m)) = S (length (objs m)).
Proof. unfold push; cbn [objs]. rewrite length_app. simpl. lia. Qed.

(** What a call leaves when it returns from the scope of a temporary. *)
Lemma pop_frame S m m1 :
  frame (length (objs m) :: S) (push m) m1 ->
  frame S m (pop (length (objs m)) m1).
Proof.
  intros [Hl Hf]. rewrite push_length in Hl. split.
  - unfold pop; cbn [objs]. rewrite length_firstn. lia.
  - intros p Hp. unfold pop; cbn [objs].
    destruct (Nat.lt_ge_cases p (length (objs m))) as [Hlt|Hge].
    + rewrite nth_error_firstn.
      rewrite (proj2 (Nat.ltb_lt _ _) Hlt).
      rewrite Hf by (intros [E|E]; [lia | contradiction]).
      unfold push; cbn [objs]. now rewrite nth_error_app1.
    + rewrite (proj2 (nth_error_None (objs m) p)) by lia.
      apply nth_error_None. rewrite length_firstn. lia.
Qed.

Lemma pop_writes w m m1 z0 z' :
  frame [length (objs m); w] (push m) m1 ->
  get m w = Some z0 -> get m1 w = Some z' ->
  writes w m (pop (length (objs m)) m1) z'.
Proof.
  intros Hf H0 H1. pose proof (get_valid _ _ _ H0) as Hv.
  apply pop_frame in Hf. destruct Hf as [Hl Hf].
  apply (writes_of_gets w m _ z' z0); auto.
  - rewrite get_pop by exact Hv. exact H1.
  - intros p Hp. apply Hf. intros [E|[]]. congruence.
Qed.

Lemma zz_init_run m u z :
  get m u = Some z -> zz_init u m = Some (ZZ_OK, upd m u zz0).
Proof.
  intros H. unfold zz_init.
  mstep SETNEG_run. mstep SETALLOC_run. mstep put_size_run.
  mstep load_run. mstep store_run. reflexivity.
Qed.

Lemma zz_clear_run m u z :
  get m u = Some z -> zz_clear u m = Some (tt, upd m u zz0).
Proof.
  intros H. unfold zz_clear.
  mstep load_run. mstep store_run. mstep SETNEG_run. mstep SETALLOC_run.
  erewrite put_size_run by mget. rewrite ?upd_upd. reflexivity.
Qed.

(** ** Multiplication *)

Lemma wf_limbs z : wf z -> firstn (size z) (digits z) = limbs (size z) (mag z).
Proof.
  intros Hw. pose proof (firstn_size_length z Hw) as Hl.
  destruct Hw as (_ & _ & Hr). unfold mag.
  rewrite <- Hl at 2. symmetry. now apply limbs_mpn_val.
Qed.

Lemma zz_mul_u64_spec m u w zu zw d :
  get m u = Some zu -> get m w = Some zw ->
  canonical zu -> length (digits zw) = alloc zw ->
  Z.of_nat (size zu) < ZZ_DIGITS_MAX -> 0 <= d < BASE ->
  exists m' z',
    zz_mul_u64 u d w m = Some (ZZ_OK, m')
    /\ writes w m m' z' /\ trimmed z' /\ mag z' = mag zu * d
    /\ (size z' = 0%nat <-> mag zu * d = 0)
    /\ negative z' = (if (size z' =? 0)%nat then false else negative zu).
Proof.
  intros Hu Hw Hcu Hlw Hmax Hd. unfold zz_mul_u64.
  mstep get_size_run.
  pose proof (mag_zero_size zu Hcu) as Hz.
  assert (- BASE < 0 < BASE) as HB0 by (unfold BASE; lia).
  destruct (Nat.eqb_spec (size zu) 0) as [E0|E0];
    [|destruct (Z.eqb_spec d 0) as [Ed|Ed]]; cbn [orb].
  1,2: destruct (zz_set_i64_run m w zw 0 Hw Hlw HB0)
         as (m' & z' & Hrun & Hw' & Hc' & Hval);
       destruct (canonical_zero z' Hc' Hval) as [Hs' Hn'];
       exists m', z'; split; [exact Hrun|]; split; [exact Hw'|];
       split; [now apply canonical_trimmed|];
       assert (mag z' = 0) as Hm' by (apply (mag_zero_size z' Hc'); exact Hs');
       rewrite Hs', Hm', Hn'; cbn [Nat.eqb];
       (split; [|split; [|reflexivity]]).
  1: rewrite (proj2 Hz E0); lia.
  1: rewrite (proj2 Hz E0); split; intros; [lia | reflexivity].
  1: rewrite Ed; lia.
  1: rewrite Ed; split; intros; [lia | reflexivity].
  (* the general case *)
  set (nu := size zu) in *.
  destruct (Z.eqb_spec (Z.of_nat nu) ZZ_DIGITS_MAX) as [E|_]; [lia|].
  destruct (zz_resize_run m w zw (nu + 1) Hw Hlw)
    as (m1 & z1 & Hr1 & Hw1 & Hz1).
  unfold guard. mstep Hr1.
  pose proof Hz1 as (Hs1 & Hn1 & Hl1 & Hcap1 & Hpre1).
  assert (ISNEG u m1 = Some (negative zu, m1)) as Hsign.
  { destruct (Nat.eq_dec u w) as [->|Hne].
    - assert (zw = zu) as -> by congruence.
      rewrite (ISNEG_run m1 w z1) by mget. rewrite Hn1.
      destruct (Nat.eqb_spec (nu + 1) 0); [lia | reflexivity].
    - apply ISNEG_run. mget. }
  mstep Hsign. mstep SETNEG_run.
  pose proof (wf_size_length zu (proj1 Hcu)) as Hlu. fold nu in Hlu.
  pose proof (load_view m m1 u w zu zw z1 _ nu (negative zu) Hu Hw Hw1 Hz1 Hlu)
    as Hldu.
  mstep Hldu. unfold mpn_mul_1. rewrite length_firstn.
  replace (Nat.min nu (length (digits zu))) with nu by lia.
  change (mpn_val (firstn nu (digits zu))) with (mag zu).
  remember (mag zu * d) as X eqn:EX.
  pose proof (canonical_digits_bound zu Hcu E0) as HbU. fold nu in HbU.
  pose proof (BASE_pow_pos (nu - 1)) as Hpp.
  pose proof (BASE_pow_pos nu) as Hpn.
  assert (Bpow (nu - 1) <= X < Bpow (S nu)) as HX.
  { rewrite EX, BASE_pow_succ. nia. }
  mstep mpn_store0_run.
  2: { cbn [digits set_negative]. rewrite limbs_length. lia. }
  mstep get_size_run. cbn [size set_digits set_negative]. rewrite Hs1.
  replace (nu + 1 - 1)%nat with nu by lia.
  mstep put_digit_run.
  2: { cbn [digits set_digits set_negative].
       rewrite length_app, limbs_length, length_skipn. lia. }
  cbn [digits set_digits set_negative]. rewrite limbs_length.
  rewrite (list_set_app_exact _ _ nu _ (limbs_length nu _)).
  match goal with |- context [upd m1 w ?t] => remember t as zf eqn:Ezf end.
  destruct (quo_2exp_final zf nu true (limbs nu X)
              (list_set (skipn nu (digits z1)) 0 (X / Bpow nu)) X)
    as [Hwf Hmf]; rewrite ?Ezf; cbn [size alloc digits set_digits set_negative];
    auto; try lia.
  { rewrite length_app, limbs_length, list_set_length, length_skipn. lia. }
  { assert (skipn nu (digits z1) <> []) as Hne.
    { intros E. apply (f_equal (@length Z)) in E.
      rewrite length_skipn in E. simpl in E. lia. }
    split; [now apply list_set_0_nonnil|].
    split; [now apply hd_list_set_0|].
    apply Z.div_lt_upper_bound; [lia|]. rewrite BASE_pow_succ in HX. lia. }
  assert (size zf = S nu) as Hsf
    by (rewrite Ezf; cbn [size set_digits set_negative]; lia).
  assert (negative zf = negative zu) as Hnf by (rewrite Ezf; reflexivity).
  assert (length (digits zf) = alloc zf) as Hlf by apply Hwf.
  pose proof (wf_size_length zf Hwf) as Hlf'.
  rewrite <- Ezf.
  mstep trim_top_run.
  destruct (trim_top_trimmed zf nu X) as (Htq & Hmq & Hq0); auto; try lia.
  { rewrite <- Hsf, <- Hmf. now apply wf_limbs. }
  match goal with |- context [upd m1 w ?t] => remember t as zq eqn:Ezq end.
  mstep get_size_run.
  assert (size zq <> 0%nat) as Hsq.
  { intros E. apply Hq0 in E. lia. }
  destruct (Nat.leb_spec 1 (size zq)) as [_|]; [|lia].
  unfold c_assert. mret.
  exists (upd m1 w zq), zq. split; [reflexivity|].
  split; [eapply writes_then_upd; eauto|].
  split; [exact Htq|]. split; [exact Hmq|]. split; [exact Hq0|].
  assert (negative zq = negative zu) as -> by (rewrite Ezq; exact Hnf).
  destruct (Nat.eqb_spec (size zq) 0); [contradiction | reflexivity].
Qed.

Lemma zz_mul_rec_swap f m u v w zu zv :
  get m u = Some zu -> get m v = Some zv -> (size zu < size zv)%nat ->
  zz_mul_rec (S f) u v w m = zz_mul_rec (S f) v u w m.
Proof.
  intros Hu Hv Hlt. cbn [zz_mul_rec].
  unfold bind at 1. rewrite (get_size_run m u zu Hu).
  unfold bind at 1. rewrite (get_size_run m v zv Hv).
  symmetry.
  unfold bind at 1. rewrite (get_size_run m v zv Hv).
  unfold bind at 1. rewrite (get_size_run m u zu Hu).
  destruct (Nat.ltb_spec (size zu) (size zv)) as [_|]; [|lia].
  destruct (Nat.ltb_spec (size zv) (size zu)) as [|_]; [lia|].
  reflexivity.
Qed.

(** The multiplier has one word at most: [zz_mul_u64] does the work. *)
Lemma zz_mul_small f m u v w zu zv zw :
  get m u = Some zu -> get m v = Some zv -> get m w = Some zw ->
  canonical zu -> canonical zv -> length (digits zw) = alloc zw ->
  (size zv <= size zu)%nat -> (size zv <= 1)%nat ->
  Z.of_nat (size zu) < ZZ_DIGITS_MAX ->
  exists m' z',
    zz_mul_rec (S f) u v w m = Some (ZZ_OK, m')
    /\ writes w m m' z' /\ canonical z'
    /\ zz_val z' = zz_val zu * zz_val zv.
Proof.
  intros Hu Hv Hw Hcu Hcv Hlw Hle H1 Hmax. cbn [zz_mul_rec].
  mstep get_size_run. mstep get_size_run.
  destruct (Nat.ltb_spec (size zu) (size zv)) as [|_]; [lia|].
  mstep get_size_run.
  destruct (Nat.leb_spec (size zv) 1) as [_|]; [|lia].
  mstep ISNEG_run. mstep ISNEG_run.
  pose proof (canonical_mag_bound zv Hcv) as HbV.
  pose proof (wf_size_length zv (proj1 Hcv)) as Hlv.
  assert (exists d, 0 <= d < BASE /\ mag zv = d
            /\ (if negb (size zv =? 0)%nat then get_digit v 0 else ret 0) m
               = Some (d, m)) as (d & Hd & Hmd & Hrd).
  { destruct (Nat.eqb_spec (size zv) 0) as [E0|E0]; cbn [negb].
    - exists 0. split; [unfold BASE; lia|]. split; [|reflexivity].
      apply (mag_zero_size zv Hcv). exact E0.
    - assert (size zv = 1%nat) as Es by lia.
      exists (mag zv). rewrite Es in HbV. change (Bpow 1) with BASE in HbV.
      split; [exact HbV|]. split; [reflexivity|].
      rewrite (mag_size_1 zv (proj1 Hcv) Es).
      apply get_digit_run; [exact Hv | lia]. }
  mstep Hrd.
  destruct (zz_mul_u64_spec m u w zu zw d Hu Hw Hcu Hlw Hmax Hd)
    as (m1 & z1 & Hr1 & Hw1 & Ht1 & Hm1 & Hz1 & Hn1).
  mstep Hr1. mstep get_size_run.
  destruct (Nat.eqb_spec (size z1) 0) as [E0|E0]; cbn [negb].
  - mret. exists m1, z1. split; [reflexivity|]. split; [exact Hw1|].
    split.
    { destruct Ht1 as [Hwf Htop]. split; [exact Hwf|]. split; [|exact Htop].
      intros _. exact Hn1. }
    assert (mag zu * d = 0) as Hp by (apply Hz1; exact E0).
    rewrite !zz_val_sg, Hm1, Hmd.
    replace (sg (negative zu) * mag zu * (sg (negative zv) * d))
      with (sg (negative zu) * sg (negative zv) * (mag zu * d)) by ring.
    rewrite Hp. ring.
  - mstep SETNEG_run. mret.
    eexists _, _. split; [reflexivity|].
    split; [eapply writes_then_upd; eauto|].
    split.
    { destruct Ht1 as [Hwf Htop]. split; [exact Hwf|]. split; [|exact Htop].
      cbn [size set_negative]. intros E. contradiction. }
    rewrite !zz_val_sg. cbn [negative set_negative].
    change (mag (set_negative (xorb (negative zu) (negative zv)) z1))
      with (mag z1).
    rewrite Hm1, Hmd. unfold sg.
    destruct (negative zu), (negative zv); cbn [xorb]; lia.
Qed.

(** The general case, on an output that is neither operand. *)
Lemma zz_mul_main f m u v w zu zv zw :
  u <> w -> v <> w ->
  get m u = Some zu -> get m v = Some zv -> get m w = Some zw ->
  canonical zu -> canonical zv -> length (digits zw) = alloc zw ->
  (size zv <= size zu)%nat -> (2 <= size zv)%nat ->
  Z.of_nat (size zu) + Z.of_nat (size zv) <= ZZ_DIGITS_MAX ->
  exists m' z',
    zz_mul_rec (S f) u v w m = Some (ZZ_OK, m')
    /\ writes w m m' z' /\ canonical z'
    /\ zz_val z' = zz_val zu * zz_val zv.
Proof.
  intros Huw Hvw Hu Hv Hw Hcu Hcv Hlw Hle H2 Hmax. cbn [zz_mul_rec].
  mstep get_size_run. mstep get_size_run.
  destruct (Nat.ltb_spec (size zu) (size zv)) as [|_]; [lia|].
  mstep get_size_run.
  destruct (Nat.leb_spec (size zv) 1) as [|_]; [lia|].
  destruct (Nat.eqb_spec u w) as [|_]; [contradiction|].
  destruct (Nat.eqb_spec v w) as [|_]; [contradiction|].
  mstep get_size_run. mstep get_size_run.
  set (nu := size zu) in *. set (nv := size zv) in *.
  assert (ZZ_DIGITS_MAX < 2 ^ 64) as HM by reflexivity.
  rewrite Z.mod_small by lia.
  destruct (Z.ltb_spec ZZ_DIGITS_MAX (Z.of_nat nu + Z.of_nat nv)) as [|_];
    [lia|].
  replace (Z.to_nat (Z.of_nat nu + Z.of_nat nv)) with (nu + nv)%nat by lia.
  destruct (zz_resize_run m w zw (nu + nv) Hw Hlw)
    as (m1 & z1 & Hr1 & Hw1 & Hz1).
  unfold guard. mstep Hr1.
  pose proof Hz1 as (Hs1 & Hn1 & Hl1 & Hcap1 & Hpre1).
  mstep ISNEG_run. mstep ISNEG_run. mstep SETNEG_run.
  mstep get_size_run. mstep get_size_run. fold nu nv.
  pose proof (wf_size_length zu (proj1 Hcu)) as Hlu.
  pose proof (wf_size_length zv (proj1 Hcv)) as Hlv.
  fold nu in Hlu. fold nv in Hlv.
  mstep mpn_load0_run. mstep mpn_load0_run.
  remember (mag zu * mag zv) as X eqn:EX.
  assert ((if (nu =? nv)%nat
           then if negb (u =? v)%nat
                then mpn_mul_n (firstn nu (digits zu)) (firstn nv (digits zv))
                else mpn_sqr (firstn nu (digits zu))
           else mpn_mul (firstn nu (digits zu)) (firstn nv (digits zv)))
          = Some (limbs (nu + nv) X)) as ->.
  { assert (length (firstn nu (digits zu)) = nu) as La
      by (rewrite length_firstn; lia).
    assert (length (firstn nv (digits zv)) = nv) as Lb
      by (rewrite length_firstn; lia).
    assert (mpn_mul (firstn nu (digits zu)) (firstn nv (digits zv))
            = Some (limbs (nu + nv) X)) as Hmul.
    { unfold mpn_mul. rewrite La, Lb.
      destruct (Nat.leb_spec nv nu); [|lia].
      destruct (Nat.leb_spec 1 nv); [|lia].
      cbn [andb]. now rewrite EX. }
    destruct (Nat.eqb_spec nu nv) as [En|En]; [|exact Hmul].
    destruct (Nat.eqb_spec u v) as [Euv|Euv]; cbn [negb].
    - unfold mpn_sqr. subst v. assert (zv = zu) as Ez by congruence.
      subst zv. exact Hmul.
    - unfold mpn_mul_n. rewrite La, Lb.
      destruct (Nat.eqb_spec nu nv); [exact Hmul | contradiction]. }
  mstep mpn_store0_run.
  2: { cbn [digits set_negative]. rewrite limbs_length. lia. }
  rewrite limbs_length. cbn [digits set_negative].
  match goal with |- context [upd m1 w ?t] => remember t as zf eqn:Ezf end.
  assert (size zf = (nu + nv)%nat) as Hsf by (rewrite Ezf; exact Hs1).
  assert (negative zf = xorb (negative zu) (negative zv)) as Hnf
    by (rewrite Ezf; reflexivity).
  assert (alloc zf = alloc z1) as Haf by (rewrite Ezf; reflexivity).
  assert (length (digits zf) = alloc zf) as Hlf.
  { rewrite Ezf; cbn [digits alloc set_digits set_negative].
    rewrite length_app, limbs_length, length_skipn. lia. }
  assert (firstn (nu + nv) (digits zf) = limbs (nu + nv) X) as Hdf.
  { rewrite Ezf; cbn [digits set_digits].
    rewrite <- (limbs_length (nu + nv) X) at 1. apply firstn_length_app. }
  mstep trim_top_run.
  pose proof (canonical_digits_bound zu Hcu ltac:(lia)) as HbU.
  pose proof (canonical_digits_bound zv Hcv ltac:(lia)) as HbV.
  fold nu in HbU. fold nv in HbV.
  pose proof (BASE_pow_pos (nu - 1)) as Hp1.
  pose proof (BASE_pow_pos (nv - 1)) as Hp2.
  assert (Bpow (nu + nv - 2) <= X < Bpow (nu + nv)) as HX.
  { rewrite EX.
    replace (nu + nv - 2)%nat with ((nu - 1) + (nv - 1))%nat by lia.
    rewrite !BASE_pow_add. nia. }
  destruct (trim_top_trimmed zf (nu + nv - 1) X) as (Htq & Hmq & Hq0);
    replace (S (nu + nv - 1)) with (nu + nv)%nat by lia;
    auto; try lia.
  { pose proof (BASE_pow_pos (nu + nv - 2)). lia. }
  { intros _. replace (nu + nv - 1 - 1)%nat with (nu + nv - 2)%nat by lia.
    lia. }
  match goal with |- context [upd m1 w ?t] => remember t as zq eqn:Ezq end.
  mstep get_size_run.
  assert (size zq <> 0%nat) as Hsq.
  { intros E. apply Hq0 in E. pose proof (BASE_pow_pos (nu + nv - 2)). lia. }
  destruct (Nat.leb_spec 1 (size zq)) as [_|]; [|lia].
  unfold c_assert. mret.
  exists (upd m1 w zq), zq. split; [reflexivity|].
  split; [eapply writes_then_upd; eauto|].
  split.
  { destruct Htq as [Hwf Htop]. split; [exact Hwf|]. split; [|exact Htop].
    intros E. contradiction. }
  rewrite !zz_val_sg, Hmq, EX.
  assert (negative zq = xorb (negative zu) (negative zv)) as ->
    by (rewrite Ezq; exact Hnf).
  unfold sg. destruct (negative zu), (negative zv); cbn [xorb]; lia.
Qed.

(** A temporary initialised as a copy of [u]. *)
Lemma temp_copy m u zu :
  get m u = Some zu -> canonical zu ->
  let tmp := length (objs m) in
  exists m2 zt,
    c_or (zz_init tmp) (zz_pos u tmp) (push m) = Some (ZZ_OK, m2)
    /\ get m2 tmp = Some zt /\ same_number zt zu /\ canonical zt
    /\ frame [tmp] (push m) m2.
Proof.
  intros Hu Hc tmp.
  pose proof (get_fresh m u zu Hu) as Hne. fold tmp in Hne.
  pose proof (get_push_new m) as Hnew. fold tmp in Hnew.
  pose proof (get_push_old m u zu Hu) as Hold.
  destruct (zz_pos_run (upd (push m) tmp zz0) u tmp zu zz0)
    as (m2 & zt & Hr2 & Hw2 & Hs2 & Hc2); auto; try mget.
  exists m2, zt. unfold c_or.
  mstep zz_init_run.
  split; [exact Hr2|]. split; [mget|]. split; [exact Hs2|].
  split; [exact Hc2|].
  eapply frame_writes; [left; reflexivity | | exact Hw2].
  apply frame_upd; [left; reflexivity | apply frame_refl].
Qed.

(** Leaving the scope of a temporary after a call that wrote [w]. *)
Lemma temp_close (r : zz_err) m m2 m3 w z0 z' zt :
  let tmp := length (objs m) in
  frame [tmp] (push m) m2 -> get m2 tmp = Some zt ->
  get m w = Some z0 -> writes w m2 m3 z' ->
  (zz_clear tmp ;;; ret r) m3 = Some (r, upd m3 tmp zz0)
  /\ writes w m (pop tmp (upd m3 tmp zz0)) z'.
Proof.
  intros tmp Hf Ht Hw Hwr.
  pose proof (get_fresh m w z0 Hw) as Hne. fold tmp in Hne.
  assert (get m2 w = Some z0) as Hw2.
  { rewrite (frame_get _ _ _ w Hf) by (intros [E|[]]; congruence).
    now apply get_push_old. }
  assert (get m3 tmp = Some zt) as Ht3 by mget.
  split.
  - mstep zz_clear_run. reflexivity.
  - apply (pop_writes w m _ z0 z'); [|exact Hw|mget].
    apply frame_upd; [left; reflexivity|].
    eapply frame_writes; [right; left; reflexivity| |exact Hwr].
    eapply frame_incl; [|exact Hf]. intros p [<-|[]]. left. reflexivity.
Qed.

Lemma frame_get_old S m m2 p z :
  frame S (push m) m2 -> get m p = Some z -> ~ In p S -> get m2 p = Some z.
Proof.
  intros Hf Hp Hn. rewrite (frame_get _ _ _ p Hf Hn). now apply get_push_old.
Qed.

Lemma zz_mul_ordered f m u v w zu zv zw :
  get m u = Some zu -> get m v = Some zv -> get m w = Some zw ->
  canonical zu -> canonical zv -> length (digits zw) = alloc zw ->
  (size zv <= size zu)%nat ->
  Z.of_nat (size zu) + Z.of_nat (size zv) <= ZZ_DIGITS_MAX ->
  Z.of_nat (size zu) < ZZ_DIGITS_MAX ->
  exists m' z',
    zz_mul_rec (S (S f)) u v w m = Some (ZZ_OK, m')
    /\ writes w m m' z' /\ canonical z'
    /\ zz_val z' = zz_val zu * zz_val zv.
Proof.
  intros Hu Hv Hw Hcu Hcv Hlw Hle Hmax Hmu.
  destruct (Nat.le_gt_cases (size zv) 1) as [H1|H2].
  { now apply (zz_mul_small (S f) m u v w zu zv zw). }
  destruct (Nat.eq_dec u w) as [Euw|Euw];
    [|destruct (Nat.eq_dec v w) as [Evw|Evw]].
  - (* the first operand is the output *)
    subst w. assert (zw = zu) as -> by congruence.
    set (tmp := length (objs m)).
    destruct (temp_copy m u zu Hu Hcu) as (m2 & zt & Hr2 & Ht2 & Hs2 & Hc2 & Hf2).
    fold tmp in Hr2, Ht2, Hf2.
    pose proof (get_fresh m u zu Hu) as Hnu. fold tmp in Hnu.
    pose proof (get_fresh m v zv Hv) as Hnv. fold tmp in Hnv.
    assert (get m2 u = Some zu) as Hu2.
    { apply (frame_get_old [tmp] m); auto. intros [E|[]]; congruence. }
    assert (get m2 v = Some zv) as Hv2.
    { apply (frame_get_old [tmp] m); auto. intros [E|[]]; congruence. }
    assert (size zt = size zu) as Hst by apply Hs2.
    pose proof (same_number_val _ _ Hs2) as Hvt.
    assert (exists m3 z',
              (if (u =? v)%nat then zz_mul_rec (S f) tmp tmp u
               else zz_mul_rec (S f) tmp v u) m2 = Some (ZZ_OK, m3)
              /\ writes u m2 m3 z' /\ canonical z'
              /\ zz_val z' = zz_val zu * zz_val zv)
      as (m3 & z' & Hr3 & Hw3 & Hc3 & Hv3).
    { destruct (Nat.eqb_spec u v) as [Euv|Euv].
      - subst v. assert (zv = zu) as -> by congruence.
        destruct (zz_mul_main f m2 tmp tmp u zt zt zu)
          as (m3 & z' & Hr3 & Hw3 & Hc3 & Hv3); auto; try lia.
        exists m3, z'. rewrite Hv3, Hvt. auto.
      - destruct (zz_mul_main f m2 tmp v u zt zv zu)
          as (m3 & z' & Hr3 & Hw3 & Hc3 & Hv3); auto; try lia.
        exists m3, z'. rewrite Hv3, Hvt. auto. }
    destruct (temp_close ZZ_OK m m2 m3 u zu z' zt Hf2 Ht2 Hu Hw3)
      as [Hcl Hwr].
    fold tmp in Hcl, Hwr.
    exists (pop tmp (upd m3 tmp zz0)), z'.
    split; [|auto].
    remember (S f) as f1 eqn:Ef.
    cbn [zz_mul_rec]. mstep get_size_run. mstep get_size_run.
    destruct (Nat.ltb_spec (size zu) (size zv)) as [|_]; [lia|].
    mstep get_size_run.
    destruct (Nat.leb_spec (size zv) 1) as [|_]; [lia|].
    rewrite Nat.eqb_refl.
    apply with_local_run. fold tmp. unfold guard.
    mstep Hr2. mstep Hr3. exact Hcl.
  - (* the second operand is the output *)
    subst w. assert (zw = zv) as -> by congruence.
    set (tmp := length (objs m)).
    destruct (temp_copy m v zv Hv Hcv) as (m2 & zt & Hr2 & Ht2 & Hs2 & Hc2 & Hf2).
    fold tmp in Hr2, Ht2, Hf2.
    pose proof (get_fresh m u zu Hu) as Hnu. fold tmp in Hnu.
    pose proof (get_fresh m v zv Hv) as Hnv. fold tmp in Hnv.
    assert (get m2 u = Some zu) as Hu2.
    { apply (frame_get_old [tmp] m); auto. intros [E|[]]; congruence. }
    assert (get m2 v = Some zv) as Hv2.
    { apply (frame_get_old [tmp] m); auto. intros [E|[]]; congruence. }
    assert (size zt = size zv) as Hst by apply Hs2.
    pose proof (same_number_val _ _ Hs2) as Hvt.
    destruct (zz_mul_main f m2 u tmp v zu zt zv)
      as (m3 & z' & Hr3 & Hw3 & Hc3 & Hv3); auto; try lia.
    destruct (temp_close ZZ_OK m m2 m3 v zv z' zt Hf2 Ht2 Hv Hw3)
      as [Hcl Hwr].
    fold tmp in Hcl, Hwr.
    exists (pop tmp (upd m3 tmp zz0)), z'.
    split; [|rewrite Hv3, Hvt; auto].
    remember (S f) as f1 eqn:Ef.
    cbn [zz_mul_rec]. mstep get_size_run. mstep get_size_run.
    destruct (Nat.ltb_spec (size zu) (size zv)) as [|_]; [lia|].
    mstep get_size_run.
    destruct (Nat.leb_spec (size zv) 1) as [|_]; [lia|].
    destruct (Nat.eqb_spec u v) as [|_]; [contradiction|].
    rewrite Nat.eqb_refl.
    apply with_local_run. fold tmp. unfold guard.
    mstep Hr2. mstep Hr3. exact Hcl.
  - apply (zz_mul_main (S f) m u v w zu zv zw); auto; lia.
Qed.

Lemma zz_mul_spec m u v w zu zv zw :
  get m u = Some zu -> get m v = Some zv -> get m w = Some zw ->
  canonical zu -> canonical zv -> length (digits zw) = alloc zw ->
  Z.of_nat (size zu) + Z.of_nat (size zv) <= ZZ_DIGITS_MAX ->
  Z.of_nat (size zu) < ZZ_DIGITS_MAX -> Z.of_nat (size zv) < ZZ_DIGITS_MAX ->
  exists m' z',
    zz_mul u v w m = Some (ZZ_OK, m')
    /\ writes w m m' z' /\ canonical z'
    /\ zz_val z' = zz_val zu * zz_val zv.
Proof.
  intros Hu Hv Hw Hcu Hcv Hlw Hmax Hmu Hmv. unfold zz_mul.
  destruct (Nat.lt_ge_cases (size zu) (size zv)) as [Hlt|Hge].
  - rewrite (zz_mul_rec_swap 2 m u v w zu zv Hu Hv Hlt).
    destruct (zz_mul_ordered 1 m v u w zv zu zw)
      as (m' & z' & Hr & Hwr & Hc & Hval); auto; try lia.
    exists m', z'. rewrite Hval. repeat (split; [assumption|]). ring.
  - apply (zz_mul_ordered 1 m u v w zu zv zw); auto.
Qed.

(** X9. [zz_mul (u, v, w)] on operands in canonical form, whose digit
    counts are below [ZZ_DIGITS_MAX] and add up to it at most, returns [ZZ_OK],
    changes only [w], and leaves it in canonical form with the value
    [u * v], whatever objects the three arguments are: when the output is
    one of the operands the product is formed from a temporary copy, which
    is gone when the call returns. *)
Theorem zz_mul_value (m : mem) (u v w : ptr) (zu zv zw : zz_t) :
  get m u = Some zu -> get m v = Some zv -> get m w = Some zw ->
  canonical zu -> canonical zv -> length (digits zw) = alloc zw ->
  Z.of_nat (size zu) + Z.of_nat (size zv) <= ZZ_DIGITS_MAX ->
  Z.of_nat (size zu) < ZZ_DIGITS_MAX -> Z.of_nat (size zv) < ZZ_DIGITS_MAX ->
  exists m' z',
    zz_mul u v w m = Some (ZZ_OK, m')
    /\ writes w m m' z' /\ canonical z'
    /\ zz_val z' = zz_val zu * zz_val zv.
Proof. apply zz_mul_spec. Qed.

(** -(2^64 + 3), squared in place. *)
Definition mem_mul : mem := mk_mem [mk_zz true 2 2 [3; 1]] [6; 6; 6; 6].

Lemma zz_mul_value_witness :
  exists m' z',
    zz_mul 0 0 0 mem_mul = Some (ZZ_OK, m')
    /\ writes 0 mem_mul m' z' /\ canonical z'
    /\ zz_val z' = zz_val (mk_zz true 2 2 [3; 1]) * zz_val (mk_zz true 2 2 [3; 1]).
Proof.
  apply (zz_mul_value mem_mul 0%nat 0%nat 0%nat
           (mk_zz true 2 2 [3; 1]) (mk_zz true 2 2 [3; 1])
           (mk_zz true 2 2 [3; 1])).
  - reflexivity.
  - reflexivity.
  - reflexivity.
  - apply canonicalb_spec. reflexivity.
  - apply canonicalb_spec. reflexivity.
  - reflexivity.
  - discriminate.
  - reflexivity.
  - reflexivity.
Defined.

(** The same square, run: 2^128 + 6 * 2^64 + 9, and no temporary left. *)
Example zz_mul_example :
  zz_mul 0 0 0 mem_mul
    = Some (ZZ_OK, mk_mem [mk_zz false 4 3 [9; 6; 1; 0]] []).
Proof. vm_compute. reflexivity. Qed.

Lemma zz_mul_i64_spec m u w zu zw x :
  get m u = Some zu -> get m w = Some zw ->
  canonical zu -> length (digits zw) = alloc zw ->
  Z.of_nat (size zu) < ZZ_DIGITS_MAX -> - BASE < x < BASE ->
  exists m' z',
    zz_mul_i64 u x w m = Some (ZZ_OK, m')
    /\ writes w m m' z' /\ canonical z' /\ zz_val z' = zz_val zu * x.
Proof.
  intros Hu Hw Hcu Hlw Hmax Hx. unfold zz_mul_i64.
  rewrite ABS_CAST_small by auto.
  destruct (zz_mul_u64_spec m u w zu zw (Z.abs x) Hu Hw Hcu Hlw Hmax
              ltac:(lia))
    as (m1 & z1 & Hr1 & Hw1 & Ht1 & Hm1 & Hz1 & Hn1).
  mstep Hr1. mstep get_size_run.
  destruct (Nat.eqb_spec (size z1) 0) as [E0|E0]; cbn [negb].
  - mret. exists m1, z1. split; [reflexivity|]. split; [exact Hw1|].
    split.
    { destruct Ht1 as [Hwf Htop]. split; [exact Hwf|]. split; [|exact Htop].
      intros _. exact Hn1. }
    assert (mag zu * Z.abs x = 0) as Hp by (apply Hz1; exact E0).
    rewrite !zz_val_sg, Hm1, Hp. unfold sg.
    destruct (negative z1), (negative zu); nia.
  - assert (ISNEG u m1 = Some (negative zu, m1)) as Hsign.
    { destruct (Nat.eq_dec u w) as [->|Hne].
      - rewrite (ISNEG_run m1 w z1) by mget. now rewrite Hn1.
      - apply ISNEG_run. mget. }
    mstep Hsign. mstep SETNEG_run. mret.
    eexists _, _. split; [reflexivity|].
    split; [eapply writes_then_upd; eauto|].
    split.
    { destruct Ht1 as [Hwf Htop]. split; [exact Hwf|]. split; [|exact Htop].
      cbn [size set_negative]. intros E. contradiction. }
    rewrite !zz_val_sg. cbn [negative set_negative].
    change (mag (set_negative (negb (Bool.eqb (negative zu) (x <? 0))) z1))
      with (mag z1).
    rewrite Hm1. unfold sg.
    destruct (negative zu), (Z.ltb_spec x 0); cbn [Bool.eqb negb]; nia.
Qed.

(** X10. Multiplication by a machine integer, for [u] in canonical form of
    fewer than [ZZ_DIGITS_MAX] digits, a [uint64_t] [y] and an [int64_t] [x]: [zz_mul_u64] and [zz_mul_i64]
    return [ZZ_OK] and leave [w] in canonical form with the values [u * y]
    and [u * x] (a zero product is the zero without sign); the output may be
    the operand. *)
Theorem zz_mul_machine (m : mem) (u w : ptr) (zu zw : zz_t) (x y : Z) :
  get m u = Some zu -> get m w = Some zw ->
  canonical zu -> length (digits zw) = alloc zw ->
  Z.of_nat (size zu) < ZZ_DIGITS_MAX ->
  - 2 ^ 63 <= x < 2 ^ 63 -> 0 <= y < 2 ^ 64 ->
  (exists m' z', zz_mul_u64 u y w m = Some (ZZ_OK, m')
     /\ writes w m m' z' /\ canonical z' /\ zz_val z' = zz_val zu * y)
  /\ (exists m' z', zz_mul_i64 u x w m = Some (ZZ_OK, m')
     /\ writes w m m' z' /\ canonical z' /\ zz_val z' = zz_val zu * x).
Proof.
  intros Hu Hw Hcu Hlw Hmax Hx Hy.
  assert (BASE = 2 ^ 64) as HB by reflexivity.
  split.
  - destruct (zz_mul_u64_spec m u w zu zw y Hu Hw Hcu Hlw Hmax ltac:(lia))
      as (m1 & z1 & Hr1 & Hw1 & Ht1 & Hm1 & Hz1 & Hn1).
    exists m1, z1. split; [exact Hr1|]. split; [exact Hw1|].
    split.
    { destruct Ht1 as [Hwf Htop]. split; [exact Hwf|]. split; [|exact Htop].
      intros E. rewrite Hn1, E. reflexivity. }
    rewrite !zz_val_sg, Hm1, Hn1.
    destruct (Nat.eqb_spec (size z1) 0) as [E0|E0]; [|ring].
    assert (mag zu * y = 0) as Hp by (apply Hz1; exact E0).
    rewrite Hp. unfold sg. destruct (negative zu); nia.
  - apply (zz_mul_i64_spec m u w zu zw x); auto. lia.
Qed.

Lemma zz_mul_machine_witness :
  (exists m' z', zz_mul_u64 0 (2 ^ 64 - 1) 0 mem_mul = Some (ZZ_OK, m')
     /\ writes 0 mem_mul m' z' /\ canonical z'
     /\ zz_val z' = zz_val (mk_zz true 2 2 [3; 1]) * (2 ^ 64 - 1))
  /\ (exists m' z', zz_mul_i64 0 (- 2 ^ 63) 0 mem_mul = Some (ZZ_OK, m')
     /\ writes 0 mem_mul m' z' /\ canonical z'
     /\ zz_val z' = zz_val (mk_zz true 2 2 [3; 1]) * - 2 ^ 63).
Proof.
  apply (zz_mul_machine mem_mul 0%nat 0%nat
           (mk_zz true 2 2 [3; 1]) (mk_zz true 2 2 [3; 1])
           (- 2 ^ 63) (2 ^ 64 - 1)).
  - reflexivity.
  - reflexivity.
  - apply canonicalb_spec. reflexivity.
  - reflexivity.
  - reflexivity.
  - split; [discriminate | reflexivity].
  - split; [discriminate | reflexivity].
Defined.

(** ** Division: outputs that are operands, and missing outputs *)

Lemma temp_close2 (e : zz_err) m m2 m3 q r zq0 zr0 zq' zr' zt :
  let tmp := length (objs m) in
  frame [tmp] (push m) m2 -> get m2 tmp = Some zt ->
  get m q = Some zq0 -> get m r = Some zr0 ->
  frame [q; r] m2 m3 -> get m3 q = Some zq' -> get m3 r = Some zr' ->
  (zz_clear tmp ;;; ret e) m3 = Some (e, upd m3 tmp zz0)
  /\ get (pop tmp (upd m3 tmp zz0)) q = Some zq'
  /\ get (pop tmp (upd m3 tmp zz0)) r = Some zr'
  /\ frame [q; r] m (pop tmp (upd m3 tmp zz0)).
Proof.
  intros tmp Hf Ht Hq Hr Hf3 Hq3 Hr3.
  pose proof (get_valid m q zq0 Hq) as Hvq. fold tmp in Hvq.
  pose proof (get_valid m r zr0 Hr) as Hvr. fold tmp in Hvr.
  assert (get m3 tmp = Some zt) as Ht3.
  { rewrite (frame_get _ _ _ tmp Hf3); [exact Ht|].
    intros [E|[E|[]]]; lia. }
  split; [|split; [|split]].
  - mstep zz_clear_run. reflexivity.
  - rewrite get_pop by exact Hvq. rewrite get_upd_other by lia. exact Hq3.
  - rewrite get_pop by exact Hvr. rewrite get_upd_other by lia. exact Hr3.
  - apply pop_frame. apply frame_upd; [left; reflexivity|].
    eapply frame_trans.
    + eapply frame_incl; [|exact Hf]. intros p [<-|[]]. left. reflexivity.
    + eapply frame_incl; [|exact Hf3]. intros p Hp. right. exact Hp.
Qed.

(** The outputs may be the divisor. *)
Lemma zz_div_qr_alias1 f m u v q r zu zv zq zr :
  q <> r -> u <> q -> u <> r ->
  get m u = Some zu -> get m v = Some zv ->
  get m q = Some zq -> get m r = Some zr ->
  canonical zu -> canonical zv ->
  length (digits zq) = alloc zq -> length (digits zr) = alloc zr ->
  Z.of_nat (size zu) < ZZ_DIGITS_MAX -> Z.of_nat (size zv) < ZZ_DIGITS_MAX ->
  zz_val zv <> 0 -> size zu <> 0%nat -> (size zv <= size zu)%nat ->
  exists m' zq' zr',
    zz_div_rec (S (S f)) u v (Some q) (Some r) m = Some (ZZ_OK, m')
    /\ get m' q = Some zq' /\ get m' r = Some zr' /\ frame [q; r] m m'
    /\ canonical zq' /\ canonical zr'
    /\ zz_val zq' = zz_val zu / zz_val zv
    /\ zz_val zr' = zz_val zu mod zz_val zv.
Proof.
  intros Hqr Huq Hur Hu Hv Hq Hr Hcu Hcv Hlq Hlr Hmu Hmv Hv0 Hnu Hle.
  destruct (Nat.eq_dec v q) as [Evq|Evq];
    [|destruct (Nat.eq_dec v r) as [Evr|Evr]];
    [| |now apply (zz_div_qr_spec (S f) m u v q r zu zv zq zr)].
  all: set (tmp := length (objs m));
    destruct (temp_copy m v zv Hv Hcv)
      as (m2 & zt & Hr2 & Ht2 & Hs2 & Hc2 & Hf2);
    fold tmp in Hr2, Ht2, Hf2;
    pose proof (get_fresh m u zu Hu) as Hfu; fold tmp in Hfu;
    pose proof (get_fresh m q zq Hq) as Hfq; fold tmp in Hfq;
    pose proof (get_fresh m r zr Hr) as Hfr; fold tmp in Hfr;
    assert (get m2 u = Some zu) as Hu2
      by (apply (frame_get_old [tmp] m); auto; intros [E|[]]; congruence);
    assert (get m2 q = Some zq) as Hq2
      by (apply (frame_get_old [tmp] m); auto; intros [E|[]]; congruence);
    assert (get m2 r = Some zr) as Hr2'
      by (apply (frame_get_old [tmp] m); auto; intros [E|[]]; congruence);
    assert (size zt = size zv) as Hst by apply Hs2;
    pose proof (same_number_val _ _ Hs2) as Hvt;
    destruct (zz_div_qr_spec f m2 u tmp q r zu zt zq zr)
      as (m3 & zq' & zr' & Hr3 & Hgq & Hgr & Hf3 & Hcq & Hcr & Hvq' & Hvr');
      auto; try lia; try congruence;
    destruct (temp_close2 ZZ_OK m m2 m3 q r zq zr zq' zr' zt
                Hf2 Ht2 Hq Hr Hf3 Hgq Hgr) as (Hcl & Hpq & Hpr & Hpf);
    fold tmp in Hcl, Hpq, Hpr, Hpf;
    exists (pop tmp (upd m3 tmp zz0)), zq', zr';
    (split; [|rewrite Hvq', Hvr', Hvt; auto 10]);
    assert (size zv <> 0%nat) as Hnv
      by (intros E; apply Hv0; rewrite zz_val_sg,
            (proj2 (mag_zero_size zv Hcv) E); ring);
    remember (S f) as f1 eqn:Ef;
    cbn [zz_div_rec]; mstep get_size_run;
    destruct (Nat.eqb_spec (size zv) 0) as [|_]; [contradiction|];
    mstep get_size_run; mstep get_size_run;
    destruct (Nat.eqb_spec (size zu) 0) as [|_]; [contradiction|];
    destruct (Nat.ltb_spec (size zu) (size zv)) as [|_]; [lia|];
    destruct (Nat.eqb_spec u q) as [|_]; [contradiction|];
    destruct (Nat.eqb_spec u r) as [|_]; [contradiction|];
    cbn [orb].
  - subst q. rewrite Nat.eqb_refl. cbn [orb].
    apply with_local_run. fold tmp. unfold guard.
    mstep Hr2. mstep Hr3. exact Hcl.
  - subst r. rewrite Nat.eqb_refl. rewrite orb_true_r.
    apply with_local_run. fold tmp. unfold guard.
    mstep Hr2. mstep Hr3. exact Hcl.
Qed.

Lemma canonical_small_size z :
  canonical z -> - BASE < zz_val z < BASE -> (size z <= 1)%nat.
Proof.
  intros Hc Hv.
  destruct (Nat.le_gt_cases (size z) 1) as [|Hgt]; auto.
  pose proof (canonical_digits_bound z Hc ltac:(lia)) as Hb.
  pose proof (BASE_pow_le 1 (size z - 1) ltac:(lia)) as Hle.
  change (Bpow 1) with BASE in Hle.
  rewrite zz_val_sg in Hv. unfold sg in Hv. destruct (negative z); lia.
Qed.

(** An operand after a small number was stored in [q]. *)
Lemma operand_after_set m m1 q z1 p zp :
  writes q m m1 z1 -> get m p = Some zp -> get m q <> None ->
  canonical z1 -> - BASE < zz_val z1 < BASE ->
  canonical zp -> Z.of_nat (size zp) < ZZ_DIGITS_MAX ->
  exists zp1,
    get m1 p = Some zp1 /\ canonical zp1
    /\ Z.of_nat (size zp1) < ZZ_DIGITS_MAX
    /\ (p = q -> zp1 = z1) /\ (p <> q -> zp1 = zp).
Proof.
  intros Hw Hp Hq Hc1 Hv1 Hcp Hmp.
  destruct (Nat.eq_dec p q) as [->|Hne].
  - exists z1. split; [eapply writes_get; eauto|]. split; [exact Hc1|].
    pose proof (canonical_small_size z1 Hc1 Hv1).
    assert (1 < ZZ_DIGITS_MAX) by reflexivity.
    split; [lia|]. split; [auto | congruence].
  - exists zp. split; [mget|]. split; [exact Hcp|]. split; [exact Hmp|].
    split; [congruence | auto].
Qed.

(** The whole of [zz_div] on two outputs.  The remainder is the one of the
    floor division unless the dividend has fewer digits than the divisor
    and the quotient is written over an operand. *)
Lemma zz_div_qr_any f m u v q r zu zv zq zr :
  q <> r ->
  get m u = Some zu -> get m v = Some zv ->
  get m q = Some zq -> get m r = Some zr ->
  canonical zu -> canonical zv ->
  length (digits zq) = alloc zq -> length (digits zr) = alloc zr ->
  Z.of_nat (size zu) < ZZ_DIGITS_MAX -> Z.of_nat (size zv) < ZZ_DIGITS_MAX ->
  zz_val zv <> 0 ->
  exists m' zq' zr',
    zz_div_rec (S (S (S f))) u v (Some q) (Some r) m = Some (ZZ_OK, m')
    /\ get m' q = Some zq' /\ get m' r = Some zr' /\ frame [q; r] m m'
    /\ canonical zq' /\ canonical zr'
    /\ zz_val zq' = zz_val zu / zz_val zv
    /\ ((size zv <= size zu)%nat \/ size zu = 0%nat \/ (q <> u /\ q <> v) ->
        zz_val zr' = zz_val zu mod zz_val zv).
Proof.
  intros Hqr Hu Hv Hq Hr Hcu Hcv Hlq Hlr Hmu Hmv Hv0.
  assert (In q [q; r]) as Hinq by (left; reflexivity).
  assert (In r [q; r]) as Hinr by (right; left; reflexivity).
  assert (size zv <> 0%nat) as Hnv.
  { intros E. apply Hv0. rewrite zz_val_sg.
    rewrite (proj2 (mag_zero_size zv Hcv) E). ring. }
  assert (- BASE < 0 < BASE /\ - BASE < -1 < BASE) as [HB0 HB1]
    by (unfold BASE; lia).
  pose proof (canonical_digits_bound zv Hcv Hnv) as HbV.
  pose proof (BASE_pow_pos (size zv - 1)) as HpV.
  destruct (Nat.eq_dec (size zu) 0) as [Hz|Hnu];
    [|destruct (Nat.lt_ge_cases (size zu) (size zv)) as [Hlt|Hge]].
  - (* the dividend is zero *)
    remember (S (S f)) as f1 eqn:Ef.
    cbn [zz_div_rec]. mstep get_size_run.
    destruct (Nat.eqb_spec (size zv) 0) as [|_]; [contradiction|].
    mstep get_size_run. mstep get_size_run. rewrite Hz. cbn [Nat.eqb].
    assert (zz_val zu = 0) as HU0.
    { rewrite zz_val_sg, (proj2 (mag_zero_size zu Hcu) Hz). ring. }
    destruct (zz_set_i64_run m q zq 0 Hq Hlq HB0)
      as (m1 & z1 & Hr1 & Hw1 & Hc1 & Hv1).
    destruct (zz_set_i64_run m1 r zr 0 ltac:(mget) Hlr HB0)
      as (m2 & z2 & Hr2 & Hw2 & Hc2 & Hv2).
    unfold guard, c_or. mstep Hr1. mstep Hr2. mret.
    exists m2, z1, z2. split; [reflexivity|].
    split; [mget|]. split; [mget|].
    split; [eapply frame_writes; [exact Hinr| |exact Hw2];
            eapply frame_writes; [exact Hinq|apply frame_refl|exact Hw1]|].
    split; [exact Hc1|]. split; [exact Hc2|].
    rewrite Hv1, Hv2, HU0. rewrite Z.div_0_l, Z.mod_0_l by lia. auto.
  - (* fewer digits than the divisor *)
    remember (S (S f)) as f1 eqn:Ef.
    cbn [zz_div_rec]. mstep get_size_run.
    destruct (Nat.eqb_spec (size zv) 0) as [|_]; [contradiction|].
    mstep get_size_run. mstep get_size_run.
    destruct (Nat.eqb_spec (size zu) 0) as [|_]; [contradiction|].
    destruct (Nat.ltb_spec (size zu) (size zv)) as [_|]; [|lia].
    mstep ISNEG_run. mstep ISNEG_run.
    pose proof (mag_size_lt zu zv Hcu Hcv Hlt) as HUV.
    pose proof (canonical_mag_pos zu Hcu Hnu) as HU0.
    rewrite (zz_val_sg zu), (zz_val_sg zv).
    destruct (floor_from_trunc (mag zu) (mag zv) (negative zu) (negative zv)
                ltac:(lia) ltac:(lia)) as [HfQ HfR].
    rewrite HfQ, HfR.
    rewrite (Z.div_small (mag zu) (mag zv)), (Z.mod_small (mag zu) (mag zv))
      by lia.
    destruct (Z.eqb_spec (mag zu) 0) as [|_]; [lia|]. cbn [negb].
    rewrite andb_true_r.
    assert (get m q <> None) as Hqn by congruence.
    destruct (xorb (negative zu) (negative zv)) eqn:Ex.
    + destruct (zz_set_i64_run m q zq (-1) Hq Hlq HB1)
        as (m1 & z1 & Hr1 & Hw1 & Hc1 & Hv1).
      destruct (operand_after_set m m1 q z1 u zu Hw1 Hu Hqn Hc1
                  ltac:(lia) Hcu Hmu) as (zu1 & Hu1 & Hcu1 & Hmu1 & _ & Heu).
      destruct (operand_after_set m m1 q z1 v zv Hw1 Hv Hqn Hc1
                  ltac:(lia) Hcv Hmv) as (zv1 & Hv1' & Hcv1 & Hmv1 & _ & Hev).
      destruct (zz_add_spec m1 u v r zu1 zv1 zr)
        as (m2 & z2 & Hr2 & Hw2 & Hc2 & Hv2); auto; try mget.
      unfold guard, c_or. mstep Hr1. mstep Hr2. mret.
      exists m2, z1, z2. split; [reflexivity|].
      split; [mget|]. split; [mget|].
      split; [eapply frame_writes; [exact Hinr| |exact Hw2];
              eapply frame_writes; [exact Hinq|apply frame_refl|exact Hw1]|].
      split; [exact Hc1|]. split; [exact Hc2|].
      split; [rewrite Hv1; lia|].
      intros [Hc|[Hc|[Hqu Hqv]]]; [lia | contradiction |].
      rewrite Hv2, (Heu ltac:(congruence)), (Hev ltac:(congruence)).
      rewrite !zz_val_sg. unfold sg.
      destruct (negative zu), (negative zv); try discriminate; lia.
    + destruct (zz_set_i64_run m q zq 0 Hq Hlq HB0)
        as (m1 & z1 & Hr1 & Hw1 & Hc1 & Hv1).
      destruct (operand_after_set m m1 q z1 u zu Hw1 Hu Hqn Hc1
                  ltac:(lia) Hcu Hmu) as (zu1 & Hu1 & Hcu1 & Hmu1 & _ & Heu).
      assert (exists m2 z2,
                zz_pos u r m1 = Some (ZZ_OK, m2)
                /\ writes r m1 m2 z2 /\ canonical z2
                /\ zz_val z2 = zz_val zu1)
        as (m2 & z2 & Hr2 & Hw2 & Hc2 & Hv2).
      { destruct (Nat.eq_dec u r) as [Eur|Eur].
        - exists m1, zu1. subst r. unfold zz_pos. rewrite Nat.eqb_refl.
          split; [reflexivity|].
          split; [now apply writes_refl | auto].
        - destruct (zz_pos_run m1 u r zu1 zr Eur Hu1 ltac:(mget) Hcu1 Hlr)
            as (m2 & z2 & Hr2 & Hw2 & Hs2 & Hc2).
          exists m2, z2. repeat (split; [assumption|]).
          now apply same_number_val. }
      unfold guard, c_or. mstep Hr1. mstep Hr2. mret.
      exists m2, z1, z2. split; [reflexivity|].
      split; [mget|]. split; [mget|].
      split; [eapply frame_writes; [exact Hinr| |exact Hw2];
              eapply frame_writes; [exact Hinq|apply frame_refl|exact Hw1]|].
      split; [exact Hc1|]. split; [exact Hc2|].
      split; [rewrite Hv1; lia|].
      intros [Hc|[Hc|[Hqu Hqv]]]; [lia | contradiction |].
      rewrite Hv2, (Heu ltac:(congruence)).
      rewrite !zz_val_sg. unfold sg.
      destruct (negative zu), (negative zv); try discriminate; lia.
  - (* the general case *)
    assert (exists m' zq' zr',
      zz_div_rec (S (S (S f))) u v (Some q) (Some r) m = Some (ZZ_OK, m')
      /\ get m' q = Some zq' /\ get m' r = Some zr' /\ frame [q; r] m m'
      /\ canonical zq' /\ canonical zr'
      /\ zz_val zq' = zz_val zu / zz_val zv
      /\ zz_val zr' = zz_val zu mod zz_val zv)
      as (m' & zq' & zr' & H1 & H2 & H3 & H4 & H5 & H6 & H7 & H8);
      [|exists m', zq', zr'; auto 10].
    destruct (Nat.eq_dec u q) as [Euq|Euq];
      [|destruct (Nat.eq_dec u r) as [Eur|Eur]];
      [| |now apply (zz_div_qr_alias1 (S f) m u v q r zu zv zq zr)].
    all: set (tmp := length (objs m));
      destruct (temp_copy m u zu Hu Hcu)
        as (m2 & zt & Hr2 & Ht2 & Hs2 & Hc2 & Hf2);
      fold tmp in Hr2, Ht2, Hf2;
      pose proof (get_fresh m v zv Hv) as Hfv; fold tmp in Hfv;
      pose proof (get_fresh m q zq Hq) as Hfq; fold tmp in Hfq;
      pose proof (get_fresh m r zr Hr) as Hfr; fold tmp in Hfr;
      assert (get m2 v = Some zv) as Hv2
        by (apply (frame_get_old [tmp] m); auto; intros [E|[]]; congruence);
      assert (get m2 q = Some zq) as Hq2
        by (apply (frame_get_old [tmp] m); auto; intros [E|[]]; congruence);
      assert (get m2 r = Some zr) as Hr2'
        by (apply (frame_get_old [tmp] m); auto; intros [E|[]]; congruence);
      assert (size zt = size zu) as Hst by apply Hs2;
      pose proof (same_number_val _ _ Hs2) as Hvt;
      destruct (zz_div_qr_alias1 f m2 tmp v q r zt zv zq zr)
        as (m3 & zq' & zr' & Hr3 & Hgq & Hgr & Hf3 & Hcq & Hcr & Hvq' & Hvr');
        auto; try lia; try congruence;
      destruct (temp_close2 ZZ_OK m m2 m3 q r zq zr zq' zr' zt
                  Hf2 Ht2 Hq Hr Hf3 Hgq Hgr) as (Hcl & Hpq & Hpr & Hpf);
      fold tmp in Hcl, Hpq, Hpr, Hpf;
      exists (pop tmp (upd m3 tmp zz0)), zq', zr';
      (split; [|rewrite Hvq', Hvr', Hvt; auto 10]);
      remember (S (S f)) as f1 eqn:Ef;
      cbn [zz_div_rec]; mstep get_size_run;
      destruct (Nat.eqb_spec (size zv) 0) as [|_]; [contradiction|];
      mstep get_size_run; mstep get_size_run;
      destruct (Nat.eqb_spec (size zu) 0) as [|_]; [contradiction|];
      destruct (Nat.ltb_spec (size zu) (size zv)) as [|_]; [lia|].
    + subst q. rewrite Nat.eqb_refl. cbn [orb].
      apply with_local_run. fold tmp. unfold guard.
      mstep Hr2. mstep Hr3. exact Hcl.
    + subst r. rewrite Nat.eqb_refl. rewrite orb_true_r.
      apply with_local_run. fold tmp. unfold guard.
      mstep Hr2. mstep Hr3. exact Hcl.
Qed.

Lemma zz_div_q_spec m u v q zu zv zq :
  get m u = Some zu -> get m v = Some zv -> get m q = Some zq ->
  canonical zu -> canonical zv -> length (digits zq) = alloc zq ->
  Z.of_nat (size zu) < ZZ_DIGITS_MAX -> Z.of_nat (size zv) < ZZ_DIGITS_MAX ->
  zz_val zv <> 0 ->
  exists m' z',
    zz_div u v (Some q) None m = Some (ZZ_OK, m')
    /\ writes q m m' z' /\ canonical z'
    /\ zz_val z' = zz_val zu / zz_val zv.
Proof.
  intros Hu Hv Hq Hcu Hcv Hlq Hmu Hmv Hv0.
  assert (size zv <> 0%nat) as Hnv.
  { intros E. apply Hv0. rewrite zz_val_sg.
    rewrite (proj2 (mag_zero_size zv Hcv) E). ring. }
  set (tmp := length (objs m)).
  pose proof (get_fresh m u zu Hu) as Hfu. fold tmp in Hfu.
  pose proof (get_fresh m v zv Hv) as Hfv. fold tmp in Hfv.
  pose proof (get_fresh m q zq Hq) as Hfq. fold tmp in Hfq.
  pose proof (get_push_new m) as Hnew. fold tmp in Hnew.
  pose proof (get_push_old m u zu Hu) as Hu1.
  pose proof (get_push_old m v zv Hv) as Hv1.
  pose proof (get_push_old m q zq Hq) as Hq1.
  destruct (zz_div_qr_any 0 (upd (push m) tmp zz0) u v q tmp zu zv zq zz0)
    as (m3 & zq' & zr' & Hr3 & Hgq & Hgr & Hf3 & Hcq & Hcr & Hvq' & _);
    auto; try mget.
  assert (frame [tmp; q] (push m) (upd m3 tmp zz0)) as Hfr.
  { apply frame_upd; [left; reflexivity|].
    eapply frame_trans.
    - apply frame_upd; [left; reflexivity | apply frame_refl].
    - eapply frame_incl; [|exact Hf3].
      intros p [<-|[<-|[]]]; [right; left | left]; reflexivity. }
  exists (pop tmp (upd m3 tmp zz0)), zq'.
  split; [|split; [|auto]].
  - unfold zz_div. remember 3%nat as f3 eqn:Ef3.
    cbn [zz_div_rec]. mstep get_size_run.
    destruct (Nat.eqb_spec (size zv) 0) as [|_]; [contradiction|].
    apply with_local_run. fold tmp. unfold guard.
    mstep zz_init_run. mstep Hr3.
    mstep zz_clear_run. reflexivity.
  - apply (pop_writes q m _ zq zq'); [exact Hfr | exact Hq | mget].
Qed.

Lemma zz_div_r_spec m u v r zu zv zr :
  get m u = Some zu -> get m v = Some zv -> get m r = Some zr ->
  canonical zu -> canonical zv -> length (digits zr) = alloc zr ->
  Z.of_nat (size zu) < ZZ_DIGITS_MAX -> Z.of_nat (size zv) < ZZ_DIGITS_MAX ->
  zz_val zv <> 0 ->
  exists m' z',
    zz_div u v None (Some r) m = Some (ZZ_OK, m')
    /\ writes r m m' z' /\ canonical z'
    /\ zz_val z' = zz_val zu mod zz_val zv.
Proof.
  intros Hu Hv Hr Hcu Hcv Hlr Hmu Hmv Hv0.
  assert (size zv <> 0%nat) as Hnv.
  { intros E. apply Hv0. rewrite zz_val_sg.
    rewrite (proj2 (mag_zero_size zv Hcv) E). ring. }
  set (tmp := length (objs m)).
  pose proof (get_fresh m u zu Hu) as Hfu. fold tmp in Hfu.
  pose proof (get_fresh m v zv Hv) as Hfv. fold tmp in Hfv.
  pose proof (get_fresh m r zr Hr) as Hfr0. fold tmp in Hfr0.
  pose proof (get_push_new m) as Hnew. fold tmp in Hnew.
  pose proof (get_push_old m u zu Hu) as Hu1.
  pose proof (get_push_old m v zv Hv) as Hv1.
  pose proof (get_push_old m r zr Hr) as Hr1.
  destruct (zz_div_qr_any 0 (upd (push m) tmp zz0) u v tmp r zu zv zz0 zr)
    as (m3 & zq' & zr' & Hr3 & Hgq & Hgr & Hf3 & Hcq & Hcr & _ & Hvr');
    auto; try mget.
  assert (frame [tmp; r] (push m) (upd m3 tmp zz0)) as Hfr.
  { apply frame_upd; [left; reflexivity|].
    eapply frame_trans.
    - apply frame_upd; [left; reflexivity | apply frame_refl].
    - exact Hf3. }
  exists (pop tmp (upd m3 tmp zz0)), zr'.
  split; [|split; [|split; [exact Hcr|]]].
  - unfold zz_div. remember 3%nat as f3 eqn:Ef3.
    cbn [zz_div_rec]. mstep get_size_run.
    destruct (Nat.eqb_spec (size zv) 0) as [|_]; [contradiction|].
    apply with_local_run. fold tmp. unfold guard.
    mstep zz_init_run. mstep Hr3.
    mstep zz_clear_run. reflexivity.
  - apply (pop_writes r m _ zr zr'); [exact Hfr | exact Hr | mget].
  - apply Hvr'. right. right. split; congruence.
Qed.

(** X11. [zz_div] with one output missing, on canonical operands of fewer
    than [ZZ_DIGITS_MAX] digits and a divisor that is not zero: with [r == NULL] the call returns [ZZ_OK] and
    leaves the floor quotient in [q], with [q == NULL] it leaves the
    remainder of the floor division in [r], and with both missing it
    returns [ZZ_OK] at once.  Nothing but the output changes (the temporary
    standing for the missing output is gone), and the output may be the
    dividend or the divisor. *)
Theorem zz_div_one_output (m : mem) (u v w : ptr) (zu zv zw : zz_t) :
  get m u = Some zu -> get m v = Some zv -> get m w = Some zw ->
  canonical zu -> canonical zv -> length (digits zw) = alloc zw ->
  Z.of_nat (size zu) < ZZ_DIGITS_MAX -> Z.of_nat (size zv) < ZZ_DIGITS_MAX ->
  zz_val zv <> 0 ->
  (exists m' z',
     zz_div u v (Some w) None m = Some (ZZ_OK, m')
     /\ writes w m m' z' /\ canonical z'
     /\ zz_val z' = zz_val zu / zz_val zv)
  /\ (exists m' z',
     zz_div u v None (Some w) m = Some (ZZ_OK, m')
     /\ writes w m m' z' /\ canonical z'
     /\ zz_val z' = zz_val zu mod zz_val zv)
  /\ zz_div u v None None m = Some (ZZ_OK, m).
Proof.
  intros Hu Hv Hw Hcu Hcv Hlw Hmu Hmv Hv0. split; [|split].
  - apply (zz_div_q_spec m u v w zu zv zw); assumption.
  - apply (zz_div_r_spec m u v w zu zv zw); assumption.
  - assert (size zv <> 0%nat) as Hnv.
    { intros E. apply Hv0. rewrite zz_val_sg.
      rewrite (proj2 (mag_zero_size zv Hcv) E). ring. }
    unfold zz_div. cbn [zz_div_rec]. mstep get_size_run.
    destruct (Nat.eqb_spec (size zv) 0) as [|_]; [contradiction|].
    reflexivity.
Qed.

(** -(2^64 + 3) and 7; the output is the dividend. *)
Definition mem_div1 : mem :=
  mk_mem [mk_zz true 2 2 [3; 1]; mk_zz false 1 1 [7]] [4; 4; 4; 4].

Lemma zz_div_one_output_witness :
  (exists m' z',
     zz_div 0 1 (Some 0%nat) None mem_div1 = Some (ZZ_OK, m')
     /\ writes 0 mem_div1 m' z' /\ canonical z'
     /\ zz_val z' = zz_val (mk_zz true 2 2 [3; 1]) / zz_val (mk_zz false 1 1 [7]))
  /\ (exists m' z',
     zz_div 0 1 None (Some 0%nat) mem_div1 = Some (ZZ_OK, m')
     /\ writes 0 mem_div1 m' z' /\ canonical z'
     /\ zz_val z' = zz_val (mk_zz true 2 2 [3; 1])
                    mod zz_val (mk_zz false 1 1 [7]))
  /\ zz_div 0 1 None None mem_div1 = Some (ZZ_OK, mem_div1).
Proof.
  apply (zz_div_one_output mem_div1 0%nat 1%nat 0%nat
           (mk_zz true 2 2 [3; 1]) (mk_zz false 1 1 [7])
           (mk_zz true 2 2 [3; 1])).
  - reflexivity.
  - reflexivity.
  - reflexivity.
  - apply canonicalb_spec. reflexivity.
  - apply canonicalb_spec. reflexivity.
  - reflexivity.
  - reflexivity.
  - reflexivity.
  - discriminate.
Defined.

(** X12. [zz_div (u, v, q, r)] when an output is also an operand: for
    canonical operands of fewer than [ZZ_DIGITS_MAX] digits, a divisor that is not zero and two distinct
    outputs, the call returns [ZZ_OK] with the floor quotient in [q] and its
    remainder in [r], both in canonical form, provided the dividend has at
    least as many digits as the divisor (the operands are then copied to
    temporaries before the outputs are written), or is zero, or the
    quotient object is neither operand. *)
Theorem zz_div_in_place (m : mem) (u v q r : ptr) (zu zv zq zr : zz_t) :
  q <> r ->
  get m u = Some zu -> get m v = Some zv ->
  get m q = Some zq -> get m r = Some zr ->
  canonical zu -> canonical zv ->
  length (digits zq) = alloc zq -> length (digits zr) = alloc zr ->
  Z.of_nat (size zu) < ZZ_DIGITS_MAX -> Z.of_nat (size zv) < ZZ_DIGITS_MAX ->
  zz_val zv <> 0 ->
  (size zv <= size zu)%nat \/ size zu = 0%nat \/ (q <> u /\ q <> v) ->
  exists m' zq' zr',
    zz_div u v (Some q) (Some r) m = Some (ZZ_OK, m')
    /\ get m' q = Some zq' /\ get m' r = Some zr' /\ frame [q; r] m m'
    /\ canonical zq' /\ canonical zr'
    /\ zz_val zq' = zz_val zu / zz_val zv
    /\ zz_val zr' = zz_val zu mod zz_val zv.
Proof.
  intros Hqr Hu Hv Hq Hr Hcu Hcv Hlq Hlr Hmu Hmv Hv0 Hgood.
  destruct (zz_div_qr_any 1 m u v q r zu zv zq zr)
    as (m' & zq' & zr' & H1 & H2 & H3 & H4 & H5 & H6 & H7 & H8); auto.
  exists m', zq', zr'. auto 10.
Qed.

(** The quotient over the dividend and the remainder over the divisor. *)
Lemma zz_div_in_place_witness :
  exists m' zq' zr',
    zz_div 0 1 (Some 0%nat) (Some 1%nat) mem_div1 = Some (ZZ_OK, m')
    /\ get m' 0 = Some zq' /\ get m' 1 = Some zr'
    /\ frame [0%nat; 1%nat] mem_div1 m'
    /\ canonical zq' /\ canonical zr'
    /\ zz_val zq' = zz_val (mk_zz true 2 2 [3; 1]) / zz_val (mk_zz false 1 1 [7])
    /\ zz_val zr' = zz_val (mk_zz true 2 2 [3; 1])
                    mod zz_val (mk_zz false 1 1 [7]).
Proof.
  apply (zz_div_in_place mem_div1 0%nat 1%nat 0%nat 1%nat
           (mk_zz true 2 2 [3; 1]) (mk_zz false 1 1 [7])
           (mk_zz true 2 2 [3; 1]) (mk_zz false 1 1 [7])).
  - discriminate.
  - reflexivity.
  - reflexivity.
  - reflexivity.
  - reflexivity.
  - apply canonicalb_spec. reflexivity.
  - apply canonicalb_spec. reflexivity.
  - reflexivity.
  - reflexivity.
  - reflexivity.
  - reflexivity.
  - discriminate.
  - left. simpl. lia.
Defined.

(** X13. [zz_div (u, v, u, r)], the quotient written over the dividend, when
    the dividend is not zero and has fewer digits than the divisor, which
    has fewer than [ZZ_DIGITS_MAX]: the
    quotient (0 or -1) is stored in [u] before the remainder is computed
    from [u], so the call returns [ZZ_OK] with the right quotient and with
    the remainder 0 when the signs agree and [v - 1] when they differ,
    which is not the remainder of [u] by [v] (unless [u] is -1). *)
Theorem zz_div_quotient_over_dividend (m : mem) (u v r : ptr)
    (zu zv zr : zz_t) :
  u <> r -> v <> r ->
  get m u = Some zu -> get m v = Some zv -> get m r = Some zr ->
  canonical zu -> canonical zv -> length (digits zr) = alloc zr ->
  Z.of_nat (size zv) < ZZ_DIGITS_MAX ->
  (0 < size zu < size zv)%nat ->
  exists m' zq' zr',
    zz_div u v (Some u) (Some r) m = Some (ZZ_OK, m')
    /\ get m' u = Some zq' /\ get m' r = Some zr'
    /\ zz_val zq' = zz_val zu / zz_val zv
    /\ zz_val zr' = (if xorb (negative zu) (negative zv)
                     then zz_val zv - 1 else 0)
    /\ (zz_val zu <> -1 -> zz_val zr' <> zz_val zu mod zz_val zv).
Proof.
  intros Hur Hvr Hu Hv Hr Hcu Hcv Hlr Hmv Hsz.
  assert (u <> v) as Huv by (intros ->; assert (zu = zv) by congruence;
                              subst; lia).
  assert (- BASE < 0 < BASE /\ - BASE < -1 < BASE) as [HB0 HB1]
    by (unfold BASE; lia).
  pose proof (mag_size_lt zu zv Hcu Hcv ltac:(lia)) as HUV.
  pose proof (canonical_mag_pos zu Hcu ltac:(lia)) as HU0.
  pose proof (wf_size_length zu (proj1 Hcu)) as Hlu.
  assert (length (digits zu) = alloc zu) as Hlu' by apply Hcu.
  unfold zz_div. remember 3%nat as f3 eqn:Ef3.
  cbn [zz_div_rec]. mstep get_size_run.
  destruct (Nat.eqb_spec (size zv) 0) as [|_]; [lia|].
  mstep get_size_run. mstep get_size_run.
  destruct (Nat.eqb_spec (size zu) 0) as [|_]; [lia|].
  destruct (Nat.ltb_spec (size zu) (size zv)) as [_|]; [|lia].
  mstep ISNEG_run. mstep ISNEG_run.
  rewrite (zz_val_sg zu), (zz_val_sg zv).
  destruct (floor_from_trunc (mag zu) (mag zv) (negative zu) (negative zv)
              ltac:(lia) ltac:(lia)) as [HfQ HfR].
  rewrite HfQ, HfR.
  rewrite (Z.div_small (mag zu) (mag zv)), (Z.mod_small (mag zu) (mag zv))
    by lia.
  destruct (Z.eqb_spec (mag zu) 0) as [|_]; [lia|]. cbn [negb].
  rewrite andb_true_r.
  destruct (xorb (negative zu) (negative zv)) eqn:Ex.
  - destruct (zz_set_i64_run m u zu (-1) Hu Hlu' HB1)
      as (m1 & z1 & Hr1 & Hw1 & Hc1 & Hv1).
    pose proof (canonical_small_size z1 Hc1 ltac:(lia)) as Hs1.
    assert (1 < ZZ_DIGITS_MAX) as HM by reflexivity.
    destruct (zz_add_spec m1 u v r z1 zv zr)
      as (m2 & z2 & Hr2 & Hw2 & Hc2 & Hv2); auto; try mget; try lia.
    unfold guard, c_or. mstep Hr1. mstep Hr2. mret.
    exists m2, z1, z2. split; [reflexivity|].
    split; [mget|]. split; [mget|].
    split; [rewrite Hv1; lia|].
    rewrite Hv2, Hv1, (zz_val_sg zv).
    split; [lia|]. unfold sg.
    destruct (negative zu), (negative zv); try discriminate; lia.
  - destruct (zz_set_i64_run m u zu 0 Hu Hlu' HB0)
      as (m1 & z1 & Hr1 & Hw1 & Hc1 & Hv1).
    destruct (zz_pos_run m1 u r z1 zr Hur ltac:(mget) ltac:(mget) Hc1 Hlr)
      as (m2 & z2 & Hr2 & Hw2 & Hs2 & Hc2).
    unfold guard, c_or. mstep Hr1. mstep Hr2. mret.
    exists m2, z1, z2. split; [reflexivity|].
    split; [mget|]. split; [mget|].
    split; [rewrite Hv1; lia|].
    rewrite (same_number_val _ _ Hs2), Hv1.
    split; [reflexivity|]. unfold sg.
    destruct (negative zu), (negative zv); try discriminate; lia.
Qed.

(** 5 divided by 2^64, the quotient over the dividend. *)
Definition mem_div2 : mem :=
  mk_mem [mk_zz false 1 1 [5]; mk_zz false 2 2 [0; 1]; mk_zz false 0 0 []]
         [4; 4].

Lemma zz_div_quotient_over_dividend_witness :
  exists m' zq' zr',
    zz_div 0 1 (Some 0%nat) (Some 2%nat) mem_div2 = Some (ZZ_OK, m')
    /\ get m' 0 = Some zq' /\ get m' 2 = Some zr'
    /\ zz_val zq' = 5 / 2 ^ 64
    /\ zz_val zr' = 0
    /\ (5 <> -1 -> zz_val zr' <> 5 mod 2 ^ 64).
Proof.
  apply (zz_div_quotient_over_dividend mem_div2 0%nat 1%nat 2%nat
           (mk_zz false 1 1 [5]) (mk_zz false 2 2 [0; 1])
           (mk_zz false 0 0 [])).
  - discriminate.
  - discriminate.
  - reflexivity.
  - reflexivity.
  - reflexivity.
  - apply canonicalb_spec. reflexivity.
  - apply canonicalb_spec. reflexivity.
  - reflexivity.
  - reflexivity.
  - simpl. lia.
Defined.

(** ** Power *)

Lemma Bpow_pow n v : 0 <= v -> Bpow n ^ v = Bpow (n * Z.to_nat v).
Proof.
  intros Hv. unfold Bpow. rewrite <- Z.pow_mul_r by lia.
  f_equal. lia.
Qed.

Lemma zz_ord_eqb_compare x y :
  zz_ord_eqb (ord_of_comparison (x ?= y)) ZZ_EQ = (x =? y).
Proof.
  destruct (Z.compare_spec x y) as [E|E|E]; cbn;
    destruct (Z.eqb_spec x y); auto; lia.
Qed.

Lemma zz_resize_mem_granted a m u z n :
  get m u = Some z ->
  (n <=? alloc z)%nat || realloc_ok a (Z.of_nat n) = true ->
  zz_resize_mem a n u m = zz_resize n u m.
Proof.
  intros H G. unfold zz_resize_mem, zz_resize.
  rewrite (bind_run _ _ _ _ _ (GETALLOC_run m u z H)).
  rewrite (bind_run _ _ _ _ _ (GETALLOC_run m u z H)).
  destruct (n <=? alloc z)%nat; [reflexivity|].
  cbn [orb] in G. cbv zeta. rewrite G. reflexivity.
Qed.

Lemma zz_resize_mem_refused a m u z n :
  get m u = Some z ->
  (n <=? alloc z)%nat || realloc_ok a (Z.of_nat n) = false ->
  zz_resize_mem a n u m = Some (ZZ_MEM, m).
Proof.
  intros H G. unfold zz_resize_mem.
  rewrite (bind_run _ _ _ _ _ (GETALLOC_run m u z H)).
  destruct (n <=? alloc z)%nat; [discriminate|].
  cbn [orb] in G. cbv zeta. rewrite G. reflexivity.
Qed.

(** The result of a power that succeeds. *)
Definition pow_done (r : option (zz_err * mem)) (m : mem) (w : ptr)
    (x : Z) : Prop :=
  exists m' z',
    r = Some (ZZ_OK, m') /\ writes w m m' z' /\ canonical z' /\ zz_val z' = x.

(** The words [zz_pow] asks for are granted: the scratch buffer by [malloc]
    and the output, unless the buffer of [zw] has the room, by [realloc]. *)
Definition pow_granted (a : allocator) (w_size : Z) (zw : zz_t) : bool :=
  malloc_ok a w_size
  && ((w_size <=? Z.of_nat (alloc zw)) || realloc_ok a w_size).

Lemma zz_pow_main a f m u w zu zw v :
  u <> w -> get m u = Some zu -> get m w = Some zw ->
  canonical zu -> length (digits zw) = alloc zw -> 0 <= v < 2 ^ 64 ->
  if (v =? 0) || (zz_val zu =? 0) || (zz_val zu =? 1)
  then pow_done (zz_pow_rec a (S f) u v w m) m w (zz_val zu ^ v)
  else if ZZ_DIGITS_MAX / Z.of_nat (size zu) <? v
  then zz_pow_rec a (S f) u v w m = Some (ZZ_BUF, m)
  else if pow_granted a (v * Z.of_nat (size zu)) zw
  then pow_done (zz_pow_rec a (S f) u v w m) m w (zz_val zu ^ v)
  else exists m',
      zz_pow_rec a (S f) u v w m = Some (ZZ_MEM, m') /\ writes w m m' zz0.
Proof.
  intros Huw Hu Hw Hc Hlw Hv.
  assert (- BASE < 0 < BASE /\ - BASE < 1 < BASE) as [HB0 HB1]
    by (unfold BASE; lia).
  unfold pow_done.
  cbn [zz_pow_rec].
  destruct (Nat.eqb_spec u w) as [|_]; [congruence|].
  destruct (Z.eqb_spec v 0) as [->|Hv0]; cbn [orb].
  { destruct (zz_set_i64_run m w zw 1 Hw Hlw HB1)
      as (m' & z' & Hr & Hww & Hc' & Hval).
    exists m', z'. rewrite Z.pow_0_r. auto. }
  pose proof (mag_zero_size zu Hc) as Hz.
  assert (zz_val zu = 0 <-> mag zu = 0) as Hvz
    by (unfold zz_val; destruct (negative zu); lia).
  destruct (Z.eqb_spec (zz_val zu) 0) as [E0|E0]; cbn [orb].
  { mstep get_size_run.
    destruct (Nat.eqb_spec (size zu) 0) as [_|]; [|tauto].
    destruct (zz_set_i64_run m w zw 0 Hw Hlw HB0)
      as (m' & z' & Hr & Hww & Hc' & Hval).
    exists m', z'. rewrite E0, Z.pow_0_l by lia. auto. }
  mstep get_size_run.
  destruct (Nat.eqb_spec (size zu) 0) as [|Hn]; [tauto|].
  mstep zz_cmp_i64_spec. rewrite zz_ord_eqb_compare.
  destruct (Z.eqb_spec (zz_val zu) 1) as [E1|E1]; cbn [orb].
  { destruct (zz_set_i64_run m w zw 1 Hw Hlw HB1)
      as (m' & z' & Hr & Hww & Hc' & Hval).
    exists m', z'. rewrite E1, Z.pow_1_l by lia. auto. }
  set (n := size zu) in *.
  destruct (Z.ltb_spec (ZZ_DIGITS_MAX / Z.of_nat n) v) as [Hbig|Hsmall].
  { reflexivity. }
  assert (v * Z.of_nat n <= ZZ_DIGITS_MAX) as Hprod.
  { pose proof (Z.mul_div_le ZZ_DIGITS_MAX (Z.of_nat n) ltac:(lia)). nia. }
  cbv zeta. unfold pow_granted, malloc.
  set (wz := v * Z.of_nat n).
  set (ws := Z.to_nat wz).
  assert (Z.of_nat ws = wz) as Ews by (unfold ws, wz; lia).
  assert ((wz <=? Z.of_nat (alloc zw)) = (ws <=? alloc zw)%nat) as ->.
  { destruct (Z.leb_spec wz (Z.of_nat (alloc zw)));
      destruct (Nat.leb_spec ws (alloc zw)); auto; lia. }
  replace (realloc_ok a wz) with (realloc_ok a (Z.of_nat ws))
    by now rewrite Ews.
  destruct (malloc_ok a wz) eqn:Em; cbn [andb].
  2: { exists (upd m w zz0). split; [|eapply writes_upd; exact Hw].
       unfold guard. mret. mret. mstep zz_clear_run. reflexivity. }
  mstep fresh_words_run. mret.
  match goal with |- context [guard _ _ _ ?m0'] => set (m0 := m0') end.
  assert (get m0 u = Some zu) as Hu0 by exact Hu.
  assert (get m0 w = Some zw) as Hw0 by exact Hw.
  destruct ((ws <=? alloc zw)%nat || realloc_ok a (Z.of_nat ws)) eqn:Er.
  2: { exists (upd m0 w zz0). split; [|reflexivity].
       unfold guard at 1.
       mstep (zz_resize_mem_refused a m0 w zw ws Hw0 Er).
       mstep zz_clear_run. reflexivity. }
  destruct (zz_resize_run m0 w zw ws Hw0 Hlw) as (m1 & z1 & Hr1 & Hw1 & Hz1).
  rewrite <- (zz_resize_mem_granted a m0 w zw ws Hw0 Er) in Hr1.
  unfold guard at 1. mstep Hr1.
  pose proof Hz1 as (Hs1 & Hn1 & Hl1 & Hcap1 & Hpre1).
  mstep ISNEG_run. mstep SETNEG_run. mstep get_size_run. fold n.
  pose proof (wf_size_length zu (proj1 Hc)) as Hlu. fold n in Hlu.
  mstep mpn_load0_run.
  unfold mpn_pow_1.
  destruct (Z.eqb_spec (top (firstn n (digits zu))) 0) as [E|_].
  { exfalso. revert E. now apply canonical_top. }
  change (mpn_val (firstn n (digits zu))) with (mag zu).
  pose proof (canonical_mag_bound zu Hc) as HbU. fold n in HbU.
  pose proof (canonical_mag_pos zu Hc Hn) as HpU.
  remember (mag zu ^ v) as p eqn:Ep.
  assert (0 < p) as Hp by (rewrite Ep; apply Z.pow_pos_nonneg; lia).
  assert (p < Bpow ws) as Hpw.
  { rewrite Ep. unfold ws, wz.
    replace (Z.to_nat (v * Z.of_nat n)) with (n * Z.to_nat v)%nat by lia.
    rewrite <- Bpow_pow by lia.
    apply Z.pow_lt_mono_l; lia. }
  pose proof (nlimbs_le p ws ltac:(lia)) as Hnl.
  pose proof (nlimbs_lower p Hp) as Hlo.
  pose proof (nlimbs_upper p ltac:(lia)) as Hup.
  assert (nlimbs p <> 0%nat) as Hn0.
  { rewrite nlimbs_pos by lia. lia. }
  mstep mpn_store0_run.
  2: { cbn [digits set_negative]. rewrite limbs_length. lia. }
  mstep put_size_run. rewrite !limbs_length.
  cbn [digits set_negative].
  match goal with |- context [upd m1 w ?t] => remember t as z2 eqn:Ez2 end.
  assert (length (digits z2) = alloc z2) as Hl2.
  { rewrite Ez2; cbn [digits alloc set_size set_digits set_negative].
    rewrite length_app, limbs_length, length_skipn. lia. }
  assert (nlimbs p <= alloc z2)%nat as Hfit.
  { rewrite Ez2; cbn [alloc set_size set_digits set_negative]. lia. }
  destruct (zz_resize_run (upd m1 w z2) w z2 (nlimbs p) ltac:(mget) Hl2)
    as (m3 & z3 & Hr3 & Hw3 & Hz3).
  rewrite <- (zz_resize_mem_granted a (upd m1 w z2) w z2 (nlimbs p)) in Hr3.
  2: mget.
  2: { apply orb_true_intro. left. now apply Nat.leb_le. }
  unfold guard. mstep Hr3. mret.
  exists m3, z3. split; [reflexivity|].
  split.
  { eapply writes_trans; [|exact Hw3].
    eapply (writes_trans w m m1); [|eapply writes_upd; mget].
    exact Hw1. }
  pose proof Hz3 as (Hs3 & Hn3 & Hl3 & Hcap3 & Hpre3).
  assert (firstn (nlimbs p) (digits z3) = limbs (nlimbs p) p) as Hd3.
  { rewrite (resized_prefix (nlimbs p) z2 z3 (nlimbs p) Hz3).
    - rewrite Ez2; cbn [digits set_size set_digits].
      rewrite <- (limbs_length (nlimbs p) p) at 1. apply firstn_length_app.
    - rewrite Hl2. exact Hfit. }
  destruct (canonical_of_limbs z3 (nlimbs p) p (negative z3)) as [Hc3 Hm3];
    auto; try tauto.
  split; [exact Hc3|].
  rewrite (zz_val_sg z3), Hm3, Hn3, (zz_val_sg zu).
  destruct (Nat.eqb_spec (nlimbs p) 0) as [|_]; [contradiction|].
  assert (negative z2 = negative zu && negb (v mod 2 =? 0)) as ->
    by (rewrite Ez2; reflexivity).
  rewrite Z.pow_mul_l, <- Ep. f_equal.
  unfold sg. destruct (negative zu); cbn [andb].
  - rewrite pow_minus_one by lia.
    destruct (Z.eqb_spec (v mod 2) 0); reflexivity.
  - now rewrite Z.pow_1_l by lia.
Qed.

Lemma frame_nil_objs m m' : frame [] m m' -> objs m' = objs m.
Proof.
  intros [_ Hf]. apply nth_error_ext. intros p. apply Hf. intros [].
Qed.

(** X14. [zz_pow (u, v, w)] for [u] in canonical form and any exponent [v]
    (a [uint64_t]); the output may be the base itself, which is then copied
    to a temporary first.  [u^0 = 1], [0^v = 0] and [1^v = 1] are set
    directly.  Otherwise, when [v] is at most [ZZ_DIGITS_MAX] divided by the
    digit count of [u], the function asks for two buffers of [v * size]
    words: when the allocator grants them the call returns [ZZ_OK] and [w]
    is [u^v] in canonical form; when it refuses one, the call returns
    [ZZ_MEM] and [w] is cleared.  For a base of magnitude 2 or more and a
    larger [v] the call returns [ZZ_BUF] and leaves every object as it
    was. *)
Theorem zz_pow_value (a : allocator) (m : mem) (u w : ptr) (zu zw : zz_t)
    (v : Z) :
  get m u = Some zu -> get m w = Some zw ->
  canonical zu -> length (digits zw) = alloc zw -> 0 <= v < 2 ^ 64 ->
  if (v =? 0) || (zz_val zu =? 0) || (zz_val zu =? 1)
  then pow_done (zz_pow a u v w m) m w (zz_val zu ^ v)
  else if ZZ_DIGITS_MAX / Z.of_nat (size zu) <? v
  then 1 < Z.abs (zz_val zu) ->
       exists m', zz_pow a u v w m = Some (ZZ_BUF, m') /\ objs m' = objs m
  else if pow_granted a (v * Z.of_nat (size zu)) zw
  then pow_done (zz_pow a u v w m) m w (zz_val zu ^ v)
  else exists m', zz_pow a u v w m = Some (ZZ_MEM, m') /\ writes w m m' zz0.
Proof.
  intros Hu Hw Hc Hlw Hv. unfold zz_pow.
  destruct (Nat.eq_dec u w) as [Euw|Euw].
  - subst w. assert (zw = zu) as -> by congruence.
    set (tmp := length (objs m)).
    destruct (temp_copy m u zu Hu Hc) as (m2 & zt & Hr2 & Ht2 & Hs2 & Hc2 & Hf2).
    fold tmp in Hr2, Ht2, Hf2.
    pose proof (get_fresh m u zu Hu) as Hnu. fold tmp in Hnu.
    assert (get m2 u = Some zu) as Hu2.
    { apply (frame_get_old [tmp] m); auto. intros [E|[]]; congruence. }
    assert (size zt = size zu) as Hst by apply Hs2.
    pose proof (same_number_val _ _ Hs2) as Hvt.
    pose proof (zz_pow_main a 0 m2 tmp u zt zu v ltac:(congruence) Ht2 Hu2 Hc2
                  Hlw Hv) as Hin.
    rewrite Hvt, Hst in Hin.
    assert (forall e m3 m4,
              zz_pow_rec a 1 tmp v u m2 = Some (e, m3) ->
              (zz_clear tmp ;;; ret e) m3 = Some (e, m4) ->
              zz_pow_rec a 2 u v u m = Some (e, pop tmp m4)) as Hwrap.
    { intros e m3 m4 H3 H4. remember 1%nat as f1 eqn:Ef.
      cbn [zz_pow_rec]. rewrite Nat.eqb_refl.
      apply with_local_run. fold tmp. unfold guard.
      unfold c_or in Hr2. rewrite bind_bind.
      erewrite bind_run by (eapply zz_init_run; apply get_push_new).
      erewrite bind_run in Hr2 by (eapply zz_init_run; apply get_push_new).
      cbn [is_err] in Hr2 |- *. mstep Hr2. mstep H3. exact H4. }
    assert (forall x,
              pow_done (zz_pow_rec a 1 tmp v u m2) m2 u x ->
              pow_done (zz_pow_rec a 2 u v u m) m u x) as Hdone.
    { intros x (m3 & z' & Hr3 & Hw3 & Hc3 & Hv3).
      destruct (temp_close ZZ_OK m m2 m3 u zu z' zt Hf2 Ht2 Hu Hw3)
        as [Hcl Hwr].
      fold tmp in Hcl, Hwr.
      exists (pop tmp (upd m3 tmp zz0)), z'.
      split; [apply (Hwrap ZZ_OK m3); assumption|]. auto. }
    destruct ((v =? 0) || (zz_val zu =? 0) || (zz_val zu =? 1));
      [now apply Hdone|].
    destruct (ZZ_DIGITS_MAX / Z.of_nat (size zu) <? v).
    + intros _. exists (pop tmp (upd m2 tmp zz0)). split.
      * apply (Hwrap ZZ_BUF m2); [exact Hin|].
        mstep zz_clear_run. reflexivity.
      * apply frame_nil_objs. apply pop_frame.
        apply frame_upd; [left; reflexivity|]. exact Hf2.
    + destruct (pow_granted a (v * Z.of_nat (size zu)) zu);
        [now apply Hdone|].
      destruct Hin as (m3 & Hr3 & Hw3).
      destruct (temp_close ZZ_MEM m m2 m3 u zu zz0 zt Hf2 Ht2 Hu Hw3)
        as [Hcl Hwr].
      fold tmp in Hcl, Hwr.
      exists (pop tmp (upd m3 tmp zz0)).
      split; [apply (Hwrap ZZ_MEM m3); assumption|]. exact Hwr.
  - pose proof (zz_pow_main a 1 m u w zu zw v Euw Hu Hw Hc Hlw Hv) as Hin.
    destruct ((v =? 0) || (zz_val zu =? 0) || (zz_val zu =? 1));
      [exact Hin|].
    destruct (ZZ_DIGITS_MAX / Z.of_nat (size zu) <? v); [|exact Hin].
    intros _. exists m. auto.
Qed.

(** -3, raised to the fifth power in place. *)
Definition mem_pow3 : mem := mk_mem [mk_zz true 1 1 [3]] [2; 2; 2; 2; 2; 2].

(** An allocator that refuses every request. *)
Definition alloc_none : allocator :=
  mk_allocator (fun _ => false) (fun _ => false).

Lemma zz_pow_value_witness :
  pow_done (zz_pow alloc_any 0 5 0 mem_pow3) mem_pow3 0
    (zz_val (mk_zz true 1 1 [3]) ^ 5)
  /\ exists m',
      zz_pow alloc_none 0 5 0 mem_pow3 = Some (ZZ_MEM, m')
      /\ writes 0 mem_pow3 m' zz0.
Proof.
  split.
  - apply (zz_pow_value alloc_any mem_pow3 0%nat 0%nat
             (mk_zz true 1 1 [3]) (mk_zz true 1 1 [3]) 5).
    + reflexivity.
    + reflexivity.
    + apply canonicalb_spec. reflexivity.
    + reflexivity.
    + split; [discriminate | reflexivity].
  - apply (zz_pow_value alloc_none mem_pow3 0%nat 0%nat
             (mk_zz true 1 1 [3]) (mk_zz true 1 1 [3]) 5).
    + reflexivity.
    + reflexivity.
    + apply canonicalb_spec. reflexivity.
    + reflexivity.
    + split; [discriminate | reflexivity].
Defined.

(** The same power, run: -243, in the five words asked for; and with the
    requests refused. *)
Example zz_pow_example :
  zz_pow alloc_any 0 5 0 mem_pow3
    = Some (ZZ_OK, mk_mem [mk_zz true 5 1 [243; 0; 0; 0; 0]] [])
  /\ zz_pow alloc_none 0 5 0 mem_pow3
    = Some (ZZ_MEM, mk_mem [mk_zz false 0 0 []] [2; 2; 2; 2; 2]).
Proof. split; vm_compute; reflexivity. Qed.

(** ** Left shift *)

Lemma limbs_app a b x : limbs (a + b) x = limbs a x ++ limbs b (x / Bpow a).
Proof.
  revert x. induction a as [|a IH]; intros x.
  - rewrite BASE_pow_0, Z.div_1_r. reflexivity.
  - cbn [Nat.add limbs app]. rewrite IH. f_equal. f_equal. f_equal.
    rewrite BASE_pow_succ. rewrite Z.div_div; auto.
    + pose proof BASE_pos. lia.
    + apply BASE_pow_pos.
Qed.

Lemma limbs_zero_low n y : limbs n (Bpow n * y) = repeat 0 n.
Proof.
  revert y. induction n as [|n IH]; intros y; [reflexivity|].
  cbn [limbs repeat]. rewrite BASE_pow_succ.
  pose proof BASE_pos.
  replace (BASE * Bpow n * y) with (Bpow n * y * BASE) by ring.
  rewrite Z.mod_mul, Z.div_mul by lia. f_equal. apply IH.
Qed.

Lemma limbs_shifted w k x :
  limbs (w + k) (Bpow w * x) = repeat 0 w ++ limbs k x.
Proof.
  rewrite limbs_app, limbs_zero_low. f_equal. f_equal.
  pose proof (BASE_pow_pos w). rewrite Z.mul_comm. apply Z.div_mul. lia.
Qed.

Lemma limbs_succ_snoc n x :
  limbs (S n) x = limbs n x ++ [(x / Bpow n) mod BASE].
Proof.
  replace (S n) with (n + 1)%nat by lia. rewrite limbs_app. reflexivity.
Qed.

Lemma skipn_list_set {A : Type} (l : list A) k i x :
  (k <= i)%nat -> skipn k (list_set l i x) = list_set (skipn k l) (i - k) x.
Proof.
  revert k i. induction l as [|h t IH]; intros k i Hk.
  - destruct k, i; reflexivity.
  - destruct k as [|k]; [now rewrite Nat.sub_0_r|].
    destruct i as [|i]; [lia|]. cbn [list_set skipn Nat.sub].
    apply IH. lia.
Qed.

Lemma Bpow_shift whole sh shift :
  0 <= shift -> whole = Z.to_nat (shift / 64) -> sh = shift mod 64 ->
  Bpow whole * 2 ^ sh = 2 ^ shift.
Proof.
  intros Hs -> ->. rewrite BASE_pow_2.
  pose proof (Z.div_mod shift 64 ltac:(lia)) as Hdm.
  pose proof (Z.mod_pos_bound shift 64 ltac:(lia)) as Hb.
  assert (0 <= shift / 64) by (apply Z.div_pos; lia).
  rewrite Z2Nat.id by lia. rewrite <- Z.pow_add_r by lia. f_equal. lia.
Qed.

(** The object after the shifted words were stored: [whole] zero words below
    [k] words of value [X]. *)
Lemma shifted_canonical z whole k X (b : bool) :
  size z = (whole + k)%nat -> negative z = b ->
  length (digits z) = alloc z -> (whole + k <= alloc z)%nat ->
  firstn (whole + k) (digits z) = repeat 0 whole ++ limbs k X ->
  (0 < k)%nat -> Bpow (k - 1) <= X < Bpow k ->
  canonical z /\ mag z = Bpow whole * X.
Proof.
  intros Hs Hn Hl Hc Hd Hk HX.
  apply (canonical_of_limbs z (whole + k) (Bpow whole * X) b); auto.
  - now rewrite limbs_shifted.
  - intros _. pose proof (BASE_pow_pos whole).
    replace (whole + k - 1)%nat with (whole + (k - 1))%nat by lia.
    rewrite !BASE_pow_add. nia.
  - lia.
Qed.

Lemma zz_mul_2exp_spec m u v zu zv shift :
  get m u = Some zu -> get m v = Some zv ->
  canonical zu -> length (digits zv) = alloc zv -> 0 <= shift < 2 ^ 64 ->
  if negb (size zu =? 0)%nat
     && (ZZ_DIGITS_MAX <? Z.of_nat (size zu) + shift / 64
                          + (if shift mod 64 =? 0 then 0 else 1))
  then zz_mul_2exp u shift v m = Some (ZZ_BUF, m)
  else exists m' z',
      zz_mul_2exp u shift v m = Some (ZZ_OK, m')
      /\ writes v m m' z' /\ canonical z'
      /\ zz_val z' = zz_val zu * 2 ^ shift.
Proof.
  intros Hu Hv Hc Hlv Hs. unfold zz_mul_2exp.
  mstep get_size_run.
  destruct (Nat.eqb_spec (size zu) 0) as [E0|E0]; cbn [negb andb].
  { destruct (zz_set_i32_run m v zv 0 Hv Hlv) as (m' & z' & Hr & Hw & Hc' & Hval).
    { unfold INT32_MIN, BASE. lia. }
    exists m', z'. repeat (split; [assumption|]).
    rewrite Hval, zz_val_sg, (proj2 (mag_zero_size zu Hc) E0). ring. }
  assert (ZZ_BITS_MAX = 2 ^ 64 - 1) as HBM by reflexivity.
  destruct (Z.ltb_spec ZZ_BITS_MAX shift) as [|_]; [lia|].
  change ZZ_DIGIT_T_BITS with 64.
  pose proof (Z.mod_pos_bound shift 64 ltac:(lia)) as Hsh.
  assert (0 <= shift / 64) as Hwh by (apply Z.div_pos; lia).
  remember (Z.to_nat (shift / 64)) as whole eqn:Ewh.
  remember (shift mod 64) as sh eqn:Esh.
  replace (shift / 64) with (Z.of_nat whole) by lia.
  set (n := size zu) in *.
  assert ((if negb (sh =? 0) then 1 else 0) = (if sh =? 0 then 0 else 1)) as ->
    by (destruct (sh =? 0); reflexivity).
  remember (Z.of_nat n + Z.of_nat whole + (if sh =? 0 then 0 else 1)) as vs
    eqn:Evs.
  destruct (Z.ltb_spec ZZ_DIGITS_MAX vs) as [Hbig|Hfit]; [reflexivity|].
  destruct (zz_resize_run m v zv (Z.to_nat vs) Hv Hlv)
    as (m1 & z1 & Hr1 & Hw1 & Hz1).
  unfold guard. mstep Hr1.
  pose proof Hz1 as (Hs1 & Hn1 & Hl1 & Hcap1 & Hpre1).
  assert (ISNEG u m1 = Some (negative zu, m1)) as Hsign.
  { destruct (Nat.eq_dec u v) as [->|Hne].
    - assert (zv = zu) as -> by congruence.
      rewrite (ISNEG_run m1 v z1) by mget. rewrite Hn1.
      destruct (Nat.eqb_spec (Z.to_nat vs) 0); [|reflexivity].
      destruct (sh =? 0); lia.
    - apply ISNEG_run. mget. }
  mstep Hsign. mstep SETNEG_run.
  pose proof (wf_size_length zu (proj1 Hc)) as Hlu. fold n in Hlu.
  pose proof (load_view m m1 u v zu zv z1 _ n (negative zu) Hu Hv Hw1 Hz1 Hlu)
    as Hldu.
  pose proof (canonical_digits_bound zu Hc E0) as HbU. fold n in HbU.
  pose proof (BASE_pow_pos (n - 1)) as Hpn.
  pose proof (wf_limbs zu (proj1 Hc)) as Hdu. fold n in Hdu.
  assert (Bpow whole * 2 ^ sh = 2 ^ shift) as Hpow
    by (apply (Bpow_shift whole sh shift); lia).
  rewrite (zz_val_sg zu), <- Hpow.
  destruct (Z.eqb_spec sh 0) as [Esh0|Esh0]; cbn [negb].
  - (* whole words only *)
    mstep Hldu. unfold mpn_copyd.
    rewrite Hdu.
    mstep mpn_store_run.
    2: { cbn [digits set_negative]. rewrite limbs_length. lia. }
    cbn [digits set_negative]. rewrite limbs_length.
    mstep mpn_store_run.
    2: { cbn [digits set_digits]. unfold mpn_zero. rewrite repeat_length.
         rewrite !length_app, length_firstn, limbs_length, length_skipn. lia. }
    mret. unfold mpn_zero. rewrite repeat_length.
    cbn [digits set_digits firstn app Nat.add].
    eexists _, _. split; [reflexivity|].
    split; [eapply writes_then_upd; eauto|].
    match goal with |- canonical ?t /\ _ => remember t as zf eqn:Ezf end.
    destruct (shifted_canonical zf whole n (mag zu) (negative zu))
      as [Hcf Hmf]; rewrite ?Ezf;
      cbn [size alloc negative digits set_digits set_negative]; auto; try lia.
    + rewrite length_app, repeat_length, length_skipn, !length_app,
        length_firstn, limbs_length, length_skipn. lia.
    + rewrite firstn_app, repeat_length.
      rewrite firstn_all2 by (rewrite repeat_length; lia).
      f_equal. replace (whole + n - whole)%nat with n by lia.
      rewrite skipn_app_exact by (rewrite length_firstn; lia).
      apply firstn_app_exact. apply limbs_length.
    + rewrite <- Ezf. split; [exact Hcf|].
      rewrite zz_val_sg, Hmf.
      assert (negative zf = negative zu) as -> by (rewrite Ezf; reflexivity).
      rewrite Esh0. change (2 ^ 0) with 1. ring.
  - (* a shift inside the words *)
    mstep Hldu. unfold mpn_lshift.
    rewrite length_firstn.
    replace (Nat.min n (length (digits zu))) with n by lia.
    destruct (Z.leb_spec 1 sh) as [_|]; [|lia].
    destruct (Z.ltb_spec sh 64) as [_|]; [|lia].
    destruct (Nat.eqb_spec n 0) as [|_]; [contradiction|]. cbn [andb negb].
    change (mpn_val (firstn n (digits zu))) with (mag zu).
    remember (mag zu * 2 ^ sh) as X eqn:EX.
    assert (0 < 2 ^ sh < BASE) as H2.
    { split; [apply Z.pow_pos_nonneg; lia|].
      unfold BASE. apply Z.pow_lt_mono_r; lia. }
    assert (Bpow (n - 1) <= X < Bpow (S n)) as HX.
    { rewrite EX, BASE_pow_succ. nia. }
    pose proof (BASE_pow_pos n) as Hpn'.
    assert (0 <= X / Bpow n < BASE) as Hout.
    { split; [apply Z.div_pos; lia|].
      apply Z.div_lt_upper_bound; [lia|]. rewrite BASE_pow_succ in HX. lia. }
    mstep mpn_store_run.
    2: { cbn [digits set_negative]. rewrite limbs_length. lia. }
    cbn [digits set_negative]. rewrite limbs_length.
    mstep get_size_run. cbn [size set_digits set_negative]. rewrite Hs1.
    replace (Z.to_nat vs - 1)%nat with (whole + n)%nat by lia.
    mstep put_digit_run.
    2: { cbn [digits set_digits].
         rewrite !length_app, length_firstn, limbs_length, length_skipn. lia. }
    mstep put_size_run.
    cbn [digits set_digits set_size].
    mstep mpn_store_run.
    2: { cbn [digits set_digits set_size]. unfold mpn_zero.
         rewrite repeat_length, list_set_length.
         rewrite !length_app, length_firstn, limbs_length, length_skipn. lia. }
    mret. unfold mpn_zero. rewrite repeat_length.
    cbn [digits set_digits set_size firstn app Nat.add].
    eexists _, _. split; [reflexivity|].
    split; [eapply writes_then_upd; eauto|].
    match goal with |- canonical ?t /\ _ => remember t as zf eqn:Ezf end.
    assert (skipn whole
              (list_set
                 (firstn whole (digits z1) ++
                  limbs n X ++ skipn (whole + n) (digits z1))
                 (whole + n) (X / Bpow n))
            = limbs n X ++ list_set (skipn (whole + n) (digits z1)) 0
                                    (X / Bpow n)) as Hsk.
    { rewrite skipn_list_set by lia.
      rewrite skipn_app_exact by (rewrite length_firstn; lia).
      replace (whole + n - whole)%nat with n by lia.
      apply list_set_app_exact. apply limbs_length. }
    assert (skipn (whole + n) (digits z1) <> []) as Hne.
    { intros E. apply (f_equal (@length Z)) in E.
      rewrite length_skipn in E. simpl in E. lia. }
    assert (negative zf = negative zu) as Hnf by (rewrite Ezf; reflexivity).
    assert (length (digits zf) = alloc zf) as Hlf.
    { rewrite Ezf; cbn [digits alloc set_digits set_size set_negative].
      rewrite Hsk, length_app, repeat_length, length_app, limbs_length,
        list_set_length, length_skipn. lia. }
    assert (alloc zf = alloc z1) as Haf by (rewrite Ezf; reflexivity).
    assert (firstn (whole + S n) (digits zf)
            = repeat 0 whole ++ limbs (S n) X) as Hdf.
    { rewrite Ezf; cbn [digits set_digits]. rewrite Hsk.
      rewrite firstn_app, repeat_length.
      rewrite firstn_all2 by (rewrite repeat_length; lia).
      f_equal. replace (whole + S n - whole)%nat with (S n) by lia.
      rewrite limbs_succ_snoc.
      rewrite <- (limbs_length n X) at 1.
      rewrite firstn_succ_app by (now apply list_set_0_nonnil).
      rewrite hd_list_set_0 by exact Hne.
      now rewrite (Z.mod_small _ _ Hout). }
    destruct (Z.eqb_spec (X / Bpow n) 0) as [Eo|Eo].
    + (* the top word is zero *)
      assert (0 <= X < Bpow n) as HXn by (apply Z.div_small_iff in Eo; lia).
      destruct (shifted_canonical zf whole n X (negative zu))
        as [Hcf Hmf]; auto; try lia.
      * rewrite Ezf; cbn [size set_digits set_size]. lia.
      * apply (f_equal (firstn (whole + n))) in Hdf.
        rewrite firstn_firstn in Hdf.
        replace (Nat.min (whole + n) (whole + S n)) with (whole + n)%nat
          in Hdf by lia.
        rewrite Hdf. rewrite firstn_app, repeat_length.
        rewrite firstn_all2 by (rewrite repeat_length; lia).
        f_equal. replace (whole + n - whole)%nat with n by lia.
        rewrite limbs_succ_snoc. apply firstn_app_exact, limbs_length.
      * split; [exact Hcf|]. rewrite zz_val_sg, Hmf, Hnf, EX. ring.
    + assert (Bpow n <= X) as HXn.
      { destruct (Z.le_gt_cases (Bpow n) X); auto.
        exfalso. apply Eo. apply Z.div_small. lia. }
      destruct (shifted_canonical zf whole (S n) X (negative zu))
        as [Hcf Hmf]; auto; try lia.
      * rewrite Ezf; cbn [size set_digits set_size]. lia.
      * replace (S n - 1)%nat with n by lia. lia.
      * split; [exact Hcf|]. rewrite zz_val_sg, Hmf, Hnf, EX. ring.
Qed.



(** The same shift, run: -(2^64 + 3) * 2^67 in place. *)
Example zz_mul_2exp_example :
  zz_mul_2exp 0 67 0 mem_mul
    = Some (ZZ_OK, mk_mem [mk_zz true 4 3 [0; 24; 8; 0]] [6; 6]).
Proof. vm_compute. reflexivity. Qed.

Lemma canonical_size_le z K :
  canonical z -> mag z < Bpow K -> (size z <= K)%nat.
Proof.
  intros Hc Hm. destruct (Nat.le_gt_cases (size z) K) as [|Hgt]; auto.
  pose proof (canonical_digits_bound z Hc ltac:(lia)) as Hb.
  pose proof (BASE_pow_le K (size z - 1) ltac:(lia)). lia.
Qed.




(** ** Right shift in place *)

Lemma load_view_off m m1 u w zu zw z1 n off k b :
  get m u = Some zu -> get m w = Some zw ->
  writes w m m1 z1 -> resized n zw z1 ->
  (off + k <= length (digits zu))%nat ->
  mpn_load u off k (upd m1 w (set_negative b z1))
    = Some (firstn k (skipn off (digits zu)), upd m1 w (set_negative b z1)).
Proof.
  intros Hu Hw Hwr Hz Hk.
  destruct (Nat.eq_dec u w) as [->|Hn].
  - assert (zw = zu) as -> by congruence.
    erewrite mpn_load_run; [| mget |].
    + cbn [digits set_negative]. do 2 f_equal.
      rewrite !firstn_skipn_comm. f_equal.
      now apply (resized_prefix n zu z1).
    + cbn [digits set_negative]. pose proof (resized_length n zu z1 Hz). lia.
  - erewrite mpn_load_run; [reflexivity | mget | lia].
Qed.

Lemma zz_quo_2exp_any m u v zu zv k :
  get m u = Some zu -> get m v = Some zv ->
  canonical zu -> length (digits zv) = alloc zv ->
  Z.of_nat (size zu) <= ZZ_DIGITS_MAX -> 0 <= k < 2 ^ 64 ->
  exists m' z',
    zz_quo_2exp u k v m = Some (ZZ_OK, m')
    /\ writes v m m' z' /\ canonical z'
    /\ zz_val z' = zz_val zu / 2 ^ k.
Proof.
  intros Hu Hv Hc Hlv Hmax Hk.
  pose proof (canonical_mag_bound zu Hc) as Hmb.
  assert (0 < 2 ^ k) as H2k by (apply Z.pow_pos_nonneg; lia).
  unfold zz_quo_2exp. mstep get_size_run.
  destruct (Nat.eqb_spec (size zu) 0) as [Hz|Hnz].
  { destruct (zz_set_i32_run m v zv 0 Hv Hlv) as (m' & z' & Hr & Hw & Hc' & Hval).
    { unfold INT32_MIN, BASE. lia. }
    exists m', z'. repeat split; auto; try apply Hc'.
    rewrite Hval. unfold zz_val.
    assert (mag zu = 0) as -> by (now apply mag_zero_size).
    destruct (negative zu); reflexivity. }
  pose proof (ZZ_DIGITS_MAX_bits _ Hmax) as Hbits.
  rewrite Z.mod_small by (unfold ZZ_DIGIT_T_BITS in *; lia).
  pose proof (canonical_mag_pos zu Hc Hnz) as Hpos.
  destruct (Z.leb_spec (Z.of_nat (size zu) * ZZ_DIGIT_T_BITS) k) as [Hbig|Hsmall].
  { mstep ISNEG_run.
    destruct (zz_set_i64_run m v zv (if negative zu then -1 else 0) Hv Hlv)
      as (m' & z' & Hr & Hw & Hc' & Hval).
    { unfold BASE. destruct (negative zu); lia. }
    exists m', z'. repeat split; auto; try apply Hc'.
    rewrite Hval. unfold zz_val.
    assert (mag zu < 2 ^ k) as Hlt.
    { rewrite BASE_pow_2 in Hmb. unfold ZZ_DIGIT_T_BITS in Hbig.
      assert (2 ^ (64 * Z.of_nat (size zu)) <= 2 ^ k)
        by (apply Z.pow_le_mono_r; lia).
      lia. }
    destruct (negative zu).
    - rewrite div_opp_floor by lia.
      rewrite Z.div_small, Z.mod_small by lia.
      destruct (Z.eqb_spec (mag zu) 0); lia.
    - now rewrite Z.div_small by lia. }
  set (whole := Z.to_nat (k / ZZ_DIGIT_T_BITS)) in *.
  set (s := k mod ZZ_DIGIT_T_BITS) in *.
  assert (0 <= s < 64) as Hs by (apply Z.mod_pos_bound; reflexivity).
  assert (k = 64 * Z.of_nat whole + s) as Hks.
  { unfold whole, s. rewrite Z2Nat.id by (apply Z.div_pos; unfold ZZ_DIGIT_T_BITS; lia).
    apply Z.div_mod. unfold ZZ_DIGIT_T_BITS. lia. }
  assert (whole < size zu)%nat as Hwh.
  { unfold ZZ_DIGIT_T_BITS in *. lia. }
  destruct Hc as (Hwf & Hneg0 & Htop).
  destruct Hwf as (Hlen & Hcap & Hrange).
  set (n := (size zu - whole)%nat) in *.
  set (lo := firstn whole (digits zu)) in *.
  set (hi := firstn n (skipn whole (digits zu))) in *.
  assert (firstn (size zu) (digits zu) = lo ++ hi) as Hsplit.
  { unfold lo, hi, n. rewrite <- (firstn_skipn whole (firstn _ _)).
    rewrite firstn_firstn, skipn_firstn_comm.
    now replace (Nat.min whole (size zu)) with whole by lia. }
  assert (in_range lo /\ in_range hi) as [Hrlo Hrhi].
  { apply in_range_app. now rewrite <- Hsplit. }
  assert (length lo = whole) as Hllo by (unfold lo; rewrite length_firstn; lia).
  assert (length hi = n) as Hlhi.
  { unfold hi. rewrite length_firstn, length_skipn. lia. }
  assert (mag zu = mpn_val lo + 2 ^ (64 * Z.of_nat whole) * mpn_val hi) as Hmag.
  { unfold mag. now rewrite Hsplit, mpn_val_app, Hllo, BASE_pow_2. }
  pose proof (mpn_val_bound lo Hrlo) as Hblo. rewrite Hllo, BASE_pow_2 in Hblo.
  pose proof (mpn_val_bound hi Hrhi) as Hbhi. rewrite Hlhi in Hbhi.
  mstep mpn_load0_run. mstep ISNEG_run. mstep mpn_load_run.
  fold lo hi n.
  rewrite (existsb_nonzero lo Hrlo), (forallb_max hi Hrhi), Hlhi.
  set (extra := mpn_val hi =? Bpow n - 1).
  destruct (zz_resize_run m v zv (n + (if extra then 1 else 0)) Hv Hlv)
    as (m1 & z1 & Hr & Hw1 & Hz1).
  unfold guard. mstep Hr.
  pose proof Hz1 as (Hs1 & Hn1 & Hl1 & Hcap1 & Hpre1).
  assert (ISNEG u m1 = Some (negative zu, m1)) as Hsign.
  { destruct (Nat.eq_dec u v) as [->|Hne].
    - assert (zv = zu) as -> by congruence.
      rewrite (ISNEG_run m1 v z1) by mget. rewrite Hn1.
      destruct (Nat.eqb_spec (n + (if extra then 1 else 0)) 0);
        [lia | reflexivity].
    - apply ISNEG_run. mget. }
  mstep Hsign. mstep SETNEG_run.
  set (T := mpn_val hi / 2 ^ s).
  set (carryb := negative zu && negb (mag zu mod 2 ^ k =? 0)).
  assert (0 < 2 ^ s) as H2s by (apply Z.pow_pos_nonneg; lia).
  assert (0 <= T <= mpn_val hi) as HT.
  { unfold T. split; [apply Z.div_pos; lia|].
    apply Z.div_le_upper_bound; nia. }
  assert (mag zu / 2 ^ k = T) as HdivT.
  { rewrite Hmag, Hks. apply shift_div_split; lia. }
  assert (mag zu mod 2 ^ k
          = mpn_val lo + 2 ^ (64 * Z.of_nat whole) * (mpn_val hi mod 2 ^ s))
    as Hmodk.
  { rewrite Hmag, Hks. apply shift_mod_split; lia. }
  assert (0 < 2 ^ (64 * Z.of_nat whole)) as H2w
    by (apply Z.pow_pos_nonneg; lia).
  pose proof (Z.mod_pos_bound (mpn_val hi) (2 ^ s) H2s) as Hmodb.
  set (z2 := set_digits (limbs n T ++ skipn n (digits z1))
               (set_negative (negative zu) z1)).
  set (m2 := upd m1 v (set_negative (negative zu) z1)).
  assert (get m2 v = Some (set_negative (negative zu) z1)) as Hg2
    by (unfold m2; mget).
  assert (mpn_load u whole n m2 = Some (hi, m2)) as Hldhi.
  { unfold m2, hi.
    apply (load_view_off m m1 u v zu zv z1 (n + (if extra then 1 else 0)) whole n
             (negative zu)); auto. lia. }
  assert (forall z3, negative z3 = negative zu ->
            ISNEG u (upd m1 v z3) = Some (negative zu, upd m1 v z3)) as Hsg3.
  { intros z3 Hn3. destruct (Nat.eq_dec u v) as [->|Hne].
    - rewrite (ISNEG_run _ v z3) by mget. now rewrite Hn3.
    - apply ISNEG_run. mget. }
  assert (n <= length (digits z1))%nat as Hn1' by lia.
  match goal with
  | |- exists m' z', bind ?c ?tail _ = _ /\ _ =>
      assert (c m2 = Some (carryb, upd m1 v z2)) as Hcarry
  end.
  { destruct (Z.eqb_spec s 0) as [Es|Es].
    - mstep Hldhi. unfold mpn_copyi.
      mstep mpn_store0_run. 2: { cbn [digits set_negative]. lia. }
      unfold m2. rewrite upd_upd. unfold ret. f_equal. f_equal.
      + unfold carryb. apply carry_flag_eq.
        rewrite Hmodk, Es, Z.pow_0_r, Z.mod_1_r. lia.
      + unfold z2, T. rewrite Es, Z.pow_0_r, Z.div_1_r.
        assert (limbs n (mpn_val hi) = hi) as ->
          by (rewrite <- Hlhi; now apply limbs_mpn_val).
        cbn [digits set_negative]. now rewrite Hlhi.
    - mstep Hldhi. unfold mpn_rshift.
      destruct (Z.leb_spec 1 s); [|lia].
      destruct (Z.ltb_spec s 64); [|lia].
      rewrite Hlhi. destruct (Nat.eqb_spec n 0); [lia|]. cbn [andb negb].
      mstep mpn_store0_run.
      2: { cbn [digits set_negative]. rewrite limbs_length. lia. }
      unfold m2. rewrite upd_upd.
      assert (0 < 2 ^ (64 - s)) by (apply Z.pow_pos_nonneg; lia).
      destruct (Z.eqb_spec (mpn_val hi mod 2 ^ s * 2 ^ (64 - s)) 0) as [Eo|Eo].
      + mret. unfold ret. f_equal. f_equal.
        * unfold carryb. apply carry_flag_eq. rewrite Hmodk.
          assert (mpn_val hi mod 2 ^ s = 0) as -> by nia. lia.
        * unfold z2. cbn [digits set_negative]. now rewrite limbs_length.
      + mred. rewrite Hsg3 by reflexivity. f_equal. f_equal.
        * unfold carryb. apply carry_flag_set. rewrite Hmodk.
          assert (mpn_val hi mod 2 ^ s <> 0) by nia. nia.
        * unfold z2. cbn [digits set_negative]. now rewrite limbs_length. }
  fold m2. erewrite bind_run by exact Hcarry. cbv beta.
  destruct (quo_2exp_tail (upd m1 v z2) v z2 n extra carryb
              (limbs n T) (skipn n (digits z1)) T)
    as (z' & Hrun & Hc' & Hval); auto.
  { mget. }
  { pose proof (BASE_pow_pos n). lia. }
  { unfold z2; cbn. rewrite length_app, limbs_length, length_skipn. lia. }
  { unfold z2; cbn. lia. }
  { destruct extra eqn:Ee.
    - intros E. apply (f_equal (@length Z)) in E.
      rewrite length_skipn in E. simpl in E. lia.
    - unfold extra in Ee. apply Z.eqb_neq in Ee.
      destruct carryb; lia. }
  rewrite upd_upd in Hrun.
  exists (upd m1 v z'), z'. split; [exact Hrun|].
  split; [eapply writes_then_upd; eauto|]. split; [auto|].
  rewrite Hval. unfold z2; cbn [negative set_digits set_negative].
  unfold zz_val, carryb.
  destruct (negative zu); cbn [andb].
  - rewrite div_opp_floor, HdivT by lia.
    destruct (mag zu mod 2 ^ k =? 0); cbn [negb]; lia.
  - rewrite HdivT. lia.
Qed.

(** ** The lowest set bit *)

Lemma lowbit_odd o : Z.odd o = true -> Z.land o (- o) = 1.
Proof.
  intros H. rewrite (Z.div2_odd o), H. cbn [Z.b2z].
  generalize (Z.div2 o). intros k.
  replace (- (2 * k + 1)) with (2 * Z.lnot k + 1) by (unfold Z.lnot, Z.pred; lia).
  apply Z.bits_inj'. intros n Hn.
  rewrite Z.land_spec.
  destruct (Z.eq_dec n 0) as [->|Hn0].
  - rewrite !Z.testbit_odd_0. reflexivity.
  - assert (exists n', n = Z.succ n' /\ 0 <= n') as (n' & -> & Hn')
      by (exists (n - 1); lia).
    rewrite !Z.testbit_odd_succ by lia.
    rewrite Z.lnot_spec by lia.
    rewrite (Z.bits_above_log2 1 (Z.succ n')) by (cbn; lia).
    now destruct (Z.testbit k n').
Qed.

Lemma lowbit_pow a o :
  0 <= a -> Z.odd o = true -> Z.land (2 ^ a * o) (- (2 ^ a * o)) = 2 ^ a.
Proof.
  intros Ha Ho.
  replace (- (2 ^ a * o)) with ((- o) * 2 ^ a) by lia.
  replace (2 ^ a * o) with (o * 2 ^ a) by lia.
  rewrite <- !Z.shiftl_mul_pow2 by lia.
  rewrite <- Z.shiftl_land, lowbit_odd by exact Ho.
  rewrite Z.shiftl_mul_pow2 by lia. lia.
Qed.

Lemma odd_factor d :
  0 < d -> exists a o, 0 <= a /\ Z.odd o = true /\ 0 < o /\ d = 2 ^ a * o.
Proof.
  destruct d as [|p|p]; try lia. intros _.
  induction p as [p IH|p IH|].
  - exists 0, (Zpos p~1). repeat split; lia.
  - destruct IH as (a & o & Ha & Ho & Hp & E).
    exists (a + 1), o. split; [lia|]. split; [exact Ho|]. split; [exact Hp|].
    change (Z.pos p~0) with (2 * Z.pos p).
    rewrite E, Z.pow_add_r by lia. lia.
  - exists 0, 1. repeat split; lia.
Qed.

Lemma pow2_factor_unique a b o p :
  0 <= a -> 0 <= b -> Z.odd o = true -> Z.odd p = true ->
  2 ^ a * o = 2 ^ b * p -> a = b.
Proof.
  assert (forall a b o p, 0 <= a < b -> Z.odd o = true ->
            2 ^ a * o = 2 ^ b * p -> False) as Hlt.
  { intros a0 b0 o0 p0 Hab Ho E.
    replace b0 with (a0 + (b0 - a0)) in E by lia.
    rewrite Z.pow_add_r in E by lia.
    assert (0 < 2 ^ a0) as Hp by (apply Z.pow_pos_nonneg; lia).
    assert (o0 = 2 ^ (b0 - a0) * p0) as E' by nia.
    replace (b0 - a0) with (Z.succ (b0 - a0 - 1)) in E' by lia.
    rewrite Z.pow_succ_r in E' by lia.
    rewrite E' in Ho. rewrite <- Z.mul_assoc, Z.odd_mul in Ho. discriminate. }
  intros Ha Hb Ho Hp E.
  destruct (Z.lt_trichotomy a b) as [H|[H|H]]; [|exact H|].
  - exfalso. apply (Hlt a b o p); auto; lia.
  - exfalso. apply (Hlt b a p o); auto; lia.
Qed.

Lemma all_zero_val l :
  forallb (fun d => d =? 0) l = true -> mpn_val l = 0.
Proof.
  induction l as [|d r IH]; cbn [forallb mpn_val]; [reflexivity|].
  intros H. apply andb_prop in H as (Hd & Hr).
  apply Z.eqb_eq in Hd. rewrite IH by exact Hr. lia.
Qed.

Lemma mpn_scan1_app l r :
  mpn_val l <> 0 -> mpn_scan1 (l ++ r) = mpn_scan1 l.
Proof.
  induction l as [|d l IH]; cbn [mpn_val mpn_scan1 app]; [lia|].
  intros H. destruct (Z.eqb_spec d 0) as [->|Hd]; [|reflexivity].
  rewrite IH; [reflexivity|]. intros E. rewrite E in H. lia.
Qed.

Lemma mpn_scan1_spec l :
  in_range l -> mpn_val l <> 0 ->
  0 <= mpn_scan1 l < 64 * Z.of_nat (length l)
  /\ exists o, Z.odd o = true /\ 0 < o /\ mpn_val l = 2 ^ mpn_scan1 l * o.
Proof.
  induction l as [|d l IH]; cbn [mpn_val mpn_scan1 length]; [lia|].
  intros Hr Hv. inversion Hr as [|? ? Hd Hr']; subst.
  destruct (Z.eqb_spec d 0) as [->|Hd0].
  - destruct IH as (Hb & o & Ho & Hp & E); [exact Hr' | lia |].
    split; [lia|]. exists o. split; [exact Ho|]. split; [exact Hp|].
    rewrite Z.pow_add_r by lia. rewrite E. unfold BASE. lia.
  - destruct (odd_factor d) as (a & o & Ha & Ho & Hp & E); [lia|].
    assert (0 < 2 ^ a) as H2a by (apply Z.pow_pos_nonneg; lia).
    assert (a < 64) as Ha64.
    { destruct (Z.lt_ge_cases a 64) as [|Hge]; [assumption|].
      assert (2 ^ 64 <= 2 ^ a) by (apply Z.pow_le_mono_r; lia).
      unfold BASE in Hd. nia. }
    assert (Z.log2 (Z.land d (- d)) = a) as ->.
    { rewrite E, lowbit_pow by auto. apply Z.log2_pow2. exact Ha. }
    split; [lia|].
    pose proof (mpn_val_bound l Hr') as Hb.
    exists (o + 2 ^ (64 - a) * mpn_val l). split; [|split].
    + replace (64 - a) with (Z.succ (63 - a)) by lia.
      rewrite Z.pow_succ_r by lia.
      rewrite <- Z.mul_assoc, Z.odd_add_mul_2. exact Ho.
    + assert (0 < 2 ^ (64 - a)) by (apply Z.pow_pos_nonneg; lia). nia.
    + rewrite Z.mul_add_distr_l, Z.mul_assoc, <- Z.pow_add_r by lia.
      replace (a + (64 - a)) with 64 by lia. rewrite E. reflexivity.
Qed.

Lemma zz_lsbpos_run m u z :
  get m u = Some z -> canonical z -> size z <> 0%nat ->
  zz_lsbpos u m = Some (mpn_scan1 (firstn (size z) (digits z)), m).
Proof.
  intros Hu Hc Hs. unfold zz_lsbpos. mstep get_size_run.
  destruct (Nat.eqb_spec (size z) 0) as [|_]; [contradiction|]. cbn [negb].
  mstep load_run.
  pose proof (canonical_mag_pos z Hc Hs) as Hm. unfold mag in Hm.
  pose proof (firstn_skipn (size z) (digits z)) as Hd.
  set (l1 := firstn (size z) (digits z)) in *.
  set (l2 := skipn (size z) (digits z)) in *.
  rewrite <- Hd. rewrite forallb_app.
  destruct (forallb (fun d => d =? 0) l1) eqn:E.
  - apply all_zero_val in E. lia.
  - cbn [andb]. rewrite mpn_scan1_app by lia. reflexivity.
Qed.

Lemma zz_lsbpos_zero m u z :
  get m u = Some z -> size z = 0%nat -> zz_lsbpos u m = Some (0, m).
Proof.
  intros Hu Hs. unfold zz_lsbpos. mstep get_size_run. now rewrite Hs.
Qed.

(** ** Greatest common divisor *)

Lemma zz_abs_any m u v zu zv :
  get m u = Some zu -> get m v = Some zv ->
  canonical zu -> length (digits zv) = alloc zv ->
  exists m' z',
    zz_abs u v m = Some (ZZ_OK, m')
    /\ writes v m m' z' /\ canonical z' /\ zz_val z' = Z.abs (zz_val zu).
Proof.
  intros Hu Hv Hc Hlv. destruct (Nat.eq_dec u v) as [<-|Hne].
  - assert (zv = zu) as -> by congruence.
    unfold zz_abs. rewrite Nat.eqb_refl. cbn [negb]. mret.
    mstep SETNEG_run. mret.
    eexists _, _. split; [reflexivity|].
    split; [eapply writes_upd; eauto|].
    pose proof (mag_nonneg zu (proj1 Hc)) as Hm.
    split.
    + destruct Hc as (Hw & H0 & Ht). split; [exact Hw|]. split; [|exact Ht].
      reflexivity.
    + unfold zz_val, mag; cbn [negative size digits set_negative].
      fold (mag zu). destruct (negative zu); lia.
  - now apply (zz_abs_run m u v zu zv).
Qed.

Lemma abs_val z : wf z -> Z.abs (zz_val z) = mag z.
Proof.
  intros Hw. pose proof (mag_nonneg z Hw). unfold zz_val.
  destruct (negative z); lia.
Qed.

Lemma nonneg_mag z : canonical z -> 0 <= zz_val z -> mag z = zz_val z.
Proof.
  intros Hc H. unfold zz_val. now rewrite (canonical_nonneg z Hc H).
Qed.

(** The end of [zz_gcd]: the temporaries are cleared and the common factor
    of two is put back. *)
Lemma zz_gcd_finish m o1 o2 w z1 z2 zg shift :
  o1 <> o2 -> o1 <> w -> o2 <> w ->
  get m o1 = Some z1 -> get m o2 = Some z2 -> get m w = Some zg ->
  canonical zg -> 0 <= shift < 2 ^ 64 ->
  Z.of_nat (size zg) + shift / 64 + 1 <= ZZ_DIGITS_MAX ->
  exists m' z',
    (zz_clear o1 ;;; (zz_clear o2 ;;; zz_mul_2exp w shift w)) m
      = Some (ZZ_OK, m')
    /\ get m' w = Some z' /\ frame [o1; o2; w] m m'
    /\ canonical z' /\ zz_val z' = zz_val zg * 2 ^ shift.
Proof.
  intros H12 H1w H2w H1 H2 Hw Hc Hs Hb.
  mstep zz_clear_run. mstep zz_clear_run.
  set (m2 := upd (upd m o1 zz0) o2 zz0).
  assert (get m2 w = Some zg) as Hw2 by (unfold m2; mget).
  pose proof (zz_mul_2exp_spec m2 w w zg zg shift Hw2 Hw2 Hc
                (proj1 (proj1 Hc)) Hs) as Hm.
  assert ((ZZ_DIGITS_MAX <? Z.of_nat (size zg) + shift / 64
             + (if shift mod 64 =? 0 then 0 else 1)) = false) as E.
  { apply Z.ltb_ge. destruct (shift mod 64 =? 0); lia. }
  rewrite E, andb_false_r in Hm.
  destruct Hm as (m' & z' & Hr & Hwr & Hc' & Hv').
  exists m', z'. split; [exact Hr|].
  split; [eapply writes_get; eauto|].
  split; [|auto].
  eapply frame_writes; [| |exact Hwr]; [cbn; auto|].
  unfold m2. apply frame_upd; [cbn; auto|].
  apply frame_upd; [cbn; auto|]. apply frame_refl.
Qed.

Lemma gcd_pos_bound x y : 0 < x -> 0 < y -> 0 < Z.gcd x y <= y.
Proof.
  intros Hx Hy. pose proof (Z.gcd_nonneg x y) as Hn.
  assert (Z.gcd x y <> 0) as Hne.
  { intros E. apply Z.gcd_eq_0_l in E. lia. }
  split; [lia|].
  apply Z.divide_pos_le; [exact Hy | apply Z.gcd_divide_r].
Qed.

Lemma zz_gcd_reduced_run m o1 o2 w z1 z2 zw shift :
  o1 <> o2 -> o1 <> w -> o2 <> w ->
  get m o1 = Some z1 -> get m o2 = Some z2 -> get m w = Some zw ->
  canonical z1 -> canonical z2 ->
  size z1 <> 0%nat -> size z2 <> 0%nat ->
  Z.odd (mag z1) || Z.odd (mag z2) = true ->
  length (digits zw) = alloc zw -> size zw = size z2 ->
  (size zw <= alloc zw)%nat ->
  0 <= shift < 2 ^ 64 ->
  Z.of_nat (size z2) + shift / 64 + 1 <= ZZ_DIGITS_MAX ->
  exists m' z',
    zz_gcd_reduced o1 o2 w shift m = Some (ZZ_OK, m')
    /\ get m' w = Some z' /\ frame [o1; o2; w] m m'
    /\ canonical z' /\ zz_val z' = Z.gcd (mag z1) (mag z2) * 2 ^ shift.
Proof.
  intros H12 H1w H2w H1 H2 Hw Hc1 Hc2 Hs1 Hs2 Hodd Hlw Hsw Haw Hs Hb.
  pose proof (canonical_mag_pos z1 Hc1 Hs1) as Hp1.
  pose proof (canonical_mag_pos z2 Hc2 Hs2) as Hp2.
  pose proof (canonical_mag_bound z2 Hc2) as Hb2.
  pose proof (gcd_pos_bound (mag z1) (mag z2) Hp1 Hp2) as HG.
  set (G := Z.gcd (mag z1) (mag z2)) in *.
  destruct Hc1 as ((Hl1 & Ha1 & Hr1) & Hz1 & Ht1).
  destruct Hc2 as ((Hl2 & Ha2 & Hr2) & Hz2 & Ht2).
  assert (exists zg,
            zz_gcd_reduced o1 o2 w shift m
               = (zz_clear o1 ;;; (zz_clear o2 ;;; zz_mul_2exp w shift w))
                   (upd m w zg)
            /\ get (upd m w zg) w = Some zg
            /\ canonical zg /\ zz_val zg = G /\ (size zg <= size z2)%nat)
    as (zg & Hrun & Hgw & Hcg & Hvg & Hsg).
  { unfold zz_gcd_reduced. cbv zeta. mstep get_size_run.
    destruct (Nat.eqb_spec (size z2) 1) as [E1|E1].
    - mstep get_size_run. mstep mpn_load_run. cbn [skipn].
      mstep get_digit_run.
      assert (mpn_val (firstn (size z1) (digits z1)) = mag z1) as Ex
        by reflexivity.
      assert (nth 0 (digits z2) 0 = mag z2) as Ey.
      { symmetry. apply mag_size_1; [repeat split; assumption | exact E1]. }
      unfold mpn_gcd_1. rewrite Ex, Ey.
      destruct (Z.eqb_spec (mag z1) 0) as [|_]; [lia|].
      destruct (Z.eqb_spec (mag z2) 0) as [|_]; [lia|]. cbn [orb].
      fold G. mstep put_digit_run. mstep SETNEG_run.
      eexists. split; [reflexivity|]. split; [mget|]. split; [|split].
      + assert (digits zw <> []) as Hne
          by (intros E; rewrite E in Hlw; cbn in Hlw; lia).
        assert (Bpow 1 = BASE) as HB1 by (unfold Bpow; cbn; lia).
        rewrite E1, HB1 in Hb2.
        split; [split; [|split]|split];
          cbn [size negative digits alloc set_negative set_digits].
        * rewrite list_set_length. exact Hlw.
        * exact Haw.
        * rewrite Hsw, E1, firstn_1_list_set by exact Hne.
          constructor; [lia | constructor].
        * intros _. reflexivity.
        * intros _. rewrite Hsw, E1, firstn_1_list_set by exact Hne.
          unfold top. cbn. lia.
      + unfold zz_val, mag;
          cbn [size negative digits alloc set_negative set_digits].
        assert (digits zw <> []) as Hne
          by (intros E; rewrite E in Hlw; cbn in Hlw; lia).
        rewrite Hsw, E1, firstn_1_list_set by exact Hne. cbn. lia.
      + cbn [size set_negative set_digits]. lia.
    - mstep get_size_run. mstep mpn_load_run. mstep mpn_load_run.
      cbn [skipn]. unfold mpn_gcd.
      destruct (Z.eqb_spec (top (firstn (size z2) (digits z2))) 0) as [E|_];
        [now apply Ht2 in E|].
      change (mpn_val (firstn (size z1) (digits z1))) with (mag z1).
      change (mpn_val (firstn (size z2) (digits z2))) with (mag z2).
      assert (Z.even (mag z1) && Z.even (mag z2) = false) as ->.
      { rewrite <- !Z.negb_odd.
        destruct (Z.odd (mag z1)), (Z.odd (mag z2)); cbn in *; congruence. }
      cbn [orb]. fold G.
      assert (nlimbs G <= size z2)%nat as Hng by (apply nlimbs_le; lia).
      mstep mpn_store0_run. 2: { rewrite limbs_length. lia. }
      mstep put_size_run. mstep SETNEG_run.
      rewrite limbs_length.
      eexists. split; [reflexivity|]. split; [mget|].
      match goal with |- canonical ?z /\ _ =>
        destruct (canonical_of_limbs z (nlimbs G) G false) as (Hcz & Hmz)
      end; cbn [size negative digits alloc set_negative set_digits set_size];
        try reflexivity.
      + rewrite length_app, limbs_length, length_skipn. lia.
      + lia.
      + rewrite firstn_app, limbs_length, Nat.sub_diag, firstn_0, app_nil_r.
        apply firstn_all2. rewrite limbs_length. lia.
      + intros _. split; [apply nlimbs_lower; lia | apply nlimbs_upper; lia].
      + intros E. rewrite nlimbs_pos in E by lia. discriminate.
      + split; [exact Hcz|]. split.
        * unfold zz_val. cbn [negative set_negative]. exact Hmz.
        * cbn [size set_negative set_digits set_size]. exact Hng. }
  assert (get (upd m w zg) o1 = Some z1) as H1' by mget.
  assert (get (upd m w zg) o2 = Some z2) as H2' by mget.
  destruct (zz_gcd_finish (upd m w zg) o1 o2 w z1 z2 zg shift)
    as (m' & z' & Hr & Hgw' & Hf & Hc' & Hv'); auto; try lia.
  exists m', z'. rewrite Hrun. split; [exact Hr|]. split; [exact Hgw'|].
  split.
  - eapply frame_trans; [|exact Hf].
    apply frame_upd; [cbn; auto | apply frame_refl].
  - split; [exact Hc'|]. now rewrite Hv', Hvg.
Qed.

Lemma with_local2_run {A : Type} (k : ptr -> ptr -> M A) m :
  with_local (fun o1 => with_local (k o1)) m
  = match k (length (objs m)) (S (length (objs m))) (push (push m)) with
    | Some (a, m') => Some (a, pop (length (objs m)) m')
    | None => None
    end.
Proof.
  unfold with_local at 1. fold zz0. fold (push m).
  unfold with_local. fold zz0. fold (push (push m)).
  replace (length (objs (push m))) with (S (length (objs m)))
    by (unfold push; cbn [objs]; rewrite length_app; cbn; lia).
  destruct (k (length (objs m)) (S (length (objs m))) (push (push m)))
    as [[a m']|]; [|reflexivity].
  unfold pop. cbn [objs junk]. rewrite firstn_firstn.
  now replace (Nat.min (length (objs m)) (S (length (objs m))))
    with (length (objs m)) by lia.
Qed.

Lemma gcd_shift_arith U V a b oa ob :
  0 <= a -> 0 <= b -> Z.odd oa = true -> Z.odd ob = true ->
  U = 2 ^ a * oa -> V = 2 ^ b * ob ->
  let s := if a <? b then a else b in
  U = U / 2 ^ s * 2 ^ s /\ V = V / 2 ^ s * 2 ^ s
  /\ Z.odd (U / 2 ^ s) || Z.odd (V / 2 ^ s) = true.
Proof.
  intros Ha Hb Hoa Hob EU EV s.
  assert (0 <= s <= a /\ s <= b /\ (s = a \/ s = b)) as (Hs & Hsb & Hsel)
    by (unfold s; destruct (Z.ltb_spec a b); lia).
  assert (0 < 2 ^ s) as Hp by (apply Z.pow_pos_nonneg; lia).
  assert (U / 2 ^ s = 2 ^ (a - s) * oa) as EU1.
  { rewrite EU. replace a with (s + (a - s)) at 1 by lia.
    rewrite Z.pow_add_r by lia.
    rewrite <- Z.mul_assoc, Z.mul_comm, Z.div_mul by lia. reflexivity. }
  assert (V / 2 ^ s = 2 ^ (b - s) * ob) as EV1.
  { rewrite EV. replace b with (s + (b - s)) at 1 by lia.
    rewrite Z.pow_add_r by lia.
    rewrite <- Z.mul_assoc, Z.mul_comm, Z.div_mul by lia. reflexivity. }
  split; [|split].
  - rewrite EU1, EU. replace a with (s + (a - s)) at 1 by lia.
    rewrite Z.pow_add_r by lia. lia.
  - rewrite EV1, EV. replace b with (s + (b - s)) at 1 by lia.
    rewrite Z.pow_add_r by lia. lia.
  - rewrite EU1, EV1. destruct Hsel as [E|E].
    + replace (a - s) with 0 by lia.
      rewrite Z.pow_0_r, Z.mul_1_l, Hoa. reflexivity.
    + replace (b - s) with 0 by lia.
      rewrite Z.pow_0_r, (Z.mul_1_l ob), Hob. apply orb_true_r.
Qed.

(** [zz_gcd] up to the call of the kernel, for operands that are not zero,
    the one of larger digit count first. *)
Lemma zz_gcd_prefix m u v w zu zv zw :
  get m u = Some zu -> get m v = Some zv -> get m w = Some zw ->
  canonical zu -> canonical zv -> length (digits zw) = alloc zw ->
  (size zv <= size zu)%nat -> size zv <> 0%nat ->
  Z.of_nat (size zu) <= ZZ_DIGITS_MAX ->
  let o1 := length (objs m) in
  let o2 := S o1 in
  exists m7 z1 z2 zw7 shift,
    zz_gcd u v w m
      = match zz_gcd_reduced o1 o2 w shift m7 with
        | Some (e, m') => Some (e, pop o1 m')
        | None => None
        end
    /\ get m7 o1 = Some z1 /\ get m7 o2 = Some z2 /\ get m7 w = Some zw7
    /\ canonical z1 /\ canonical z2
    /\ mag zu = mag z1 * 2 ^ shift /\ mag zv = mag z2 * 2 ^ shift
    /\ Z.odd (mag z1) || Z.odd (mag z2) = true
    /\ resized (size z2) zw zw7
    /\ 0 <= shift < 64 * Z.of_nat (size zv)
    /\ frame [o1; o2; w] (push (push m)) m7.
Proof.
  intros Hu Hv Hw Hcu Hcv Hlw Hle Hsv Hmax o1 o2.
  assert (size zu <> 0%nat) as Hsu by lia.
  pose proof (canonical_mag_pos zu Hcu Hsu) as HU.
  pose proof (canonical_mag_pos zv Hcv Hsv) as HV.
  pose proof (canonical_mag_bound zu Hcu) as HUb.
  pose proof (canonical_mag_bound zv Hcv) as HVb.
  (* the lowest set bits *)
  set (a := mpn_scan1 (firstn (size zu) (digits zu))).
  set (b := mpn_scan1 (firstn (size zv) (digits zv))).
  destruct (mpn_scan1_spec (firstn (size zu) (digits zu)))
    as (Hab & oa & Hoa & Hpa & Ea);
    [apply Hcu | fold (mag zu); lia |].
  destruct (mpn_scan1_spec (firstn (size zv) (digits zv)))
    as (Hbb & ob & Hob & Hpb & Eb);
    [apply Hcv | fold (mag zv); lia |].
  fold (mag zu) a in Ea, Hab. fold (mag zv) b in Eb, Hbb.
  rewrite length_firstn in Hab, Hbb.
  set (shift := if a <? b then a else b).
  destruct (gcd_shift_arith (mag zu) (mag zv) a b oa ob)
    as (EU & EV & Hodd); try lia; auto.
  fold shift in EU, EV, Hodd.
  assert (0 <= shift < 64 * Z.of_nat (size zv)) as Hshift.
  { unfold shift. destruct (Z.ltb_spec a b); lia. }
  assert (0 < 2 ^ shift) as H2s by (apply Z.pow_pos_nonneg; lia).
  assert (ZZ_DIGITS_MAX * 64 < 2 ^ 64) as HDM by (vm_compute; reflexivity).
  (* the store with the two temporaries *)
  set (m0 := push (push m)).
  assert (u <> o1 /\ v <> o1 /\ w <> o1) as (Huo1 & Hvo1 & Hwo1).
  { apply get_valid in Hu, Hv, Hw. unfold o1. lia. }
  assert (u <> o2 /\ v <> o2 /\ w <> o2 /\ o1 <> o2)
    as (Huo2 & Hvo2 & Hwo2 & Ho12).
  { apply get_valid in Hu, Hv, Hw. unfold o2, o1. lia. }
  assert (get m0 o1 = Some zz0) as H01.
  { unfold m0. apply get_push_old. apply get_push_new. }
  assert (get m0 o2 = Some zz0) as H02.
  { unfold m0, o2, o1.
    replace (S (length (objs m))) with (length (objs (push m)))
      by (unfold push; cbn [objs]; rewrite length_app; cbn; lia).
    apply get_push_new. }
  assert (get m0 u = Some zu) as H0u by (unfold m0; now do 2 apply get_push_old).
  assert (get m0 v = Some zv) as H0v by (unfold m0; now do 2 apply get_push_old).
  assert (get m0 w = Some zw) as H0w by (unfold m0; now do 2 apply get_push_old).
  assert (zz_init o1 m0 = Some (ZZ_OK, m0)) as Hi1.
  { rewrite (zz_init_run m0 o1 zz0 H01). now rewrite upd_same. }
  assert (zz_init o2 m0 = Some (ZZ_OK, m0)) as Hi2.
  { rewrite (zz_init_run m0 o2 zz0 H02). now rewrite upd_same. }
  (* the magnitudes *)
  destruct (zz_abs_any m0 u o1 zu zz0 H0u H01 Hcu eq_refl)
    as (m3 & z1a & Hr3 & Hw3 & Hc3 & Hv3).
  assert (get m3 v = Some zv) as H3v
    by (rewrite (writes_other _ _ _ _ v Hw3); auto).
  assert (get m3 o2 = Some zz0) as H32
    by (rewrite (writes_other _ _ _ _ o2 Hw3); auto).
  destruct (zz_abs_any m3 v o2 zv zz0 H3v H32 Hcv eq_refl)
    as (m4 & z2a & Hr4 & Hw4 & Hc4 & Hv4).
  assert (get m4 o1 = Some z1a) as H41.
  { rewrite (writes_other _ _ _ _ o1 Hw4) by auto.
    eapply writes_get; eauto. }
  assert (get m4 o2 = Some z2a) as H42 by (eapply writes_get; eauto).
  rewrite abs_val in Hv3, Hv4 by (apply Hcu || apply Hcv).
  assert (frame [o1; o2] m0 m4) as Hf4.
  { eapply frame_writes; [| |exact Hw4]; [cbn; auto|].
    eapply frame_writes; [| |exact Hw3]; [cbn; auto|]. apply frame_refl. }
  (* without the common factor of two *)
  assert (exists m6 z1 z2,
            (if negb (shift =? 0)
             then c_or (zz_quo_2exp o1 shift o1) (zz_quo_2exp o2 shift o2)
             else ret ZZ_OK) m4 = Some (ZZ_OK, m6)
            /\ get m6 o1 = Some z1 /\ get m6 o2 = Some z2
            /\ canonical z1 /\ canonical z2
            /\ zz_val z1 = mag zu / 2 ^ shift
            /\ zz_val z2 = mag zv / 2 ^ shift
            /\ frame [o1; o2] m0 m6)
    as (m6 & z1 & z2 & Hr6 & H61 & H62 & Hc1 & Hc2 & Hv1 & Hv2 & Hf6).
  { destruct (Z.eqb_spec shift 0) as [E0|E0]; cbn [negb].
    - exists m4, z1a, z2a. rewrite E0, Z.pow_0_r, !Z.div_1_r.
      repeat (split; [first [reflexivity | assumption]|]). exact Hf4.
    - assert (Z.of_nat (size z1a) <= ZZ_DIGITS_MAX) as Hs1a.
      { assert (size z1a <= size zu)%nat; [|lia].
        apply canonical_size_le; [exact Hc3|].
        rewrite <- (nonneg_mag z1a Hc3) in Hv3 by lia. lia. }
      assert (Z.of_nat (size z2a) <= ZZ_DIGITS_MAX) as Hs2a.
      { assert (size z2a <= size zv)%nat; [|lia].
        apply canonical_size_le; [exact Hc4|].
        rewrite <- (nonneg_mag z2a Hc4) in Hv4 by lia. lia. }
      destruct (zz_quo_2exp_any m4 o1 o1 z1a z1a shift H41 H41 Hc3
                  (proj1 (proj1 Hc3)) Hs1a)
        as (m5 & z1 & Hr5 & Hw5 & Hc1 & Hv1); [lia|].
      assert (get m5 o2 = Some z2a) as H52
        by (rewrite (writes_other _ _ _ _ o2 Hw5); auto).
      destruct (zz_quo_2exp_any m5 o2 o2 z2a z2a shift H52 H52 Hc4
                  (proj1 (proj1 Hc4)) Hs2a)
        as (m6 & z2 & Hr6 & Hw6 & Hc2 & Hv2); [lia|].
      exists m6, z1, z2. unfold c_or. mstep Hr5. rewrite Hr6.
      split; [reflexivity|].
      split. { rewrite (writes_other _ _ _ _ o1 Hw6) by auto.
               eapply writes_get; eauto. }
      split; [eapply writes_get; eauto|].
      split; [exact Hc1|]. split; [exact Hc2|].
      split; [now rewrite Hv1, Hv3|]. split; [now rewrite Hv2, Hv4|].
      eapply frame_writes; [| |exact Hw6]; [cbn; auto|].
      eapply frame_writes; [| |exact Hw5]; [cbn; auto|]. exact Hf4. }
  assert (0 < mag zu / 2 ^ shift) as HU1 by nia.
  assert (0 < mag zv / 2 ^ shift) as HV1 by nia.
  rewrite <- (nonneg_mag z1 Hc1) in Hv1 by lia.
  rewrite <- (nonneg_mag z2 Hc2) in Hv2 by lia.
  assert (size z2 <> 0%nat) as Hs2.
  { intros E. apply (mag_zero_size z2 Hc2) in E. lia. }
  assert (get m6 w = Some zw) as H6w.
  { rewrite (frame_get _ _ _ w Hf6); [exact H0w|].
    cbn. intros [E|[E|[]]]; [apply Hwo1 | apply Hwo2]; now symmetry. }
  destruct (zz_resize_run m6 w zw (size z2) H6w Hlw)
    as (m7 & zw7 & Hr7 & Hw7 & Hz7).
  exists m7, z1, z2, zw7, shift.
  split.
  { unfold zz_gcd. mstep get_size_run. mstep get_size_run.
    destruct (Nat.ltb_spec (size zu) (size zv)) as [|_]; [lia|]. cbv zeta.
    mstep get_size_run.
    destruct (Nat.eqb_spec (size zv) 0) as [|_]; [contradiction|].
    rewrite (bind_run _ _ _ _ _ (zz_lsbpos_run m u zu Hu Hcu Hsu)).
    rewrite (bind_run _ _ _ _ _ (zz_lsbpos_run m v zv Hv Hcv Hsv)).
    fold a b shift. rewrite with_local2_run. fold o1 o2 m0.
    match goal with
    | |- match ?K with _ => _ end = _ =>
        assert (K = zz_gcd_reduced o1 o2 w shift m7) as ->; [|reflexivity]
    end.
    unfold guard at 1. unfold c_or at 1 2 3.
    mstep Hi1. mstep Hi2. mstep Hr3. mstep Hr4.
    unfold guard at 1. mstep Hr6. mstep get_size_run.
    destruct (Nat.eqb_spec (size z2) 0) as [|_]; [contradiction|].
    cbn [negb c_assert]. mret. unfold guard. mstep Hr7. reflexivity. }
  split. { rewrite (writes_other _ _ _ _ o1 Hw7); auto. }
  split. { rewrite (writes_other _ _ _ _ o2 Hw7); auto. }
  split; [eapply writes_get; eauto|].
  split; [exact Hc1|]. split; [exact Hc2|].
  split; [rewrite Hv1; exact EU|]. split; [rewrite Hv2; exact EV|].
  split; [rewrite Hv1, Hv2; exact Hodd|].
  split; [exact Hz7|]. split; [exact Hshift|].
  eapply frame_writes; [| |exact Hw7]; [cbn; auto|].
  eapply frame_incl; [|exact Hf6]. cbn. tauto.
Qed.

Lemma pop2_writes w m mf z0 z' :
  frame [length (objs m); S (length (objs m)); w] (push (push m)) mf ->
  get m w = Some z0 -> get mf w = Some z' ->
  writes w m (pop (length (objs m)) mf) z'.
Proof.
  intros Hf Hw Hw'.
  assert (length (objs (push m)) = S (length (objs m))) as El
    by (unfold push; cbn [objs]; rewrite length_app; cbn; lia).
  assert (pop (length (objs m)) mf
          = pop (length (objs m)) (pop (S (length (objs m))) mf)) as ->.
  { unfold pop. cbn [objs junk]. rewrite firstn_firstn.
    now replace (Nat.min (length (objs m)) (S (length (objs m))))
      with (length (objs m)) by lia. }
  pose proof (get_valid _ _ _ Hw) as Hlt.
  apply (pop_writes w m _ z0 z'); [|exact Hw|].
  - rewrite <- El. apply pop_frame. rewrite El.
    eapply frame_incl; [|exact Hf]. cbn. tauto.
  - rewrite get_pop by lia. exact Hw'.
Qed.

Lemma Bpow_lt_inv a b : Bpow a < Bpow b -> (a < b)%nat.
Proof.
  intros H. destruct (Nat.lt_ge_cases a b) as [|Hge]; [assumption|].
  pose proof (BASE_pow_le b a Hge). lia.
Qed.

Lemma gcd_of_vals zu zv :
  wf zu -> wf zv -> Z.gcd (zz_val zu) (zz_val zv) = Z.gcd (mag zu) (mag zv).
Proof.
  intros Hu Hv.
  rewrite <- (abs_val zu Hu), <- (abs_val zv Hv).
  now rewrite Z.gcd_abs_l, Z.gcd_abs_r.
Qed.

(** The digit count of the reduced operand and the shift are within the
    digit count of the operand. *)
Lemma gcd_shift_room z z2 shift :
  canonical z -> canonical z2 -> size z2 <> 0%nat -> 0 <= shift ->
  mag z = mag z2 * 2 ^ shift ->
  Z.of_nat (size z2) + shift / 64 <= Z.of_nat (size z).
Proof.
  intros Hc Hc2 Hs2 Hs E.
  pose proof (canonical_mag_bound z Hc) as Hb.
  pose proof (canonical_digits_bound z2 Hc2 Hs2) as Hb2.
  set (q := Z.to_nat (shift / 64)).
  assert (0 <= shift / 64) as Hq by (apply Z.div_pos; lia).
  assert (Bpow q <= 2 ^ shift) as Hpq.
  { rewrite BASE_pow_2. apply Z.pow_le_mono_r; [lia|].
    unfold q. rewrite Z2Nat.id by lia.
    pose proof (Z.mul_div_le shift 64). lia. }
  pose proof (BASE_pow_pos q) as Hqp.
  pose proof (BASE_pow_pos (size z2 - 1)) as Hzp.
  assert (Bpow (size z2 - 1 + q) < Bpow (size z)) as Hlt.
  { rewrite BASE_pow_add. nia. }
  apply Bpow_lt_inv in Hlt. unfold q in Hlt. lia.
Qed.

Lemma zz_gcd_main m u v w zu zv zw :
  get m u = Some zu -> get m v = Some zv -> get m w = Some zw ->
  canonical zu -> canonical zv -> length (digits zw) = alloc zw ->
  (size zv <= size zu)%nat -> size zv <> 0%nat ->
  Z.of_nat (size zu) < ZZ_DIGITS_MAX ->
  exists m' z',
    zz_gcd u v w m = Some (ZZ_OK, m')
    /\ writes w m m' z' /\ canonical z'
    /\ zz_val z' = Z.gcd (zz_val zu) (zz_val zv).
Proof.
  intros Hu Hv Hw Hcu Hcv Hlw Hle Hsv Hmax.
  pose proof (canonical_mag_pos zu Hcu ltac:(lia)) as HU.
  destruct (zz_gcd_prefix m u v w zu zv zw)
    as (m7 & z1 & z2 & zw7 & shift & Hrun & H1 & H2 & H7w & Hc1 & Hc2
        & EU & EV & Hodd & Hz7 & Hshift & Hf7); auto; try lia.
  set (o1 := length (objs m)) in *. set (o2 := S o1) in *.
  assert (0 < 2 ^ shift) as H2s by (apply Z.pow_pos_nonneg; lia).
  pose proof (canonical_mag_pos zv Hcv Hsv) as HV.
  pose proof (proj1 (canonical_mag_bound z1 Hc1)) as Hn1.
  pose proof (proj1 (canonical_mag_bound z2 Hc2)) as Hn2.
  assert (0 < mag z2) as Hp2 by nia.
  assert (0 < mag z1) as Hp1 by nia.
  assert (size z1 <> 0%nat) as Hs1.
  { intros E. apply (mag_zero_size z1 Hc1) in E. lia. }
  assert (size z2 <> 0%nat) as Hs2.
  { intros E. apply (mag_zero_size z2 Hc2) in E. lia. }
  pose proof (gcd_shift_room zv z2 shift Hcv Hc2 Hs2 (proj1 Hshift) EV)
    as Hroom.
  pose proof Hz7 as (Hs7 & _ & Hl7 & Ha7 & _).
  assert (u <> o1 /\ w <> o1 /\ w <> o2 /\ o1 <> o2)
    as (Huo1 & Hwo1 & Hwo2 & Ho12).
  { apply get_valid in Hu, Hw. unfold o2, o1. lia. }
  assert (ZZ_DIGITS_MAX * 64 < 2 ^ 64) as HDM by (vm_compute; reflexivity).
  assert (0 <= shift < 2 ^ 64) as Hs64 by lia.
  destruct (zz_gcd_reduced_run m7 o1 o2 w z1 z2 zw7 shift)
    as (m' & z' & Hr & Hgw & Hf & Hc' & Hv'); auto; try lia.
  exists (pop o1 m'), z'. rewrite Hrun, Hr.
  split; [reflexivity|].
  split. { apply (pop2_writes w m m' zw z'); auto.
           eapply frame_trans; eauto. }
  split; [exact Hc'|].
  rewrite Hv', (gcd_of_vals zu zv) by (apply Hcu || apply Hcv).
  rewrite EU, EV. symmetry. apply Z.gcd_mul_mono_r_nonneg. lia.
Qed.

Lemma zz_gcd_swap m u v w zu zv :
  get m u = Some zu -> get m v = Some zv -> (size zu < size zv)%nat ->
  zz_gcd u v w m = zz_gcd v u w m.
Proof.
  intros Hu Hv Hlt. unfold zz_gcd.
  rewrite (bind_run _ _ _ _ _ (get_size_run m u zu Hu)).
  rewrite (bind_run _ _ _ _ _ (get_size_run m v zv Hv)).
  rewrite (bind_run _ _ _ _ _ (get_size_run m v zv Hv)).
  rewrite (bind_run _ _ _ _ _ (get_size_run m u zu Hu)).
  destruct (Nat.ltb_spec (size zu) (size zv)) as [_|]; [|lia].
  destruct (Nat.ltb_spec (size zv) (size zu)) as [|_]; [lia|].
  reflexivity.
Qed.

Lemma zz_gcd_ordered m u v w zu zv zw :
  get m u = Some zu -> get m v = Some zv -> get m w = Some zw ->
  canonical zu -> canonical zv -> length (digits zw) = alloc zw ->
  (size zv <= size zu)%nat ->
  Z.of_nat (size zu) < ZZ_DIGITS_MAX ->
  exists m' z',
    zz_gcd u v w m = Some (ZZ_OK, m')
    /\ writes w m m' z' /\ canonical z'
    /\ zz_val z' = Z.gcd (zz_val zu) (zz_val zv).
Proof.
  intros Hu Hv Hw Hcu Hcv Hlw Hle Hmax.
  destruct (Nat.eq_dec (size zv) 0) as [E0|E0].
  - destruct (zz_abs_any m u w zu zw Hu Hw Hcu Hlw)
      as (m' & z' & Hr & Hwr & Hc' & Hv').
    exists m', z'. split; [|split; [exact Hwr|split; [exact Hc'|]]].
    + unfold zz_gcd. mstep get_size_run. mstep get_size_run.
      destruct (Nat.ltb_spec (size zu) (size zv)) as [|_]; [lia|]. cbv zeta.
      mstep get_size_run. rewrite E0. cbn [Nat.eqb]. exact Hr.
    + assert (zz_val zv = 0) as ->.
      { apply (mag_zero_size zv Hcv) in E0. unfold zz_val. rewrite E0.
        now destruct (negative zv). }
      now rewrite Z.gcd_0_r.
  - now apply (zz_gcd_main m u v w zu zv zw).
Qed.

(** [zz_gcd] for operands in either order. *)
Lemma zz_gcd_any m u v w zu zv zw :
  get m u = Some zu -> get m v = Some zv -> get m w = Some zw ->
  canonical zu -> canonical zv -> length (digits zw) = alloc zw ->
  Z.of_nat (size zu) < ZZ_DIGITS_MAX -> Z.of_nat (size zv) < ZZ_DIGITS_MAX ->
  exists m' z',
    zz_gcd u v w m = Some (ZZ_OK, m')
    /\ writes w m m' z' /\ canonical z'
    /\ zz_val z' = Z.gcd (zz_val zu) (zz_val zv).
Proof.
  intros Hu Hv Hw Hcu Hcv Hlw Hmu Hmv.
  destruct (Nat.lt_ge_cases (size zu) (size zv)) as [Hlt|Hge].
  - rewrite (zz_gcd_swap m u v w zu zv Hu Hv Hlt), Z.gcd_comm.
    apply (zz_gcd_ordered m v u w zv zu zw); auto; try lia.
  - apply (zz_gcd_ordered m u v w zu zv zw); auto.
Qed.

(** [zz_gcd] whenever the operand of fewer digits, or else the second one,
    is the smaller in magnitude. *)
Lemma zz_gcd_spec m u v w zu zv zw :
  get m u = Some zu -> get m v = Some zv -> get m w = Some zw ->
  canonical zu -> canonical zv -> length (digits zw) = alloc zw ->
  Z.of_nat (size zu) < ZZ_DIGITS_MAX -> Z.of_nat (size zv) < ZZ_DIGITS_MAX ->
  (size zu < size zv)%nat \/ Z.abs (zz_val zv) <= Z.abs (zz_val zu) ->
  exists m' z',
    zz_gcd u v w m = Some (ZZ_OK, m')
    /\ writes w m m' z' /\ canonical z'
    /\ zz_val z' = Z.gcd (zz_val zu) (zz_val zv).
Proof.
  intros Hu Hv Hw Hcu Hcv Hlw Hmu Hmv _.
  now apply (zz_gcd_any m u v w zu zv zw).
Qed.

(** ** Least common multiple *)

Lemma lcm_by_quotient a b :
  Z.gcd a b <> 0 -> Z.abs (a / Z.gcd a b * b) = Z.lcm a b.
Proof.
  intros Hg. unfold Z.lcm. f_equal.
  destruct (Z.gcd_divide_l a b) as (x & Hx).
  destruct (Z.gcd_divide_r a b) as (y & Hy).
  set (G := Z.gcd a b) in *. clearbody G.
  subst a b. rewrite !Z.div_mul by exact Hg. lia.
Qed.

Lemma abs_size_le z K :
  canonical z -> Z.abs (zz_val z) < Bpow K -> (size z <= K)%nat.
Proof.
  intros Hc H. apply canonical_size_le; [exact Hc|].
  now rewrite <- abs_val by apply Hc.
Qed.

Lemma zz_iszero_run m u z :
  get m u = Some z -> zz_iszero u m = Some ((size z =? 0)%nat, m).
Proof. intros H. unfold zz_iszero. mstep get_size_run. reflexivity. Qed.

Lemma with_local_run_ex {A : Type} (k : ptr -> M A) m (a : A) w
    (Q : zz_t -> Prop) :
  (exists m1 z',
     k (length (objs m)) (push m) = Some (a, m1)
     /\ writes w m (pop (length (objs m)) m1) z' /\ Q z') ->
  exists m' z', with_local k m = Some (a, m') /\ writes w m m' z' /\ Q z'.
Proof.
  intros (m1 & z' & Hr & Hw & HQ).
  exists (pop (length (objs m)) m1), z'.
  split; [now apply with_local_run | auto].
Qed.

Lemma zz_lcm_spec m u v w zu zv zw :
  get m u = Some zu -> get m v = Some zv -> get m w = Some zw ->
  canonical zu -> canonical zv -> length (digits zw) = alloc zw ->
  Z.of_nat (size zu) + Z.of_nat (size zv) <= ZZ_DIGITS_MAX ->
  Z.of_nat (size zu) < ZZ_DIGITS_MAX -> Z.of_nat (size zv) < ZZ_DIGITS_MAX ->
  (size zu < size zv)%nat \/ Z.abs (zz_val zv) <= Z.abs (zz_val zu) ->
  exists m' z',
    zz_lcm u v w m = Some (ZZ_OK, m')
    /\ writes w m m' z' /\ canonical z'
    /\ zz_val z' = Z.lcm (zz_val zu) (zz_val zv).
Proof.
  intros Hu Hv Hw Hcu Hcv Hlw Hsum Hmu Hmv Hord.
  set (g := length (objs m)).
  set (m0 := push m).
  assert (u <> g /\ v <> g /\ w <> g) as (Hug & Hvg & Hwg).
  { apply get_valid in Hu, Hv, Hw. unfold g. lia. }
  assert (get m0 g = Some zz0) as H0g by apply get_push_new.
  assert (get m0 u = Some zu) as H0u by now apply get_push_old.
  assert (get m0 v = Some zv) as H0v by now apply get_push_old.
  assert (get m0 w = Some zw) as H0w by now apply get_push_old.
  assert (zz_init g m0 = Some (ZZ_OK, m0)) as Hi.
  { rewrite (zz_init_run m0 g zz0 H0g). now rewrite upd_same. }
  destruct (zz_gcd_spec m0 u v g zu zv zz0 H0u H0v H0g Hcu Hcv eq_refl
              Hmu Hmv Hord) as (m1 & zg & Hr1 & Hw1 & Hcg & Hvg').
  assert (get m1 g = Some zg) as H1g by (eapply writes_get; eauto).
  assert (get m1 u = Some zu) as H1u
    by (rewrite (writes_other _ _ _ _ u Hw1); auto).
  assert (get m1 v = Some zv) as H1v
    by (rewrite (writes_other _ _ _ _ v Hw1); auto).
  assert (get m1 w = Some zw) as H1w
    by (rewrite (writes_other _ _ _ _ w Hw1); auto).
  pose proof (Z.gcd_nonneg (zz_val zu) (zz_val zv)) as Hgn.
  set (G := Z.gcd (zz_val zu) (zz_val zv)) in *.
  unfold zz_lcm. apply with_local_run_ex. fold g m0. cbv zeta.
  unfold c_or. mstep Hi. mstep Hr1. mstep zz_iszero_run.
  destruct (Nat.eqb_spec (size zg) 0) as [E0|E0].
  - (* both operands are zero *)
    assert (G = 0) as EG.
    { apply (mag_zero_size zg Hcg) in E0. rewrite <- Hvg'.
      unfold zz_val. rewrite E0. now destruct (negative zg). }
    mstep zz_clear_run.
    set (m2 := upd m1 g zz0).
    assert (get m2 w = Some zw) as H2w by (unfold m2; mget).
    destruct (zz_set_i64_run m2 w zw 0 H2w Hlw)
      as (m3 & z' & Hr3 & Hw3 & Hc3 & Hv3); [unfold BASE; lia|].
    exists m3, z'. split; [exact Hr3|].
    split.
    { apply (pop_writes w m m3 zw z'); auto.
      - eapply frame_writes; [| |exact Hw3]; [cbn; auto|].
        unfold m2. apply frame_upd; [cbn; auto|].
        eapply frame_writes; [| |exact Hw1]; [cbn; auto|]. apply frame_refl.
      - eapply writes_get; eauto. }
    split; [exact Hc3|].
    rewrite Hv3. unfold G in EG.
    assert (zz_val zu = 0) as -> by now apply Z.gcd_eq_0_l in EG.
    reflexivity.
  - (* the quotient of [u] by the divisor, times [v] *)
    assert (G <> 0) as HG0.
    { intros E. apply E0. apply (mag_zero_size zg Hcg).
      rewrite <- (abs_val zg) by apply Hcg. rewrite Hvg', E. reflexivity. }
    destruct (Z.gcd_divide_l (zz_val zu) (zz_val zv)) as (x & Hx).
    destruct (Z.gcd_divide_r (zz_val zu) (zz_val zv)) as (y & Hy).
    fold G in Hx, Hy.
    pose proof (canonical_mag_bound zu Hcu) as Hbu.
    pose proof (canonical_mag_bound zv Hcv) as Hbv.
    rewrite <- (abs_val zu), <- (abs_val zv) in * by (apply Hcu || apply Hcv).
    assert (size zg <= Nat.max (size zu) (size zv))%nat as Hsg.
    { apply abs_size_le; [exact Hcg|]. rewrite Hvg'.
      pose proof (BASE_pow_le (size zu) (Nat.max (size zu) (size zv))
                    (Nat.le_max_l _ _)).
      pose proof (BASE_pow_le (size zv) (Nat.max (size zu) (size zv))
                    (Nat.le_max_r _ _)).
      destruct (Z.eq_dec x 0) as [->|Hx0].
      - assert (Z.abs G <= Z.abs (zz_val zv)); [|lia].
        rewrite Hy. rewrite Z.abs_mul.
        assert (y <> 0) as Hy0.
        { intros ->. apply HG0.
          assert (zz_val zu = 0) as Eu by lia.
          assert (zz_val zv = 0) as Ev by lia.
          unfold G. rewrite Eu, Ev. reflexivity. }
        nia.
      - assert (Z.abs G <= Z.abs (zz_val zu)); [|lia].
        rewrite Hx. rewrite Z.abs_mul. nia. }
    destruct (zz_div_q_spec m1 u g g zu zg zg H1u H1g H1g Hcu Hcg
                (proj1 (proj1 Hcg)))
      as (m2 & zq & Hr2 & Hw2 & Hcq & Hvq); [lia | lia | lia |].
    rewrite Hvg' in Hvq.
    assert (get m2 g = Some zq) as H2g by (eapply writes_get; eauto).
    assert (get m2 v = Some zv) as H2v
      by (rewrite (writes_other _ _ _ _ v Hw2); auto).
    assert (get m2 w = Some zw) as H2w
      by (rewrite (writes_other _ _ _ _ w Hw2); auto).
    assert (size zq <= size zu)%nat as Hsq.
    { apply abs_size_le; [exact Hcq|]. rewrite Hvq.
      rewrite Hx at 1. rewrite Z.div_mul by exact HG0.
      rewrite Hx in Hbu. rewrite Z.abs_mul in Hbu. nia. }
    destruct (zz_mul_spec m2 g v w zq zv zw H2g H2v H2w Hcq Hcv Hlw)
      as (m3 & zp & Hr3 & Hw3 & Hcp & Hvp); [lia | lia | lia |].
    mstep Hr2. mstep Hr3. mstep zz_clear_run.
    set (m4 := upd m3 g zz0).
    assert (get m3 w = Some zp) as H3w by (eapply writes_get; eauto).
    assert (get m4 w = Some zp) as H4w by (unfold m4; mget).
    destruct (zz_abs_any m4 w w zp zp H4w H4w Hcp (proj1 (proj1 Hcp)))
      as (m5 & z' & Hr5 & Hw5 & Hc5 & Hv5).
    mstep Hr5. mret.
    exists m5, z'. split; [reflexivity|].
    split.
    { apply (pop_writes w m m5 zw z'); auto.
      - eapply frame_writes; [| |exact Hw5]; [cbn; auto|].
        unfold m4. apply frame_upd; [cbn; auto|].
        eapply frame_writes; [| |exact Hw3]; [cbn; auto|].
        eapply frame_writes; [| |exact Hw2]; [cbn; auto|].
        eapply frame_writes; [| |exact Hw1]; [cbn; auto|]. apply frame_refl.
      - eapply writes_get; eauto. }
    split; [exact Hc5|].
    rewrite Hv5, Hvp, Hvq. apply lcm_by_quotient. exact HG0.
Qed.

(** X17. [zz_quo_2exp] with the result written over the operand: for [u] in
    canonical form and a shift count [k] of 64 bits, the call returns
    [ZZ_OK], changes only [u], and leaves it in canonical form with the value
    [floor (u / 2 ^ k)]. *)
Theorem zz_quo_2exp_in_place (m : mem) (u : ptr) (zu : zz_t) (k : Z) :
  get m u = Some zu -> canonical zu ->
  Z.of_nat (size zu) <= ZZ_DIGITS_MAX -> 0 <= k < 2 ^ 64 ->
  exists m' z',
    zz_quo_2exp u k u m = Some (ZZ_OK, m')
    /\ writes u m m' z' /\ canonical z'
    /\ zz_val z' = zz_val zu / 2 ^ k.
Proof.
  intros Hu Hc Hs Hk.
  apply (zz_quo_2exp_any m u u zu zu k); auto. apply Hc.
Qed.

Lemma zz_quo_2exp_in_place_witness :
  exists m' z',
    zz_quo_2exp 0 67 0 mem_mul = Some (ZZ_OK, m')
    /\ writes 0 mem_mul m' z' /\ canonical z'
    /\ zz_val z' = zz_val (mk_zz true 2 2 [3; 1]) / 2 ^ 67.
Proof.
  apply (zz_quo_2exp_in_place mem_mul 0%nat (mk_zz true 2 2 [3; 1]) 67).
  - reflexivity.
  - apply canonicalb_spec. reflexivity.
  - vm_compute. discriminate.
  - split; [discriminate | reflexivity].
Defined.

(** The same shift, run: floor (-(2^64 + 3) / 2^67) = -1. *)
Example zz_quo_2exp_in_place_example :
  zz_quo_2exp 0 67 0 mem_mul
    = Some (ZZ_OK, mk_mem [mk_zz true 2 1 [1; 1]] [6; 6; 6; 6]).
Proof. vm_compute. reflexivity. Qed.

(** X18. [zz_lsbpos] of an object in canonical form reads it only and
    returns the index of the lowest set bit of its magnitude: that bit is 1
    and the bits below it are 0; for zero it returns 0. *)
Theorem zz_lsbpos_lowest_bit (m : mem) (u : ptr) (z : zz_t) :
  get m u = Some z -> canonical z ->
  exists a,
    zz_lsbpos u m = Some (a, m)
    /\ (zz_val z = 0 -> a = 0)
    /\ (zz_val z <> 0 ->
        0 <= a /\ Z.testbit (Z.abs (zz_val z)) a = true
        /\ forall i, 0 <= i < a -> Z.testbit (Z.abs (zz_val z)) i = false).
Proof.
  intros Hu Hc. rewrite abs_val by apply Hc.
  destruct (Nat.eq_dec (size z) 0) as [E0|E0].
  - exists 0. split; [now apply (zz_lsbpos_zero m u z)|].
    split; [reflexivity|]. intros Hn. exfalso. apply Hn.
    apply (mag_zero_size z Hc) in E0. unfold zz_val. rewrite E0.
    now destruct (negative z).
  - exists (mpn_scan1 (firstn (size z) (digits z))).
    split; [now apply zz_lsbpos_run|].
    pose proof (canonical_mag_pos z Hc E0) as Hp.
    split.
    { intros E. unfold zz_val in E. destruct (negative z); lia. }
    intros _.
    destruct (mpn_scan1_spec (firstn (size z) (digits z)))
      as (Hb & o & Ho & Hpo & E); [apply Hc | fold (mag z); lia |].
    fold (mag z) in E. rewrite E.
    set (a := mpn_scan1 (firstn (size z) (digits z))) in *.
    split; [lia|]. rewrite (Z.mul_comm (2 ^ a) o). split.
    + rewrite Z.mul_pow2_bits by lia. rewrite Z.sub_diag, Z.bit0_odd.
      exact Ho.
    + intros i Hi. apply Z.mul_pow2_bits_low. lia.
Qed.

Lemma zz_lsbpos_lowest_bit_witness :
  exists a,
    zz_lsbpos 0 mem_cmp = Some (a, mem_cmp)
    /\ (zz_val (mk_zz true 2 2 [0; 1]) = 0 -> a = 0)
    /\ (zz_val (mk_zz true 2 2 [0; 1]) <> 0 ->
        0 <= a /\ Z.testbit (Z.abs (zz_val (mk_zz true 2 2 [0; 1]))) a = true
        /\ forall i, 0 <= i < a ->
             Z.testbit (Z.abs (zz_val (mk_zz true 2 2 [0; 1]))) i = false).
Proof.
  apply (zz_lsbpos_lowest_bit mem_cmp 0%nat (mk_zz true 2 2 [0; 1])).
  - reflexivity.
  - apply canonicalb_spec. reflexivity.
Defined.

(** The lowest set bit of -(2^64) is bit 64. *)
Example zz_lsbpos_example : zz_lsbpos 0 mem_cmp = Some (64, mem_cmp).
Proof. vm_compute. reflexivity. Qed.

Definition mem_gcd : mem :=
  mk_mem [mk_zz true 1 1 [12]; mk_zz false 1 1 [18]; mk_zz false 0 0 []]
         [9; 9; 9; 9; 9; 9; 9; 9].

(** X19. The greatest common divisor, [zz_gcdext (u, v, g, NULL, NULL)]:
    for operands in canonical form of fewer than [ZZ_DIGITS_MAX] digits,
    where [u] has fewer digits than [v] or [|v| <= |u|], the call returns
    [ZZ_OK], changes only [g] (which may be one of the operands), and leaves
    it in canonical form with the value [gcd (u, v)], which is not
    negative. *)
Theorem zz_gcd_value (fuel : nat) (m : mem) (u v g : ptr) (zu zv zg : zz_t) :
  get m u = Some zu -> get m v = Some zv -> get m g = Some zg ->
  canonical zu -> canonical zv -> length (digits zg) = alloc zg ->
  Z.of_nat (size zu) < ZZ_DIGITS_MAX -> Z.of_nat (size zv) < ZZ_DIGITS_MAX ->
  (size zu < size zv)%nat \/ Z.abs (zz_val zv) <= Z.abs (zz_val zu) ->
  exists m' z',
    zz_gcdext fuel u v (Some g) None None m = Some (ZZ_OK, m')
    /\ writes g m m' z' /\ canonical z'
    /\ zz_val z' = Z.gcd (zz_val zu) (zz_val zv) /\ 0 <= zz_val z'.
Proof.
  intros Hu Hv Hg Hcu Hcv Hlg Hmu Hmv Hord.
  destruct (zz_gcd_spec m u v g zu zv zg Hu Hv Hg Hcu Hcv Hlg Hmu Hmv Hord)
    as (m' & z' & Hr & Hw & Hc & Hval).
  exists m', z'. cbn [zz_gcdext].
  repeat (split; [assumption|]).
  rewrite Hval. apply Z.gcd_nonneg.
Qed.

Lemma zz_gcd_value_witness :
  exists m' z',
    zz_gcdext 0 1 0 (Some 2%nat) None None mem_gcd = Some (ZZ_OK, m')
    /\ writes 2 mem_gcd m' z' /\ canonical z'
    /\ zz_val z'
       = Z.gcd (zz_val (mk_zz false 1 1 [18])) (zz_val (mk_zz true 1 1 [12]))
    /\ 0 <= zz_val z'.
Proof.
  apply (zz_gcd_value 0 mem_gcd 1%nat 0%nat 2%nat
           (mk_zz false 1 1 [18]) (mk_zz true 1 1 [12]) (mk_zz false 0 0 [])).
  - reflexivity.
  - reflexivity.
  - reflexivity.
  - apply canonicalb_spec. reflexivity.
  - apply canonicalb_spec. reflexivity.
  - reflexivity.
  - reflexivity.
  - reflexivity.
  - right. vm_compute. discriminate.
Defined.

(** The same call, run: gcd (18, -12) = 6. *)
Example zz_gcd_example :
  zz_gcdext 0 1 0 (Some 2%nat) None None mem_gcd
    = Some (ZZ_OK,
            mk_mem [mk_zz true 1 1 [12]; mk_zz false 1 1 [18];
                    mk_zz false 2 1 [6; 0]] [9; 9; 9; 9]).
Proof. vm_compute. reflexivity. Qed.

Definition mem_gcd2 : mem :=
  mk_mem [mk_zz false 2 2 [0; 2]; mk_zz false 2 2 [4; 9223372036854775808];
          mk_zz false 0 0 []]
         [9; 9; 9; 9; 9; 9; 9; 9].

(** X20. The greatest common divisor for operands in either order of
    magnitude: for any two operands in canonical form of fewer than
    [ZZ_DIGITS_MAX] digits, [zz_gcdext (u, v, g, NULL, NULL)] returns
    [ZZ_OK], changes only [g] (which may be one of the operands), and leaves
    it in canonical form with the value [gcd (u, v)], which is not negative.
    This includes the operands of the same digit count whose first one is
    left with fewer words than the second once the common power of two is
    taken out. *)
Theorem zz_gcd_any_order (fuel : nat) (m : mem) (u v g : ptr)
    (zu zv zg : zz_t) :
  get m u = Some zu -> get m v = Some zv -> get m g = Some zg ->
  canonical zu -> canonical zv -> length (digits zg) = alloc zg ->
  Z.of_nat (size zu) < ZZ_DIGITS_MAX -> Z.of_nat (size zv) < ZZ_DIGITS_MAX ->
  exists m' z',
    zz_gcdext fuel u v (Some g) None None m = Some (ZZ_OK, m')
    /\ writes g m m' z' /\ canonical z'
    /\ zz_val z' = Z.gcd (zz_val zu) (zz_val zv) /\ 0 <= zz_val z'.
Proof.
  intros Hu Hv Hg Hcu Hcv Hlg Hmu Hmv.
  destruct (zz_gcd_any m u v g zu zv zg Hu Hv Hg Hcu Hcv Hlg Hmu Hmv)
    as (m' & z' & Hr & Hw & Hc & Hval).
  exists m', z'. cbn [zz_gcdext].
  repeat (split; [assumption|]).
  rewrite Hval. apply Z.gcd_nonneg.
Qed.

Lemma zz_gcd_any_order_witness :
  exists m' z',
    zz_gcdext 0 0 1 (Some 2%nat) None None mem_gcd2 = Some (ZZ_OK, m')
    /\ writes 2 mem_gcd2 m' z' /\ canonical z'
    /\ zz_val z'
       = Z.gcd (zz_val (mk_zz false 2 2 [0; 2]))
               (zz_val (mk_zz false 2 2 [4; 9223372036854775808]))
    /\ 0 <= zz_val z'.
Proof.
  apply (zz_gcd_any_order 0 mem_gcd2 0%nat 1%nat 2%nat
           (mk_zz false 2 2 [0; 2])
           (mk_zz false 2 2 [4; 9223372036854775808]) (mk_zz false 0 0 [])).
  - reflexivity.
  - reflexivity.
  - reflexivity.
  - apply canonicalb_spec. reflexivity.
  - apply canonicalb_spec. reflexivity.
  - reflexivity.
  - reflexivity.
  - reflexivity.
Defined.

(** The same call, run: gcd (2^65, 2^127 + 4) = 4.  The kernel is given
    2^63, of one word, and 2^125 + 1, of two. *)
Example zz_gcd_any_order_example :
  zz_gcdext 0 0 1 (Some 2%nat) None None mem_gcd2
    = Some (ZZ_OK,
            mk_mem [mk_zz false 2 2 [0; 2];
                    mk_zz false 2 2 [4; 9223372036854775808];
                    mk_zz false 2 1 [4; 0]] [9; 9]).
Proof. vm_compute. reflexivity. Qed.

(** X21. The least common multiple: for operands in canonical form whose
    digit counts add up to [ZZ_DIGITS_MAX] at most, each below it, where [u]
    has fewer digits than [v] or [|v| <= |u|], [zz_lcm] returns [ZZ_OK],
    changes only [w] (which may be one of the operands), and leaves it in
    canonical form with the value [lcm (u, v)], which is not negative. *)
Theorem zz_lcm_value (m : mem) (u v w : ptr) (zu zv zw : zz_t) :
  get m u = Some zu -> get m v = Some zv -> get m w = Some zw ->
  canonical zu -> canonical zv -> length (digits zw) = alloc zw ->
  Z.of_nat (size zu) + Z.of_nat (size zv) <= ZZ_DIGITS_MAX ->
  Z.of_nat (size zu) < ZZ_DIGITS_MAX -> Z.of_nat (size zv) < ZZ_DIGITS_MAX ->
  (size zu < size zv)%nat \/ Z.abs (zz_val zv) <= Z.abs (zz_val zu) ->
  exists m' z',
    zz_lcm u v w m = Some (ZZ_OK, m')
    /\ writes w m m' z' /\ canonical z'
    /\ zz_val z' = Z.lcm (zz_val zu) (zz_val zv) /\ 0 <= zz_val z'.
Proof.
  intros Hu Hv Hw Hcu Hcv Hlw Hsum Hmu Hmv Hord.
  destruct (zz_lcm_spec m u v w zu zv zw Hu Hv Hw Hcu Hcv Hlw Hsum Hmu Hmv
              Hord) as (m' & z' & Hr & Hwr & Hc & Hval).
  exists m', z'. repeat (split; [assumption|]).
  rewrite Hval. apply Z.lcm_nonneg.
Qed.

Lemma zz_lcm_value_witness :
  exists m' z',
    zz_lcm 1 0 0 mem_gcd = Some (ZZ_OK, m')
    /\ writes 0 mem_gcd m' z' /\ canonical z'
    /\ zz_val z'
       = Z.lcm (zz_val (mk_zz false 1 1 [18])) (zz_val (mk_zz true 1 1 [12]))
    /\ 0 <= zz_val z'.
Proof.
  apply (zz_lcm_value mem_gcd 1%nat 0%nat 0%nat
           (mk_zz false 1 1 [18]) (mk_zz true 1 1 [12]) (mk_zz true 1 1 [12])).
  - reflexivity.
  - reflexivity.
  - reflexivity.
  - apply canonicalb_spec. reflexivity.
  - apply canonicalb_spec. reflexivity.
  - reflexivity.
  - vm_compute. discriminate.
  - reflexivity.
  - reflexivity.
  - right. vm_compute. discriminate.
Defined.

(** The same call, run: lcm (18, -12) = 36, written over the second
    operand. *)
Example zz_lcm_example :
  zz_lcm 1 0 0 mem_gcd
    = Some (ZZ_OK,
            mk_mem [mk_zz false 2 1 [36; 0]; mk_zz false 1 1 [18];
                    mk_zz false 0 0 []] [9]).
Proof. vm_compute. reflexivity. Qed.

(** ** Bitwise complement *)

Lemma load_resized m m1 u w zu zw z1 n k :
  get m u = Some zu -> get m w = Some zw ->
  writes w m m1 z1 -> resized n zw z1 ->
  (k <= length (digits zu))%nat ->
  mpn_load u 0 k m1 = Some (firstn k (digits zu), m1).
Proof.
  intros Hu Hw Hwr Hz Hk.
  destruct (Nat.eq_dec u w) as [->|Hn].
  - assert (zw = zu) as -> by congruence.
    erewrite mpn_load0_run; [| eapply writes_get; eauto |].
    + now rewrite (resized_prefix n zu z1 k Hz Hk).
    + pose proof (resized_length n zu z1 Hz). lia.
  - erewrite mpn_load0_run; [reflexivity | | lia].
    rewrite (writes_other _ _ _ _ u Hwr); auto.
Qed.

Lemma trimmed_signed_canonical z (b : bool) :
  trimmed z -> (size z = 0%nat -> b = false) -> canonical (set_negative b z).
Proof.
  intros (Hw & Ht) Hb. split; [exact Hw|]. split; [exact Hb | exact Ht].
Qed.

Lemma zz_invert_spec m u v zu zv :
  get m u = Some zu -> get m v = Some zv ->
  canonical zu -> length (digits zv) = alloc zv ->
  (negative zu = false -> Z.of_nat (size zu) <> ZZ_DIGITS_MAX) ->
  exists m' z',
    zz_invert u v m = Some (ZZ_OK, m')
    /\ writes v m m' z' /\ canonical z'
    /\ zz_val z' = - zz_val zu - 1.
Proof.
  intros Hu Hv Hcu Hlv Hmax. unfold zz_invert.
  mstep get_size_run. mstep ISNEG_run.
  pose proof (wf_size_length zu (proj1 Hcu)) as Hlu.
  pose proof (canonical_mag_bound zu Hcu) as HbU.
  set (nu := size zu) in *.
  destruct (negative zu) eqn:Eneg.
  - (* a negative operand: the magnitude less one *)
    assert (nu <> 0%nat) as E0 by now apply canonical_neg_size.
    pose proof (canonical_digits_bound zu Hcu E0) as HbL. fold nu in HbL.
    destruct (zz_resize_run m v zv nu Hv Hlv) as (m1 & z1 & Hr1 & Hw1 & Hz1).
    pose proof Hz1 as (Hs1 & Hn1 & Hl1 & Hcap1 & Hpre1).
    mstep Hr1.
    mstep (load_resized m m1 u v zu zv z1 nu nu Hu Hv Hw1 Hz1 Hlu).
    unfold mpn_sub_1. cbv beta iota. rewrite length_firstn.
    replace (Nat.min nu (length (digits zu))) with nu by lia.
    change (mpn_val (firstn nu (digits zu))) with (mag zu).
    remember (mag zu - 1) as X eqn:EX.
    mstep mpn_store0_run. 2: { rewrite limbs_length. lia. }
    rewrite limbs_length.
    match goal with |- context [upd m1 v ?t] => remember t as zf eqn:Ezf end.
    assert (size zf = nu) as Hsf by (rewrite Ezf; exact Hs1).
    assert (length (digits zf) = alloc zf) as Hlf.
    { rewrite Ezf. cbn [digits alloc set_digits].
      rewrite length_app, limbs_length, length_skipn. lia. }
    assert (alloc zf = alloc z1) as Haf by (rewrite Ezf; reflexivity).
    mstep get_digit_run. mstep get_size_run. mstep put_size_run.
    replace (nu - 1)%nat with (size zf - 1)%nat by lia.
    destruct (trim_top_trimmed zf (nu - 1) X) as (Htq & Hmq & Hq0);
      try lia.
    { rewrite Ezf. cbn [digits set_digits].
      replace (S (nu - 1)) with nu by lia.
      rewrite firstn_app, limbs_length, Nat.sub_diag, firstn_0, app_nil_r.
      apply firstn_all2. rewrite limbs_length. lia. }
    { replace (S (nu - 1)) with nu by lia.
      pose proof (BASE_pow_pos (nu - 1)). lia. }
    { intros Hn0. pose proof (BASE_pow_le (nu - 1 - 1) (nu - 1)).
      pose proof (BASE_pow_pos (nu - 1 - 1)) as Hpp.
      assert (Bpow (nu - 1) = BASE * Bpow (nu - 1 - 1)) as Es.
      { rewrite <- BASE_pow_succ. f_equal. lia. }
      unfold BASE in Es. lia. }
    match goal with |- context [upd m1 v ?t] => remember t as zq eqn:Ezq end.
    mret.
    assert (ISNEG u (upd m1 v zq) = Some (true, upd m1 v zq)) as Hsign.
    { destruct (Nat.eq_dec u v) as [E|E].
      - subst v. assert (zv = zu) as -> by congruence.
        rewrite (ISNEG_run _ u zq) by mget. rewrite Ezq, Ezf.
        cbn [negative set_size set_digits]. rewrite Hn1.
        destruct (Nat.eqb_spec nu 0) as [|_]; [contradiction|].
        now rewrite Eneg.
      - rewrite (ISNEG_run _ u zu) by mget. now rewrite Eneg. }
    mstep Hsign. mstep SETNEG_run. mret.
    eexists _, _. split; [reflexivity|].
    split; [eapply writes_then_upd; eauto|].
    split.
    + apply trimmed_signed_canonical; [exact Htq | reflexivity].
    + unfold zz_val. cbn [negative set_negative].
      change (mag (set_negative false zq)) with (mag zq).
      rewrite Hmq, EX, Eneg. lia.
  - (* an operand that is not negative: the magnitude plus one *)
    destruct (Nat.eqb_spec nu 0) as [E0|E0].
    + destruct (zz_set_i64_run m v zv (-1) Hv Hlv)
        as (m' & z' & Hr & Hw' & Hc' & Hv'); [unfold BASE; lia|].
      mstep Hr. mret. exists m', z'. split; [reflexivity|].
      split; [exact Hw'|]. split; [exact Hc'|].
      rewrite Hv'. unfold zz_val. rewrite Eneg.
      rewrite (proj2 (mag_zero_size zu Hcu) E0). reflexivity.
    + specialize (Hmax eq_refl).
      destruct (Z.eqb_spec (Z.of_nat nu) ZZ_DIGITS_MAX) as [|_]; [lia|].
      pose proof (canonical_digits_bound zu Hcu E0) as HbL. fold nu in HbL.
      destruct (zz_resize_run m v zv (nu + 1) Hv Hlv)
        as (m1 & z1 & Hr1 & Hw1 & Hz1).
      pose proof Hz1 as (Hs1 & Hn1 & Hl1 & Hcap1 & Hpre1).
      mstep Hr1.
      mstep (load_resized m m1 u v zu zv z1 (nu + 1) nu Hu Hv Hw1 Hz1 Hlu).
      unfold mpn_add_1. cbv beta iota. rewrite length_firstn.
      replace (Nat.min nu (length (digits zu))) with nu by lia.
      change (mpn_val (firstn nu (digits zu))) with (mag zu).
      remember (mag zu + 1) as X eqn:EX.
      pose proof (BASE_pow_pos nu) as Hpn.
      pose proof (BASE_pow_pos (nu - 1)) as Hpp.
      mstep mpn_store0_run. 2: { rewrite limbs_length. lia. }
      rewrite limbs_length.
      mstep put_digit_run.
      2: { cbn [digits set_digits].
           rewrite length_app, limbs_length, length_skipn. lia. }
      cbn [digits set_digits].
      rewrite (list_set_app_exact _ _ nu _ (limbs_length nu _)).
      match goal with |- context [upd m1 v ?t] => remember t as zf eqn:Ezf end.
      assert (size zf = S nu) as Hsf
        by (rewrite Ezf; cbn [size set_digits]; lia).
      destruct (quo_2exp_final zf nu true (limbs nu X)
                  (list_set (skipn nu (digits z1)) 0 (X / Bpow nu)) X)
        as [Hwf Hmf]; rewrite ?Ezf; cbn [size alloc digits set_digits];
        auto; try lia.
      { rewrite length_app, limbs_length, list_set_length, length_skipn.
        lia. }
      { assert (skipn nu (digits z1) <> []) as Hne.
        { intros E. apply (f_equal (@length Z)) in E.
          rewrite length_skipn in E. simpl in E. lia. }
        split; [now apply list_set_0_nonnil|].
        split; [now apply hd_list_set_0|].
        apply Z.div_lt_upper_bound; [lia|]. unfold BASE. lia. }
      rewrite <- Ezf.
      assert (length (digits zf) = alloc zf) as Hlf by apply Hwf.
      pose proof (wf_size_length zf Hwf) as Hlf'.
      mstep get_digit_run. mstep get_size_run. mstep put_size_run.
      replace (nth nu (digits zf) 0) with (nth (size zf - 1) (digits zf) 0)
        by (f_equal; lia).
      destruct (trim_top_trimmed zf nu X) as (Htq & Hmq & Hq0); auto;
        try lia.
      { rewrite <- Hsf, <- Hmf. now apply wf_limbs. }
      { rewrite BASE_pow_succ. unfold BASE. lia. }
      match goal with |- context [upd m1 v ?t] => remember t as zq eqn:Ezq end.
      mret.
      assert (ISNEG u (upd m1 v zq) = Some (false, upd m1 v zq)) as Hsign.
      { destruct (Nat.eq_dec u v) as [E|E].
        - subst v. assert (zv = zu) as -> by congruence.
          rewrite (ISNEG_run _ u zq) by mget. rewrite Ezq, Ezf.
          cbn [negative set_size set_digits]. rewrite Hn1.
          destruct (Nat.eqb_spec (nu + 1) 0) as [|_]; [lia|].
          now rewrite Eneg.
        - rewrite (ISNEG_run _ u zu) by mget. now rewrite Eneg. }
      mstep Hsign. mstep SETNEG_run. mret.
      eexists _, _. split; [reflexivity|].
      split; [eapply writes_then_upd; eauto|].
      split.
      * apply trimmed_signed_canonical; [exact Htq|].
        intros E. apply Hq0 in E. lia.
      * unfold zz_val. cbn [negative set_negative].
        change (mag (set_negative true zq)) with (mag zq).
        rewrite Hmq, EX, Eneg. lia.
Qed.

Definition mem_inv : mem :=
  mk_mem [mk_zz false 1 1 [18446744073709551615]; mk_zz true 2 2 [0; 1]]
         [4; 4; 4].

(** X22. The bitwise complement: for [u] in canonical form, [zz_invert]
    returns [ZZ_OK], changes only [v] (which may be [u]), and leaves it in
    canonical form with the value [- u - 1], the complement of [u] in two's
    complement; only for [u >= 0] of [ZZ_DIGITS_MAX] digits does it return
    [ZZ_BUF], with nothing changed. *)
Theorem zz_invert_value (m : mem) (u v : ptr) (zu zv : zz_t) :
  get m u = Some zu -> get m v = Some zv ->
  canonical zu -> length (digits zv) = alloc zv ->
  if negb (negative zu) && (Z.of_nat (size zu) =? ZZ_DIGITS_MAX)
  then zz_invert u v m = Some (ZZ_BUF, m)
  else exists m' z',
      zz_invert u v m = Some (ZZ_OK, m')
      /\ writes v m m' z' /\ canonical z'
      /\ zz_val z' = - zz_val zu - 1
      /\ zz_val z' = Z.lnot (zz_val zu).
Proof.
  intros Hu Hv Hcu Hlv.
  destruct (negb (negative zu) && (Z.of_nat (size zu) =? ZZ_DIGITS_MAX))
    eqn:E.
  - apply andb_prop in E as (En & Es).
    apply negb_true_iff in En. apply Z.eqb_eq in Es.
    unfold zz_invert. mstep get_size_run. mstep ISNEG_run.
    rewrite En.
    destruct (Nat.eqb_spec (size zu) 0) as [E0|_].
    { rewrite E0 in Es. vm_compute in Es. discriminate. }
    apply Z.eqb_eq in Es. rewrite Es. mret. reflexivity.
  - destruct (zz_invert_spec m u v zu zv Hu Hv Hcu Hlv)
      as (m' & z' & Hr & Hw & Hc & Hval).
    { intros En Es. rewrite En in E. apply Z.eqb_eq in Es.
      rewrite Es in E. discriminate. }
    exists m', z'. repeat (split; [assumption|]).
    rewrite Hval. unfold Z.lnot, Z.pred. lia.
Qed.

Lemma zz_invert_value_witness :
  (exists m' z',
      zz_invert 0 0 mem_inv = Some (ZZ_OK, m')
      /\ writes 0 mem_inv m' z' /\ canonical z'
      /\ zz_val z' = - zz_val (mk_zz false 1 1 [18446744073709551615]) - 1
      /\ zz_val z' = Z.lnot (zz_val (mk_zz false 1 1 [18446744073709551615]))).
Proof.
  apply (zz_invert_value mem_inv 0%nat 0%nat
           (mk_zz false 1 1 [18446744073709551615])
           (mk_zz false 1 1 [18446744073709551615])).
  - reflexivity.
  - reflexivity.
  - apply canonicalb_spec. reflexivity.
  - reflexivity.
Defined.

(** The complement of 2^64 - 1 in place, and of -(2^64): -(2^64) and
    2^64 - 1. *)
Example zz_invert_example :
  zz_invert 0 0 mem_inv
    = Some (ZZ_OK,
            mk_mem [mk_zz true 2 2 [0; 1]; mk_zz true 2 2 [0; 1]] [4; 4])
  /\ zz_invert 1 1 mem_inv
    = Some (ZZ_OK,
            mk_mem [mk_zz false 1 1 [18446744073709551615];
                    mk_zz false 2 1 [18446744073709551615; 0]] [4; 4; 4]).
Proof. split; vm_compute; reflexivity. Qed.

(** ** Division by a machine integer *)

Lemma zz_div_i64_quo_run m u q zu zq (uv : Z) (same_signs : bool) :
  get m u = Some zu -> get m q = Some zq ->
  canonical zu -> length (digits zq) = alloc zq ->
  0 < uv < BASE ->
  exists m' z',
    zz_div_i64_quo u uv same_signs q m = Some (ZZ_OK, m')
    /\ writes q m m' z' /\ canonical z'
    /\ zz_val z'
       = (if same_signs then mag zu / uv
          else - (mag zu / uv + (if mag zu mod uv =? 0 then 0 else 1))).
Proof.
  intros Hu Hq Hcu Hlq Huv. unfold zz_div_i64_quo.
  mstep get_size_run.
  pose proof (wf_size_length zu (proj1 Hcu)) as Hlu.
  pose proof (canonical_mag_bound zu Hcu) as HbU.
  destruct (Nat.eqb_spec (size zu) 0) as [E0|E0]; cbn [negb].
  - destruct (zz_set_i32_run m q zq 0 Hq Hlq)
      as (m' & z' & Hr & Hw' & Hc' & Hv');
      [unfold INT32_MIN, BASE; lia|].
    mstep Hr. mret. exists m', z'. split; [reflexivity|].
    split; [exact Hw'|]. split; [exact Hc'|].
    rewrite Hv', (proj2 (mag_zero_size zu Hcu) E0).
    rewrite Z.div_0_l, Z.mod_0_l by lia. cbn. now destruct same_signs.
  - set (nu := size zu) in *.
    pose proof (canonical_digits_bound zu Hcu E0) as HbL. fold nu in HbL.
    destruct (zz_resize_run m q zq nu Hq Hlq) as (m1 & z1 & Hr1 & Hw1 & Hz1).
    pose proof Hz1 as (Hs1 & Hn1 & Hl1 & Hcap1 & Hpre1).
    unfold guard. mstep Hr1.
    assert (get_size u m1 = Some (nu, m1)) as Hsz.
    { destruct (Nat.eq_dec u q) as [E|E].
      - subst q. rewrite (get_size_run m1 u z1) by (eapply writes_get; eauto).
        now rewrite Hs1.
      - rewrite (get_size_run m1 u zu); [reflexivity|].
        rewrite (writes_other _ _ _ _ u Hw1); auto. }
    mstep Hsz.
    mstep (load_resized m m1 u q zu zq z1 nu nu Hu Hq Hw1 Hz1 Hlu).
    unfold mpn_divrem_1.
    destruct (Z.eqb_spec uv 0) as [|_]; [lia|].
    rewrite length_firstn.
    replace (Nat.min nu (length (digits zu))) with nu by lia.
    change (mpn_val (firstn nu (digits zu))) with (mag zu).
    set (Q := mag zu / uv). set (R := mag zu mod uv).
    pose proof (BASE_pow_pos nu) as Hpn.
    pose proof (BASE_pow_pos (nu - 1)) as Hpp.
    assert (0 <= Q <= mag zu) as HQ.
    { unfold Q. split; [apply Z.div_pos; lia|].
      apply Z.div_le_upper_bound; nia. }
    pose proof (Z.mod_pos_bound (mag zu) uv (proj1 Huv)) as HR. fold R in HR.
    pose proof (Z.div_mod (mag zu) uv) as HQR. fold Q R in HQR.
    mstep mpn_store0_run. 2: { rewrite limbs_length. lia. }
    rewrite limbs_length.
    set (adj := negb (R =? 0) && negb same_signs).
    set (X := Q + (if adj then 1 else 0)).
    assert (0 <= X < Bpow nu) as HX.
    { unfold X, adj. destruct (Z.eqb_spec R 0), same_signs; cbn; try lia.
      (* the quotient plus one is at most the dividend *)
      assert (Q + 1 <= mag zu) by nia. lia. }
    assert ((if adj
             then nq <- get_size q ;;
                  b <- mpn_load q 0 nq ;;
                  (let (_, d) := mpn_add_1 b 1 in mpn_store q 0 d)
             else ret tt)
              (upd m1 q (set_digits (limbs nu Q ++ skipn nu (digits z1)) z1))
            = Some (tt, upd m1 q (set_digits
                                    (limbs nu X ++ skipn nu (digits z1)) z1)))
      as Hadj.
    { unfold X. destruct adj.
      - mstep get_size_run. cbn [size set_digits]. rewrite Hs1.
        mstep mpn_load0_run.
        2: { cbn [digits set_digits].
             rewrite length_app, limbs_length, length_skipn. lia. }
        cbn [digits set_digits].
        rewrite firstn_app, limbs_length, Nat.sub_diag, firstn_0, app_nil_r.
        rewrite (firstn_all2 (limbs nu Q)) by (rewrite limbs_length; lia).
        unfold mpn_add_1. cbv beta iota. rewrite limbs_length.
        rewrite mpn_val_limbs_small by lia.
        erewrite mpn_store0_run; [| mget |].
        2: { cbn [digits set_digits].
             rewrite limbs_length, length_app, limbs_length, length_skipn.
             lia. }
        cbn [digits set_digits]. rewrite limbs_length, upd_upd.
        rewrite skipn_app, limbs_length, Nat.sub_diag.
        rewrite (skipn_all2 (limbs nu Q)) by (rewrite limbs_length; lia).
        reflexivity.
      - rewrite Z.add_0_r. reflexivity. }
    fold adj. mstep Hadj.
    match goal with |- context [upd m1 q ?t] => remember t as zf eqn:Ezf end.
    assert (size zf = nu) as Hsf by (rewrite Ezf; exact Hs1).
    assert (length (digits zf) = alloc zf) as Hlf.
    { rewrite Ezf. cbn [digits alloc set_digits].
      rewrite length_app, limbs_length, length_skipn. lia. }
    assert (alloc zf = alloc z1) as Haf by (rewrite Ezf; reflexivity).
    mstep trim_top_run.
    destruct (trim_top_trimmed zf (nu - 1) X) as (Htq & Hmq & Hq0);
      try lia.
    { rewrite Ezf. cbn [digits set_digits].
      replace (S (nu - 1)) with nu by lia.
      rewrite firstn_app, limbs_length, Nat.sub_diag, firstn_0, app_nil_r.
      apply firstn_all2. rewrite limbs_length. lia. }
    { replace (S (nu - 1)) with nu by lia. lia. }
    { intros Hn0.
      assert (Bpow (nu - 1) = BASE * Bpow (nu - 1 - 1)) as Es.
      { rewrite <- BASE_pow_succ. f_equal. lia. }
      pose proof (BASE_pow_pos (nu - 1 - 1)) as Hp2.
      assert (Bpow (nu - 1 - 1) <= Q); [|unfold X; destruct adj; lia].
      unfold Q. apply Z.div_le_lower_bound; [lia|]. nia. }
    match goal with |- context [upd m1 q ?t] => remember t as zt eqn:Ezt end.
    mstep get_size_run. mstep SETNEG_run. mret.
    eexists _, _. split; [reflexivity|].
    split; [eapply writes_then_upd; eauto|].
    split.
    + apply trimmed_signed_canonical; [exact Htq|].
      intros E. now rewrite E.
    + unfold zz_val. cbn [negative set_negative].
      match goal with |- context [mag (set_negative ?b zt)] =>
        change (mag (set_negative b zt)) with (mag zt) end.
      rewrite Hmq. unfold X, adj.
      destruct (Nat.eqb_spec (size zt) 0) as [E|E]; cbn [negb].
      * apply Hq0 in E. unfold X, adj in E.
        destruct same_signs, (Z.eqb_spec R 0); cbn in *; lia.
      * destruct same_signs, (Z.eqb_spec R 0); cbn; lia.
Qed.

Lemma canonical_one_digit z d (b : bool) :
  size z = 1%nat -> length (digits z) = alloc z -> (1 <= alloc z)%nat ->
  0 < d < BASE ->
  let z' := set_negative b (set_digits (list_set (digits z) 0 d) z) in
  canonical z' /\ zz_val z' = sg b * d.
Proof.
  intros Hs Hl Ha Hd z'.
  assert (digits z <> []) as Hne
    by (intros E; rewrite E in Hl; cbn in Hl; lia).
  split.
  - split; [split; [|split]|split];
      unfold z'; cbn [size negative digits alloc set_negative set_digits].
    + rewrite list_set_length. exact Hl.
    + lia.
    + rewrite Hs, firstn_1_list_set by exact Hne.
      constructor; [lia | constructor].
    + intros E. lia.
    + intros _. rewrite Hs, firstn_1_list_set by exact Hne.
      unfold top. cbn. lia.
  - unfold zz_val, mag, z';
      cbn [size negative digits alloc set_negative set_digits].
    rewrite Hs, firstn_1_list_set by exact Hne. unfold sg. cbn [mpn_val].
    destruct b; lia.
Qed.

Lemma zz_div_i64_rem_run m u r zu zr (v uv : Z) (same_signs : bool) :
  get m u = Some zu -> get m r = Some zr ->
  canonical zu -> length (digits zr) = alloc zr ->
  0 < uv < BASE ->
  exists m' z',
    zz_div_i64_rem u v uv same_signs r m = Some (ZZ_OK, m')
    /\ writes r m m' z' /\ canonical z'
    /\ zz_val z'
       = sg (v <? 0)
         * (if negb same_signs && negb (mag zu mod uv =? 0)
            then uv - mag zu mod uv else mag zu mod uv).
Proof.
  intros Hu Hr Hcu Hlr Huv. unfold zz_div_i64_rem.
  mstep get_size_run.
  pose proof (wf_size_length zu (proj1 Hcu)) as Hlu.
  assert (INT32_MIN < 0 < BASE) as H0 by (unfold INT32_MIN, BASE; lia).
  destruct (Nat.eqb_spec (size zu) 0) as [E0|E0].
  - destruct (zz_set_i32_run m r zr 0 Hr Hlr H0)
      as (m' & z' & Hrun & Hw' & Hc' & Hv').
    exists m', z'. split; [exact Hrun|].
    split; [exact Hw'|]. split; [exact Hc'|].
    rewrite Hv', (proj2 (mag_zero_size zu Hcu) E0).
    rewrite Z.mod_0_l by lia. cbn [Z.eqb negb]. rewrite andb_false_r. lia.
  - set (nu := size zu) in *. cbv zeta.
    destruct (zz_resize_run m r zr 1 Hr Hlr) as (m1 & z1 & Hr1 & Hw1 & Hz1).
    pose proof Hz1 as (Hs1 & Hn1 & Hl1 & Hcap1 & Hpre1).
    unfold guard. mstep Hr1.
    mstep (load_resized m m1 u r zu zr z1 1%nat nu Hu Hr Hw1 Hz1 Hlu).
    unfold mpn_mod_1.
    destruct (Z.eqb_spec uv 0) as [|_]; [lia|].
    change (mpn_val (firstn nu (digits zu))) with (mag zu).
    set (R := mag zu mod uv).
    pose proof (Z.mod_pos_bound (mag zu) uv (proj1 Huv)) as HR. fold R in HR.
    assert (get m1 r = Some z1) as H1r by (eapply writes_get; eauto).
    destruct (Z.eqb_spec R 0) as [ER|ER].
    + destruct (zz_set_i32_run m1 r z1 0 H1r Hl1 H0)
        as (m' & z' & Hrun & Hw' & Hc' & Hv').
      mstep Hrun. mret. exists m', z'. split; [reflexivity|].
      split; [eapply writes_trans; eauto|]. split; [exact Hc'|].
      rewrite Hv', ER, andb_false_r. lia.
    + cbn [negb]. rewrite andb_true_r.
      set (rl := if negb same_signs then uv - R else R).
      assert (0 < rl < BASE) as Hrl
        by (unfold rl; destruct same_signs; cbn [negb]; lia).
      mstep put_digit_run. mstep SETNEG_run. mret.
      destruct (canonical_one_digit z1 rl (v <? 0) Hs1 Hl1 Hcap1 Hrl)
        as (Hc' & Hv').
      eexists _, _. split; [reflexivity|].
      split; [eapply writes_then_upd; eauto|].
      split; [exact Hc' | exact Hv'].
Qed.

(** [zz_div_i64] for a divisor that is not zero: the quotient, the
    remainder, or both in objects of which the quotient is not the
    dividend. *)
Lemma zz_div_i64_signs zu v :
  canonical zu -> v <> 0 -> - 2 ^ 63 <= v < 2 ^ 63 ->
  let uv := ABS_CAST v in
  let same_signs := Bool.eqb (negative zu) (v <? 0) in
  0 < uv < BASE
  /\ zz_val zu / v
     = (if same_signs then mag zu / uv
        else - (mag zu / uv + (if mag zu mod uv =? 0 then 0 else 1)))
  /\ zz_val zu mod v
     = sg (v <? 0)
       * (if negb same_signs && negb (mag zu mod uv =? 0)
          then uv - mag zu mod uv else mag zu mod uv).
Proof.
  intros Hc Hv0 Hv uv same_signs.
  assert (uv = Z.abs v) as Euv.
  { unfold uv. apply ABS_CAST_small. unfold BASE. lia. }
  assert (0 < uv < BASE) as Huv by (rewrite Euv; unfold BASE; lia).
  split; [exact Huv|].
  pose proof (mag_nonneg zu (proj1 Hc)) as HU.
  destruct (floor_from_trunc (mag zu) uv (negative zu) (v <? 0) HU (proj1 Huv))
    as (Hq & Hr).
  assert (sg (v <? 0) * uv = v) as Ev.
  { rewrite Euv. unfold sg. destruct (Z.ltb_spec v 0); lia. }
  rewrite Ev, <- zz_val_sg in Hq, Hr.
  assert (same_signs = negb (xorb (negative zu) (v <? 0))) as Es.
  { unfold same_signs. now destruct (negative zu), (v <? 0). }
  rewrite Hq, Hr, Es. split.
  - now destruct (xorb (negative zu) (v <? 0)).
  - rewrite negb_involutive. reflexivity.
Qed.

Definition mem_div64 : mem :=
  mk_mem [mk_zz true 2 2 [5; 1]; mk_zz false 0 0 []; mk_zz false 0 0 []]
         [8; 8; 8; 8].

(** X23. [zz_div_i64] is floor division by a machine integer: a divisor 0
    gives [ZZ_VAL] and changes nothing; for [u] in canonical form and an
    [int64_t] divisor [v <> 0], with the quotient written to an object other
    than [u] and than [r], the call returns [ZZ_OK], changes only [q] and
    [r], and leaves them in canonical form with [q = floor (u / v)] and
    [r = u - q * v], which has the sign of [v]. *)
Theorem zz_div_i64_floor (m : mem) (u q r : ptr) (zu zq zr : zz_t) (v : Z) :
  get m u = Some zu -> get m q = Some zq -> get m r = Some zr ->
  canonical zu -> length (digits zq) = alloc zq ->
  length (digits zr) = alloc zr ->
  - 2 ^ 63 <= v < 2 ^ 63 -> q <> u -> q <> r ->
  if v =? 0 then zz_div_i64 u v (Some q) (Some r) m = Some (ZZ_VAL, m)
  else exists m' zq' zr',
      zz_div_i64 u v (Some q) (Some r) m = Some (ZZ_OK, m')
      /\ get m' q = Some zq' /\ get m' r = Some zr' /\ frame [q; r] m m'
      /\ canonical zq' /\ canonical zr'
      /\ zz_val zq' = zz_val zu / v /\ zz_val zr' = zz_val zu mod v
      /\ zz_val zu = zz_val zq' * v + zz_val zr'.
Proof.
  intros Hu Hq Hr Hcu Hlq Hlr Hv Hqu Hqr.
  destruct (Z.eqb_spec v 0) as [E0|E0].
  - unfold zz_div_i64. rewrite E0. reflexivity.
  - destruct (zz_div_i64_signs zu v Hcu E0 Hv) as (Huv & Eq & Er).
    unfold zz_div_i64. destruct (Z.eqb_spec v 0) as [|_]; [contradiction|].
    cbv zeta. mstep ISNEG_run.
    destruct (zz_div_i64_quo_run m u q zu zq (ABS_CAST v)
                (Bool.eqb (negative zu) (v <? 0)) Hu Hq Hcu Hlq Huv)
      as (m1 & zq' & Hr1 & Hw1 & Hcq & Hvq).
    mstep Hr1.
    assert (get m1 u = Some zu) as H1u
      by (rewrite (writes_other _ _ _ _ u Hw1); auto).
    assert (get m1 r = Some zr) as H1r
      by (rewrite (writes_other _ _ _ _ r Hw1); auto).
    destruct (zz_div_i64_rem_run m1 u r zu zr v (ABS_CAST v)
                (Bool.eqb (negative zu) (v <? 0)) H1u H1r Hcu Hlr Huv)
      as (m2 & zr' & Hr2 & Hw2 & Hcr & Hvr).
    exists m2, zq', zr'. split; [exact Hr2|].
    split. { rewrite (writes_other _ _ _ _ q Hw2) by auto.
             eapply writes_get; eauto. }
    split; [eapply writes_get; eauto|].
    split. { eapply frame_writes; [| |exact Hw2]; [cbn; auto|].
             eapply frame_writes; [| |exact Hw1]; [cbn; auto|].
             apply frame_refl. }
    split; [exact Hcq|]. split; [exact Hcr|].
    rewrite Hvq, Hvr, <- Eq, <- Er.
    split; [reflexivity|]. split; [reflexivity|].
    pose proof (Z.div_mod (zz_val zu) v E0). lia.
Qed.

Lemma zz_div_i64_floor_witness :
  exists m' zq' zr',
    zz_div_i64 0 (-3) (Some 1%nat) (Some 2%nat) mem_div64 = Some (ZZ_OK, m')
    /\ get m' 1 = Some zq' /\ get m' 2 = Some zr'
    /\ frame [1%nat; 2%nat] mem_div64 m'
    /\ canonical zq' /\ canonical zr'
    /\ zz_val zq' = zz_val (mk_zz true 2 2 [5; 1]) / (-3)
    /\ zz_val zr' = zz_val (mk_zz true 2 2 [5; 1]) mod (-3)
    /\ zz_val (mk_zz true 2 2 [5; 1]) = zz_val zq' * (-3) + zz_val zr'.
Proof.
  apply (zz_div_i64_floor mem_div64 0%nat 1%nat 2%nat
           (mk_zz true 2 2 [5; 1]) (mk_zz false 0 0 []) (mk_zz false 0 0 [])
           (-3)).
  - reflexivity.
  - reflexivity.
  - reflexivity.
  - apply canonicalb_spec. reflexivity.
  - reflexivity.
  - reflexivity.
  - split; [discriminate | reflexivity].
  - discriminate.
  - discriminate.
Defined.

(** The same division, run: -(2^64 + 5) = 6148914691236517207 * (-3) + 0. *)
Example zz_div_i64_example :
  zz_div_i64 0 (-3) (Some 1%nat) (Some 2%nat) mem_div64
    = Some (ZZ_OK,
            mk_mem [mk_zz true 2 2 [5; 1];
                    mk_zz false 2 1 [6148914691236517207; 0];
                    mk_zz false 1 0 [8]] [8]).
Proof. vm_compute. reflexivity. Qed.

(** X24. [zz_div_i64] with one output, which may be the dividend: for [u] in
    canonical form and an [int64_t] divisor [v <> 0], the call with [q] only
    leaves [floor (u / v)] in [q], and the call with [r] only leaves
    [u mod v], of the sign of [v], in [r]; each returns [ZZ_OK] and changes
    nothing else. *)
Theorem zz_div_i64_one_output (m : mem) (u w : ptr) (zu zw : zz_t) (v : Z) :
  get m u = Some zu -> get m w = Some zw ->
  canonical zu -> length (digits zw) = alloc zw ->
  - 2 ^ 63 <= v < 2 ^ 63 -> v <> 0 ->
  (exists m' z',
     zz_div_i64 u v (Some w) None m = Some (ZZ_OK, m')
     /\ writes w m m' z' /\ canonical z' /\ zz_val z' = zz_val zu / v)
  /\ (exists m' z',
     zz_div_i64 u v None (Some w) m = Some (ZZ_OK, m')
     /\ writes w m m' z' /\ canonical z' /\ zz_val z' = zz_val zu mod v).
Proof.
  intros Hu Hw Hcu Hlw Hv E0.
  destruct (zz_div_i64_signs zu v Hcu E0 Hv) as (Huv & Eq & Er).
  split.
  - unfold zz_div_i64. destruct (Z.eqb_spec v 0) as [|_]; [contradiction|].
    cbv zeta. mstep ISNEG_run.
    destruct (zz_div_i64_quo_run m u w zu zw (ABS_CAST v)
                (Bool.eqb (negative zu) (v <? 0)) Hu Hw Hcu Hlw Huv)
      as (m1 & z' & Hr1 & Hw1 & Hc' & Hv').
    mstep Hr1. mret. exists m1, z'. split; [reflexivity|].
    split; [exact Hw1|]. split; [exact Hc'|]. now rewrite Hv', <- Eq.
  - unfold zz_div_i64. destruct (Z.eqb_spec v 0) as [|_]; [contradiction|].
    cbv zeta. mstep ISNEG_run. mret.
    destruct (zz_div_i64_rem_run m u w zu zw v (ABS_CAST v)
                (Bool.eqb (negative zu) (v <? 0)) Hu Hw Hcu Hlw Huv)
      as (m1 & z' & Hr1 & Hw1 & Hc' & Hv').
    exists m1, z'. split; [exact Hr1|].
    split; [exact Hw1|]. split; [exact Hc'|]. now rewrite Hv', <- Er.
Qed.

Lemma zz_div_i64_one_output_witness :
  (exists m' z',
     zz_div_i64 0 7 (Some 0%nat) None mem_div64 = Some (ZZ_OK, m')
     /\ writes 0 mem_div64 m' z' /\ canonical z'
     /\ zz_val z' = zz_val (mk_zz true 2 2 [5; 1]) / 7)
  /\ (exists m' z',
     zz_div_i64 0 7 None (Some 0%nat) mem_div64 = Some (ZZ_OK, m')
     /\ writes 0 mem_div64 m' z' /\ canonical z'
     /\ zz_val z' = zz_val (mk_zz true 2 2 [5; 1]) mod 7).
Proof.
  apply (zz_div_i64_one_output mem_div64 0%nat 0%nat
           (mk_zz true 2 2 [5; 1]) (mk_zz true 2 2 [5; 1]) 7).
  - reflexivity.
  - reflexivity.
  - apply canonicalb_spec. reflexivity.
  - reflexivity.
  - split; [discriminate | reflexivity].
  - discriminate.
Defined.

(** ** Division of a machine integer *)

Lemma int64_run x m :
  - 2 ^ 63 <= x < 2 ^ 63 -> int64 x m = Some (x, m).
Proof.
  intros H. unfold int64.
  destruct (Z.leb_spec (- 2 ^ 63) x); [|lia].
  destruct (Z.ltb_spec x (2 ^ 63)); [|lia]. reflexivity.
Qed.

Lemma int64_overflow {A : Type} x (k : Z -> M A) m :
  ~ (- 2 ^ 63 <= x < 2 ^ 63) -> bind (int64 x) k m = None.
Proof.
  intros H. unfold bind, int64.
  destruct (Z.leb_spec (- 2 ^ 63) x), (Z.ltb_spec x (2 ^ 63));
    try reflexivity. lia.
Qed.

(** The floor quotient from the truncating one, as [fdiv_r] computes it. *)
Lemma floor_of_quot a b :
  b <> 0 ->
  Z.quot a b - (if negb (Z.rem a b =? 0) && negb (Bool.eqb (a <? 0) (b <? 0))
                then 1 else 0) = a / b.
Proof.
  intros Hb.
  pose proof (Z.quot_rem' a b) as E.
  destruct (Z.eqb_spec (Z.rem a b) 0) as [ER|ER]; cbn [negb andb].
  - rewrite Z.sub_0_r. apply Z.div_unique_exact; [exact Hb|].
    rewrite ER, Z.add_0_r in E. exact E.
  - destruct (Z.ltb_spec a 0) as [Ha|Ha], (Z.ltb_spec b 0) as [Hb'|Hb'];
      cbn [Bool.eqb negb].
    + pose proof (Z.rem_bound_neg_neg a b ltac:(lia) ltac:(lia)).
      apply (Z.div_unique a b _ (Z.rem a b)); lia.
    + pose proof (Z.rem_bound_pos_neg a b ltac:(lia) ltac:(lia)).
      apply (Z.div_unique a b _ (Z.rem a b + b)); lia.
    + pose proof (Z.rem_bound_neg_pos a b ltac:(lia) ltac:(lia)).
      apply (Z.div_unique a b _ (Z.rem a b + b)); lia.
    + pose proof (Z.rem_bound_pos_pos a b ltac:(lia) ltac:(lia)).
      apply (Z.div_unique a b _ (Z.rem a b)); lia.
Qed.

Lemma quot_abs_div a b : b <> 0 -> Z.abs (Z.quot a b) = Z.abs a / Z.abs b.
Proof.
  intros Hb. rewrite <- Z.quot_abs by exact Hb.
  apply Z.quot_div_nonneg; lia.
Qed.

Lemma rem_unit a b : Z.abs b = 1 -> Z.rem a b = 0.
Proof.
  intros Hb. destruct (Z.eq_dec b 1) as [->|Hn].
  - apply Z.rem_1_r.
  - replace b with (- (1)) by lia. rewrite Z.rem_opp_r by lia.
    apply Z.rem_1_r.
Qed.

Lemma quot_range a b :
  - 2 ^ 63 <= a < 2 ^ 63 -> b <> 0 -> ~ (a = - 2 ^ 63 /\ b = -1) ->
  - 2 ^ 63 <= Z.quot a b < 2 ^ 63.
Proof.
  intros Ha Hb Hn.
  pose proof (quot_abs_div a b Hb) as E.
  assert (Z.abs a / Z.abs b <= Z.abs a) as Hle.
  { apply Z.div_le_upper_bound; [lia|]. nia. }
  destruct (Z.eq_dec a (- 2 ^ 63)) as [Ea|Ea]; [|lia].
  destruct (Z.eq_dec b 1) as [->|Hb1]; [rewrite Z.quot_1_r; lia|].
  assert (Z.abs a / Z.abs b <= 2 ^ 62); [|lia].
  apply Z.div_le_upper_bound; [lia|]. rewrite Ea. lia.
Qed.

Lemma floor_range a b :
  - 2 ^ 63 <= a < 2 ^ 63 -> b <> 0 -> ~ (a = - 2 ^ 63 /\ b = -1) ->
  - 2 ^ 63 <= a / b < 2 ^ 63.
Proof.
  intros Ha Hb Hn.
  pose proof (quot_range a b Ha Hb Hn) as Hq.
  pose proof (floor_of_quot a b Hb) as E.
  destruct (Z.eqb_spec (Z.rem a b) 0) as [Er|Er]; cbn [negb andb] in E;
    [lia|].
  destruct (negb (Bool.eqb (a <? 0) (b <? 0))); [|lia].
  split; [|lia].
  assert (2 <= Z.abs b) as Hb2.
  { destruct (Z.eq_dec (Z.abs b) 1) as [E1|E1]; [|lia].
    now apply (rem_unit a) in E1. }
  pose proof (quot_abs_div a b Hb) as Eq.
  assert (Z.abs a / Z.abs b <= 2 ^ 62); [|lia].
  apply Z.div_le_upper_bound; lia.
Qed.

Lemma fdiv_r_run a b m :
  - 2 ^ 63 <= a < 2 ^ 63 -> b <> 0 -> ~ (a = - 2 ^ 63 /\ b = -1) ->
  fdiv_r a b m = Some (a / b, m).
Proof.
  intros Ha Hb Hn. unfold fdiv_r.
  destruct (Z.eqb_spec b 0) as [|_]; [contradiction|].
  mstep int64_run. 2: { now apply quot_range. }
  rewrite floor_of_quot by exact Hb.
  apply int64_run. now apply floor_range.
Qed.

Lemma beyond_int64_floor u V :
  - 2 ^ 63 <= u < 2 ^ 63 -> ~ (- 2 ^ 63 <= V <= 2 ^ 63 - 1) ->
  let same := Bool.eqb (u <? 0) (V <? 0) || (u =? 0) in
  u / V = (if same then 0 else -1)
  /\ u mod V = (if same then u else V + u).
Proof.
  intros Hu HV same.
  assert (V <> 0) as HV0 by lia.
  assert (exists q r, q = (if same then 0 else -1)
                      /\ r = (if same then u else V + u)
                      /\ u = V * q + r /\ (0 <= r < V \/ V < r <= 0))
    as (q & r & Eq & Er & E & Hb).
  { eexists _, _. split; [reflexivity|]. split; [reflexivity|].
    unfold same.
    destruct (Z.ltb_spec u 0), (Z.ltb_spec V 0), (Z.eqb_spec u 0);
      cbn [Bool.eqb orb]; lia. }
  rewrite <- Eq, <- Er. split; symmetry.
  - apply (Z.div_unique u V q r); assumption.
  - apply (Z.mod_unique u V q r); assumption.
Qed.

Lemma zz_i64_div_quo_run m u v q zv zq :
  get m v = Some zv -> get m q = Some zq ->
  canonical zv -> length (digits zq) = alloc zq ->
  zz_val zv <> 0 -> - 2 ^ 63 <= u < 2 ^ 63 ->
  ~ (u = - 2 ^ 63 /\ zz_val zv = -1) ->
  exists m' z',
    zz_i64_div_quo u v q m = Some (ZZ_OK, m')
    /\ writes q m m' z' /\ canonical z' /\ zz_val z' = u / zz_val zv.
Proof.
  intros Hv Hq Hcv Hlq Hv0 Hu Hn. unfold zz_i64_div_quo.
  rewrite (bind_run _ _ _ _ _ (proj1 (zz_get_signed_spec m v zv Hv Hcv))).
  unfold fits.
  destruct ((- 2 ^ 63 <=? zz_val zv) && (zz_val zv <=? 2 ^ 63 - 1)) eqn:Ef.
  - apply andb_prop in Ef as (E1 & E2).
    apply Z.leb_le in E1, E2.
    mstep fdiv_r_run.
    pose proof (floor_range u (zz_val zv) Hu Hv0 Hn) as Hr.
    apply (zz_set_i64_run m q zq); auto. unfold BASE. lia.
  - assert (~ (- 2 ^ 63 <= zz_val zv <= 2 ^ 63 - 1)) as Hout.
    { intros (H1 & H2). apply Z.leb_le in H1, H2.
      rewrite H1, H2 in Ef. discriminate. }
    destruct (beyond_int64_floor u (zz_val zv) Hu Hout) as (Eq & _).
    mstep ISNEG_run. rewrite (zz_val_sign zv Hcv), Eq.
    apply (zz_set_i64_run m q zq); auto.
    destruct (Bool.eqb (u <? 0) (zz_val zv <? 0) || (u =? 0));
      unfold BASE; lia.
Qed.

Lemma zz_i64_div_rem_run m u v r zv zr :
  get m v = Some zv -> get m r = Some zr ->
  canonical zv -> length (digits zr) = alloc zr ->
  Z.of_nat (size zv) < ZZ_DIGITS_MAX ->
  zz_val zv <> 0 -> - 2 ^ 63 <= u < 2 ^ 63 ->
  ~ (u = - 2 ^ 63 /\ zz_val zv = -1) ->
  (- 2 ^ 63 <= zz_val zv < 2 ^ 63 -> - 2 ^ 63 <= u - u mod zz_val zv < 2 ^ 63) ->
  exists m' z',
    zz_i64_div_rem u v r m = Some (ZZ_OK, m')
    /\ writes r m m' z' /\ canonical z' /\ zz_val z' = u mod zz_val zv.
Proof.
  intros Hv Hr Hcv Hlr Hmax Hv0 Hu Hn Hov. unfold zz_i64_div_rem.
  rewrite (bind_run _ _ _ _ _ (proj1 (zz_get_signed_spec m v zv Hv Hcv))).
  unfold fits.
  destruct ((- 2 ^ 63 <=? zz_val zv) && (zz_val zv <=? 2 ^ 63 - 1)) eqn:Ef.
  - apply andb_prop in Ef as (E1 & E2).
    apply Z.leb_le in E1, E2.
    specialize (Hov ltac:(lia)).
    pose proof (Z.div_mod u (zz_val zv) Hv0) as Edm.
    mstep fdiv_r_run.
    mstep int64_run.
    mstep int64_run.
    2: { pose proof (Z.mod_pos_bound u (zz_val zv)).
         pose proof (Z.mod_neg_bound u (zz_val zv)). lia. }
    replace (u - u / zz_val zv * zz_val zv) with (u mod zz_val zv) by lia.
    apply (zz_set_i64_run m r zr); auto.
    pose proof (Z.mod_pos_bound u (zz_val zv)).
    pose proof (Z.mod_neg_bound u (zz_val zv)). unfold BASE. lia.
  - assert (~ (- 2 ^ 63 <= zz_val zv <= 2 ^ 63 - 1)) as Hout.
    { intros (H1 & H2). apply Z.leb_le in H1, H2.
      rewrite H1, H2 in Ef. discriminate. }
    destruct (beyond_int64_floor u (zz_val zv) Hu Hout) as (_ & Er).
    mstep ISNEG_run. rewrite (zz_val_sign zv Hcv), Er.
    destruct (Bool.eqb (u <? 0) (zz_val zv <? 0) || (u =? 0)).
    + apply (zz_set_i64_run m r zr); auto. unfold BASE. lia.
    + destruct (zz_addsub_i64_spec m v r zv zr u false Hv Hr
                  (canonical_trimmed zv Hcv) Hlr Hmax)
        as (m' & z' & Hrun & Hw & Hc & Hval); [unfold BASE; lia|].
      exists m', z'. split; [exact Hrun|]. split; [exact Hw|].
      split; [exact Hc|]. now rewrite Hval, <- zz_val_sg.
Qed.

Lemma zz_val_nonzero_size z : canonical z -> (size z <> 0%nat <-> zz_val z <> 0).
Proof.
  intros Hc. pose proof (mag_zero_size z Hc) as H.
  pose proof (mag_nonneg z (proj1 Hc)). unfold zz_val.
  destruct (negative z); split; intros; intuition lia.
Qed.

Definition mem_i64 : mem :=
  mk_mem [mk_zz false 1 1 [3]; mk_zz false 0 0 []; mk_zz false 0 0 []]
         [8; 8; 8; 8].

(** X25. [zz_i64_div] is floor division of a machine integer: for an
    [int64_t] dividend [u] and a divisor [v <> 0] in canonical form of
    fewer than [ZZ_DIGITS_MAX] digits, where no [int64_t] computation
    overflows (not [u = INT64_MIN] with [v = -1],
    and [u - u mod v] an [int64_t] when [v] is one), the call with [q] only
    leaves [floor (u / v)] in [q], the call with [r] only leaves [u mod v]
    in [r], and the call with both, [q] being neither [v] nor [r], does
    both; each returns [ZZ_OK] and changes nothing else. *)
Theorem zz_i64_div_floor (m : mem) (u : Z) (v q r : ptr) (zv zq zr : zz_t) :
  get m v = Some zv -> get m q = Some zq -> get m r = Some zr ->
  canonical zv -> length (digits zq) = alloc zq ->
  length (digits zr) = alloc zr ->
  Z.of_nat (size zv) < ZZ_DIGITS_MAX -> zz_val zv <> 0 ->
  - 2 ^ 63 <= u < 2 ^ 63 ->
  ~ (u = - 2 ^ 63 /\ zz_val zv = -1) ->
  (- 2 ^ 63 <= zz_val zv < 2 ^ 63 ->
   - 2 ^ 63 <= u - u mod zz_val zv < 2 ^ 63) ->
  (exists m' z',
     zz_i64_div u v (Some q) None m = Some (ZZ_OK, m')
     /\ writes q m m' z' /\ canonical z' /\ zz_val z' = u / zz_val zv)
  /\ (exists m' z',
     zz_i64_div u v None (Some r) m = Some (ZZ_OK, m')
     /\ writes r m m' z' /\ canonical z' /\ zz_val z' = u mod zz_val zv)
  /\ (q <> v -> q <> r ->
      exists m' zq' zr',
        zz_i64_div u v (Some q) (Some r) m = Some (ZZ_OK, m')
        /\ get m' q = Some zq' /\ get m' r = Some zr' /\ frame [q; r] m m'
        /\ canonical zq' /\ canonical zr'
        /\ zz_val zq' = u / zz_val zv /\ zz_val zr' = u mod zz_val zv).
Proof.
  intros Hv Hq Hr Hcv Hlq Hlr Hmax Hv0 Hu Hn Hov.
  assert (size zv <> 0%nat) as Hs by now apply zz_val_nonzero_size.
  destruct (zz_i64_div_quo_run m u v q zv zq Hv Hq Hcv Hlq Hv0 Hu Hn)
    as (m1 & zq' & Hr1 & Hw1 & Hcq & Hvq).
  split; [|split].
  - unfold zz_i64_div. mstep get_size_run.
    destruct (Nat.eqb_spec (size zv) 0) as [|_]; [contradiction|].
    cbv zeta. mstep Hr1. mret. exists m1, zq'. auto.
  - unfold zz_i64_div. mstep get_size_run.
    destruct (Nat.eqb_spec (size zv) 0) as [|_]; [contradiction|].
    cbv zeta.
    now apply (zz_i64_div_rem_run m u v r zv zr).
  - intros Hqv Hqr.
    assert (get m1 v = Some zv) as H1v
      by (rewrite (writes_other _ _ _ _ v Hw1); auto).
    assert (get m1 r = Some zr) as H1r
      by (rewrite (writes_other _ _ _ _ r Hw1); auto).
    destruct (zz_i64_div_rem_run m1 u v r zv zr H1v H1r Hcv Hlr Hmax Hv0 Hu
                Hn Hov) as (m2 & zr' & Hr2 & Hw2 & Hcr & Hvr).
    unfold zz_i64_div. mstep get_size_run.
    destruct (Nat.eqb_spec (size zv) 0) as [|_]; [contradiction|].
    cbv zeta. mstep Hr1. cbn [orb].
    exists m2, zq', zr'. split; [exact Hr2|].
    split. { rewrite (writes_other _ _ _ _ q Hw2) by auto.
             eapply writes_get; eauto. }
    split; [eapply writes_get; eauto|].
    split. { eapply frame_writes; [| |exact Hw2]; [cbn; auto|].
             eapply frame_writes; [| |exact Hw1]; [cbn; auto|].
             apply frame_refl. }
    auto.
Qed.

Lemma zz_i64_div_floor_witness :
  (exists m' z',
     zz_i64_div (-7) 0 (Some 1%nat) None mem_i64 = Some (ZZ_OK, m')
     /\ writes 1 mem_i64 m' z' /\ canonical z'
     /\ zz_val z' = (-7) / zz_val (mk_zz false 1 1 [3]))
  /\ (exists m' z',
     zz_i64_div (-7) 0 None (Some 2%nat) mem_i64 = Some (ZZ_OK, m')
     /\ writes 2 mem_i64 m' z' /\ canonical z'
     /\ zz_val z' = (-7) mod zz_val (mk_zz false 1 1 [3]))
  /\ (1%nat <> 0%nat -> 1%nat <> 2%nat ->
      exists m' zq' zr',
        zz_i64_div (-7) 0 (Some 1%nat) (Some 2%nat) mem_i64 = Some (ZZ_OK, m')
        /\ get m' 1 = Some zq' /\ get m' 2 = Some zr'
        /\ frame [1%nat; 2%nat] mem_i64 m'
        /\ canonical zq' /\ canonical zr'
        /\ zz_val zq' = (-7) / zz_val (mk_zz false 1 1 [3])
        /\ zz_val zr' = (-7) mod zz_val (mk_zz false 1 1 [3])).
Proof.
  apply (zz_i64_div_floor mem_i64 (-7) 0%nat 1%nat 2%nat
           (mk_zz false 1 1 [3]) (mk_zz false 0 0 []) (mk_zz false 0 0 [])).
  - reflexivity.
  - reflexivity.
  - reflexivity.
  - apply canonicalb_spec. reflexivity.
  - reflexivity.
  - reflexivity.
  - reflexivity.
  - discriminate.
  - split; [discriminate | reflexivity].
  - intros (E & _). discriminate E.
  - intros _. split; [discriminate | reflexivity].
Defined.

(** The same division, run: -7 = -3 * 3 + 2. *)
Example zz_i64_div_example :
  zz_i64_div (-7) 0 (Some 1%nat) (Some 2%nat) mem_i64
    = Some (ZZ_OK,
            mk_mem [mk_zz false 1 1 [3]; mk_zz true 1 1 [3];
                    mk_zz false 1 1 [2]] [8; 8]).
Proof. vm_compute. reflexivity. Qed.

(** -1, and two objects for the results. *)
Definition mem_i64_neg : mem :=
  mk_mem [mk_zz true 1 1 [1]; mk_zz false 0 0 []; mk_zz false 0 0 []]
         [8; 8; 8; 8].

(** X26. Signed overflow in [zz_i64_div]: with the dividend [INT64_MIN] and
    a divisor [v = -1] in canonical form, every call that asks for a
    quotient or a remainder evaluates [INT64_MIN / -1] in [fdiv_r], whose
    result is not an [int64_t]: the division has no defined result. *)
Theorem zz_i64_div_overflow (m : mem) (v : ptr) (zv : zz_t) :
  get m v = Some zv -> canonical zv -> zz_val zv = -1 ->
  forall q r : option ptr,
    q <> None \/ r <> None ->
    zz_i64_div (- 2 ^ 63) v q r m = None.
Proof.
  intros Hv Hcv Ev q r Hqr.
  assert (size zv <> 0%nat) as Hs by (apply zz_val_nonzero_size; auto; lia).
  pose proof (proj1 (zz_get_signed_spec m v zv Hv Hcv)) as Hget.
  rewrite fits_in in Hget by lia.
  assert (forall A (k : Z -> M A),
            (f <- fdiv_r (- 2 ^ 63) (zz_val zv) ;; k f) m = None) as Hdiv.
  { intros A k. unfold fdiv_r. rewrite Ev. cbn [Z.eqb].
    rewrite ?bind_bind. apply int64_overflow. cbn. lia. }
  unfold zz_i64_div. mstep get_size_run.
  destruct (Nat.eqb_spec (size zv) 0) as [|_]; [contradiction|].
  cbv zeta.
  destruct q as [q|].
  - unfold zz_i64_div_quo. mstep Hget. rewrite ?bind_bind. apply Hdiv.
  - destruct r as [r|]; [|destruct Hqr; congruence].
    unfold zz_i64_div_rem. mstep Hget. rewrite ?bind_bind. apply Hdiv.
Qed.

Lemma zz_i64_div_overflow_witness :
  zz_i64_div (- 2 ^ 63) 0 (Some 1%nat) None mem_i64_neg = None
  /\ zz_i64_div (- 2 ^ 63) 0 None (Some 2%nat) mem_i64_neg = None.
Proof.
  split.
  - apply (zz_i64_div_overflow mem_i64_neg 0%nat (mk_zz true 1 1 [1])).
    + reflexivity.
    + apply canonicalb_spec. reflexivity.
    + reflexivity.
    + left. discriminate.
  - apply (zz_i64_div_overflow mem_i64_neg 0%nat (mk_zz true 1 1 [1])).
    + reflexivity.
    + apply canonicalb_spec. reflexivity.
    + reflexivity.
    + right. discriminate.
Defined.

(** [INT64_MIN / -1], run, for the quotient and the remainder together. *)
Example zz_i64_div_overflow_example :
  zz_i64_div (- 2 ^ 63) 0 (Some 1%nat) (Some 2%nat) mem_i64_neg = None.
Proof. vm_compute. reflexivity. Qed.

(** ** Extended greatest common divisor *)

Lemma gcdext_cofactor_spec U V :
  0 < U -> 0 < V ->
  let G := Z.gcd U V in
  let S := gcdext_cofactor U V in
  Z.abs S <= V /\ (V | G - U * S).
Proof.
  intros HU HV G S.
  pose proof (gcd_pos_bound U V HU HV) as HG. fold G in HG.
  destruct (Z.gcd_divide_l U V) as (U' & EU).
  destruct (Z.gcd_divide_r U V) as (V' & EV).
  fold G in EU, EV.
  assert (0 < V') as HV' by nia.
  assert (0 < U') as HU' by nia.
  assert (U / G = U') as EdU by (rewrite EU; apply Z.div_mul; lia).
  assert (V / G = V') as EdV by (rewrite EV; apply Z.div_mul; lia).
  assert (Z.gcd U' V' = 1) as Hco.
  { assert (Z.gcd U V = Z.gcd U' V' * G) as E.
    { rewrite EU at 1. rewrite EV at 1.
      apply Z.gcd_mul_mono_r_nonneg. lia. }
    fold G in E. pose proof (Z.gcd_nonneg U' V'). nia. }
  unfold S, gcdext_cofactor. fold G. rewrite EdU, EdV.
  destruct (Z.eqb_spec V' 1) as [E1|E1].
  - split; [lia|]. exists 1. nia.
  - destruct (Z.eqb_spec V' 2) as [E2|E2].
    + split; [lia|].
      (* U' is odd *)
      assert (Z.odd U' = true) as Hodd.
      { destruct (Z.odd U') eqn:Eo; [reflexivity|].
        exfalso. rewrite <- Z.negb_even in Eo.
        apply negb_false_iff, Z.even_spec in Eo as (k & Ek).
        assert ((2 | Z.gcd U' V')) as Hd.
        { apply Z.gcd_greatest; [exists k; lia | exists 1; lia]. }
        rewrite Hco in Hd. destruct Hd as (c & Hc). lia. }
      apply Z.odd_spec in Hodd as (k & Ek).
      exists (- k). nia.
    + assert (2 <= V') as H2 by lia.
      pose proof (Z.invmod_coprime U' V' H2 Hco) as Hinv.
      pose proof (Z.mod_invmod V' U') as Hr.
      pose proof (Z.mod_pos_bound (Z.invmod U' V') V' HV') as Hb.
      rewrite Hr in Hb.
      set (i := Z.invmod U' V') in *.
      assert ((V' | 1 - U' * i)) as (c & Hc).
      { apply Z.mod_divide; [lia|].
        rewrite <- Zminus_mod_idemp_r, (Z.mul_comm U' i), Hinv.
        reflexivity. }
      destruct (Z.ltb_spec (2 * i) V').
      * split; [nia|]. exists c. nia.
      * split; [nia|]. exists (c + U'). nia.
Qed.

(** The cofactors [zz_gcdext] returns: [s] from the kernel, with the sign of
    [u], and [t = (g - u s) / v]; [s = sign u] and [t = 0] for [v = 0]. *)
Definition bezout_s (u v : Z) : Z :=
  if v =? 0 then Z.sgn u
  else Z.sgn u * gcdext_cofactor (Z.abs u) (Z.abs v).

Definition bezout_t (u v : Z) : Z :=
  if v =? 0 then 0 else (Z.gcd u v - u * bezout_s u v) / v.

Lemma bezout_identity u v :
  (v = 0 \/ u <> 0) -> u * bezout_s u v + v * bezout_t u v = Z.gcd u v.
Proof.
  intros H. unfold bezout_t, bezout_s.
  destruct (Z.eqb_spec v 0) as [->|Hv].
  - rewrite Z.gcd_0_r. lia.
  - destruct H as [|Hu]; [contradiction|].
    destruct (gcdext_cofactor_spec (Z.abs u) (Z.abs v)) as (_ & (c & Hc));
      try lia.
    rewrite Z.gcd_abs_l, Z.gcd_abs_r in Hc.
    set (S := gcdext_cofactor (Z.abs u) (Z.abs v)) in *.
    assert (u * (Z.sgn u * S) = Z.abs u * S) as E by nia.
    rewrite E.
    assert ((v | Z.gcd u v - Z.abs u * S)) as (d & Hd).
    { exists (c * Z.sgn v). nia. }
    rewrite Hd, Z.div_mul by exact Hv. lia.
Qed.

(** What a call leaves in an optional output, and the optional outputs as a
    list. *)
Definition holds (m : mem) (p : option ptr) (x : Z) : Prop :=
  match p with
  | Some p => exists z, get m p = Some z /\ canonical z /\ zz_val z = x
  | None => True
  end.

Definition olist (p : option ptr) : list ptr :=
  match p with Some p => [p] | None => [] end.

(** An optional output is an object of the store with a buffer as long as
    its capacity, other than the objects of [avoid]. *)
Definition output (m : mem) (p : option ptr) (avoid : list ptr) : Prop :=
  match p with
  | Some p => (exists z, get m p = Some z /\ length (digits z) = alloc z)
              /\ ~ In p avoid
  | None => True
  end.

Lemma holds_frame S m m' p x :
  holds m p x -> frame S m m' -> (forall q, p = Some q -> ~ In q S) ->
  holds m' p x.
Proof.
  destruct p as [p|]; [|auto]. intros (z & Hg & Hc & Hv) Hf Hn.
  exists z. split; [|auto]. rewrite (frame_get _ _ _ p Hf); auto.
Qed.

Lemma zz_gcdext_zero_run m u g s t zu zg :
  get m u = Some zu -> get m g = Some zg ->
  canonical zu -> length (digits zg) = alloc zg -> g <> u ->
  output m s [u; g] -> output m t (g :: olist s) ->
  exists m',
    zz_gcdext_zero u (Some g) s t m = Some (ZZ_OK, m')
    /\ frame (g :: olist s ++ olist t) m m'
    /\ holds m' (Some g) (Z.abs (zz_val zu))
    /\ holds m' s (Z.sgn (zz_val zu))
    /\ holds m' t 0.
Proof.
  intros Hu Hg Hcu Hlg Hgu Hs Ht. unfold zz_gcdext_zero.
  destruct (zz_abs_run m u g zu zg ltac:(auto) Hu Hg Hcu Hlg)
    as (m1 & zg' & Hr1 & Hw1 & Hcg & Hvg).
  unfold guard at 1. mstep Hr1.
  assert (get m1 u = Some zu) as H1u
    by (rewrite (writes_other _ _ _ _ u Hw1); auto).
  assert (get m1 g = Some zg') as H1g by (eapply writes_get; eauto).
  (* the cofactor of [u] *)
  assert (exists m2,
            match s with
            | Some s =>
                n <- ISNEG u ;;
                guard (zz_set_i64 (if n then -1 else 1) s) (ret ZZ_MEM)
                  (nu <- get_size u ;;
                   put_size (if (0 <? nu)%nat then 1 else 0) s ;;;
                   ret ZZ_OK)
            | None => ret ZZ_OK
            end m1 = Some (ZZ_OK, m2)
            /\ frame (olist s) m1 m2
            /\ holds m2 s (Z.sgn (zz_val zu))) as (m2 & Hr2 & Hf2 & Hh2).
  { destruct s as [s|]; [|exists m1; split; [reflexivity|];
                          split; [apply frame_refl | exact I]].
    destruct Hs as ((zs & Hgs & Hls) & Hns).
    assert (s <> u /\ s <> g) as (Hsu & Hsg)
      by (split; intros E; apply Hns; cbn; auto).
    assert (get m1 s = Some zs) as H1s
      by (rewrite (writes_other _ _ _ _ s Hw1); auto).
    mstep ISNEG_run.
    destruct (zz_set_i64_run m1 s zs (if negative zu then -1 else 1) H1s Hls)
      as (m2 & zs' & Hr2 & Hw2 & Hcs & Hvs).
    { destruct (negative zu); unfold BASE; lia. }
    unfold guard. mstep Hr2.
    assert (get m2 u = Some zu) as H2u
      by (rewrite (writes_other _ _ _ _ u Hw2); auto).
    assert (get m2 s = Some zs') as H2s by (eapply writes_get; eauto).
    mstep get_size_run. mstep put_size_run. mret.
    eexists. split; [reflexivity|].
    split. { cbn [olist]. apply frame_upd; [cbn; auto|].
             now apply (writes_frame s m1 m2 zs'). }
    cbn [holds]. eexists. split; [mget|].
    pose proof (mag_zero_size zu Hcu) as Hz.
    pose proof (mag_nonneg zu (proj1 Hcu)) as Hn.
    assert (size zs' = 1%nat) as Hs1.
    { assert (size zs' <= 1)%nat
        by (apply canonical_small_size; [exact Hcs|];
            rewrite Hvs; destruct (negative zu); unfold BASE; lia).
      assert (size zs' <> 0%nat); [|lia].
      intros E. apply (mag_zero_size zs' Hcs) in E.
      unfold zz_val in Hvs. rewrite E in Hvs.
      destruct (negative zs'), (negative zu); lia. }
    destruct (Nat.ltb_spec 0 (size zu)) as [Hpos|Hzero].
    - replace (set_size 1 zs') with zs' by (destruct zs'; cbn in *; now subst).
      split; [exact Hcs|]. rewrite Hvs. unfold zz_val.
      destruct (negative zu); lia.
    - assert (size zu = 0%nat) as E0 by lia.
      assert (negative zu = false) as En by (apply Hcu; exact E0).
      rewrite En in Hvs.
      assert (negative zs' = false) as Ens
        by (apply canonical_nonneg; [exact Hcs | lia]).
      split.
      + destruct Hcs as ((Hl & Ha & Hrg) & _ & _).
        split; [split; [exact Hl|split; [cbn; lia|]]|split].
        * cbn [size set_size digits]. cbn [firstn]. constructor.
        * intros _. exact Ens.
        * intros Hx. now cbn in Hx.
      + assert (zz_val zu = 0) as ->
          by (unfold zz_val; rewrite En; apply Hz; exact E0).
        unfold zz_val, mag. cbn [negative size set_size digits firstn].
        rewrite Ens. reflexivity. }
  unfold guard. mstep Hr2.
  (* the cofactor of [v] *)
  assert (exists m3,
            (match t with
             | Some t => put_size 0 t ;;; SETNEG false t
             | None => ret tt
             end) m2 = Some (tt, m3)
            /\ frame (olist t) m2 m3 /\ holds m3 t 0) as (m3 & Hr3 & Hf3 & Hh3).
  { destruct t as [t|]; [|exists m2; split; [reflexivity|];
                          split; [apply frame_refl | exact I]].
    destruct Ht as ((zt & Hgt & Hlt) & Hnt).
    assert (In t (g :: olist s) -> False) as Hnt' by exact Hnt.
    assert (get m1 t = Some zt) as H1t.
    { rewrite (writes_other _ _ _ _ t Hw1); [exact Hgt|].
      intros E. apply Hnt'. cbn. auto. }
    assert (get m2 t = Some zt) as H2t.
    { rewrite (frame_get _ _ _ t Hf2); [exact H1t|].
      intros Hin. apply Hnt'. cbn. auto. }
    mstep put_size_run. eexists.
    split; [apply SETNEG_run; mget|].
    split. { cbn [olist]. apply frame_upd; [cbn; auto|].
             apply frame_upd; [cbn; auto|]. apply frame_refl. }
    cbn [holds]. eexists. split; [mget|].
    split.
    - split; [split; [exact Hlt|split; [cbn; lia|]]|split].
      + cbn. constructor.
      + intros _. reflexivity.
      + intros Hx. now cbn in Hx.
    - reflexivity. }
  mstep Hr3. mret.
  exists m3. split; [reflexivity|].
  assert (frame (g :: olist s ++ olist t) m m1) as F1.
  { eapply frame_incl; [|apply (writes_frame g m m1 zg' Hw1)].
    cbn. tauto. }
  assert (frame (g :: olist s ++ olist t) m1 m2) as F2.
  { eapply frame_incl; [|exact Hf2].
    intros p Hp. right. apply in_or_app. auto. }
  assert (frame (g :: olist s ++ olist t) m2 m3) as F3.
  { eapply frame_incl; [|exact Hf3].
    intros p Hp. right. apply in_or_app. auto. }
  split; [eapply frame_trans; [eapply frame_trans|]; eauto|].
  split.
  - apply (holds_frame (olist s ++ olist t) m1 m3 (Some g)).
    + exists zg'. auto.
    + eapply frame_trans;
        [eapply frame_incl; [|exact Hf2] | eapply frame_incl; [|exact Hf3]];
        intros p Hp; apply in_or_app; auto.
    + intros q [= <-] Hin. apply in_app_or in Hin as [Hin|Hin].
      * destruct s as [s|]; [|contradiction]. destruct Hs as (_ & Hns).
        cbn in Hin. destruct Hin as [->|[]]. apply Hns. cbn. auto.
      * destruct t as [t|]; [|contradiction]. destruct Ht as (_ & Hnt).
        cbn in Hin. destruct Hin as [->|[]]. apply Hnt. cbn. auto.
  - split; [|exact Hh3].
    apply (holds_frame (olist t) m2 m3 s); auto.
    intros q -> Hin. destruct t as [t|]; [|contradiction].
    destruct Ht as (_ & Hnt). cbn in Hin. destruct Hin as [->|[]].
    apply Hnt. cbn. auto.
Qed.

Lemma with_local4_ex {A : Type} (K : ptr -> ptr -> ptr -> ptr -> M A) m (a : A)
    (P : mem -> Prop) :
  let L := length (objs m) in
  (exists mf,
     K L (S L) (S (S L)) (S (S (S L))) (push (push (push (push m))))
       = Some (a, mf)
     /\ P (pop L mf)) ->
  exists m',
    with_local (fun o1 => with_local (fun o2 =>
      with_local (fun o3 => with_local (K o1 o2 o3)))) m = Some (a, m')
    /\ P m'.
Proof.
  intros L (mf & Hr & HP). exists (pop L mf). split; [|exact HP].
  rewrite (with_local2_run
             (fun o1 o2 => with_local (fun o3 => with_local (K o1 o2 o3)))).
  rewrite (with_local2_run (K (length (objs m)) (S (length (objs m))))).
  rewrite !push_length. fold L. rewrite Hr.
  unfold pop. cbn [objs junk]. rewrite firstn_firstn.
  now replace (Nat.min L (S (S L))) with L by lia.
Qed.

Lemma get_junk m j p : get (mk_mem (objs m) j) p = get m p.
Proof. reflexivity. Qed.

Lemma pop_frame_ext F T m m0 mf :
  (exists ex, objs m0 = objs m ++ ex) ->
  (forall p, In p T -> (length (objs m) <= p)%nat) ->
  frame (T ++ F) m0 mf -> frame F m (pop (length (objs m)) mf).
Proof.
  intros (ex & E0) HT (Hl & Hf). split.
  - unfold pop. cbn [objs]. rewrite length_firstn, Hl, E0, length_app. lia.
  - intros p Hp. unfold pop. cbn [objs].
    destruct (Nat.lt_ge_cases p (length (objs m))) as [Hlt|Hge].
    + rewrite nth_error_firstn.
      destruct (Nat.ltb_spec p (length (objs m))) as [_|]; [|lia].
      rewrite Hf.
      * rewrite E0. now apply nth_error_app1.
      * intros Hin. apply in_app_or in Hin as [Hin|Hin]; [|contradiction].
        apply HT in Hin. lia.
    + rewrite nth_error_firstn.
      destruct (Nat.ltb_spec p (length (objs m))) as [|_]; [lia|].
      symmetry. now apply nth_error_None.
Qed.

(** The value of the cofactor as the sign and the word count that
    [mpn_gcdext] returns for it say. *)
Lemma cofactor_sign (su : bool) S :
  let ssize := Z.sgn S * Z.of_nat (nlimbs (Z.abs S)) in
  let b := (su && (0 <? ssize)) || (negb su && (ssize <? 0)) in
  Z.to_nat (Z.abs ssize) = nlimbs (Z.abs S)
  /\ (nlimbs (Z.abs S) = 0%nat -> b = false /\ Z.abs S = 0)
  /\ (if b then - Z.abs S else Z.abs S) = (if su then -1 else 1) * S.
Proof.
  intros ssize b.
  destruct (Z.lt_trichotomy S 0) as [Hn|[->|Hp]].
  - assert (nlimbs (Z.abs S) <> 0%nat) as Hnl
      by (rewrite nlimbs_pos by lia; discriminate).
    assert (ssize < 0) as Hs by (unfold ssize; nia).
    split; [unfold ssize; nia|]. split; [intros; contradiction|].
    unfold b. destruct (Z.ltb_spec 0 ssize), (Z.ltb_spec ssize 0); try lia.
    destruct su; cbn [andb orb negb]; lia.
  - cbn. split; [reflexivity|]. split; [|destruct su; reflexivity].
    intros _. split; [destruct su|]; reflexivity.
  - assert (nlimbs (Z.abs S) <> 0%nat) as Hnl
      by (rewrite nlimbs_pos by lia; discriminate).
    assert (0 < ssize) as Hs by (unfold ssize; nia).
    split; [unfold ssize; nia|]. split; [intros; contradiction|].
    unfold b. destruct (Z.ltb_spec 0 ssize), (Z.ltb_spec ssize 0); try lia.
    destruct su; cbn [andb orb negb]; lia.
Qed.
(** ** [zz_sqrtrem], the outputs over the input included *)

Lemma set_negative_same z : set_negative (negative z) z = z.
Proof. now destruct z. Qed.

(** The remainder written over the input, [w == u]: GMP allows [r2p] to be
    [sp]. *)
Lemma zz_sqrtrem_rem_over fuel m u v zu zv :
  u <> v -> get m u = Some zu -> get m v = Some zv ->
  canonical zu -> length (digits zv) = alloc zv -> negative zu = false ->
  exists m' zv' zw',
    zz_sqrtrem_rec (S fuel) u v (Some u) m = Some (ZZ_OK, m')
    /\ get m' v = Some zv' /\ get m' u = Some zw'
    /\ length (objs m') = length (objs m)
    /\ (forall p, p <> v -> p <> u -> get m' p = get m p)
    /\ canonical zv' /\ canonical zw'
    /\ negative zv' = false /\ negative zw' = false
    /\ (mag zv', mag zw') = Z.sqrtrem (mag zu).
Proof.
  intros Huv Hu Hv Hc Hlv Hneg.
  pose proof Hc as ((Hlen & Hcap & Hrange) & _ & Htop).
  cbn [zz_sqrtrem_rec]. mstep ISNEG_run. rewrite Hneg.
  mstep SETNEG_run. mstep get_size_run.
  destruct (Nat.eqb_spec (size zu) 0) as [Hz|Hnz].
  - mstep put_size_run. mstep put_size_run. mstep SETNEG_run. mret.
    eexists _, _, _. split; [reflexivity|].
    split; [mget|]. split; [mget|].
    split; [unfold upd; cbn; now rewrite !list_set_length|].
    split; [intros p Hp1 Hp2; now rewrite !get_upd_other by auto|].
    assert (mag zu = 0) as -> by (now apply mag_zero_size).
    repeat split; cbn; auto; try lia; constructor.
  - destruct (Nat.eqb_spec u v) as [|_]; [congruence|].
    set (n := size zu) in *. set (h := ((n + 1) / 2)%nat).
    set (m1 := upd m v (set_negative false zv)).
    destruct (zz_resize_run m1 v (set_negative false zv) h)
      as (m2 & z2 & Hr2 & Hw2 & Hz2); [unfold m1; mget | exact Hlv |].
    unfold guard. mstep Hr2.
    assert (get m2 u = Some zu) as Hgu2 by (unfold m1 in *; mget).
    assert (get m2 v = Some z2) as Hgv2 by (unfold m1 in *; mget).
    mstep SETNEG_run.
    assert (set_negative false zu = zu) as ->
      by (rewrite <- Hneg; apply set_negative_same).
    rewrite (upd_same m2 u zu Hgu2).
    mstep get_size_run. fold n.
    destruct (zz_resize_run m2 u zu n Hgu2 Hlen)
      as (m4 & z4 & Hr4 & Hw4 & Hz4).
    mstep Hr4.
    assert (get m4 v = Some z2) as Hgv4 by mget.
    assert (get m4 u = Some z4) as Hgw4 by mget.
    pose proof Hz2 as (Hs2 & Hn2 & Hl2 & Hcap2 & Hpre2).
    pose proof Hz4 as (Hs4 & Hn4 & Hl4 & Hcap4 & Hpre4).
    mstep get_size_run. rewrite Hs4.
    mstep mpn_load0_run.
    rewrite (resized_prefix n zu z4 n Hz4) by lia.
    unfold mpn_sqrtrem.
    destruct (Z.eqb_spec (top (firstn n (digits zu))) 0) as [E|_];
      [now elim (Htop Hnz)|].
    change (mpn_val (firstn n (digits zu))) with (mag zu).
    assert (length (firstn n (digits zu)) = n) as ->
      by (apply (firstn_size_length zu (proj1 Hc))).
    fold h.
    pose proof (canonical_digits_bound zu Hc Hnz) as Hb. fold n in Hb.
    pose proof (BASE_pow_pos (n - 1)) as Hpn.
    pose proof (Z.sqrtrem_spec (mag zu) ltac:(lia)) as Hsq.
    pose proof (Z.sqrtrem_sqrt (mag zu)) as Hsq1.
    destruct (Z.sqrtrem (mag zu)) as [r k] eqn:Esq.
    cbn [fst] in Hsq1. subst r.
    pose proof (sqrt_limbs_bound (mag zu) n ltac:(lia) Hb) as Hsb.
    fold h in Hsb.
    destruct Hsq as [Hsq Hk2].
    assert (0 <= k < Bpow n) as Hkb by nia.
    pose proof (nlimbs_le k n Hkb) as Hnk.
    mstep mpn_store0_run. 2: { rewrite limbs_length. lia. }
    mstep mpn_store0_run. 2: { rewrite limbs_length. lia. }
    mstep put_size_run. mret.
    rewrite !limbs_length.
    eexists _, _, _. split; [reflexivity|].
    split; [mget|]. split; [mget|].
    split.
    { unfold upd; cbn. rewrite !list_set_length.
      rewrite (writes_length _ _ _ _ Hw4), (writes_length _ _ _ _ Hw2).
      unfold m1, upd; cbn. now rewrite list_set_length. }
    split.
    { intros p Hp1 Hp2. rewrite !get_upd_other by auto.
      rewrite (writes_other _ _ _ _ p Hw4) by auto.
      rewrite (writes_other _ _ _ _ p Hw2) by auto. unfold m1.
      now rewrite get_upd_other by auto. }
    assert (h <> 0)%nat as Hh0.
    { unfold h. pose proof (Nat.div_mod_eq (n + 1) 2).
      pose proof (Nat.mod_upper_bound (n + 1) 2). lia. }
    assert (canonical
              (set_digits (limbs h (Z.sqrt (mag zu)) ++ skipn h (digits z2)) z2)
            /\ mag (set_digits (limbs h (Z.sqrt (mag zu))
                                ++ skipn h (digits z2)) z2)
               = Z.sqrt (mag zu)) as [Hcv Hmv].
    { apply canonical_of_limbs with (n := h) (b := false);
        cbn [size negative digits alloc set_digits set_size].
      - exact Hs2.
      - rewrite Hn2. destruct (Nat.eqb_spec h 0); [lia | reflexivity].
      - rewrite length_app, limbs_length, length_skipn. lia.
      - lia.
      - apply firstn_app_exact, limbs_length.
      - intros _. exact Hsb.
      - intros E. lia. }
    assert (canonical
              (set_size (nlimbs k)
                 (set_digits (limbs (nlimbs k) k
                              ++ skipn (nlimbs k) (digits z4)) z4))
            /\ mag (set_size (nlimbs k)
                      (set_digits (limbs (nlimbs k) k
                                   ++ skipn (nlimbs k) (digits z4)) z4))
               = k) as [Hcw Hmw].
    { apply canonical_of_limbs with (n := nlimbs k) (b := false);
        cbn [size negative digits alloc set_digits set_size].
      - reflexivity.
      - rewrite Hn4, Hneg. destruct (Nat.eqb_spec n 0); reflexivity.
      - rewrite length_app, limbs_length, length_skipn. lia.
      - lia.
      - apply firstn_app_exact, limbs_length.
      - intros Hk0. destruct (Z.eq_dec k 0) as [->|Hk1].
        + now elim Hk0.
        + split; [apply nlimbs_lower; lia | apply nlimbs_upper; lia].
      - intros Hk0. split; auto. destruct (Z.eq_dec k 0); auto.
        rewrite nlimbs_pos in Hk0 by lia. lia. }
    split; [exact Hcv|]. split; [exact Hcw|].
    split.
    { cbn [negative set_digits]. rewrite Hn2.
      destruct (Nat.eqb_spec h 0); [lia | reflexivity]. }
    split.
    { cbn [negative set_digits set_size]. rewrite Hn4, Hneg.
      destruct (Nat.eqb_spec n 0); reflexivity. }
    now rewrite Hmv, Hmw.
Qed.

Lemma sqrtrem_parts U r k :
  0 <= U -> (r, k) = Z.sqrtrem U -> r = Z.sqrt U /\ k = U - Z.sqrt U ^ 2.
Proof.
  intros HU E. pose proof (Z.sqrtrem_spec U HU) as Hs.
  pose proof (Z.sqrtrem_sqrt U) as H1.
  rewrite <- E in Hs, H1. cbn [fst] in H1. subst r. split; [reflexivity|].
  lia.
Qed.

Lemma frame_of_gets S m m' :
  length (objs m') = length (objs m) ->
  (forall p, ~ In p S -> get m' p = get m p) -> frame S m m'.
Proof. intros Hl Hg. split; [exact Hl | exact Hg]. Qed.

(** [zz_sqrtrem] on an input that is not the root object; the remainder may
    go over the input. *)
Lemma zz_sqrtrem_direct fuel m u v w zu zv :
  u <> v -> get m u = Some zu -> get m v = Some zv ->
  canonical zu -> length (digits zv) = alloc zv -> negative zu = false ->
  (forall p, w = Some p ->
     p <> v /\ exists zw, get m p = Some zw /\ length (digits zw) = alloc zw) ->
  exists m' zv',
    zz_sqrtrem_rec (S fuel) u v w m = Some (ZZ_OK, m')
    /\ get m' v = Some zv' /\ canonical zv' /\ negative zv' = false
    /\ mag zv' = Z.sqrt (mag zu)
    /\ frame (v :: olist w) m m'
    /\ forall p, w = Some p ->
         exists zw',
           get m' p = Some zw' /\ canonical zw' /\ negative zw' = false
           /\ mag zw' = mag zu - Z.sqrt (mag zu) ^ 2.
Proof.
  intros Huv Hu Hv Hc Hlv Hneg Hw.
  pose proof (mag_nonneg zu (proj1 Hc)) as HU.
  destruct w as [p|].
  - destruct (Hw p eq_refl) as (Hpv & zw & Hgw & Hlw).
    assert (exists m' zv' zw',
      zz_sqrtrem_rec (S fuel) u v (Some p) m = Some (ZZ_OK, m')
      /\ get m' v = Some zv' /\ get m' p = Some zw'
      /\ length (objs m') = length (objs m)
      /\ (forall q, q <> v -> q <> p -> get m' q = get m q)
      /\ canonical zv' /\ canonical zw'
      /\ negative zv' = false /\ negative zw' = false
      /\ (mag zv', mag zw') = Z.sqrtrem (mag zu))
      as (m' & zv' & zw' & Hrun & Hgv' & Hgw' & Hlen & Hoth & Hcv & Hcw
          & Hnv & Hnw & Hval).
    { destruct (Nat.eq_dec p u) as [->|Hpu].
      - now apply (zz_sqrtrem_rem_over fuel m u v zu zv).
      - now apply (zz_sqrtrem_rem_spec fuel m u v p zu zv zw). }
    destruct (sqrtrem_parts _ _ _ HU Hval) as [Er Ek].
    exists m', zv'. repeat (split; [assumption|]). split.
    + apply frame_of_gets; [exact Hlen|].
      intros q Hq. apply Hoth; intros ->; apply Hq; cbn; auto.
    + intros p' [= <-]. exists zw'. auto.
  - destruct (zz_sqrtrem_root_spec fuel m u v zu zv)
      as (m' & zv' & Hrun & Hw' & Hcv & Hnv & Hval); auto.
    exists m', zv'. split; [exact Hrun|].
    split; [eapply writes_get; eauto|].
    repeat (split; [assumption|]). split.
    + eapply frame_incl; [|apply (writes_frame _ _ _ _ Hw')].
      intros q [<-|[]]. left. reflexivity.
    + intros p [=].
Qed.

Lemma same_number_mag a b : same_number a b -> mag a = mag b.
Proof. intros (Hs & _ & Hd). unfold mag. now rewrite Hd. Qed.

(** [zz_sqrtrem] with the root written over the input, [u == v]: the input
    is copied to a temporary, which is the input of the second call. *)
Lemma zz_sqrtrem_in_place m v w zu :
  get m v = Some zu -> canonical zu -> negative zu = false ->
  (forall p, w = Some p ->
     p <> v /\ exists zw, get m p = Some zw /\ length (digits zw) = alloc zw) ->
  exists m' zv',
    zz_sqrtrem_rec 2 v v w m = Some (ZZ_OK, m')
    /\ get m' v = Some zv' /\ canonical zv' /\ negative zv' = false
    /\ mag zv' = Z.sqrt (mag zu)
    /\ frame (v :: olist w) m m'
    /\ forall p, w = Some p ->
         exists zw',
           get m' p = Some zw' /\ canonical zw' /\ negative zw' = false
           /\ mag zw' = mag zu - Z.sqrt (mag zu) ^ 2.
Proof.
  intros Hu Hc Hneg Hw.
  pose proof Hc as ((Hlen & Hcap & Hrange) & _ & Htop).
  assert (set_negative false zu = zu) as Esn
    by (rewrite <- Hneg; apply set_negative_same).
  remember 1%nat as f1 eqn:Ef.
  cbn [zz_sqrtrem_rec]. mstep ISNEG_run. rewrite Hneg.
  mstep SETNEG_run. rewrite Esn, (upd_same m v zu Hu).
  mstep get_size_run.
  destruct (Nat.eqb_spec (size zu) 0) as [Hz|Hnz].
  - assert (mag zu = 0) as EU by (now apply mag_zero_size).
    rewrite EU. change (Z.sqrt 0) with 0. change (0 - 0 ^ 2) with 0.
    assert (forall z, length (digits z) = alloc z ->
              canonical (set_negative false (set_size 0 z))
              /\ mag (set_negative false (set_size 0 z)) = 0) as Hzero.
    { intros z Hl. repeat split; cbn; auto; try lia; constructor. }
    mstep put_size_run.
    destruct w as [p|].
    + destruct (Hw p eq_refl) as (Hpv & zw & Hgw & Hlw).
      mstep put_size_run. mstep SETNEG_run. mret.
      eexists _, _. split; [reflexivity|].
      split; [mget|].
      rewrite <- Esn at 1 2 3.
      split; [apply (Hzero zu Hlen)|]. split; [reflexivity|].
      split; [apply (Hzero zu Hlen)|]. split.
      * apply frame_upd; [right; left; reflexivity|].
        apply frame_upd; [left; reflexivity|]. apply frame_refl.
      * intros p' [= <-]. eexists. split; [mget|].
        split; [apply (Hzero zw Hlw)|]. split; [reflexivity|].
        apply (Hzero zw Hlw).
    + mret. eexists _, _. split; [reflexivity|].
      split; [mget|].
      rewrite <- Esn at 1 2 3.
      split; [apply (Hzero zu Hlen)|]. split; [reflexivity|].
      split; [apply (Hzero zu Hlen)|]. split.
      * apply frame_upd; [left; reflexivity|]. apply frame_refl.
      * intros p [=].
  - rewrite Nat.eqb_refl.
    set (tmp := length (objs m)).
    destruct (temp_copy m v zu Hu Hc)
      as (m2 & zt & Hr2 & Ht2 & Hs2 & Hc2 & Hf2).
    fold tmp in Hr2, Ht2, Hf2.
    pose proof (get_fresh m v zu Hu) as Hnv. fold tmp in Hnv.
    assert (get m2 v = Some zu) as Hv2.
    { apply (frame_get_old [tmp] m); auto. intros [E|[]]; congruence. }
    assert (negative zt = false) as Hnt
      by (destruct Hs2 as (_ & E & _); congruence).
    pose proof (same_number_mag _ _ Hs2) as Hmt.
    assert (forall p, w = Some p ->
              p <> v /\ exists zw,
                get m2 p = Some zw /\ length (digits zw) = alloc zw) as Hw2.
    { intros p Ep. destruct (Hw p Ep) as (Hpv & zw & Hgw & Hlw).
      split; [exact Hpv|]. exists zw. split; [|exact Hlw].
      apply (frame_get_old [tmp] m); auto.
      intros [E|[]]. symmetry in E. revert E. exact (get_fresh m p zw Hgw). }
    destruct (zz_sqrtrem_direct 0 m2 tmp v w zt zu (not_eq_sym Hnv) Ht2 Hv2
                Hc2 Hlen Hnt Hw2)
      as (m3 & zv' & Hr3 & Hgv3 & Hcv & Hnv' & Hmv & Hf3 & Hrem3).
    rewrite Hmt in Hmv, Hrem3.
    assert (get m3 tmp = Some zt) as Ht3.
    { rewrite (frame_get _ _ _ tmp Hf3); [exact Ht2|].
      intros [E|Hin]; [now apply Hnv|].
      destruct w as [p|]; [|exact Hin].
      destruct Hin as [E|[]]. destruct (Hw p eq_refl) as (_ & zw & Hgw & _).
      revert E. exact (get_fresh m p zw Hgw). }
    assert (forall q z, get m q = Some z -> (q < tmp)%nat) as Hlt
      by (intros q z Hq; apply (get_valid m q z Hq)).
    exists (pop tmp (upd m3 tmp zz0)), zv'. split.
    { apply with_local_run. fold tmp. unfold guard.
      unfold c_or in Hr2. rewrite bind_bind.
      erewrite bind_run by (eapply zz_init_run; apply get_push_new).
      erewrite bind_run in Hr2 by (eapply zz_init_run; apply get_push_new).
      cbn [is_err] in Hr2 |- *. mstep Hr2. subst f1. mstep Hr3.
      mstep zz_clear_run. reflexivity. }
    split.
    { rewrite get_pop by (eapply Hlt; eauto).
      rewrite get_upd_other; [exact Hgv3|]. now apply not_eq_sym. }
    repeat (split; [assumption|]). split.
    + apply pop_frame. fold tmp.
      apply frame_upd; [left; reflexivity|].
      eapply frame_trans.
      * eapply frame_incl; [|exact Hf2]. intros q [<-|[]]. left. reflexivity.
      * eapply frame_incl; [|exact Hf3]. intros q Hq. right. exact Hq.
    + intros p Ep. destruct (Hrem3 p Ep) as (zw' & Hgw' & Hrest).
      destruct (Hw p Ep) as (_ & zw & Hgw & _).
      exists zw'. split; [|exact Hrest].
      rewrite get_pop by (eapply Hlt; eauto).
      rewrite get_upd_other; [exact Hgw'|].
      apply not_eq_sym. exact (get_fresh m p zw Hgw).
Qed.

(** C7. [zz_sqrtrem (u, v, w)] for [u] in canonical form, a root object [v]
    and an optional remainder object [w] other than [v]; [v] may be [u]
    itself (the root replaces the input) and so may [w] (the remainder
    replaces it).  A negative [u] gives [ZZ_VAL] and the store is untouched.
    A non-negative [u] gives [ZZ_OK] with [v] the integer square root of the
    value [u] had, in canonical form, and, when [w] is passed, [w] the
    remainder, in canonical form, with [v^2 + w = u] and [0 <= w <= 2 v];
    without [w] the root is the same.  No other object changes. *)
Theorem zz_sqrtrem_correct (m : mem) (u v : ptr) (w : option ptr)
    (zu zv : zz_t) :
  get m u = Some zu -> get m v = Some zv ->
  canonical zu -> length (digits zv) = alloc zv ->
  (forall p, w = Some p ->
     p <> v
     /\ exists zw, get m p = Some zw /\ length (digits zw) = alloc zw) ->
  if zz_val zu <? 0
  then zz_sqrtrem u v w m = Some (ZZ_VAL, m)
  else
    exists m' zv',
      zz_sqrtrem u v w m = Some (ZZ_OK, m')
      /\ get m' v = Some zv' /\ canonical zv'
      /\ 0 <= zz_val zv'
      /\ zz_val zv' ^ 2 <= zz_val zu < (zz_val zv' + 1) ^ 2
      /\ (forall p, w = Some p ->
            exists zw',
              get m' p = Some zw' /\ canonical zw'
              /\ zz_val zv' ^ 2 + zz_val zw' = zz_val zu
              /\ 0 <= zz_val zw' <= 2 * zz_val zv')
      /\ length (objs m') = length (objs m)
      /\ (forall q, q <> v -> w <> Some q -> get m' q = get m q).
Proof.
  intros Hu Hv Hc Hlv Hw.
  destruct (Z.ltb_spec (zz_val zu) 0) as [Hlt|Hnn].
  - unfold zz_sqrtrem. cbn [zz_sqrtrem_rec].
    mstep ISNEG_run. now rewrite (canonical_neg zu Hc Hlt).
  - pose proof (canonical_nonneg zu Hc Hnn) as Hneg.
    rewrite (zz_val_nonneg zu Hneg) in *.
    pose proof (Z.sqrt_spec (mag zu) Hnn) as Hsq. cbv zeta in Hsq.
    pose proof (Z.sqrt_nonneg (mag zu)) as Hs0.
    assert (exists m' zv',
      zz_sqrtrem u v w m = Some (ZZ_OK, m')
      /\ get m' v = Some zv' /\ canonical zv' /\ negative zv' = false
      /\ mag zv' = Z.sqrt (mag zu)
      /\ frame (v :: olist w) m m'
      /\ forall p, w = Some p ->
           exists zw',
             get m' p = Some zw' /\ canonical zw' /\ negative zw' = false
             /\ mag zw' = mag zu - Z.sqrt (mag zu) ^ 2)
      as (m' & zv' & Hrun & Hgv & Hcv & Hnv & Hmv & Hf & Hrem).
    { unfold zz_sqrtrem. destruct (Nat.eq_dec u v) as [E|E].
      - subst v. now apply (zz_sqrtrem_in_place m u w zu).
      - now apply (zz_sqrtrem_direct 1 m u v w zu zv). }
    exists m', zv'. rewrite (zz_val_nonneg zv' Hnv), Hmv.
    split; [exact Hrun|]. split; [exact Hgv|]. split; [exact Hcv|].
    split; [exact Hs0|]. split; [nia|]. split; [|split].
    + intros p Ep. destruct (Hrem p Ep) as (zw' & Hgw & Hcw & Hnw & Hmw).
      exists zw'. rewrite (zz_val_nonneg zw' Hnw), Hmw.
      split; [exact Hgw|]. split; [exact Hcw|]. nia.
    + apply Hf.
    + intros q Hqv Hqw. apply (frame_get _ _ _ q Hf).
      intros [E|Hin]; [now apply Hqv|].
      destruct w as [p|]; [|exact Hin].
      destruct Hin as [E|[]]. apply Hqw. now rewrite E.
Qed.

(** The store of the square root examples: 17, a fresh object and -1. *)
Definition mem_sqrt : mem :=
  mk_mem [mk_zz false 1 1 [17]; mk_zz false 0 0 []; mk_zz true 1 1 [1]]
         [3; 3; 3].

(** The square root of -1; the square root of 17 written over it, with the
    remainder in another object; and its remainder written over it, with the
    root in another object. *)
Lemma zz_sqrtrem_correct_witness :
  zz_sqrtrem 2 1 (Some 0%nat) mem_sqrt = Some (ZZ_VAL, mem_sqrt)
  /\ (exists m' zv',
        zz_sqrtrem 0 0 (Some 1%nat) mem_sqrt = Some (ZZ_OK, m')
        /\ get m' 0 = Some zv' /\ canonical zv'
        /\ 0 <= zz_val zv'
        /\ zz_val zv' ^ 2 <= zz_val (mk_zz false 1 1 [17])
           < (zz_val zv' + 1) ^ 2
        /\ (forall p, Some 1%nat = Some p ->
              exists zw',
                get m' p = Some zw' /\ canonical zw'
                /\ zz_val zv' ^ 2 + zz_val zw'
                   = zz_val (mk_zz false 1 1 [17])
                /\ 0 <= zz_val zw' <= 2 * zz_val zv')
        /\ length (objs m') = length (objs mem_sqrt)
        /\ (forall q, q <> 0%nat -> Some 1%nat <> Some q ->
              get m' q = get mem_sqrt q))
  /\ (exists m' zv',
        zz_sqrtrem 0 1 (Some 0%nat) mem_sqrt = Some (ZZ_OK, m')
        /\ get m' 1 = Some zv' /\ canonical zv'
        /\ 0 <= zz_val zv'
        /\ zz_val zv' ^ 2 <= zz_val (mk_zz false 1 1 [17])
           < (zz_val zv' + 1) ^ 2
        /\ (forall p, Some 0%nat = Some p ->
              exists zw',
                get m' p = Some zw' /\ canonical zw'
                /\ zz_val zv' ^ 2 + zz_val zw'
                   = zz_val (mk_zz false 1 1 [17])
                /\ 0 <= zz_val zw' <= 2 * zz_val zv')
        /\ length (objs m') = length (objs mem_sqrt)
        /\ (forall q, q <> 1%nat -> Some 0%nat <> Some q ->
              get m' q = get mem_sqrt q)).
Proof.
  split; [|split].
  - apply (zz_sqrtrem_correct mem_sqrt 2%nat 1%nat (Some 0%nat)
             (mk_zz true 1 1 [1]) (mk_zz false 0 0 [])).
    + reflexivity.
    + reflexivity.
    + apply canonicalb_spec. reflexivity.
    + reflexivity.
    + intros p [= <-]. split; [discriminate|].
      exists (mk_zz false 1 1 [17]). split; reflexivity.
  - apply (zz_sqrtrem_correct mem_sqrt 0%nat 0%nat (Some 1%nat)
             (mk_zz false 1 1 [17]) (mk_zz false 1 1 [17])).
    + reflexivity.
    + reflexivity.
    + apply canonicalb_spec. reflexivity.
    + reflexivity.
    + intros p [= <-]. split; [discriminate|].
      exists (mk_zz false 0 0 []). split; reflexivity.
  - apply (zz_sqrtrem_correct mem_sqrt 0%nat 1%nat (Some 0%nat)
             (mk_zz false 1 1 [17]) (mk_zz false 0 0 [])).
    + reflexivity.
    + reflexivity.
    + apply canonicalb_spec. reflexivity.
    + reflexivity.
    + intros p [= <-]. split; [discriminate|].
      exists (mk_zz false 1 1 [17]). split; reflexivity.
Defined.

(** The three calls, run; and the root alone of 17, in place. *)
Example zz_sqrtrem_example :
  zz_sqrtrem 2 1 (Some 0%nat) mem_sqrt = Some (ZZ_VAL, mem_sqrt)
  /\ zz_sqrtrem 0 0 (Some 1%nat) mem_sqrt
     = Some (ZZ_OK,
             mk_mem [mk_zz false 1 1 [4]; mk_zz false 1 1 [1];
                     mk_zz true 1 1 [1]] [3])
  /\ zz_sqrtrem 0 1 (Some 0%nat) mem_sqrt
     = Some (ZZ_OK,
             mk_mem [mk_zz false 1 1 [1]; mk_zz false 1 1 [4];
                     mk_zz true 1 1 [1]] [3; 3])
  /\ zz_sqrtrem 0 0 None mem_sqrt
     = Some (ZZ_OK,
             mk_mem [mk_zz false 1 1 [4]; mk_zz false 0 0 [];
                     mk_zz true 1 1 [1]] [3; 3]).
Proof. repeat split; vm_compute; reflexivity. Qed.
(** * The claims on division *)

(** C1, for the division [zz_div] implements, which is floor division: on
    operands in canonical form of fewer than [ZZ_DIGITS_MAX] digits, a
    divisor that is not zero and two distinct output objects, the call
    returns [ZZ_OK] and leaves [q] and [r] in canonical form with
    [q * v + r = u], where [q = floor (u / v)]: the remainder is zero or has
    the sign of the divisor, and [|r| < |v|].  The outputs may be the
    operands themselves, except that the quotient must not replace an
    operand when the dividend is not zero and has fewer digits than the
    divisor. *)
Theorem zz_div_identity (m : mem) (u v q r : ptr) (zu zv zq zr : zz_t) :
  q <> r ->
  get m u = Some zu -> get m v = Some zv ->
  get m q = Some zq -> get m r = Some zr ->
  canonical zu -> canonical zv ->
  length (digits zq) = alloc zq -> length (digits zr) = alloc zr ->
  Z.of_nat (size zu) < ZZ_DIGITS_MAX -> Z.of_nat (size zv) < ZZ_DIGITS_MAX ->
  zz_val zv <> 0 ->
  (size zv <= size zu)%nat \/ size zu = 0%nat \/ (q <> u /\ q <> v) ->
  exists m' zq' zr',
    zz_div u v (Some q) (Some r) m = Some (ZZ_OK, m')
    /\ get m' q = Some zq' /\ get m' r = Some zr'
    /\ canonical zq' /\ canonical zr'
    /\ zz_val zq' * zz_val zv + zz_val zr' = zz_val zu
    /\ zz_val zq' = zz_val zu / zz_val zv
    /\ (zz_val zr' = 0 \/ Z.sgn (zz_val zr') = Z.sgn (zz_val zv))
    /\ Z.abs (zz_val zr') < Z.abs (zz_val zv).
Proof.
  intros Hqr Hu Hv Hq Hr Hcu Hcv Hlq Hlr Hmu Hmv Hv0 Hgood.
  destruct (zz_div_qr_any 1 m u v q r zu zv zq zr)
    as (m' & zq' & zr' & H1 & H2 & H3 & H4 & H5 & H6 & H7 & H8); auto.
  specialize (H8 Hgood).
  exists m', zq', zr'. unfold zz_div.
  repeat (split; [assumption|]).
  rewrite H7, H8.
  pose proof (Z.div_mod (zz_val zu) (zz_val zv) Hv0) as Hdm.
  pose proof (Z.mod_pos_bound (zz_val zu) (zz_val zv)) as Hp.
  pose proof (Z.mod_neg_bound (zz_val zu) (zz_val zv)) as Hn.
  split; [lia|]. split; [reflexivity|]. split; lia.
Qed.

Lemma zz_div_identity_witness :
  exists m' zq' zr',
    zz_div 0 1 (Some 0%nat) (Some 1%nat) mem_div1 = Some (ZZ_OK, m')
    /\ get m' 0 = Some zq' /\ get m' 1 = Some zr'
    /\ canonical zq' /\ canonical zr'
    /\ zz_val zq' * zz_val (mk_zz false 1 1 [7]) + zz_val zr'
       = zz_val (mk_zz true 2 2 [3; 1])
    /\ zz_val zq'
       = zz_val (mk_zz true 2 2 [3; 1]) / zz_val (mk_zz false 1 1 [7])
    /\ (zz_val zr' = 0
        \/ Z.sgn (zz_val zr') = Z.sgn (zz_val (mk_zz false 1 1 [7])))
    /\ Z.abs (zz_val zr') < Z.abs (zz_val (mk_zz false 1 1 [7])).
Proof.
  apply (zz_div_identity mem_div1 0%nat 1%nat 0%nat 1%nat
           (mk_zz true 2 2 [3; 1]) (mk_zz false 1 1 [7])
           (mk_zz true 2 2 [3; 1]) (mk_zz false 1 1 [7])).
  - discriminate.
  - reflexivity.
  - reflexivity.
  - reflexivity.
  - reflexivity.
  - apply canonicalb_spec. reflexivity.
  - apply canonicalb_spec. reflexivity.
  - reflexivity.
  - reflexivity.
  - reflexivity.
  - reflexivity.
  - discriminate.
  - left. simpl. lia.
Defined.

(** The claim as stated fails: -7 divided by 2 gives the quotient -4, not
    the truncated quotient -3, and the remainder 1, which is not zero and
    has the sign of the divisor, not of the dividend. *)
Lemma zz_div_not_truncating :
  zz_val (mk_zz true 1 1 [7]) = -7 /\ zz_val (mk_zz false 1 1 [2]) = 2
  /\ zz_div 0 1 (Some 2%nat) (Some 3%nat) mem_div
     = Some (ZZ_OK,
             mk_mem [mk_zz true 1 1 [7]; mk_zz false 1 1 [2];
                     mk_zz true 2 1 [4; 0]; mk_zz false 1 1 [1]] [])
  /\ zz_val (mk_zz true 2 1 [4; 0]) = -4 /\ zz_val (mk_zz false 1 1 [1]) = 1
  /\ Z.quot (-7) 2 = -3 /\ Z.rem (-7) 2 = -1
  /\ ~ (zz_val (mk_zz false 1 1 [1]) = 0
        \/ Z.sgn (zz_val (mk_zz false 1 1 [1]))
           = Z.sgn (zz_val (mk_zz true 1 1 [7]))).
Proof.
  do 7 (split; [vm_compute; reflexivity|]).
  intros [H|H]; vm_compute in H; discriminate.
Qed.
(** * The claim on the extended gcd *)

(** -5, 0 and three objects for the results. *)
Definition mem_gcdx : mem :=
  mk_mem [mk_zz true 1 1 [5]; mk_zz false 0 0 []; mk_zz false 0 0 [];
          mk_zz false 0 0 []; mk_zz false 0 0 []] [7; 7; 7; 7].

(** C5.  The extended gcd of -5 and 0 with the gcd written over the first
    operand, [zz_gcdext (u, v, u, s, t)]: the call returns [ZZ_OK] with
    [g = 5], [s = 1] and [t = 0], and [-5 * 1 + 0 * 0] is not 5.  The branch
    for a zero operand writes [g] before it reads the sign of [u] for [s].
    With the gcd in an object of its own the same operands give [s = -1]. *)
Theorem zz_gcdext_gcd_over_operand :
  zz_val (mk_zz true 1 1 [5]) = -5 /\ zz_val (mk_zz false 0 0 []) = 0
  /\ zz_gcdext 1 0 1 (Some 0%nat) (Some 3%nat) (Some 4%nat) mem_gcdx
     = Some (ZZ_OK,
             mk_mem [mk_zz false 1 1 [5]; mk_zz false 0 0 [];
                     mk_zz false 0 0 []; mk_zz false 1 1 [1];
                     mk_zz false 0 0 []] [7; 7; 7])
  /\ zz_val (mk_zz false 1 1 [5]) = 5 /\ zz_val (mk_zz false 1 1 [1]) = 1
  /\ (-5) * 1 + 0 * 0 <> 5
  /\ zz_gcdext 1 0 1 (Some 2%nat) (Some 3%nat) (Some 4%nat) mem_gcdx
     = Some (ZZ_OK,
             mk_mem [mk_zz true 1 1 [5]; mk_zz false 0 0 [];
                     mk_zz false 1 1 [5]; mk_zz true 1 1 [1];
                     mk_zz false 0 0 []] [7; 7])
  /\ zz_val (mk_zz true 1 1 [1]) = -1 /\ (-5) * (-1) + 0 * 0 = 5.
Proof. repeat split; try (vm_compute; reflexivity). discriminate. Qed.
